(** * Decoration extraction of the markdown inline editor (src/src/parser.ts)

    A shallow embedding of the decoration engine: the construct handlers, the
    highlight scanner, the decoration collector and the orchestrating
    [MarkdownParser.extractDecorations].

    - A document is a JavaScript string: a sequence of UTF-16 code units,
      modelled as [list N].
    - Offsets are JavaScript numbers holding integers, modelled as [Z].
    - The remark parser ([unified().use(remarkParse).use(remarkGfm)]) is an
      external library.  The engine is parametrised by the function
      [parseAST]; what the proofs need of the trees it returns is stated as an
      explicit contract ([positioned], [conforms]).
    - A handler can fail only by reading a property of an undefined value;
      the handlers are written in a small error monad so that the absence of
      such a failure is a theorem and not a convention. *)

From Stdlib Require Import String Ascii ZArith NArith Bool Lia List.
Import ListNotations.
Open Scope Z_scope.

Set Implicit Arguments.

(* ===================================================================== *)
(** ** JavaScript strings *)
(* ===================================================================== *)

Module Js.

(** A string is its sequence of UTF-16 code units. *)
Definition text := list N.

Definition str (s : string) : text :=
  map N_of_ascii (list_ascii_of_string s).

Definition len (t : text) : Z := Z.of_nat (length t).

(** [t[i]]: the code unit at index [i], or [undefined] (here [None]) when
    [i] is negative or past the end. *)
Definition char_at (t : text) (i : Z) : option N :=
  if i <? 0 then None else nth_error t (Z.to_nat i).

(** [t[i] === c] for a one-character literal [c]. *)
Definition char_is (t : text) (i : Z) (c : N) : bool :=
  match char_at t i with
  | Some d => N.eqb d c
  | None => false
  end.

Definition clamp (t : text) (i : Z) : Z := Z.max 0 (Z.min i (len t)).

(** [t.substring(a, b)]: both arguments are clamped to [0, length] and
    swapped when the first is the larger. *)
Definition substring (t : text) (a b : Z) : text :=
  let a' := clamp t a in
  let b' := clamp t b in
  let lo := Z.min a' b' in
  let hi := Z.max a' b' in
  firstn (Z.to_nat (hi - lo)) (skipn (Z.to_nat lo) t).

Fixpoint text_eqb (a b : text) : bool :=
  match a, b with
  | [], [] => true
  | x :: a', y :: b' => N.eqb x y && text_eqb a' b'
  | _, _ => false
  end.

Fixpoint take_while (p : N -> bool) (t : text) : text :=
  match t with
  | [] => []
  | c :: t' => if p c then c :: take_while p t' else []
  end.

Fixpoint drop_while (p : N -> bool) (t : text) : text :=
  match t with
  | [] => []
  | c :: t' => if p c then drop_while p t' else t
  end.

(** The class [\s] of a regular expression, which is also the set of code
    units removed by [trim()]: WhiteSpace and LineTerminator of ECMAScript. *)
Definition isWhitespace (c : N) : bool :=
  ((9 <=? c) && (c <=? 13) || (c =? 32) || (c =? 160) || (c =? 5760)
   || (8192 <=? c) && (c <=? 8202) || (c =? 8232) || (c =? 8233)
   || (c =? 8239) || (c =? 8287) || (c =? 12288) || (c =? 65279))%N.

(** [t.trim()] *)
Definition trim (t : text) : text :=
  rev (drop_while isWhitespace (rev (drop_while isWhitespace t))).

Fixpoint starts_with (p t : text) : bool :=
  match p, t with
  | [], _ => true
  | x :: p', y :: t' => N.eqb x y && starts_with p' t'
  | _ :: _, [] => false
  end.

(** First index [i >= 0] of [t] at which [p] occurs, shifted by [base]. *)
Fixpoint find_from (p t : text) (base : Z) : option Z :=
  if starts_with p t then Some base
  else match t with
       | [] => None
       | _ :: t' => find_from p t' (base + 1)
       end.

(** [t.indexOf(p, from)], with [None] for [-1]. *)
Definition indexOf (t p : text) (from : Z) : option Z :=
  let k := clamp t from in
  find_from p (skipn (Z.to_nat k) t) k.

(** Code units of the delimiters the handlers look for. *)
Definition TAB : N := 9.
Definition LF : N := 10.
Definition CR : N := 13.
Definition SPACE : N := 32.
Definition BANG : N := 33.
Definition HASH : N := 35.
Definition LPAREN : N := 40.
Definition RPAREN : N := 41.
Definition STAR : N := 42.
Definition LT : N := 60.
Definition EQUALS : N := 61.
Definition GT : N := 62.
Definition LBRACKET : N := 91.
Definition RBRACKET : N := 93.
Definition UNDERSCORE : N := 95.
Definition BACKTICK : N := 96.
Definition TILDE : N := 126.

(** The loop [while (pos < limit && cond(t[pos])) pos++].  It runs at most
    [limit - pos] times, which is the fuel given to [advance]: when the
    fuel is used up [pos = limit] and the loop condition fails. *)
Fixpoint advance (fuel : nat) (cond : option N -> bool) (t : text) (pos : Z) : Z :=
  match fuel with
  | O => pos
  | S fuel' => if cond (char_at t pos) then advance fuel' cond t (pos + 1) else pos
  end.

Definition skip_forward (cond : option N -> bool) (t : text) (pos limit : Z) : Z :=
  advance (Z.to_nat (limit - pos)) cond t pos.

(** The loop [while (pos > limit && cond(t[pos - 1])) pos--]. *)
Fixpoint retreat (fuel : nat) (cond : option N -> bool) (t : text) (pos : Z) : Z :=
  match fuel with
  | O => pos
  | S fuel' => if cond (char_at t (pos - 1)) then retreat fuel' cond t (pos - 1) else pos
  end.

Definition skip_backward (cond : option N -> bool) (t : text) (pos limit : Z) : Z :=
  retreat (Z.to_nat (pos - limit)) cond t pos.

(** [c === d] and [c !== d] on a value that may be [undefined]. *)
Definition same (d : N) (c : option N) : bool :=
  match c with Some x => N.eqb x d | None => false end.

Definition differs (d : N) (c : option N) : bool := negb (same d c).

End Js.

Import Js.

(* ===================================================================== *)
(** ** Failure *)
(* ===================================================================== *)

(** The only exception the engine could raise by itself is the [TypeError]
    of reading a property of [undefined].  Reading an offset that is
    [undefined] does not throw in JavaScript, but the arithmetic that follows
    is no longer on integers; the model stops there with the same result, so
    that [Ok] always stands for a run on integers that did not throw. *)
Inductive Result (A : Type) : Type :=
| Ok (a : A)
| TypeError.
Arguments TypeError {A}.

Definition bind {A B} (m : Result A) (f : A -> Result B) : Result B :=
  match m with
  | Ok a => f a
  | TypeError => TypeError
  end.

Definition ret {A} (a : A) : Result A := Ok a.

Notation "x <- m ;; k" := (bind m (fun x => k))
  (at level 61, m at next level, right associativity).

(* ===================================================================== *)
(** ** Data model *)
(* ===================================================================== *)

(** [DecorationRange["type"]] *)
Inductive DecorationType :=
| hide | bold | italic | boldItalic | strikethrough | code | codeBlock
| blockquote | heading | heading1 | heading2 | heading3 | heading4
| heading5 | heading6 | link | image | horizontalRule | highlight.

Definition DecorationType_eq_dec (a b : DecorationType) : {a = b} + {a <> b}.
Proof. decide equality. Defined.

Definition DecorationType_eqb (a b : DecorationType) : bool :=
  if DecorationType_eq_dec a b then true else false.

Record DecorationRange := {
  startPos : Z;
  endPos : Z;
  type : DecorationType;
  level : option Z
}.

(** An object literal without a [level] field. *)
Definition range (ty : DecorationType) (s e : Z) : DecorationRange :=
  {| startPos := s; endPos := e; type := ty; level := None |}.

(** The syntax tree of mdast, as far as the engine reads it. *)
Module Mdast.

Inductive NodeType :=
| root | paragraph | textNode
| heading | strong | emphasis | inlineCode | code | blockquote
| thematicBreak | delete | link | image | linkReference | imageReference
| other (name : string).

Definition NodeType_eq_dec (a b : NodeType) : {a = b} + {a <> b}.
Proof. decide equality. apply string_dec. Defined.

Definition NodeType_eqb (a b : NodeType) : bool :=
  if NodeType_eq_dec a b then true else false.

(** [Point.offset] is optional; [None] stands for [undefined] and [null],
    which the engine treats alike. *)
Record Point := { offset : option Z }.

Record Position := { start : Point; end_ : Point }.

(** [position] is optional.  [depth] is the field of a heading ([None]
    elsewhere).  A node without a [children] property has the empty list:
    every place of the engine that reads [children] does the same for an
    absent and for an empty array. *)
Unset Elimination Schemes.
Inductive Node := {
  type : NodeType;
  position : option Position;
  depth : option Z;
  children : list Node
}.
Set Elimination Schemes.

Definition at_ (s e : Z) : option Position :=
  Some {| start := {| offset := Some s |}; end_ := {| offset := Some e |} |}.

End Mdast.

Import Mdast(Node, NodeType, Position, Point).

(* ===================================================================== *)
(** ** Regular expressions of the handlers *)
(* ===================================================================== *)

(** Each pattern is anchored at the start of its input and is matched by a
    function returning the capture groups 1, 2 and 3.  In the comments a
    pattern is written with a blank after a star that precedes a closing
    parenthesis. *)
Module Regex.

Definition Groups := (text * text * text)%type.

Definition is_hash (c : N) : bool := N.eqb c HASH.
Definition is_gt (c : N) : bool := N.eqb c GT.
Definition is_backtick (c : N) : bool := N.eqb c BACKTICK.

Definition after (g : text) (s : text) : text := skipn (length g) s.

(** [/^(\s* )(#{1,6})(\s+)/].  [\s*] takes the whole run of white space (a
    shorter one would have to be followed by [#]); [#{1,6}] must take the
    whole run of [#], which therefore has 1 to 6 elements, because white
    space has to follow; [\s+] is greedy. *)
Definition heading_marker (s : text) : option Groups :=
  let g1 := take_while isWhitespace s in
  let g2 := take_while is_hash (after g1 s) in
  let g3 := take_while isWhitespace (after g2 (after g1 s)) in
  if (1 <=? len g2) && (len g2 <=? 6) && (1 <=? len g3)
  then Some (g1, g2, g3) else None.

(** [/^\s*#{1,6}\s*$/.test(s)] *)
Definition empty_heading (s : text) : bool :=
  let r1 := drop_while isWhitespace s in
  let g := take_while is_hash r1 in
  let r2 := drop_while isWhitespace (after g r1) in
  (1 <=? len g) && (len g <=? 6) && text_eqb r2 [].

(** [/^(\s* )(>+)(\s* )/] *)
Definition blockquote_marker (s : text) : option Groups :=
  let g1 := take_while isWhitespace s in
  let g2 := take_while is_gt (after g1 s) in
  let g3 := take_while isWhitespace (after g2 (after g1 s)) in
  if 1 <=? len g2 then Some (g1, g2, g3) else None.

(** [/^(```+)(.*?)(```+)$/s].  With the [s] flag [.] matches every code
    unit and [$] only the end of the input.  When the input is not made of
    backticks only, group 1 is its leading run of backticks and the lazy
    body stops at the first place from which backticks reach the end,
    which is the start of the trailing run: group 3 is that run.  When the
    input is made of backticks only, group 1 gives back the three that
    group 3 needs. *)
Definition fence (s : text) : option Groups :=
  let n := length s in
  let l := length (take_while is_backtick s) in
  let t := length (take_while is_backtick (rev s)) in
  if Nat.eqb l n then
    if Nat.leb 6 n then Some (firstn (n - 3) s, [], skipn (n - 3) s) else None
  else if Nat.leb 3 l && Nat.leb 3 t then
    Some (firstn l s, firstn (n - t - l) (skipn l s), skipn (n - t) s)
  else None.

(** [/^(D)(.+?)(D)$/s] for a literal delimiter [D]: the input starts and
    ends with [D] and has at least one code unit in between. *)
Definition delimited (d : text) (s : text) : option Groups :=
  let n := length s in
  let k := length d in
  if Nat.leb (k + 1 + k) n && starts_with d s && text_eqb (skipn (n - k) s) d
  then Some (d, firstn (n - k - k) (skipn k s), d) else None.

End Regex.

(* ===================================================================== *)
(** ** Node handlers *)
(* ===================================================================== *)

(** [interface NodeHandler] *)
Record NodeHandler := {
  canHandle : Node -> bool;
  extractDecorations : Node -> text -> Result (list DecorationRange)
}.

(** [abstract class BaseNodeHandler] *)
Module BaseNodeHandler.

Definition hasValidPosition (node : Node) : bool :=
  match Mdast.position node with
  | None => false
  | Some p =>
      match Mdast.offset (Mdast.start p), Mdast.offset (Mdast.end_ p) with
      | Some _, Some _ => true
      | _, _ => false
      end
  end.

(** [node.position.start.offset!] *)
Definition startOffset (node : Node) : Result Z :=
  match Mdast.position node with
  | None => TypeError
  | Some p => match Mdast.offset (Mdast.start p) with
              | Some z => Ok z
              | None => TypeError
              end
  end.

(** [node.position.end.offset!] *)
Definition endOffset (node : Node) : Result Z :=
  match Mdast.position node with
  | None => TypeError
  | Some p => match Mdast.offset (Mdast.end_ p) with
              | Some z => Ok z
              | None => TypeError
              end
  end.

Definition is_type (ty : NodeType) (node : Node) : bool :=
  Mdast.NodeType_eqb (Mdast.type node) ty.

End BaseNodeHandler.

Import BaseNodeHandler.

Module HeadingHandler.

Definition HEADING_MARKER_PATTERN := Regex.heading_marker.

Definition canHandle (node : Node) : bool := is_type Mdast.heading node.

Definition createMarkerDecoration (markerMatch : Regex.Groups) (startOffset : Z)
  : list DecorationRange :=
  let '(g1, g2, g3) := markerMatch in
  let leadingWhitespace := len g1 in
  let markerLength := len g2 in
  let spaceAfterMarker := len g3 in
  let markerStart := startOffset + leadingWhitespace in
  let markerEnd := markerStart + markerLength + spaceAfterMarker in
  [range hide markerStart markerEnd].

(** [headingTypeMap[depth] ?? "heading"] *)
Definition getHeadingType (depth : option Z) : DecorationType :=
  match depth with
  | Some 1 => heading1
  | Some 2 => heading2
  | Some 3 => heading3
  | Some 4 => heading4
  | Some 5 => heading5
  | Some 6 => heading6
  | _ => heading
  end.

Definition createContentDecoration (markerMatch : Regex.Groups)
    (startOffset endOffset : Z) (depth : option Z) : DecorationRange :=
  let '(g1, g2, g3) := markerMatch in
  let leadingWhitespace := len g1 in
  let markerLength := len g2 in
  let spaceAfterMarker := len g3 in
  let markerStart := startOffset + leadingWhitespace in
  let markerEnd := markerStart + markerLength + spaceAfterMarker in
  {| startPos := markerEnd; endPos := endOffset;
     type := getHeadingType depth; level := depth |}.

Definition getContentStart (markerMatch : Regex.Groups) (startOffset : Z) : Z :=
  let '(g1, g2, g3) := markerMatch in
  let leadingWhitespace := len g1 in
  let markerLength := len g2 in
  let spaceAfterMarker := len g3 in
  startOffset + leadingWhitespace + markerLength + spaceAfterMarker.

Definition isEmptyContent (text : text) (contentStart endOffset : Z) : bool :=
  if contentStart >=? endOffset then true
  else
    let content := substring text contentStart endOffset in
    len (trim content) =? 0.

Definition isHeadingEmpty (text : text) (startOffset endOffset : Z) : bool :=
  let headingText := trim (substring text startOffset endOffset) in
  Regex.empty_heading headingText.

Definition createFallbackDecoration (startOffset endOffset : Z)
  : list DecorationRange :=
  [range hide startOffset endOffset].

(** A match of the marker pattern has its three groups: the test
    [isValidMarkerMatch] is the test for a match. *)
Definition extractDecorations (node : Node) (text : text)
  : Result (list DecorationRange) :=
  if negb (hasValidPosition node) then ret []
  else
    startOffset <- startOffset node ;;
    endOffset <- endOffset node ;;
    let headingText := substring text startOffset endOffset in
    match HEADING_MARKER_PATTERN headingText with
    | None =>
        if isHeadingEmpty text startOffset endOffset then ret []
        else ret (createFallbackDecoration startOffset endOffset)
    | Some markerMatch =>
        let contentStart := getContentStart markerMatch startOffset in
        if (contentStart >=? endOffset)
           || isEmptyContent text contentStart endOffset
        then ret []
        else
          ret (createMarkerDecoration markerMatch startOffset
               ++ [createContentDecoration markerMatch startOffset endOffset
                     (Mdast.depth node)])
    end.

Definition handler : NodeHandler :=
  Build_NodeHandler canHandle extractDecorations.

End HeadingHandler.

Module HorizontalRuleHandler.

Definition canHandle (node : Node) : bool := is_type Mdast.thematicBreak node.

Definition extractDecorations (node : Node) (text : text)
  : Result (list DecorationRange) :=
  if negb (hasValidPosition node) then ret []
  else
    startOffset <- startOffset node ;;
    endOffset <- endOffset node ;;
    ret [range hide startOffset endOffset;
         range horizontalRule startOffset endOffset].

Definition handler : NodeHandler :=
  Build_NodeHandler canHandle extractDecorations.

End HorizontalRuleHandler.

Module CodeBlockHandler.

Definition canHandle (node : Node) : bool := is_type Mdast.code node.

Definition blank (c : option N) : bool := same SPACE c || same TAB c.
Definition newline (c : option N) : bool := same LF c || same CR c.

Definition findContentStart (text : text) (afterFence beforeClosing : Z) : Z :=
  let pos := afterFence in
  (* white space after the fence *)
  let pos := skip_forward blank text pos beforeClosing in
  (* the language identifier *)
  let pos :=
    skip_forward
      (fun c => differs LF c && differs CR c && differs SPACE c && differs TAB c)
      text pos beforeClosing in
  (* white space after the language identifier *)
  let pos := skip_forward blank text pos beforeClosing in
  (* the line break after the opening fence *)
  let pos := skip_forward newline text pos beforeClosing in
  pos.

Definition findContentEnd (text : text) (afterFence beforeClosing : Z) : Z :=
  skip_backward newline text beforeClosing afterFence.

Definition extractDecorations (node : Node) (text : text)
  : Result (list DecorationRange) :=
  if negb (hasValidPosition node) then ret []
  else
    startOffset <- startOffset node ;;
    endOffset <- endOffset node ;;
    let codeText := substring text startOffset endOffset in
    match Regex.fence codeText with
    | None => ret [range code startOffset endOffset]
    | Some (openingFence, _, closingFence) =>
        if text_eqb openingFence [] || text_eqb closingFence []
        then ret [range code startOffset endOffset]
        else
          let fenceLength := len openingFence in
          let closingFenceStart := endOffset - len closingFence in
          let openingFenceEnd := startOffset + fenceLength in
          let contentStart :=
            findContentStart text openingFenceEnd closingFenceStart in
          let contentEnd :=
            findContentEnd text openingFenceEnd closingFenceStart in
          ret ([range hide startOffset contentStart;
                range hide closingFenceStart endOffset]
               ++ [range codeBlock startOffset endOffset])
    end.

Definition handler : NodeHandler :=
  Build_NodeHandler canHandle extractDecorations.

End CodeBlockHandler.

Module BlockquoteHandler.

Definition BLOCKQUOTE_MARKER_PATTERN := Regex.blockquote_marker.

Definition canHandle (node : Node) : bool := is_type Mdast.blockquote node.

Definition in_line (c : option N) : bool := differs LF c && differs CR c.

(** One turn of [while (pos < endOffset)]: the hide of the marker of the
    line at [pos], if it has one, and the start of the next line. *)
Definition line (text : text) (pos endOffset : Z)
  : list DecorationRange * Z :=
  let lineStart := pos in
  let lineEnd := skip_forward in_line text pos endOffset in
  let lineText := substring text lineStart lineEnd in
  let pushed :=
    match BLOCKQUOTE_MARKER_PATTERN lineText with
    | Some (g1, g2, g3) =>
        let leadingWhitespace := len g1 in
        let markerLength := len g2 in
        let trailingWhitespace := len g3 in
        let markerStart := lineStart + leadingWhitespace in
        let markerEnd := markerStart + markerLength + trailingWhitespace in
        if markerEnd >? markerStart
        then [range hide markerStart markerEnd] else []
    | None => []
    end in
  let pos := lineEnd in
  let pos := if (pos <? endOffset) && char_is text pos CR then pos + 1 else pos in
  let pos := if (pos <? endOffset) && char_is text pos LF then pos + 1 else pos in
  (pushed, pos).

(** [while (pos < endOffset) { ... }], with [decorations] the array built
    so far.  Every turn moves [pos] forward ([line_spec]), so
    [endOffset - pos] turns are enough ([lines_fuel]). *)
Fixpoint lines (fuel : nat) (text : text) (pos endOffset : Z)
    (decorations : list DecorationRange) : list DecorationRange :=
  match fuel with
  | O => decorations
  | S fuel' =>
      if pos <? endOffset then
        let '(pushed, pos') := line text pos endOffset in
        lines fuel' text pos' endOffset (decorations ++ pushed)
      else decorations
  end.

Definition extractDecorations (node : Node) (text : text)
  : Result (list DecorationRange) :=
  if negb (hasValidPosition node) then ret []
  else
    startOffset <- startOffset node ;;
    endOffset <- endOffset node ;;
    let decorations := [] in
    let actualStart := skip_backward in_line text startOffset 0 in
    let pos := actualStart in
    let decorations :=
      lines (Z.to_nat (endOffset - pos)) text pos endOffset decorations in
    ret (decorations ++ [range blockquote actualStart endOffset]).

Definition handler : NodeHandler :=
  Build_NodeHandler canHandle extractDecorations.

End BlockquoteHandler.

Module InlineCodeHandler.

Definition BACKTICK_LENGTH : Z := 1.

Definition canHandle (node : Node) : bool := is_type Mdast.inlineCode node.

Definition createOpeningBacktickDecoration (startOffset : Z) : DecorationRange :=
  range hide startOffset (startOffset + BACKTICK_LENGTH).

Definition createClosingBacktickDecoration (endOffset : Z) : DecorationRange :=
  range hide (endOffset - BACKTICK_LENGTH) endOffset.

Definition createCodeContentDecoration (startOffset endOffset : Z)
  : DecorationRange :=
  let contentStart := startOffset + BACKTICK_LENGTH in
  let contentEnd := endOffset - BACKTICK_LENGTH in
  if contentEnd <=? contentStart
  then range code contentStart (contentStart + 1)
  else range code contentStart contentEnd.

Definition extractDecorations (node : Node) (text : text)
  : Result (list DecorationRange) :=
  if negb (hasValidPosition node) then ret []
  else
    startOffset <- startOffset node ;;
    endOffset <- endOffset node ;;
    ret [createOpeningBacktickDecoration startOffset;
         createClosingBacktickDecoration endOffset;
         createCodeContentDecoration startOffset endOffset].

Definition handler : NodeHandler :=
  Build_NodeHandler canHandle extractDecorations.

End InlineCodeHandler.

(** [m && m[1]]: capture group 1 of a match, when there is a match and the
    group is not the empty string. *)
Definition group1 (m : option Regex.Groups) : option text :=
  match m with
  | Some (g1, _, _) => if text_eqb g1 [] then None else Some g1
  | None => None
  end.

(** [let n = default; if (m1 && m1[1]) n = m1[1].length;
     else if (m2 && m2[1]) n = m2[1].length;] *)
Definition delimiterLengthOf (m1 m2 : option Regex.Groups) (default : Z) : Z :=
  match group1 m1 with
  | Some g => len g
  | None =>
      match group1 m2 with
      | Some g => len g
      | None => default
      end
  end.

Module StrongHandler.

Definition canHandle (node : Node) : bool := is_type Mdast.strong node.

Definition hasEmphasisChild (node : Node) : bool :=
  existsb (is_type Mdast.emphasis) (Mdast.children node).

Definition extractBoldDecorations (text : text) (startOffset endOffset : Z)
  : list DecorationRange :=
  let nodeText := substring text startOffset endOffset in
  let asteriskMatch := Regex.delimited [STAR; STAR] nodeText in
  let underscoreMatch := Regex.delimited [UNDERSCORE; UNDERSCORE] nodeText in
  let delimiterLength := delimiterLengthOf asteriskMatch underscoreMatch 2 in
  let contentStart := startOffset + delimiterLength in
  let contentEnd := endOffset - delimiterLength in
  [range hide startOffset (startOffset + delimiterLength);
   range hide (endOffset - delimiterLength) endOffset;
   range bold contentStart contentEnd].

(** The body of [for (const child of children)] for one child. *)
Definition processChild (child : Node) (text : text)
  : Result (list DecorationRange) :=
  if is_type Mdast.emphasis child && hasValidPosition child then
    emphasisStart <- startOffset child ;;
    emphasisEnd <- endOffset child ;;
    let emphasisText := substring text emphasisStart emphasisEnd in
    let singleAsteriskMatch := Regex.delimited [STAR] emphasisText in
    let singleUnderscoreMatch := Regex.delimited [UNDERSCORE] emphasisText in
    let delimiterLength :=
      delimiterLengthOf singleAsteriskMatch singleUnderscoreMatch 1 in
    ret [range hide emphasisStart (emphasisStart + delimiterLength);
         range hide (emphasisEnd - delimiterLength) emphasisEnd;
         range boldItalic (emphasisStart + delimiterLength)
                          (emphasisEnd - delimiterLength)]
  else if hasValidPosition child then
    childStart <- startOffset child ;;
    childEnd <- endOffset child ;;
    ret [range bold childStart childEnd]
  else ret [].

Fixpoint processChildrenForBoldItalic (children : list Node) (text : text)
    (decorations : list DecorationRange) : Result (list DecorationRange) :=
  match children with
  | [] => ret decorations
  | child :: rest =>
      pushed <- processChild child text ;;
      processChildrenForBoldItalic rest text (decorations ++ pushed)
  end.

Definition extractBoldItalicDecorations (node : Node) (text : text)
    (startOffset endOffset : Z) : Result (list DecorationRange) :=
  let nodeText := substring text startOffset endOffset in
  let tripleAsteriskMatch := Regex.delimited [STAR; STAR; STAR] nodeText in
  let tripleUnderscoreMatch :=
    Regex.delimited [UNDERSCORE; UNDERSCORE; UNDERSCORE] nodeText in
  let outerDelimiterLength :=
    delimiterLengthOf tripleAsteriskMatch tripleUnderscoreMatch 3 in
  let decorations :=
    [range hide startOffset (startOffset + outerDelimiterLength);
     range hide (endOffset - outerDelimiterLength) endOffset] in
  processChildrenForBoldItalic (Mdast.children node) text decorations.

Definition extractDecorations (node : Node) (text : text)
  : Result (list DecorationRange) :=
  if negb (hasValidPosition node) then ret []
  else
    startOffset <- startOffset node ;;
    endOffset <- endOffset node ;;
    let hasEmphasis := hasEmphasisChild node in
    if hasEmphasis
    then extractBoldItalicDecorations node text startOffset endOffset
    else ret (extractBoldDecorations text startOffset endOffset).

Definition handler : NodeHandler :=
  Build_NodeHandler canHandle extractDecorations.

End StrongHandler.

Module EmphasisHandler.

Definition canHandle (node : Node) : bool := is_type Mdast.emphasis node.

Definition extractDecorations (node : Node) (text : text)
  : Result (list DecorationRange) :=
  if negb (hasValidPosition node) then ret []
  else
    startOffset <- startOffset node ;;
    endOffset <- endOffset node ;;
    let beforeText := substring text (Z.max 0 (startOffset - 2)) startOffset in
    let afterText := substring text endOffset (Z.min (len text) (endOffset + 2)) in
    if text_eqb beforeText [STAR; STAR] && text_eqb afterText [STAR; STAR]
    then ret []
    else if text_eqb beforeText [UNDERSCORE; UNDERSCORE]
            && text_eqb afterText [UNDERSCORE; UNDERSCORE]
    then ret []
    else
      let nodeText := substring text startOffset endOffset in
      let asteriskMatch := Regex.delimited [STAR] nodeText in
      let underscoreMatch := Regex.delimited [UNDERSCORE] nodeText in
      let delimiterLength := delimiterLengthOf asteriskMatch underscoreMatch 1 in
      let contentStart := startOffset + delimiterLength in
      let contentEnd := endOffset - delimiterLength in
      ret [range hide startOffset (startOffset + delimiterLength);
           range hide (endOffset - delimiterLength) endOffset;
           range italic contentStart contentEnd].

Definition handler : NodeHandler :=
  Build_NodeHandler canHandle extractDecorations.

End EmphasisHandler.

Module DeleteHandler.

Definition canHandle (node : Node) : bool := is_type Mdast.delete node.

Definition extractDecorations (node : Node) (text : text)
  : Result (list DecorationRange) :=
  if negb (hasValidPosition node) then ret []
  else
    startOffset <- startOffset node ;;
    endOffset <- endOffset node ;;
    let contentStart := startOffset + 2 in
    let contentEnd := endOffset - 2 in
    if contentEnd <=? contentStart then ret []
    else
      ret [range hide startOffset (startOffset + 2);
           range hide (endOffset - 2) endOffset;
           range strikethrough contentStart contentEnd].

Definition handler : NodeHandler :=
  Build_NodeHandler canHandle extractDecorations.

End DeleteHandler.

(** The scanning loops that the link and image handlers repeat.  Every turn
    of a loop moves its index forward by one and the loop stops at
    [endOffset] at the latest, so that [endOffset - i] turns are all a loop
    can make: this is the fuel of the fixpoints below, and when it is used
    up the index is [endOffset]. *)
Module Scan.

(** [while (i < endOffset && text[i] !== c) i++] *)
Definition until (c : N) (text : text) (i endOffset : Z) : Z :=
  skip_forward (differs c) text i endOffset.

(** [while (i < endOffset && text[i] !== c) {
       if (text[i] is not a blank, a line feed or a carriage return) return [];
       i++; }]
    [None] is the early return. *)
Fixpoint opening_loop (fuel : nat) (c : N) (text : text) (i : Z) : option Z :=
  match fuel with
  | O => Some i
  | S fuel' =>
      if differs c (char_at text i) then
        if differs SPACE (char_at text i) && differs LF (char_at text i)
           && differs CR (char_at text i)
        then None
        else opening_loop fuel' c text (i + 1)
      else Some i
  end.

Definition opening (c : N) (text : text) (i endOffset : Z) : option Z :=
  opening_loop (Z.to_nat (endOffset - i)) c text i.

(** [while (parenEnd < endOffset && parenDepth > 0) {
       if (text[parenEnd] === "(") parenDepth++;
       else if (text[parenEnd] === ")") parenDepth--;
       parenEnd++; }] *)
Fixpoint closing_paren_loop (fuel : nat) (text : text) (parenEnd parenDepth : Z) : Z :=
  match fuel with
  | O => parenEnd
  | S fuel' =>
      if parenDepth >? 0 then
        let parenDepth :=
          if same LPAREN (char_at text parenEnd) then parenDepth + 1
          else if same RPAREN (char_at text parenEnd) then parenDepth - 1
          else parenDepth in
        closing_paren_loop fuel' text (parenEnd + 1) parenDepth
      else parenEnd
  end.

Definition closing_paren (text : text) (parenEnd endOffset : Z) : Z :=
  closing_paren_loop (Z.to_nat (endOffset - parenEnd)) text parenEnd 1.

End Scan.

Module LinkHandler.

Definition canHandle (node : Node) : bool := is_type Mdast.link node.

Definition extractDecorations (node : Node) (text : text)
  : Result (list DecorationRange) :=
  if negb (hasValidPosition node) then ret []
  else
    startOffset <- startOffset node ;;
    endOffset <- endOffset node ;;
    (* [""] and [undefined] both differ from every bracket: [None] *)
    let beforeChar := if startOffset >? 0 then char_at text (startOffset - 1) else None in
    let afterChar := if endOffset <? len text then char_at text endOffset else None in
    let nodeStartChar := if startOffset <? len text then char_at text startOffset else None in
    let nodeEndChar := if endOffset >? 0 then char_at text (endOffset - 1) else None in
    if same LT beforeChar && same GT afterChar then
      ret [range hide (startOffset - 1) startOffset;
           range hide endOffset (endOffset + 1);
           range link startOffset endOffset]
    else if same LT nodeStartChar && same GT nodeEndChar then
      ret [range hide startOffset (startOffset + 1);
           range hide (endOffset - 1) endOffset;
           range link (startOffset + 1) (endOffset - 1)]
    else
      let linkText := substring text startOffset endOffset in
      if differs LBRACKET (char_at linkText 0) then ret []
      else
        let bracketStart := startOffset in
        let bracketEnd := Scan.until RBRACKET text (bracketStart + 1) endOffset in
        if bracketEnd >=? endOffset then ret []
        else
          match Scan.opening LPAREN text (bracketEnd + 1) endOffset with
          | None => ret []
          | Some parenStart =>
              if parenStart >=? endOffset then ret []
              else
                let parenEnd := Scan.closing_paren text (parenStart + 1) endOffset in
                if (bracketStart <? bracketEnd) && (parenStart <? parenEnd) then
                  let textStart := bracketStart + 1 in
                  let textEnd := bracketEnd in
                  ret ([range hide bracketStart (bracketStart + 1);
                        range hide bracketEnd (bracketEnd + 1);
                        range hide parenStart parenEnd]
                       ++ (if textEnd >? textStart
                           then [range link textStart textEnd] else []))
                else ret []
          end.

Definition handler : NodeHandler :=
  Build_NodeHandler canHandle extractDecorations.

End LinkHandler.

Module ImageHandler.

Definition canHandle (node : Node) : bool := is_type Mdast.image node.

Definition extractDecorations (node : Node) (text : text)
  : Result (list DecorationRange) :=
  if negb (hasValidPosition node) then ret []
  else
    startOffset <- startOffset node ;;
    endOffset <- endOffset node ;;
    let imageText := substring text startOffset endOffset in
    if differs BANG (char_at imageText 0) then ret []
    else
      let exclamationStart := startOffset in
      let bracketStart := startOffset + 1 in
      if (bracketStart >=? endOffset) || differs LBRACKET (char_at text bracketStart)
      then ret []
      else
        let bracketEnd := Scan.until RBRACKET text (bracketStart + 1) endOffset in
        if bracketEnd >=? endOffset then ret []
        else
          match Scan.opening LPAREN text (bracketEnd + 1) endOffset with
          | None => ret []
          | Some parenStart =>
              if parenStart >=? endOffset then ret []
              else
                let parenEnd := Scan.closing_paren text (parenStart + 1) endOffset in
                if (exclamationStart <? bracketStart) && (bracketStart <? bracketEnd)
                   && (parenStart <? parenEnd) then
                  let altStart := bracketStart + 1 in
                  let altEnd := bracketEnd in
                  ret ([range hide exclamationStart (exclamationStart + 1);
                        range hide bracketStart (bracketStart + 1);
                        range hide bracketEnd (bracketEnd + 1);
                        range hide parenStart parenEnd]
                       ++ (if altEnd >? altStart
                           then [range image altStart altEnd] else []))
                else ret []
          end.

Definition handler : NodeHandler :=
  Build_NodeHandler canHandle extractDecorations.

End ImageHandler.

Module LinkReferenceHandler.

Definition canHandle (node : Node) : bool := is_type Mdast.linkReference node.

Definition extractDecorations (node : Node) (text : text)
  : Result (list DecorationRange) :=
  if negb (hasValidPosition node) then ret []
  else
    startOffset <- startOffset node ;;
    endOffset <- endOffset node ;;
    let linkText := substring text startOffset endOffset in
    if differs LBRACKET (char_at linkText 0) then ret []
    else
      let bracketStart := startOffset in
      let bracketEnd := Scan.until RBRACKET text (bracketStart + 1) endOffset in
      if bracketEnd >=? endOffset then ret []
      else
        match Scan.opening LBRACKET text (bracketEnd + 1) endOffset with
        | None => ret []
        | Some refBracketStart =>
            if refBracketStart >=? endOffset then ret []
            else
              let refBracketEnd :=
                Scan.until RBRACKET text (refBracketStart + 1) endOffset in
              if refBracketEnd >=? endOffset then ret []
              else if (bracketStart <? bracketEnd)
                      && (refBracketStart <? refBracketEnd) then
                let textStart := bracketStart + 1 in
                let textEnd := bracketEnd in
                ret ([range hide bracketStart (bracketStart + 1);
                      range hide bracketEnd (bracketEnd + 1);
                      range hide refBracketStart (refBracketEnd + 1)]
                     ++ (if textEnd >? textStart
                         then [range link textStart textEnd] else []))
              else ret []
        end.

Definition handler : NodeHandler :=
  Build_NodeHandler canHandle extractDecorations.

End LinkReferenceHandler.

Module ImageReferenceHandler.

Definition canHandle (node : Node) : bool := is_type Mdast.imageReference node.

Definition extractDecorations (node : Node) (text : text)
  : Result (list DecorationRange) :=
  if negb (hasValidPosition node) then ret []
  else
    startOffset <- startOffset node ;;
    endOffset <- endOffset node ;;
    let imageText := substring text startOffset endOffset in
    if differs BANG (char_at imageText 0) then ret []
    else
      let exclamationStart := startOffset in
      let bracketStart := startOffset + 1 in
      if (bracketStart >=? endOffset) || differs LBRACKET (char_at text bracketStart)
      then ret []
      else
        let bracketEnd := Scan.until RBRACKET text (bracketStart + 1) endOffset in
        if bracketEnd >=? endOffset then ret []
        else
          match Scan.opening LBRACKET text (bracketEnd + 1) endOffset with
          | None => ret []
          | Some refBracketStart =>
              if refBracketStart >=? endOffset then ret []
              else
                let refBracketEnd :=
                  Scan.until RBRACKET text (refBracketStart + 1) endOffset in
                if refBracketEnd >=? endOffset then ret []
                else if (exclamationStart <? bracketStart)
                        && (bracketStart <? bracketEnd)
                        && (refBracketStart <? refBracketEnd) then
                  let altStart := bracketStart + 1 in
                  let altEnd := bracketEnd in
                  ret ([range hide exclamationStart (exclamationStart + 1);
                        range hide bracketStart (bracketStart + 1);
                        range hide bracketEnd (bracketEnd + 1);
                        range hide refBracketStart (refBracketEnd + 1)]
                       ++ (if altEnd >? altStart
                           then [range image altStart altEnd] else []))
                else ret []
          end.

Definition handler : NodeHandler :=
  Build_NodeHandler canHandle extractDecorations.

End ImageReferenceHandler.

(* ===================================================================== *)
(** ** The highlight scanner *)
(* ===================================================================== *)

Module HighlightHandler.

Definition DELIMITER : text := [EQUALS; EQUALS].

(** [while (pos < text.length) { ... }], with [decorations] the array built
    so far.  A turn that does not leave the loop moves [pos] forward by at
    least four, so [text.length] turns are more than enough
    ([scan_fuel]). *)
Fixpoint scan (fuel : nat) (text : text) (pos : Z)
    (decorations : list DecorationRange) : list DecorationRange :=
  match fuel with
  | O => decorations
  | S fuel' =>
      if pos <? len text then
        match indexOf text DELIMITER pos with
        | None => decorations
        | Some openIndex =>
            match indexOf text DELIMITER (openIndex + 2) with
            | None => decorations
            | Some closeIndex =>
                let contentStart := openIndex + 2 in
                let contentEnd := closeIndex in
                let decorations :=
                  if contentEnd >? contentStart then
                    decorations
                    ++ [range hide openIndex (openIndex + 2);
                        range hide closeIndex (closeIndex + 2);
                        range highlight contentStart contentEnd]
                  else decorations in
                scan fuel' text (closeIndex + 2) decorations
            end
        end
      else decorations
  end.

Definition extractDecorations (text : text) : list DecorationRange :=
  scan (length text) text 0 [].

End HighlightHandler.

(* ===================================================================== *)
(** ** The decoration collector *)
(* ===================================================================== *)

(** The key [`${startPos}-${endPos}-${type}`].  The decimal rendering of two
    integers followed by a type name determines the three of them, so the
    key is modelled by the triple itself. *)
Definition Key := (Z * Z * DecorationType)%type.

Definition Key_eqb (a b : Key) : bool :=
  let '(s1, e1, t1) := a in
  let '(s2, e2, t2) := b in
  (s1 =? s2) && (e1 =? e2) && DecorationType_eqb t1 t2.

Module DecorationCollector.

(** [seen] is a [Set<string>]; only membership is ever asked of it. *)
Record t := {
  ranges : list DecorationRange;
  seen : list Key
}.

Definition new : t := {| ranges := []; seen := [] |}.

Definition createKey (decoration : DecorationRange) : Key :=
  (startPos decoration, endPos decoration, type decoration).

Definition has (k : Key) (s : list Key) : bool := existsb (Key_eqb k) s.

Definition add (this : t) (decoration : DecorationRange) : t :=
  let key := createKey decoration in
  if negb (has key (seen this))
  then {| ranges := ranges this ++ [decoration]; seen := seen this ++ [key] |}
  else this.

Definition addAll (this : t) (decorations : list DecorationRange) : t :=
  fold_left add decorations this.

Definition getAll (this : t) : list DecorationRange := ranges this.

Definition clear (this : t) : t := new.

End DecorationCollector.

(* ===================================================================== *)
(** ** The engine *)
(* ===================================================================== *)

(** [visit(tree, visitor)] of unist-util-visit with a visitor that returns
    nothing: the visitor is called on every node of the tree, a node before
    its children, the children from first to last. *)
Fixpoint visit {S : Type} (visitor : Node -> S -> Result S) (node : Node) (st : S)
  {struct node} : Result S :=
  st1 <- visitor node st ;;
  (fix visit_all (l : list Node) (st : S) {struct l} : Result S :=
     match l with
     | [] => ret st
     | child :: l' => st2 <- visit visitor child st ;; visit_all l' st2
     end) (Mdast.children node) st1.

Module MarkdownParser.

(** The key [`${contentStart}-${contentEnd}`] of the set of spans owned by
    the bold-italic path. *)
Definition RangeKey := (Z * Z)%type.

Definition RangeKey_eqb (a b : RangeKey) : bool :=
  (fst a =? fst b) && (snd a =? snd b).

(** [Set.prototype.add] *)
Definition set_add (k : RangeKey) (s : list RangeKey) : list RangeKey :=
  if existsb (RangeKey_eqb k) s then s else s ++ [k].

(** [rangeKey.split("-")], then [Number] of the two parts when there are
    exactly two.  A negative number is rendered with a leading [-], which
    [split] takes for a separator: the key then has more than two parts
    and is passed over. *)
Definition parseRangeKey (k : RangeKey) : option (Z * Z) :=
  if (0 <=? fst k) && (0 <=? snd k) then Some k else None.

Definition handlers : list NodeHandler :=
  [HeadingHandler.handler;
   StrongHandler.handler;
   EmphasisHandler.handler;
   InlineCodeHandler.handler;
   CodeBlockHandler.handler;
   BlockquoteHandler.handler;
   HorizontalRuleHandler.handler;
   DeleteHandler.handler;
   LinkHandler.handler;
   ImageHandler.handler;
   LinkReferenceHandler.handler;
   ImageReferenceHandler.handler].

Definition findHandler (node : Node) : option NodeHandler :=
  find (fun handler => canHandle handler node) handlers.

Definition hasValidPosition (node : Node) : bool :=
  match Mdast.position node with
  | None => false
  | Some p =>
      match Mdast.offset (Mdast.start p), Mdast.offset (Mdast.end_ p) with
      | Some _, Some _ => true
      | _, _ => false
      end
  end.

(** The callback of [strongNode.children.forEach]. *)
Definition trackChild (child : Node) (boldItalicEmphasisRanges : list RangeKey)
  : Result (list RangeKey) :=
  if is_type Mdast.emphasis child && hasValidPosition child then
    emphasisStart <- startOffset child ;;
    emphasisEnd <- endOffset child ;;
    let contentStart := emphasisStart + 1 in
    let contentEnd := emphasisEnd - 1 in
    if contentEnd >? contentStart
    then ret (set_add (contentStart, contentEnd) boldItalicEmphasisRanges)
    else ret boldItalicEmphasisRanges
  else ret boldItalicEmphasisRanges.

Fixpoint trackChildren (children : list Node) (s : list RangeKey)
  : Result (list RangeKey) :=
  match children with
  | [] => ret s
  | child :: rest => s' <- trackChild child s ;; trackChildren rest s'
  end.

(** What a call keeps between the visits of two nodes. *)
Definition Walk := (DecorationCollector.t * list RangeKey)%type.

(** The callback given to [visit]. *)
Definition visitor (text : text) (node : Node) (st : Walk) : Result Walk :=
  let '(collector, boldItalicEmphasisRanges) := st in
  match findHandler node with
  | None => ret st
  | Some handler =>
      decorations <- extractDecorations handler node text ;;
      tracked <-
        (if is_type Mdast.strong node then
           let hasEmphasis :=
             existsb (is_type Mdast.emphasis) (Mdast.children node) in
           if hasEmphasis && hasValidPosition node
           then trackChildren (Mdast.children node) boldItalicEmphasisRanges
           else ret boldItalicEmphasisRanges
         else ret boldItalicEmphasisRanges) ;;
      ret (DecorationCollector.addAll collector decorations, tracked)
  end.

(** The test of [allDecorations.filter]. *)
Definition keep (boldItalicEmphasisRanges : list RangeKey) (dec : DecorationRange)
  : bool :=
  if DecorationType_eqb (type dec) italic then
    negb (existsb
            (fun rangeKey =>
               match parseRangeKey rangeKey with
               | Some (start, end_) =>
                   ((startPos dec >=? start) && (startPos dec <? end_))
                   || ((endPos dec >? start) && (endPos dec <=? end_))
                   || ((startPos dec <=? start) && (endPos dec >=? end_))
               | None => false
               end)
            boldItalicEmphasisRanges)
  else true.

Section Engine.

(** [this.processor.parse(text) as Root]: the parser of remark, which
    returns a tree for every string. *)
Variable parseAST : text -> Node.

Definition extractDecorations (text : text) : Result (list DecorationRange) :=
  let ast := parseAST text in
  let collector := DecorationCollector.new in
  let boldItalicEmphasisRanges : list RangeKey := [] in
  walked <- visit (visitor text) ast (collector, boldItalicEmphasisRanges) ;;
  let '(collector, boldItalicEmphasisRanges) := walked in
  let allDecorations := DecorationCollector.getAll collector in
  let filteredDecorations := filter (keep boldItalicEmphasisRanges) allDecorations in
  let highlightDecorations := HighlightHandler.extractDecorations text in
  ret (filteredDecorations ++ highlightDecorations).

End Engine.

End MarkdownParser.

(* ===================================================================== *)
(** ** Sample documents *)
(* ===================================================================== *)

Module Sample.

Definition leaf (ty : NodeType) (s e : Z) : Node :=
  {| Mdast.type := ty; Mdast.position := Mdast.at_ s e;
     Mdast.depth := None; Mdast.children := [] |}.

Definition parent (ty : NodeType) (s e : Z) (l : list Node) : Node :=
  {| Mdast.type := ty; Mdast.position := Mdast.at_ s e;
     Mdast.depth := None; Mdast.children := l |}.

(** The lines of a document, joined by line feeds. *)
Fixpoint document (lines : list string) : text :=
  match lines with
  | [] => []
  | [l] => str l
  | l :: rest => str l ++ LF :: document rest
  end.

(** A blockquote of three lines. *)
Definition quote : text := document ["> a"; "> b"; "> c"]%string.

(** A fenced code block with a language tag. *)
Definition fenced_block : text := document ["```js"; "x"; "```"]%string.

(** A code block fenced with tildes: the parser returns one [code] node
    over the three lines. *)
Definition tilde_block : text := document ["~~~"; "x"; "~~~"]%string.

(** An inline link between angle brackets: the text [<], the link
    [[a](b)] at [1, 7), the text [>]. *)
Definition angled_link : text := str "<[a](b)>".

(** A link around an image (a badge): the link node spans the whole text,
    its text is the image [![a](b)], its destination is [c]. *)
Definition badge_link : text := str "[![a](b)](c)".

(** A link whose destination ends with an escaped closing parenthesis. *)
Definition escaped_paren_link : text := str "[a](b\))".

(** A link with an empty text whose destination, written between angle
    brackets, is an opening parenthesis. *)
Definition empty_text_open_link : text := str "[](<(>)".

(** A link whose destination, written between angle brackets, opens a
    parenthesis that is never closed. *)
Definition open_paren_link : text := str "[a](<b(>)".

(** A bold span with an italic word: the strong node spans the text, its
    children are the text [a ] and the emphasis [_xy_] at [4, 8). *)
Definition bold_with_italic : text := str "**a _xy_**".

Definition bold_with_italic_emphasis : Node :=
  parent Mdast.emphasis 4 8 [leaf Mdast.textNode 5 7].

Definition bold_with_italic_strong : Node :=
  parent Mdast.strong 0 10
    [leaf Mdast.textNode 2 4; bold_with_italic_emphasis].

Definition bold_with_italic_tree : Node :=
  parent Mdast.root 0 10
    [parent Mdast.paragraph 0 10 [bold_with_italic_strong]].

(** A page with a heading, a bold span holding an italic word, a
    highlight and a code span, and the tree the parser returns for it. *)
Definition page : text :=
  document ["# T"; ""; "**a _xy_** ==hi== `c`"]%string.

Definition page_tree : Node :=
  parent Mdast.root 0 26
    [ {| Mdast.type := Mdast.heading; Mdast.position := Mdast.at_ 0 3;
         Mdast.depth := Some 1;
         Mdast.children := [leaf Mdast.textNode 2 3] |};
      parent Mdast.paragraph 5 26
        [ parent Mdast.strong 5 15
            [ leaf Mdast.textNode 7 9;
              parent Mdast.emphasis 9 13 [leaf Mdast.textNode 10 12] ];
          leaf Mdast.textNode 15 23;
          leaf Mdast.inlineCode 23 26 ] ].

(** The same link between angle brackets of the surrounding text. *)
Definition angled_open_paren_link : text := str "<[a](<b(>)>".

(** A link around an image whose destination, written between angle
    brackets, opens a parenthesis that is never closed: the link node
    spans the whole text, its text is the image [![a](b)]. *)
Definition open_paren_badge : text := str "[![a](b)](<c(>)".

Definition open_paren_badge_link : Node :=
  parent Mdast.link 0 15 [parent Mdast.image 1 8 []].

End Sample.

(* ===================================================================== *)
(** ** Vocabulary of the properties *)
(* ===================================================================== *)

(** The two offsets of a node that passes [hasValidPosition]. *)
Definition offsets (node : Node) : option (Z * Z) :=
  match Mdast.position node with
  | None => None
  | Some p =>
      match Mdast.offset (Mdast.start p), Mdast.offset (Mdast.end_ p) with
      | Some s, Some e => Some (s, e)
      | _, _ => None
      end
  end.

(** The claim's words: the position is missing, or one of its offsets is. *)
Definition lacksPosition (node : Node) : Prop :=
  Mdast.position node = None
  \/ exists p, Mdast.position node = Some p
               /\ (Mdast.offset (Mdast.start p) = None
                   \/ Mdast.offset (Mdast.end_ p) = None).

(** The fence pattern in the claim's words: an opening fence of three or
    more backticks, a body, and a closing fence of three or more backticks
    at the end. *)
Definition fence_shaped (raw : text) : Prop :=
  exists opening body closing,
    raw = opening ++ body ++ closing
    /\ forallb Regex.is_backtick opening = true /\ (3 <= length opening)%nat
    /\ forallb Regex.is_backtick closing = true /\ (3 <= length closing)%nat.


(** The content of a heading after a matched marker: what
    [HeadingHandler.extractDecorations] tests for emptiness. *)
Definition heading_content (text : text) (markerMatch : Regex.Groups) (s e : Z)
  : Js.text :=
  let contentStart := HeadingHandler.getContentStart markerMatch s in
  if contentStart >=? e then [] else substring text contentStart e.

(** *** The highlight scanner in the words of the specification *)

(** A delimiter [==] stands at index [i]. *)
Definition delimiter_at (text : text) (i : Z) : Prop :=
  char_at text i = Some EQUALS /\ char_at text (i + 1) = Some EQUALS.

(** [o] is the next delimiter at or after [from]. *)
Definition next_delimiter (text : text) (from o : Z) : Prop :=
  from <= o /\ delimiter_at text o
  /\ forall i, from <= i < o -> ~ delimiter_at text i.

(** There is no delimiter at or after [from]. *)
Definition no_delimiter (text : text) (from : Z) : Prop :=
  forall i, from <= i -> ~ delimiter_at text i.

(** What a pair of delimiters at [o] and [c] contributes: two hides of two
    characters and one highlight over the interior, when the interior has at
    least one character. *)
Definition highlight_of (o c : Z) : list DecorationRange :=
  if c >? o + 2
  then [range hide o (o + 2); range hide c (c + 2); range highlight (o + 2) c]
  else [].

(** Locate the next delimiter, then the following one; emit for the pair;
    go on after the closing delimiter; stop when no further pair is found. *)
Inductive Highlights (text : text) : Z -> list DecorationRange -> Prop :=
| no_opening pos :
    no_delimiter text pos -> Highlights text pos []
| no_closing pos o :
    next_delimiter text pos o -> no_delimiter text (o + 2) ->
    Highlights text pos []
| pair_found pos o c rest :
    next_delimiter text pos o -> next_delimiter text (o + 2) c ->
    Highlights text (c + 2) rest ->
    Highlights text pos (highlight_of o c ++ rest).

(** *** Inline links *)

(** What the link handlers step over between a closing bracket and what
    follows: a blank, a line feed, a carriage return. *)
Definition is_separator (c : N) : bool :=
  (N.eqb c SPACE || N.eqb c LF || N.eqb c CR)%bool.

Definition not_rbracket (c : N) : bool := negb (N.eqb c RBRACKET).
Definition not_lparen (c : N) : bool := negb (N.eqb c LPAREN).

(** The depth of parentheses after one more code unit. *)
Definition paren_step (d : Z) (c : N) : Z :=
  if N.eqb c LPAREN then d + 1
  else if N.eqb c RPAREN then d - 1
  else d.

(** Starting at depth [d], the depth stays positive all along [u]: no
    closing parenthesis of [u] matches the parenthesis that opened [d]. *)
Fixpoint stays_open (u : text) (d : Z) : bool :=
  match u with
  | [] => true
  | c :: u' => (0 <? paren_step d c) && stays_open u' (paren_step d c)
  end.

(** The node stands between a [<] and a [>] of the surrounding text, which
    the link handler takes for an autolink. *)
Definition wrapped_in_angles (text : text) (s e : Z) : Prop :=
  char_at text (s - 1) = Some LT /\ char_at text e = Some GT.

(** The span [s, e) of [text] reads [[ t ] w ( u]: a bracketed text [t]
    without closing bracket, separators [w], an opening parenthesis and the
    rest [u] of the span. *)
Definition inline_link (text : text) (s e : Z) (t w u : Js.text) : Prop :=
  0 <= s /\ s <= e /\ e <= len text
  /\ substring text s e
     = [LBRACKET] ++ t ++ [RBRACKET] ++ w ++ [LPAREN] ++ u
  /\ forallb not_rbracket t = true
  /\ forallb is_separator w = true.

(** The span [s, e) of [text] reads [[ t ]( u )], without any condition on
    [t] and [u]. *)
Definition standard_inline_link (text : text) (s e : Z) (t u : Js.text) : Prop :=
  0 <= s /\ s <= e /\ e <= len text
  /\ substring text s e
     = [LBRACKET] ++ t ++ [RBRACKET; LPAREN] ++ u ++ [RPAREN]
  /\ t <> [].

(** The decorations of [[ t ]( u )] at [s, e): a hide over each bracket, one
    hide over the parenthesised part, a link over the text. *)
Definition link_decorations (s e : Z) (t : text) : list DecorationRange :=
  let bracketEnd := s + 1 + len t in
  [range hide s (s + 1);
   range hide bracketEnd (bracketEnd + 1);
   range hide (bracketEnd + 1) e;
   range link (s + 1) bracketEnd].

(** The decorations of [[ t ] w ( u] at [s, e) when the parentheses of [u]
    are not balanced, as the claim has them: the link range is there
    whatever [t] is. *)
Definition open_link_decorations (s e : Z) (t w : text) : list DecorationRange :=
  let bracketEnd := s + 1 + len t in
  let parenStart := bracketEnd + 1 + len w in
  [range hide s (s + 1);
   range hide bracketEnd (bracketEnd + 1);
   range hide parenStart e;
   range link (s + 1) bracketEnd].

(** The span [s, e) of [text] reads [[ t ] w ( u], whatever [t] holds: the
    closing bracket after [t] need not be the first of the span. *)
Definition bracketed_link (text : text) (s e : Z) (t w u : Js.text) : Prop :=
  0 <= s /\ s <= e /\ e <= len text
  /\ substring text s e
     = [LBRACKET] ++ t ++ [RBRACKET] ++ w ++ [LPAREN] ++ u
  /\ forallb is_separator w = true.

(** The claim on unbalanced parentheses, as it is stated, at one node. *)
Definition open_link_claim (node : Node) (text : text) (s e : Z)
    (t w u : Js.text) : Prop :=
  Mdast.position node = Mdast.at_ s e ->
  bracketed_link text s e t w u ->
  stays_open u 1 = true ->
  exists l, LinkHandler.extractDecorations node text = Ok l
            /\ forall d, In d (open_link_decorations s e t w) -> In d l.

(** The claim on the standard inline form, as it is stated, at one node. *)
Definition inline_link_claim (node : Node) (text : text) (s e : Z)
    (t u : Js.text) : Prop :=
  Mdast.position node = Mdast.at_ s e ->
  standard_inline_link text s e t u ->
  LinkHandler.extractDecorations node text = Ok (link_decorations s e t).

(** *** The tree and the output *)

(** The nodes of a tree in the order in which [visit] calls the visitor. *)
Fixpoint nodes (n : Node) : list Node :=
  n :: flat_map nodes (Mdast.children n).

(** Two half-open spans share a position. *)
Definition overlaps (a b c d : Z) : Prop :=
  exists x, a <= x < b /\ c <= x < d.

(** A range lies in the text and is not empty. *)
Definition valid_range (text : text) (d : DecorationRange) : Prop :=
  0 <= startPos d /\ startPos d < endPos d /\ endPos d <= len text.

(** Two lists have the same elements. *)
Definition set_equal (l l' : list DecorationRange) : Prop :=
  forall d, In d l <-> In d l'.

(** *** Auxiliary definitions of the proofs *)

(** A delimiter at index [i] of a list. *)
Definition pair_at (t : Js.text) (i : nat) : Prop :=
  nth_error t i = Some EQUALS /\ nth_error t (S i) = Some EQUALS.

(** [seg] is what the text holds from index [p] on. *)
Definition seg_at (text : text) (p : Z) (seg : Js.text) : Prop :=
  0 <= p /\ forall i : nat,
    (i < length seg)%nat -> char_at text (p + Z.of_nat i) = nth_error seg i.

(** The visitor applied to a list of nodes, one after the other. *)
Fixpoint visit_list {S : Type} (visitor : Node -> S -> Result S)
    (l : list Node) (st : S) : Result S :=
  match l with
  | [] => Ok st
  | n :: l' => st' <- visitor n st ;; visit_list visitor l' st'
  end.

(** The decorations of a node: the output of its handler, nothing when no
    handler takes the node. *)
Definition decorations_of (text : Js.text) (node : Node) : list DecorationRange :=
  match MarkdownParser.findHandler node with
  | Some handler =>
      match extractDecorations handler node text with
      | Ok l => l
      | TypeError => []
      end
  | None => []
  end.

(** The span claimed for an emphasis child of a strong node. *)
Definition claim_of (child : Node) : option MarkdownParser.RangeKey :=
  if is_type Mdast.emphasis child then
    match offsets child with
    | Some (s, e) => if e - 1 >? s + 1 then Some (s + 1, e - 1) else None
    | None => None
    end
  else None.

Definition claims_of (node : Node) : list MarkdownParser.RangeKey :=
  if is_type Mdast.strong node
     && existsb (is_type Mdast.emphasis) (Mdast.children node)
     && MarkdownParser.hasValidPosition node
  then flat_map (fun c => match claim_of c with Some k => [k] | None => [] end)
         (Mdast.children node)
  else [].

Definition add_claims (ks : list MarkdownParser.RangeKey)
    (r : list MarkdownParser.RangeKey) : list MarkdownParser.RangeKey :=
  fold_left (fun r k => MarkdownParser.set_add k r) ks r.

(** One call of the visitor, without the monad. *)
Definition step (text : Js.text) (st : MarkdownParser.Walk) (node : Node)
  : MarkdownParser.Walk :=
  (DecorationCollector.addAll (fst st) (decorations_of text node),
   add_claims (claims_of node) (snd st)).

(** The result of the engine, without the monad. *)
Definition walked (text : Js.text) (ast : Node) : MarkdownParser.Walk :=
  fold_left (step text) (nodes ast) (DecorationCollector.new, []).


(** What the scanner emits: hides of two characters over delimiters and
    highlights between two of them. *)
Definition scanner_range (text : Js.text) (d : DecorationRange) : Prop :=
  (type d = hide /\ endPos d = startPos d + 2 /\ delimiter_at text (startPos d))
  \/ (type d = highlight /\ delimiter_at text (startPos d - 2)
      /\ delimiter_at text (endPos d) /\ startPos d < endPos d).


(** *** What the engine expects of the parser

    The parser is not part of the engine.  The properties of the output
    that depend on the shape of the tree are proved for the trees a markdown
    parser returns: the span of a node lies in the text and is at least as
    long as the shortest form of its construct ([well_positioned]), and a
    span that the handlers take to start and end with a delimiter does so
    ([delimited]). *)

(** A child of a strong node: an emphasis spans at least [*x*], any other
    child at least one code unit. *)
Definition child_positioned (text : text) (child : Node) : bool :=
  match offsets child with
  | None => true
  | Some (s, e) =>
      (0 <=? s) && (e <=? len text)
      && (if is_type Mdast.emphasis child then 3 <=? e - s else s <? e)
  end.

Definition well_positioned (text : text) (node : Node) : bool :=
  match offsets node with
  | None => true
  | Some (s, e) =>
      (0 <=? s) && (s <=? e) && (e <=? len text)
      && match Mdast.type node with
         | Mdast.heading => s <? e
         | Mdast.strong =>
             (5 <=? e - s)
             && forallb (child_positioned text) (Mdast.children node)
         | Mdast.emphasis => 3 <=? e - s
         | Mdast.inlineCode => 3 <=? e - s
         | Mdast.code => s <? e
         | Mdast.blockquote => s <? e
         | Mdast.thematicBreak => 3 <=? e - s
         | Mdast.link => 3 <=? e - s
         | _ => true
         end
  end.

Definition is_emphasis_mark (c : option N) : bool :=
  same STAR c || same UNDERSCORE c.

Definition delimited (text : text) (node : Node) : bool :=
  match offsets node with
  | None => true
  | Some (s, e) =>
      match Mdast.type node with
      | Mdast.heading =>
          (* an ATX heading holds a [#], a setext heading a line break and
             an underline *)
          existsb Regex.is_hash (substring text s e) || (3 <=? e - s)
      | Mdast.strong =>
          is_emphasis_mark (char_at text s)
          && is_emphasis_mark (char_at text (e - 1))
      | Mdast.delete =>
          same TILDE (char_at text s) && same TILDE (char_at text (e - 1))
      | _ => true
      end
  end.

(** The tree is what a parser returns for the text. *)
Definition positioned (text : text) (ast : Node) : bool :=
  forallb (well_positioned text) (nodes ast).

Definition conforms (text : text) (ast : Node) : bool :=
  forallb (fun node => well_positioned text node && delimited text node)
    (nodes ast).

(** What is proved of every range a handler emits for a node: it lies in
    the text, it is not a highlight, and when it is a hide of two characters
    these are not a delimiter of the scanner. *)
Definition tree_range (text : text) (node : Node) (d : DecorationRange) : Prop :=
  valid_range text d
  /\ type d <> highlight
  /\ (delimited text node = true -> type d = hide ->
      endPos d = startPos d + 2 -> ~ delimiter_at text (startPos d)).

(** The collector keeps the keys of its ranges, each of them once. *)
Definition collected (c : DecorationCollector.t) : Prop :=
  DecorationCollector.seen c
  = map DecorationCollector.createKey (DecorationCollector.ranges c)
  /\ NoDup (map DecorationCollector.createKey (DecorationCollector.ranges c)).


(* ===================================================================== *)
(** ** Vocabulary of the further properties *)
(* ===================================================================== *)

From Stdlib Require Import Permutation.

(** Two ranges share no position. *)
Definition apart (d d' : DecorationRange) : Prop :=
  endPos d <= startPos d' \/ endPos d' <= startPos d.

(** The key of a decoration is among the keys of a list. *)
Definition has_key (d : DecorationRange) (l : list DecorationRange) : Prop :=
  In (DecorationCollector.createKey d) (map DecorationCollector.createKey l).

(** What the bold-italic path of the strong handler pushes for one child:
    for an emphasis, a hide over each of its two delimiters and a
    bold-italic range in between; for any other child, a bold range over
    it; nothing for a child without position. *)
Definition bold_italic_child (child : Node) : list DecorationRange :=
  match offsets child with
  | None => []
  | Some (a, b) =>
      if is_type Mdast.emphasis child
      then [range hide a (a + 1); range hide (b - 1) b;
            range boldItalic (a + 1) (b - 1)]
      else [range bold a b]
  end.

(** The two code units before [s] and the two from [e] on are all [c]. *)
Definition doubled (c : N) (text : text) (s e : Z) : Prop :=
  char_at text (s - 2) = Some c /\ char_at text (s - 1) = Some c
  /\ char_at text e = Some c /\ char_at text (e + 1) = Some c.

(** The handlers that test every range they emit. *)
Definition guarded_handlers : list NodeHandler :=
  [InlineCodeHandler.handler; DeleteHandler.handler; ImageHandler.handler;
   LinkReferenceHandler.handler; ImageReferenceHandler.handler].

Definition not_empty (d : DecorationRange) : Prop := startPos d < endPos d.

(** The parenthesised part [u] of an inline link or image runs to the end
    of the node: no parenthesis of [u] closes the one that opened it, except
    possibly the last code unit of [u]. *)
Definition closes_at_end (u : text) : Prop :=
  stays_open u 1 = true
  \/ exists u' c, u = u' ++ [c] /\ stays_open u' 1 = true.

(** The span [s, e) of [text] reads [![ a ] w ( u], where [a] holds no
    closing bracket: [a] ends at the first closing bracket after [![],
    which is where the handler ends the alternative text, and [w] is made
    of separators. *)
Definition inline_image (text : text) (s e : Z) (a w u : Js.text) : Prop :=
  0 <= s /\ s <= e /\ e <= len text
  /\ substring text s e
     = [BANG; LBRACKET] ++ a ++ [RBRACKET] ++ w ++ [LPAREN] ++ u
  /\ forallb not_rbracket a = true
  /\ forallb is_separator w = true.

(** The span [s, e) of [text] reads [[ t ] w [ r ] rest]: a reference with
    its label, as in [[text][ref]] and [[text][]].  Neither [t] nor [r]
    holds a closing bracket: each ends at the first closing bracket after
    its opening bracket, and [w] is made of separators. *)
Definition reference_link (text : text) (s e : Z) (t w r rest : Js.text)
  : Prop :=
  0 <= s /\ s <= e /\ e <= len text
  /\ substring text s e
     = [LBRACKET] ++ t ++ [RBRACKET] ++ w ++ [LBRACKET] ++ r ++ [RBRACKET]
       ++ rest
  /\ forallb not_rbracket t = true
  /\ forallb is_separator w = true
  /\ forallb not_rbracket r = true.


(** The same two shapes after an exclamation mark. *)
Definition reference_image (text : text) (s e : Z) (a w r rest : Js.text)
  : Prop :=
  0 <= s /\ s <= e /\ e <= len text
  /\ substring text s e
     = [BANG; LBRACKET] ++ a ++ [RBRACKET] ++ w ++ [LBRACKET] ++ r
       ++ [RBRACKET] ++ rest
  /\ forallb not_rbracket a = true
  /\ forallb is_separator w = true
  /\ forallb not_rbracket r = true.

Definition shortcut_image (text : text) (s e : Z) (a w : Js.text) : Prop :=
  0 <= s /\ s <= e /\ e <= len text
  /\ substring text s e = [BANG; LBRACKET] ++ a ++ [RBRACKET] ++ w
  /\ forallb not_rbracket a = true
  /\ forallb is_separator w = true.

(** The span [s, e) of [text] reads [prefix [ a ] w x rest]: after the
    first closing bracket (there is none in [a]) and the separators [w]
    stands a code unit [x] that is neither a separator nor [opener], the
    delimiter the handler looks for there.  This is how a bracketed text
    with a nested or an escaped closing bracket reads, as [a [b] c] and
    [a\]b] do. *)
Definition first_bracket_misses (opener : N) (prefix : Js.text) (text : text)
    (s e : Z) (a w : Js.text) (x : N) (rest : Js.text) : Prop :=
  0 <= s /\ s <= e /\ e <= len text
  /\ substring text s e
     = prefix ++ [LBRACKET] ++ a ++ [RBRACKET] ++ w ++ x :: rest
  /\ forallb not_rbracket a = true
  /\ forallb is_separator w = true
  /\ is_separator x = false
  /\ x <> opener.

(** The offset [a] is where a line starts: the start of the text, or the
    position after a line feed or a carriage return. *)
Definition line_start (text : text) (a : Z) : Prop :=
  a = 0 \/ char_at text (a - 1) = Some LF \/ char_at text (a - 1) = Some CR.

(** No line break stands in [a, s). *)
Definition same_line (text : text) (a s : Z) : Prop :=
  forall i, a <= i < s ->
            char_at text i <> Some LF /\ char_at text i <> Some CR.

(** A hide of a blockquote marker in [a, e): it is not empty and starts on
    a [>]. *)
Definition marker_hide (text : text) (a e : Z) (d : DecorationRange) : Prop :=
  type d = hide
  /\ a <= startPos d /\ startPos d < endPos d /\ endPos d <= e
  /\ char_at text (startPos d) = Some GT.

(** The first range ends where the second starts, or before. *)
Definition before (d d' : DecorationRange) : Prop := endPos d <= startPos d'.

(** The classes of code units that [findContentStart] steps over. *)
Definition is_blank (c : N) : bool := (N.eqb c SPACE || N.eqb c TAB)%bool.
Definition is_newline (c : N) : bool := (N.eqb c LF || N.eqb c CR)%bool.
Definition in_word (c : N) : bool :=
  (negb (N.eqb c LF) && negb (N.eqb c CR)
   && negb (N.eqb c SPACE) && negb (N.eqb c TAB))%bool.

(** A code unit of an info string: neither blank, nor line break, nor
    backtick. *)
Definition is_tag (c : N) : bool := (in_word c && negb (Regex.is_backtick c))%bool.

(** A sequence does not start with a code unit of a class. *)
Definition starts_without (p : N -> bool) (t : text) : bool :=
  match t with
  | [] => true
  | c :: _ => negb (p c)
  end.

(** What [findContentStart] leaves of the interior of a fenced block: it
    steps over blanks, one word, blanks and line breaks, in this order. *)
Definition after_fence_line (interior : text) : text :=
  drop_while is_newline
    (drop_while is_blank
       (drop_while in_word (drop_while is_blank interior))).

(** The way the fence pattern splits a raw text into the opening fence [o],
    the body [b] and the closing fence [c].  When the text is not made of
    backticks only, the body neither starts nor ends with a backtick: [o]
    is the whole leading run of backticks and [c] the whole trailing run.
    When the text is made of backticks only, the body is empty and [c] is
    the last three. *)
Definition fence_groups (raw o b c : text) : Prop :=
  raw = o ++ b ++ c
  /\ forallb Regex.is_backtick o = true
  /\ forallb Regex.is_backtick c = true
  /\ 3 <= len o /\ 3 <= len c
  /\ ((b = [] /\ len c = 3)
      \/ (b <> []
          /\ starts_without Regex.is_backtick b = true
          /\ starts_without Regex.is_backtick (rev b) = true)).

(** The span [s, e) of [text] reads as a fenced code block: a fence of [n]
    backticks, blanks, an info string, blanks, line breaks, a body and a
    fence of [m] backticks.  The body does not start with a line break and
    does not end with a backtick. *)
Definition fenced_block (text : text) (s e : Z) (n m : nat)
    (b1 tag b2 nl body : Js.text) : Prop :=
  0 <= s /\ s <= e /\ e <= len text
  /\ substring text s e
     = repeat BACKTICK n ++ b1 ++ tag ++ b2 ++ nl ++ body ++ repeat BACKTICK m
  /\ (3 <= n)%nat /\ (3 <= m)%nat
  /\ forallb is_blank b1 = true
  /\ forallb is_tag tag = true
  /\ forallb is_blank b2 = true
  /\ nl <> [] /\ forallb is_newline nl = true
  /\ starts_without is_newline body = true
  /\ starts_without Regex.is_backtick (rev body) = true.

(** The span [s, e) of [text] reads as a fenced code block whose info
    string has more than one word: a fence of [n] backticks, blanks, a
    first word, blanks, and [rest], which starts with the second word and
    runs to the closing fence of [m] backticks without ending with a
    backtick. *)
Definition fenced_block_two_words (text : text) (s e : Z) (n m : nat)
    (b1 tag b2 rest : Js.text) : Prop :=
  0 <= s /\ s <= e /\ e <= len text
  /\ substring text s e
     = repeat BACKTICK n ++ b1 ++ tag ++ b2 ++ rest ++ repeat BACKTICK m
  /\ (3 <= n)%nat /\ (3 <= m)%nat
  /\ forallb is_blank b1 = true
  /\ tag <> [] /\ forallb is_tag tag = true
  /\ b2 <> [] /\ forallb is_blank b2 = true
  /\ rest <> []
  /\ starts_without is_blank rest = true
  /\ starts_without is_newline rest = true
  /\ starts_without Regex.is_backtick (rev rest) = true.

(** A fenced code block whose info string has two words. *)
Definition titled_block : text :=
  Sample.document ["```js title"; "x"; "```"]%string.

(* ===================================================================== *)
(** ** The link provider (src/src/linkProvider.ts) *)
(* ===================================================================== *)

Module MarkdownLinkProvider.

Definition SLASH : N := 47.

(** [t.startsWith(p)] *)
Definition startsWith (t p : text) : bool := starts_with p t.

(** [t.includes(p)] *)
Definition includes (t p : text) : bool :=
  match indexOf t p 0 with
  | Some _ => true
  | None => false
  end.

(** The last index of [t] at which [p] occurs, shifted by [base];
    [found] is the last one seen so far. *)
Fixpoint find_last (p t : text) (base : Z) (found : option Z) : option Z :=
  let found := if starts_with p t then Some base else found in
  match t with
  | [] => found
  | _ :: t' => find_last p t' (base + 1) found
  end.

(** [t.lastIndexOf(p)], with [None] for [-1]. *)
Definition lastIndexOf (t p : text) : option Z := find_last p t 0 None.

Definition hasValidPosition (node : Node) : bool :=
  match Mdast.position node with
  | None => false
  | Some p =>
      match Mdast.offset (Mdast.start p), Mdast.offset (Mdast.end_ p) with
      | Some _, Some _ => true
      | _, _ => false
      end
  end.

Definition isValidUrl (url : text) : bool :=
  if text_eqb url [] || (len (trim url) =? 0) then false
  else
    startsWith url (str "http://")
    || startsWith url (str "https://")
    || startsWith url (str "mailto:")
    || startsWith url (str "#")
    || startsWith url (str "/")
    || negb (includes url (str "://")).

(** [linkStart] and [linkEnd] of a link node in [provideDocumentLinks]:
    the span that becomes clickable. *)
Definition linkSpan (text : text) (startOffset endOffset : Z) : Z * Z :=
  let beforeChar :=
    if startOffset >? 0 then char_at text (startOffset - 1) else None in
  let afterChar :=
    if endOffset <? len text then char_at text endOffset else None in
  let nodeStartChar :=
    if startOffset <? len text then char_at text startOffset else None in
  let nodeEndChar :=
    if endOffset >? 0 then char_at text (endOffset - 1) else None in
  let linkStart := startOffset in
  let linkEnd := endOffset in
  if same LT beforeChar && same GT afterChar then (startOffset, endOffset)
  else if same LT nodeStartChar && same GT nodeEndChar
  then (startOffset + 1, endOffset - 1)
  else
    let linkText := substring text startOffset endOffset in
    if same LBRACKET (char_at linkText 0) then
      match indexOf linkText [RBRACKET] 1 with
      | Some bracketEnd => (startOffset + 1, startOffset + bracketEnd)
      | None => (linkStart, linkEnd)
      end
    else (linkStart, linkEnd).

(** [textStart] and [textEnd] of a link reference, when both brackets of
    its text are found.  An index of [-1] is [None]; [-1 + 1] is [0]. *)
Definition referenceSpan (text : text) (startOffset endOffset : Z)
  : option (Z * Z) :=
  let linkText := substring text startOffset endOffset in
  let bracketStart := indexOf linkText [LBRACKET] 0 in
  let bracketEnd :=
    indexOf linkText [RBRACKET]
      (match bracketStart with Some b => b + 1 | None => 0 end) in
  match bracketStart, bracketEnd with
  | Some bracketStart, Some bracketEnd =>
      Some (startOffset + bracketStart + 1, startOffset + bracketEnd)
  | _, _ => None
  end.

(** [parentPath] in [resolveUrl]: the directory of the document, against
    which a relative link is resolved. *)
Definition parentPath (currentPath : text) : text :=
  match lastIndexOf currentPath [SLASH] with
  | Some lastSlash =>
      if lastSlash >? 0 then substring currentPath 0 lastSlash else [SLASH]
  | None => [SLASH]
  end.

End MarkdownLinkProvider.

(** [t] holds [p]: some part of it reads [p]. *)
Definition contains (t p : text) : Prop := exists a b, t = a ++ p ++ b.

(** [t] starts with [p]. *)
Definition has_prefix (t p : text) : Prop := exists b, t = p ++ b.

(** A string of white space only, the empty string included. *)
Definition blank (t : text) : Prop := forallb isWhitespace t = true.

(** The prefixes that make a URL clickable whatever follows. *)
Definition allowed_prefix (url : text) : Prop :=
  has_prefix url (str "http://") \/ has_prefix url (str "https://")
  \/ has_prefix url (str "mailto:") \/ has_prefix url (str "#")
  \/ has_prefix url (str "/").

Definition not_slash (c : N) : bool := negb (N.eqb c MarkdownLinkProvider.SLASH).

(* ===================================================================== *)
(** ** The decorator (the class [Decorator]) *)
(* ===================================================================== *)

(** Positions and ranges of the editor.  A range built from two positions
    has them in order: the constructor swaps them when the first is not
    before the second. *)
Module Vscode.

Record Position := { line : Z; character : Z }.

Definition isBefore (a b : Position) : bool :=
  (line a <? line b) || ((line a =? line b) && (character a <? character b)).

Definition isAfter (a b : Position) : bool := isBefore b a.

Record Range := { start : Position; end_ : Position }.

(** [new Range(start, end)] *)
Definition newRange (a b : Position) : Range :=
  if isBefore a b then {| start := a; end_ := b |}
  else {| start := b; end_ := a |}.

(** [new Range(startLine, startCharacter, endLine, endCharacter)] *)
Definition newRange4 (l1 c1 l2 c2 : Z) : Range :=
  newRange {| line := l1; character := c1 |} {| line := l2; character := c2 |}.

End Vscode.

Module Decorator.

Import Vscode.

(** What the decorator reads of the active editor.  [positionAt],
    [lineAt] and [intersection] belong to the editor. *)
Record TextEditor := {
  languageId : string;
  getText : text;
  positionAt : Z -> Position;
  lineAt : Z -> text;
  selections : list Range;
  intersection : Range -> Range -> option Range
}.

Record t := {
  activeEditor : option TextEditor;
  decorationsEnabled : bool
}.

(** [Record<DecorationKey, Range[]>] *)
Definition RangeMap := DecorationType -> list Range.

Definition createEmptyRangeMap : RangeMap := fun _ => [].

(** [rangeMap[key].push(range)] *)
Definition push (rangeMap : RangeMap) (key : DecorationType) (range : Range)
  : RangeMap :=
  fun k => if DecorationType_eqb k key then rangeMap k ++ [range]
           else rangeMap k.

Definition MAX_SAFE_INTEGER : Z := 9007199254740991.

Definition createRange (this : t) (startPos endPos : Z) : option Range :=
  match activeEditor this with
  | None => None
  | Some editor =>
      let docLength := len (getText editor) in
      if (startPos <? 0) || (endPos <? 0) || (startPos >? docLength)
         || (endPos >? docLength)
      then None
      else if endPos <=? startPos then None
      else
        let start := positionAt editor startPos in
        let end_ := positionAt editor endPos in
        if isAfter start end_ then None
        else Some (newRange start end_)
  end.

Definition isRangeSelected (this : t) (range : Range) : bool :=
  match activeEditor this with
  | None => false
  | Some editor =>
      existsb (fun s => match intersection editor range s with
                        | Some _ => true
                        | None => false
                        end)
        (selections editor)
  end.

Definition isLineOfRangeSelected (this : t) (range : Range) : bool :=
  match activeEditor this with
  | None => false
  | Some editor =>
      existsb (fun s => negb ((line (end_ range) <? line (start s))
                              || (line (start range) >? line (end_ s))))
        (selections editor)
  end.

(** [for (let lineNumber = startLine; lineNumber <= endLine; lineNumber++)
      rangeMap[key].push(new Range(lineNumber, 0, lineNumber, MAX))].
    The loop makes [endLine - lineNumber + 1] turns, which is the fuel
    given to it. *)
Fixpoint fullLines (fuel : nat) (key : DecorationType) (lineNumber endLine : Z)
    (rangeMap : RangeMap) : RangeMap :=
  match fuel with
  | O => rangeMap
  | S fuel' =>
      if lineNumber <=? endLine then
        let fullLineRange :=
          newRange4 lineNumber 0 lineNumber MAX_SAFE_INTEGER in
        fullLines fuel' key (lineNumber + 1) endLine
          (push rangeMap key fullLineRange)
      else rangeMap
  end.

(** The callback of [decorations.forEach] in [updateDecorations]. *)
Definition place (this : t) (rangeMap : RangeMap) (decoration : DecorationRange)
  : RangeMap :=
  if endPos decoration <=? startPos decoration then rangeMap
  else
    match createRange this (startPos decoration) (endPos decoration) with
    | None => rangeMap
    | Some range =>
        if isLineOfRangeSelected this range || isRangeSelected this range
        then rangeMap
        else
          match activeEditor this with
          | Some editor =>
              match type decoration with
              | horizontalRule =>
                  let line := lineAt editor (Vscode.line (start range)) in
                  let fullLineRange :=
                    newRange4 (Vscode.line (start range)) 0
                      (Vscode.line (start range)) (Z.max (len line) 200) in
                  push rangeMap horizontalRule fullLineRange
              | codeBlock | blockquote =>
                  let startLine := Vscode.line (start range) in
                  let endLine := Vscode.line (end_ range) in
                  let endLine :=
                    if (character (end_ range) =? 0) && (endLine >? startLine)
                    then endLine - 1 else endLine in
                  fullLines (Z.to_nat (endLine - startLine + 1))
                    (type decoration) startLine endLine rangeMap
              | key => push rangeMap key range
              end
          | None => push rangeMap (type decoration) range
          end
    end.

(** What the editor shows for each decoration type: the ranges of the
    last call of [setDecorations] for the type. *)
Definition Shown := DecorationType -> list Range.

Definition clearAllDecorations (this : t) (shown : Shown) : Shown :=
  match activeEditor this with
  | None => shown
  | Some _ => fun _ => []
  end.

Section Engine.

Variable parseAST : text -> Node.

Definition updateDecorations (this : t) (shown : Shown) : Result Shown :=
  match activeEditor this with
  | None => ret shown
  | Some editor =>
      if negb (existsb (String.eqb (languageId editor))
                 ["markdown"; "md"; "mdx"]%string)
      then ret shown
      else if negb (decorationsEnabled this)
      then ret (clearAllDecorations this shown)
      else
        let rangeMap := createEmptyRangeMap in
        let documentText := getText editor in
        decorations <-
          MarkdownParser.extractDecorations parseAST documentText ;;
        let rangeMap := fold_left (place this) decorations rangeMap in
        ret (fun key =>
               let ranges := rangeMap key in
               if (0 <? length ranges)%nat then ranges else shown key)
  end.

End Engine.

End Decorator.

(** What the decorator expects of the editor: a later offset of the
    document is never at an earlier position. *)
Definition monotone (editor : Decorator.TextEditor) : Prop :=
  forall a b : Z,
    0 <= a -> a <= b -> b <= len (Decorator.getText editor) ->
    Vscode.isAfter (Decorator.positionAt editor a) (Decorator.positionAt editor b)
    = false.

(** The editor range of a decoration. *)
Definition editor_range (editor : Decorator.TextEditor) (d : DecorationRange)
  : Vscode.Range :=
  {| Vscode.start := Decorator.positionAt editor (startPos d);
     Vscode.end_ := Decorator.positionAt editor (endPos d) |}.

(** The decorator runs on the editor: there is an active editor, on a
    markdown document, and the decorations are enabled. *)
Definition decorating (this : Decorator.t) (editor : Decorator.TextEditor)
  : Prop :=
  Decorator.activeEditor this = Some editor
  /\ In (Decorator.languageId editor) ["markdown"; "md"; "mdx"]%string
  /\ Decorator.decorationsEnabled this = true.

(** The second range map holds what the first holds, in the same order,
    and possibly more after it. *)
Definition extends (m m' : Decorator.RangeMap) : Prop :=
  forall k, exists added, m' k = m k ++ added.

(** The whole line [n] as the decorator builds it for a block. *)
Definition whole_line (n : Z) : Vscode.Range :=
  Vscode.newRange4 n 0 n Decorator.MAX_SAFE_INTEGER.

(** The line numbers from [a] to [b], both included. *)
Definition line_numbers (a b : Z) : list Z :=
  map (fun i => a + Z.of_nat i) (seq 0 (Z.to_nat (b - a + 1))).

(** The last line that a block decoration covers in the editor: the line
    of its end, or the line before when it ends at column 0 of a later
    line than the one it starts on. *)
Definition last_line (editor : Decorator.TextEditor) (d : DecorationRange) : Z :=
  let startLine := Vscode.line (Decorator.positionAt editor (startPos d)) in
  let endLine := Vscode.line (Decorator.positionAt editor (endPos d)) in
  if (Vscode.character (Decorator.positionAt editor (endPos d)) =? 0)
     && (endLine >? startLine)
  then endLine - 1 else endLine.

(** The line of a horizontal rule as the decorator builds it: from column
    0 to the length of the line, or to column 200 when the line is
    shorter. *)
Definition rule_line (editor : Decorator.TextEditor) (n : Z) : Vscode.Range :=
  Vscode.newRange4 n 0 n (Z.max (len (Decorator.lineAt editor n)) 200).

(** A decoration is shown in a range map.  A horizontal rule is shown as
    the line on which it starts; a code block and a blockquote are shown as
    every whole line from the line on which they start to their last line,
    of which there is at least one; a decoration of any other type is shown
    as the range between the positions of its two offsets.  The range or
    ranges stand under the type of the decoration. *)
Definition shown_in (editor : Decorator.TextEditor) (d : DecorationRange)
    (m : DecorationType -> list Vscode.Range) : Prop :=
  let startLine := Vscode.line (Decorator.positionAt editor (startPos d)) in
  match type d with
  | horizontalRule => In (rule_line editor startLine) (m horizontalRule)
  | codeBlock | blockquote =>
      startLine <= last_line editor d
      /\ forall n, startLine <= n <= last_line editor d ->
                   In (whole_line n) (m (type d))
  | _ => In (editor_range editor d) (m (type d))
  end.

(** An editor on a document whose lines end with a line feed, without
    selection: the position of an offset counts the line feeds before it
    and the characters after the last of them; an offset past the end is
    the end. *)
Fixpoint position_from (t : text) (n : nat) (line character : Z)
  : Vscode.Position :=
  match n, t with
  | S n', c :: t' =>
      if N.eqb c LF then position_from t' n' (line + 1) 0
      else position_from t' n' line (character + 1)
  | _, _ => {| Vscode.line := line; Vscode.character := character |}
  end.

(** The lines of a document. *)
Fixpoint split_lines (t : text) : list text :=
  match t with
  | [] => [[]]
  | c :: t' =>
      if N.eqb c LF then [] :: split_lines t'
      else match split_lines t' with
           | l :: ls => (c :: l) :: ls
           | [] => [[c]]
           end
  end.

Definition plain_editor (t : text) : Decorator.TextEditor :=
  {| Decorator.languageId := "markdown";
     Decorator.getText := t;
     Decorator.positionAt := fun i => position_from t (Z.to_nat i) 0 0;
     Decorator.lineAt := fun n => nth (Z.to_nat n) (split_lines t) [];
     Decorator.selections := [];
     Decorator.intersection := fun _ _ => None |}.

Definition plain_decorator (t : text) : Decorator.t :=
  {| Decorator.activeEditor := Some (plain_editor t);
     Decorator.decorationsEnabled := true |}.

(** A page with a heading, a fenced code block and a horizontal rule, and
    the tree the parser returns for it. *)
Definition blocks_page : text :=
  Sample.document ["# T"; ""; "```"; "x"; "```"; ""; "---"]%string.

Definition blocks_page_tree : Node :=
  Sample.parent Mdast.root 0 19
    [ {| Mdast.type := Mdast.heading; Mdast.position := Mdast.at_ 0 3;
         Mdast.depth := Some 1;
         Mdast.children := [Sample.leaf Mdast.textNode 2 3] |};
      Sample.leaf Mdast.code 5 14;
      Sample.leaf Mdast.thematicBreak 16 19 ].

(** The test by which the engine drops an italic range [sp, ep) for a
    claimed span [start, end_): the range starts in the span, or ends in
    it, or covers it. *)
Definition clashes (sp ep start end_ : Z) : Prop :=
  (start <= sp /\ sp < end_) \/ (start < ep /\ ep <= end_)
  \/ (sp <= start /\ end_ <= ep).

(** An italic word followed by a bold span with an italic word, and the
    tree the parser returns for it. *)
Definition italic_then_bold : text := str "*i* **a _xy_**".

Definition italic_then_bold_emphasis : Node :=
  Sample.parent Mdast.emphasis 0 3 [Sample.leaf Mdast.textNode 1 2].

Definition italic_then_bold_tree : Node :=
  Sample.parent Mdast.root 0 14
    [Sample.parent Mdast.paragraph 0 14
       [italic_then_bold_emphasis;
        Sample.leaf Mdast.textNode 3 4;
        Sample.parent Mdast.strong 4 14
          [Sample.leaf Mdast.textNode 6 8;
           Sample.parent Mdast.emphasis 8 12
             [Sample.leaf Mdast.textNode 9 11]]]].

(** A reference link whose text holds a bracketed word, a reference image
    whose alternative text does, each with the definition of its label;
    an image whose alternative text holds an escaped closing bracket. *)
Definition nested_reference_page : text :=
  Sample.document ["[a [b] c][ref]"; ""; "[ref]: u"]%string.

Definition nested_image_reference_page : text :=
  Sample.document ["![a [b] c][ref]"; ""; "[ref]: u"]%string.

Definition escaped_bracket_image : text := str "![a\]b](u)".

(** A reference link and a reference image with the definition of their
    label, a shortcut reference and a shortcut image with theirs. *)
Definition reference_page : text :=
  Sample.document ["[text][ref] ![alt][ref]"; ""; "[ref]: u"]%string.

Definition shortcut_page : text :=
  Sample.document ["see [text] ![text]"; ""; "[text]: u"]%string.

(* ===================================================================== *)
(** ** The objects of a parser instance *)
(* ===================================================================== *)

(** [extractDecorations] is a method: what it returns may depend on the
    instance it is called on, and a call may change the instance.  Of the
    objects that a [MarkdownParser] reaches through its fields, two have a
    property that a method of the engine could write: the regular
    expressions that the heading handler and the blockquote handler keep in
    a field and pass to [String.prototype.match].  The collector and the
    set of claimed spans are local to a call, which creates them. *)
Module RegExp.

(** A [RegExp] object: its flags [g] and [y], and [lastIndex], the one
    property that a match reads and writes. *)
Record t := {
  global : bool;
  sticky : bool;
  lastIndex : Z
}.

(** The object of a regular expression literal without flags. *)
Definition literal : t :=
  {| global := false; sticky := false; lastIndex := 0 |}.

Definition setLastIndex (this : t) (i : Z) : t :=
  {| global := global this; sticky := sticky this; lastIndex := i |}.

(** [RegExpBuiltinExec(this, s)] for a pattern that starts with [^] and
    has no [m] flag: such a pattern matches at index 0 only.  [pattern]
    gives the groups 1, 2 and 3 of the match at index 0, which make up
    the whole match.  With the flag [g] or [y] the search starts at
    [lastIndex], and [lastIndex] becomes the end of the match, or 0 when
    there is none; without them the search starts at 0 and [lastIndex] is
    neither read nor written (ECMAScript 2017 and later; before, a
    search that failed wrote 0, the value that the literal starts
    with). *)
Definition exec (pattern : text -> option Regex.Groups) (this : t) (s : text)
  : option Regex.Groups * t :=
  let resumes := global this || sticky this in
  let from := if resumes then Z.max 0 (lastIndex this) else 0 in
  match (if from =? 0 then pattern s else None) with
  | Some (g1, g2, g3) =>
      (Some (g1, g2, g3),
       if resumes then setLastIndex this (len g1 + len g2 + len g3)
       else this)
  | None => (None, if resumes then setLastIndex this 0 else this)
  end.

(** What [match] returns besides [null]: the array of [exec], of which
    the engine reads the groups 1, 2 and 3, or with the flag [g] the
    array of the matched strings. *)
Inductive MatchArray :=
| Captures (groups : Regex.Groups)
| Matches (all : list text).

(** The loop of [RegExp.prototype[Symbol.match]] under the flag [g]:
    [exec] until it fails, collecting the matched strings in [A]; after
    an empty match [lastIndex] moves on by one. *)
Fixpoint matchAll (fuel : nat) (pattern : text -> option Regex.Groups)
    (this : t) (s : text) (A : list text) : option MatchArray * t :=
  match fuel with
  | O => (match A with [] => None | _ => Some (Matches A) end, this)
  | S fuel' =>
      let '(result, this) := exec pattern this s in
      match result with
      | None => (match A with [] => None | _ => Some (Matches A) end, this)
      | Some (g1, g2, g3) =>
          let matchStr := g1 ++ g2 ++ g3 in
          let this :=
            if text_eqb matchStr []
            then setLastIndex this (Z.max 0 (lastIndex this) + 1)
            else this in
          matchAll fuel' pattern this s (A ++ [matchStr])
      end
  end.

(** [s.match(this)].  Under the flag [g] the loop starts at index 0; the
    pattern matches at index 0 only, so that the second [exec] fails and
    ends the loop: two turns are enough ([matchAll_fuel]). *)
Definition match_ (pattern : text -> option Regex.Groups) (this : t)
    (s : text) : option MatchArray * t :=
  if global this then matchAll 2 pattern (setLastIndex this 0) s []
  else
    let '(result, this) := exec pattern this s in
    (option_map Captures result, this).

(** [match !== null && match[1] !== undefined && match[2] !== undefined
     && match[3] !== undefined], with the three strings when the test
    holds.  The groups of the two patterns take part in every match; an
    array of matched strings has them when it has four elements. *)
Definition isValidMarkerMatch (match_ : option MatchArray)
  : option Regex.Groups :=
  match match_ with
  | Some (Captures groups) => Some groups
  | Some (Matches (_ :: m1 :: m2 :: m3 :: _)) => Some (m1, m2, m3)
  | _ => None
  end.

End RegExp.

Module Instance.

(** The objects of one [MarkdownParser] that outlive a call. *)
Record t := {
  HEADING_MARKER_PATTERN : RegExp.t;
  BLOCKQUOTE_MARKER_PATTERN : RegExp.t
}.

(** [new MarkdownParser()]: both patterns are literals without flags. *)
Definition new : t :=
  {| HEADING_MARKER_PATTERN := RegExp.literal;
     BLOCKQUOTE_MARKER_PATTERN := RegExp.literal |}.

(** A method of the instance: it returns a value and the instance as the
    call leaves it, or throws. *)
Definition M (A : Type) : Type := t -> Result (A * t).

Definition unit {A : Type} (a : A) : M A := fun this => Ok (a, this).

Definition then_ {A B : Type} (m : M A) (f : A -> M B) : M B :=
  fun this =>
    match m this with
    | Ok (a, this') => f a this'
    | TypeError => TypeError
    end.

(** A computation that touches no object of the instance. *)
Definition lift {A : Type} (r : Result A) : M A :=
  fun this =>
    match r with
    | Ok a => Ok (a, this)
    | TypeError => TypeError
    end.

Notation "x <~ m ;; k" := (then_ m (fun x => k))
  (at level 61, m at next level, right associativity).

(** [headingText.match(this.HEADING_MARKER_PATTERN)] *)
Definition matchHeadingMarker (headingText : text)
  : M (option RegExp.MatchArray) :=
  fun this =>
    let '(result, pattern) :=
      RegExp.match_ Regex.heading_marker (HEADING_MARKER_PATTERN this)
        headingText in
    Ok (result,
        {| HEADING_MARKER_PATTERN := pattern;
           BLOCKQUOTE_MARKER_PATTERN := BLOCKQUOTE_MARKER_PATTERN this |}).

(** [lineText.match(this.BLOCKQUOTE_MARKER_PATTERN)] *)
Definition matchBlockquoteMarker (lineText : text)
  : M (option RegExp.MatchArray) :=
  fun this =>
    let '(result, pattern) :=
      RegExp.match_ Regex.blockquote_marker (BLOCKQUOTE_MARKER_PATTERN this)
        lineText in
    Ok (result,
        {| HEADING_MARKER_PATTERN := HEADING_MARKER_PATTERN this;
           BLOCKQUOTE_MARKER_PATTERN := pattern |}).

(** [HeadingHandler.extractDecorations] as a method of the handler
    object. *)
Definition HeadingHandler_extractDecorations (node : Node) (text : text)
  : M (list DecorationRange) :=
  if negb (hasValidPosition node) then unit []
  else
    startOffset <~ lift (startOffset node) ;;
    endOffset <~ lift (endOffset node) ;;
    let headingText := substring text startOffset endOffset in
    markerMatch <~ matchHeadingMarker headingText ;;
    match RegExp.isValidMarkerMatch markerMatch with
    | None =>
        if HeadingHandler.isHeadingEmpty text startOffset endOffset
        then unit []
        else unit (HeadingHandler.createFallbackDecoration
                     startOffset endOffset)
    | Some markerMatch =>
        let contentStart :=
          HeadingHandler.getContentStart markerMatch startOffset in
        if (contentStart >=? endOffset)
           || HeadingHandler.isEmptyContent text contentStart endOffset
        then unit []
        else
          unit (HeadingHandler.createMarkerDecoration markerMatch startOffset
                ++ [HeadingHandler.createContentDecoration markerMatch
                      startOffset endOffset (Mdast.depth node)])
    end.

(** One turn of the loop over the lines of a blockquote. *)
Definition BlockquoteHandler_line (text : text) (pos endOffset : Z)
  : M (list DecorationRange * Z) :=
  let lineStart := pos in
  let lineEnd := skip_forward BlockquoteHandler.in_line text pos endOffset in
  let lineText := substring text lineStart lineEnd in
  match_ <~ matchBlockquoteMarker lineText ;;
  let pushed :=
    match RegExp.isValidMarkerMatch match_ with
    | Some (g1, g2, g3) =>
        let leadingWhitespace := len g1 in
        let markerLength := len g2 in
        let trailingWhitespace := len g3 in
        let markerStart := lineStart + leadingWhitespace in
        let markerEnd := markerStart + markerLength + trailingWhitespace in
        if markerEnd >? markerStart
        then [range hide markerStart markerEnd] else []
    | None => []
    end in
  let pos := lineEnd in
  let pos := if (pos <? endOffset) && char_is text pos CR then pos + 1 else pos in
  let pos := if (pos <? endOffset) && char_is text pos LF then pos + 1 else pos in
  unit (pushed, pos).

Fixpoint BlockquoteHandler_lines (fuel : nat) (text : text)
    (pos endOffset : Z) (decorations : list DecorationRange)
  : M (list DecorationRange) :=
  match fuel with
  | O => unit decorations
  | S fuel' =>
      if pos <? endOffset then
        turn <~ BlockquoteHandler_line text pos endOffset ;;
        BlockquoteHandler_lines fuel' text (snd turn) endOffset
          (decorations ++ fst turn)
      else unit decorations
  end.

(** [BlockquoteHandler.extractDecorations] as a method of the handler
    object. *)
Definition BlockquoteHandler_extractDecorations (node : Node) (text : text)
  : M (list DecorationRange) :=
  if negb (hasValidPosition node) then unit []
  else
    startOffset <~ lift (startOffset node) ;;
    endOffset <~ lift (endOffset node) ;;
    let decorations := [] in
    let actualStart :=
      skip_backward BlockquoteHandler.in_line text startOffset 0 in
    let pos := actualStart in
    decorations <~
      BlockquoteHandler_lines (Z.to_nat (endOffset - pos)) text pos
        endOffset decorations ;;
    unit (decorations ++ [range blockquote actualStart endOffset]).

(** A handler object of the instance. *)
Record Handler := {
  accepts : Node -> bool;
  extract : Node -> text -> M (list DecorationRange)
}.

(** A handler whose fields hold no object: its method is the function of
    its module. *)
Definition stateless (handler : NodeHandler) : Handler :=
  {| accepts := canHandle handler;
     extract := fun node text => lift (extractDecorations handler node text) |}.

(** [this.handlers], in the order of the constructor. *)
Definition handlers : list Handler :=
  [{| accepts := HeadingHandler.canHandle;
      extract := HeadingHandler_extractDecorations |};
   stateless StrongHandler.handler;
   stateless EmphasisHandler.handler;
   stateless InlineCodeHandler.handler;
   stateless CodeBlockHandler.handler;
   {| accepts := BlockquoteHandler.canHandle;
      extract := BlockquoteHandler_extractDecorations |};
   stateless HorizontalRuleHandler.handler;
   stateless DeleteHandler.handler;
   stateless LinkHandler.handler;
   stateless ImageHandler.handler;
   stateless LinkReferenceHandler.handler;
   stateless ImageReferenceHandler.handler].

Definition findHandler (node : Node) : option Handler :=
  find (fun handler => accepts handler node) handlers.

(** The callback given to [visit]: besides the collector and the set of
    the call, it passes on the instance. *)
Definition visitor (text : text) (node : Node)
    (st : MarkdownParser.Walk * t) : Result (MarkdownParser.Walk * t) :=
  let '((collector, boldItalicEmphasisRanges), this) := st in
  match findHandler node with
  | None => ret st
  | Some handler =>
      returned <- extract handler node text this ;;
      let '(decorations, this) := returned in
      tracked <-
        (if is_type Mdast.strong node then
           let hasEmphasis :=
             existsb (is_type Mdast.emphasis) (Mdast.children node) in
           if hasEmphasis && MarkdownParser.hasValidPosition node
           then MarkdownParser.trackChildren (Mdast.children node)
                  boldItalicEmphasisRanges
           else ret boldItalicEmphasisRanges
         else ret boldItalicEmphasisRanges) ;;
      ret ((DecorationCollector.addAll collector decorations, tracked), this)
  end.

Section Engine.

Variable parseAST : text -> Node.

(** [MarkdownParser.extractDecorations] as a method of the instance. *)
Definition extractDecorations (text : text) : M (list DecorationRange) :=
  fun this =>
    let ast := parseAST text in
    let collector := DecorationCollector.new in
    let boldItalicEmphasisRanges : list MarkdownParser.RangeKey := [] in
    walked <-
      visit (visitor text) ast
        ((collector, boldItalicEmphasisRanges), this) ;;
    let '((collector, boldItalicEmphasisRanges), this) := walked in
    let allDecorations := DecorationCollector.getAll collector in
    let filteredDecorations :=
      filter (MarkdownParser.keep boldItalicEmphasisRanges)
        allDecorations in
    let highlightDecorations := HighlightHandler.extractDecorations text in
    ret (filteredDecorations ++ highlightDecorations, this).

(** The calls of a session, one after the other on the same instance;
    what they return is dropped. *)
Fixpoint calls (texts : list text) (this : t) : Result t :=
  match texts with
  | [] => ret this
  | text :: rest =>
      returned <- extractDecorations text this ;;
      calls rest (snd returned)
  end.

End Engine.

End Instance.

(** Neither pattern of the instance has a flag under which a match resumes
    at [lastIndex]. *)
Definition flagless (this : Instance.t) : Prop :=
  RegExp.global (Instance.HEADING_MARKER_PATTERN this) = false
  /\ RegExp.sticky (Instance.HEADING_MARKER_PATTERN this) = false
  /\ RegExp.global (Instance.BLOCKQUOTE_MARKER_PATTERN this) = false
  /\ RegExp.sticky (Instance.BLOCKQUOTE_MARKER_PATTERN this) = false.

(** A handler object and the handler it stands for: they accept the same
    nodes, and on an instance without flags the method returns what the
    function returns and leaves the instance as it was. *)
Definition stands_for (object : Instance.Handler) (handler : NodeHandler)
  : Prop :=
  Instance.accepts object = canHandle handler
  /\ forall node text this,
       flagless this ->
       Instance.extract object node text this
       = Instance.lift (extractDecorations handler node text) this.

(** An instance whose heading pattern carries the flag [y]: what the
    constructor would build from [/^(\s* )(#{1,6})(\s+)/y]. *)
Definition sticky_instance : Instance.t :=
  {| Instance.HEADING_MARKER_PATTERN :=
       {| RegExp.global := false; RegExp.sticky := true;
          RegExp.lastIndex := 0 |};
     Instance.BLOCKQUOTE_MARKER_PATTERN := RegExp.literal |}.

(** The claim on duplicates, as it is stated, at one text. *)
Definition no_duplicate_claim (parseAST : text -> Node) (text : text) : Prop :=
  exists out,
    MarkdownParser.extractDecorations parseAST text = Ok out
    /\ NoDup (map DecorationCollector.createKey out).

(** A text that starts with a byte order mark, which the parser skips
    without counting it: the offsets of the tree are those of the text
    without the mark.  The delete node of [~a==~], which stands at
    [1, 6) of the text, is reported at [0, 5). *)
Definition BOM : N := 65279.

Definition marked_page : text := BOM :: str "~a==~ b==".

Definition marked_page_tree : Node :=
  Sample.parent Mdast.root 0 9
    [Sample.parent Mdast.paragraph 0 9
       [Sample.parent Mdast.delete 0 5 [Sample.leaf Mdast.textNode 1 4];
        Sample.leaf Mdast.textNode 5 9]].
(* ===================================================================== *)
(** ** The handlers on the examples of the specification *)
(* ===================================================================== *)

Example bold_example :
  StrongHandler.extractDecorations
    (Sample.parent Mdast.strong 0 8 [Sample.leaf Mdast.textNode 2 6])
    (str "**bold**")
  = Ok [range hide 0 2; range hide 6 8; range bold 2 6].
Proof. reflexivity. Qed.

Example italic_example :
  EmphasisHandler.extractDecorations
    (Sample.parent Mdast.emphasis 0 8 [Sample.leaf Mdast.textNode 1 7])
    (str "*italic*")
  = Ok [range hide 0 1; range hide 7 8; range italic 1 7].
Proof. reflexivity. Qed.

Example code_example :
  InlineCodeHandler.extractDecorations (Sample.leaf Mdast.inlineCode 0 6)
    (str "`code`")
  = Ok [range hide 0 1; range hide 5 6; range code 1 5].
Proof. reflexivity. Qed.

Example strikethrough_example :
  DeleteHandler.extractDecorations (Sample.leaf Mdast.delete 0 7)
    (str "~~old~~")
  = Ok [range hide 0 2; range hide 5 7; range strikethrough 2 5].
Proof. reflexivity. Qed.

Example heading_example :
  HeadingHandler.extractDecorations
    {| Mdast.type := Mdast.heading; Mdast.position := Mdast.at_ 0 8;
       Mdast.depth := Some 2; Mdast.children := [] |}
    (str "## Title")
  = Ok [range hide 0 3;
        {| startPos := 3; endPos := 8; type := heading2; level := Some 2 |}].
Proof. reflexivity. Qed.

Example quote_example :
  BlockquoteHandler.extractDecorations (Sample.leaf Mdast.blockquote 0 11)
    Sample.quote
  = Ok [range hide 0 2; range hide 4 6; range hide 8 10;
        range blockquote 0 11].
Proof. reflexivity. Qed.

Example fenced_block_example :
  CodeBlockHandler.extractDecorations (Sample.leaf Mdast.code 0 11)
    Sample.fenced_block
  = Ok [range hide 0 6; range hide 8 11; range codeBlock 0 11].
Proof. reflexivity. Qed.

Example rule_example :
  HorizontalRuleHandler.extractDecorations
    (Sample.leaf Mdast.thematicBreak 0 3) (str "---")
  = Ok [range hide 0 3; range horizontalRule 0 3].
Proof. reflexivity. Qed.

Example autolink_example :
  LinkHandler.extractDecorations (Sample.leaf Mdast.link 0 12)
    (str "<http://a.b>")
  = Ok [range hide 0 1; range hide 11 12; range link 1 11].
Proof. reflexivity. Qed.

Example image_example :
  ImageHandler.extractDecorations (Sample.leaf Mdast.image 0 11)
    (str "![alt](url)")
  = Ok [range hide 0 1; range hide 1 2; range hide 5 6; range hide 6 11;
        range image 2 5].
Proof. reflexivity. Qed.

Example reference_example :
  LinkReferenceHandler.extractDecorations
    (Sample.leaf Mdast.linkReference 0 11) (str "[text][ref]")
  = Ok [range hide 0 1; range hide 5 6; range hide 6 11; range link 1 5].
Proof. reflexivity. Qed.

Example highlight_example :
  HighlightHandler.extractDecorations (str "==highlight==")
  = [range hide 0 2; range hide 11 13; range highlight 2 11].
Proof. reflexivity. Qed.

(* ===================================================================== *)
(** ** Positions: the validity gate *)
(* ===================================================================== *)

Lemma hasValidPosition_offsets node :
  hasValidPosition node = true <-> exists s e, offsets node = Some (s, e).
Proof.
  unfold hasValidPosition, offsets.
  destruct (Mdast.position node) as [p|].
  - destruct (Mdast.offset (Mdast.start p)), (Mdast.offset (Mdast.end_ p));
      split; intros H; try discriminate; eauto;
      destruct H as (s & e & H); discriminate.
  - split; [discriminate | intros (s & e & H); discriminate].
Qed.

Lemma lacksPosition_invalid node :
  lacksPosition node <-> hasValidPosition node = false.
Proof.
  unfold lacksPosition, hasValidPosition.
  destruct (Mdast.position node) as [p|].
  - destruct (Mdast.offset (Mdast.start p)) eqn:Hs,
             (Mdast.offset (Mdast.end_ p)) eqn:He; split; intros H;
      try reflexivity; try discriminate.
    + destruct H as [H | (q & Hq & [H | H])]; try discriminate;
        inversion Hq; subst q; congruence.
    + right. exists p. split; [reflexivity | right; exact He].
    + right. exists p. split; [reflexivity | left; exact Hs].
    + right. exists p. split; [reflexivity | left; exact Hs].
  - split; intros _; [reflexivity | left; reflexivity].
Qed.

Lemma offsets_valid node s e :
  offsets node = Some (s, e) ->
  hasValidPosition node = true
  /\ MarkdownParser.hasValidPosition node = true
  /\ startOffset node = Ok s /\ endOffset node = Ok e.
Proof.
  unfold offsets, hasValidPosition, MarkdownParser.hasValidPosition,
    startOffset, endOffset.
  destruct (Mdast.position node) as [p|]; [|discriminate].
  destruct (Mdast.offset (Mdast.start p)), (Mdast.offset (Mdast.end_ p));
    intros H; inversion H; subst; auto.
Qed.

Lemma offsets_none node :
  offsets node = None ->
  hasValidPosition node = false /\ MarkdownParser.hasValidPosition node = false.
Proof.
  unfold offsets, hasValidPosition, MarkdownParser.hasValidPosition.
  destruct (Mdast.position node) as [p|]; [|auto].
  destruct (Mdast.offset (Mdast.start p)), (Mdast.offset (Mdast.end_ p));
    intros H; inversion H; auto.
Qed.

Lemma offsets_at node s e :
  Mdast.position node = Mdast.at_ s e -> offsets node = Some (s, e).
Proof. unfold offsets. intros ->. reflexivity. Qed.

(** Every handler starts with the validity gate. *)
Lemma skipped_without_position handler node text :
  In handler MarkdownParser.handlers ->
  hasValidPosition node = false ->
  extractDecorations handler node text = Ok [].
Proof.
  intros Hin Hlack.
  unfold MarkdownParser.handlers in Hin. simpl in Hin.
  repeat (destruct Hin as [<- | Hin];
          [ cbv beta iota delta
              [extractDecorations
               HeadingHandler.handler StrongHandler.handler
               EmphasisHandler.handler InlineCodeHandler.handler
               CodeBlockHandler.handler BlockquoteHandler.handler
               HorizontalRuleHandler.handler DeleteHandler.handler
               LinkHandler.handler ImageHandler.handler
               LinkReferenceHandler.handler ImageReferenceHandler.handler
               HeadingHandler.extractDecorations StrongHandler.extractDecorations
               EmphasisHandler.extractDecorations
               InlineCodeHandler.extractDecorations
               CodeBlockHandler.extractDecorations
               BlockquoteHandler.extractDecorations
               HorizontalRuleHandler.extractDecorations
               DeleteHandler.extractDecorations LinkHandler.extractDecorations
               ImageHandler.extractDecorations
               LinkReferenceHandler.extractDecorations
               ImageReferenceHandler.extractDecorations];
            rewrite Hlack; reflexivity
          | ]).
  contradiction.
Qed.

(** C6.  A node whose position is missing, or one of whose offsets is
    undefined or null, makes every construct handler return the empty list;
    the handler does not throw. *)
Theorem invalid_position_yields_nothing :
  forall (handler : NodeHandler) (node : Node) (text : text),
    In handler MarkdownParser.handlers ->
    lacksPosition node ->
    extractDecorations handler node text = Ok [].
Proof.
  intros handler node text Hin Hlack.
  apply skipped_without_position; [assumption|].
  apply lacksPosition_invalid. assumption.
Qed.

Lemma invalid_position_yields_nothing_witness :
  extractDecorations LinkHandler.handler
    {| Mdast.type := Mdast.link;
       Mdast.position :=
         Some {| Mdast.start := {| Mdast.offset := Some 0 |};
                 Mdast.end_ := {| Mdast.offset := None |} |};
       Mdast.depth := None; Mdast.children := [] |}
    (str "[a](b)") = Ok [].
Proof.
  apply invalid_position_yields_nothing.
  - unfold MarkdownParser.handlers. simpl. tauto.
  - right. eexists. split; [reflexivity | right; reflexivity].
Defined.

(* ===================================================================== *)
(** ** Facts about strings *)
(* ===================================================================== *)

Section TextFacts.

Implicit Types (t a b : text) (p : N -> bool).

Lemma len_nonneg t : 0 <= len t.
Proof. unfold len. lia. Qed.

Lemma len_app a b : len (a ++ b) = len a + len b.
Proof. unfold len. rewrite length_app. lia. Qed.

Lemma len_nil : len [] = 0.
Proof. reflexivity. Qed.

Lemma len_cons c t : len (c :: t) = 1 + len t.
Proof. unfold len. simpl length. lia. Qed.

Lemma text_eqb_eq a b : text_eqb a b = true <-> a = b.
Proof.
  revert b. induction a as [|x a IH]; intros [|y b]; simpl; split;
    intros H; try reflexivity; try discriminate.
  - apply andb_true_iff in H as [Hx Hab].
    apply N.eqb_eq in Hx. apply IH in Hab. congruence.
  - inversion H; subst. rewrite N.eqb_refl. simpl. apply IH. reflexivity.
Qed.

Lemma take_drop_while p t : take_while p t ++ drop_while p t = t.
Proof.
  induction t as [|c t IH]; simpl; [reflexivity|].
  destruct (p c); simpl; [rewrite IH|]; reflexivity.
Qed.

Lemma take_while_all p t : forallb p (take_while p t) = true.
Proof.
  induction t as [|c t IH]; simpl; [reflexivity|].
  destruct (p c) eqn:Hc; simpl; [rewrite Hc, IH|]; reflexivity.
Qed.

Lemma after_take_while p t :
  Regex.after (take_while p t) t = drop_while p t.
Proof.
  unfold Regex.after.
  rewrite <- (take_drop_while p t) at 2.
  rewrite skipn_app, skipn_all, Nat.sub_diag. reflexivity.
Qed.

Lemma firstn_take_while p t :
  firstn (length (take_while p t)) t = take_while p t.
Proof.
  rewrite <- (take_drop_while p t) at 2.
  rewrite firstn_app, firstn_all, Nat.sub_diag. simpl.
  apply app_nil_r.
Qed.

Lemma take_while_length p t : (length (take_while p t) <= length t)%nat.
Proof.
  rewrite <- (take_drop_while p t) at 2. rewrite length_app. lia.
Qed.

Lemma take_while_app p a b :
  forallb p a = true -> take_while p (a ++ b) = a ++ take_while p b.
Proof.
  induction a as [|c a IH]; simpl; intros H; [reflexivity|].
  apply andb_true_iff in H as [Hc Ha]. rewrite Hc, IH by assumption.
  reflexivity.
Qed.

Lemma take_while_stop p c t : p c = false -> take_while p (c :: t) = [].
Proof. simpl. intros ->. reflexivity. Qed.

Lemma take_while_id p t : forallb p t = true -> take_while p t = t.
Proof.
  intros H. rewrite <- (app_nil_r t) at 1.
  rewrite take_while_app by assumption. simpl. apply app_nil_r.
Qed.

Lemma take_while_full p t :
  length (take_while p t) = length t -> forallb p t = true.
Proof.
  intros H. pose proof (take_drop_while p t) as E.
  assert (drop_while p t = []) as D.
  { apply (f_equal (@length N)) in E. rewrite length_app in E.
    destruct (drop_while p t); [reflexivity | simpl in E; lia]. }
  rewrite D, app_nil_r in E. rewrite <- E. apply take_while_all.
Qed.

Lemma drop_while_app p a b :
  forallb p a = true -> drop_while p (a ++ b) = drop_while p b.
Proof.
  induction a as [|c a IH]; simpl; intros H; [reflexivity|].
  apply andb_true_iff in H as [Hc Ha]. rewrite Hc. auto.
Qed.

Lemma drop_while_stop p c t : p c = false -> drop_while p (c :: t) = c :: t.
Proof. simpl. intros ->. reflexivity. Qed.

Lemma drop_while_all p t : forallb p t = true -> drop_while p t = [].
Proof.
  intros H. rewrite <- (app_nil_r t). rewrite drop_while_app by assumption.
  reflexivity.
Qed.

Lemma forallb_firstn p (n : nat) t :
  forallb p t = true -> forallb p (firstn n t) = true.
Proof.
  intros H. rewrite <- (firstn_skipn n t) in H.
  rewrite forallb_app in H. apply andb_true_iff in H. tauto.
Qed.

Lemma forallb_skipn p (n : nat) t :
  forallb p t = true -> forallb p (skipn n t) = true.
Proof.
  intros H. rewrite <- (firstn_skipn n t) in H.
  rewrite forallb_app in H. apply andb_true_iff in H. tauto.
Qed.

Lemma forallb_rev p t : forallb p (rev t) = forallb p t.
Proof.
  induction t as [|c t IH]; simpl; [reflexivity|].
  rewrite forallb_app, IH. simpl. rewrite andb_true_r. apply andb_comm.
Qed.

(** The run at the end of a string is the run at the start of its mirror
    image. *)
Lemma skipn_rev_firstn (k : nat) t :
  (k <= length t)%nat ->
  skipn (length t - k) t = rev (firstn k (rev t)).
Proof.
  intros Hk. rewrite firstn_rev, rev_involutive. reflexivity.
Qed.

Lemma trailing_run_all p t :
  forallb p (skipn (length t - length (take_while p (rev t))) t) = true.
Proof.
  rewrite skipn_rev_firstn.
  - rewrite forallb_rev, firstn_take_while. apply take_while_all.
  - rewrite <- (length_rev t). apply take_while_length.
Qed.

(** When a string is not one single run, its leading and its trailing run
    do not overlap. *)
Lemma runs_disjoint p t :
  length (take_while p t) <> length t ->
  (length (take_while p t) + length (take_while p (rev t)) < length t)%nat.
Proof.
  intros Hne.
  pose proof (take_drop_while p t) as E.
  destruct (drop_while p t) as [|x r] eqn:D.
  { rewrite app_nil_r in E. rewrite E in Hne. contradiction. }
  assert (p x = false) as Hx.
  { clear E Hne. induction t as [|c t IH]; simpl in D; [discriminate|].
    destruct (p c) eqn:Hc; [auto | congruence]. }
  remember (take_while p t) as a eqn:Ha.
  clear Ha D Hne. subst t.
  rewrite rev_app_distr. simpl rev. rewrite <- app_assoc. simpl.
  assert (length (take_while p (rev r ++ x :: rev a)) <= length r)%nat as Hle.
  { rewrite <- (length_rev r).
    generalize (rev r) as u. intros u. induction u as [|c u IH]; simpl.
    - rewrite Hx. simpl. lia.
    - destruct (p c); simpl; lia. }
  rewrite length_app. simpl. lia.
Qed.

End TextFacts.

(* ===================================================================== *)
(** ** The fenced code block *)
(* ===================================================================== *)

Lemma fence_sound raw g1 g2 g3 :
  Regex.fence raw = Some (g1, g2, g3) ->
  raw = g1 ++ g2 ++ g3
  /\ forallb Regex.is_backtick g1 = true /\ (3 <= length g1)%nat
  /\ forallb Regex.is_backtick g3 = true /\ (3 <= length g3)%nat.
Proof.
  unfold Regex.fence.
  set (p := Regex.is_backtick).
  pose proof (take_while_length p raw) as Hl.
  pose proof (take_while_length p (rev raw)) as Ht. rewrite length_rev in Ht.
  destruct (Nat.eqb_spec (length (take_while p raw)) (length raw)) as [Hall | Hne].
  - destruct (Nat.leb_spec 6 (length raw)) as [H6 | H6]; [|discriminate].
    intros H. inversion H; subst g1 g2 g3; clear H.
    apply take_while_full in Hall.
    simpl. rewrite firstn_skipn.
    repeat split.
    + apply forallb_firstn, Hall.
    + rewrite length_firstn. lia.
    + apply forallb_skipn, Hall.
    + rewrite length_skipn. lia.
  - pose proof (runs_disjoint p raw Hne) as Hd.
    destruct (Nat.leb_spec 3 (length (take_while p raw))) as [H3 | H3];
      [|discriminate].
    destruct (Nat.leb_spec 3 (length (take_while p (rev raw)))) as [H3' | H3'];
      [|discriminate].
    simpl. intros H. inversion H; subst g1 g2 g3; clear H.
    set (l := length (take_while p raw)) in *.
    set (t := length (take_while p (rev raw))) in *.
    repeat split.
    + rewrite <- (firstn_skipn l raw) at 1. f_equal.
      rewrite <- (firstn_skipn (length raw - t - l) (skipn l raw)) at 1.
      f_equal. rewrite skipn_skipn. f_equal. lia.
    + unfold l. rewrite firstn_take_while. apply take_while_all.
    + rewrite length_firstn. lia.
    + apply trailing_run_all.
    + rewrite length_skipn. lia.
Qed.

Lemma fence_complete raw : fence_shaped raw -> Regex.fence raw <> None.
Proof.
  intros (o & b & c & -> & Ho & Hlo & Hc & Hlc).
  unfold Regex.fence. set (p := Regex.is_backtick) in *.
  assert (3 <= length (take_while p (o ++ b ++ c)))%nat as H1.
  { rewrite take_while_app by assumption. rewrite length_app. lia. }
  assert (3 <= length (take_while p (rev (o ++ b ++ c))))%nat as H2.
  { rewrite !rev_app_distr, <- app_assoc.
    rewrite take_while_app by (rewrite forallb_rev; assumption).
    rewrite length_app, length_rev. lia. }
  destruct (Nat.eqb_spec (length (take_while p (o ++ b ++ c)))
                         (length (o ++ b ++ c))) as [Hall | Hne].
  - destruct (Nat.leb_spec 6 (length (o ++ b ++ c))) as [H6 | H6];
      [discriminate|].
    rewrite !length_app in H6. lia.
  - destruct (Nat.leb_spec 3 (length (take_while p (o ++ b ++ c))));
      [|lia].
    destruct (Nat.leb_spec 3 (length (take_while p (rev (o ++ b ++ c)))));
      [|lia].
    discriminate.
Qed.

(** C9.  A code node whose raw span is not of the fence pattern gets exactly
    one decoration, of type [code], over the whole span of the node, and the
    handler does not fail. *)
Theorem unfenced_code_is_one_code_range :
  forall (node : Node) (text : text) (s e : Z),
    Mdast.position node = Mdast.at_ s e ->
    ~ fence_shaped (substring text s e) ->
    CodeBlockHandler.extractDecorations node text = Ok [range code s e].
Proof.
  intros node text s e Hpos Hshape.
  apply offsets_at in Hpos.
  destruct (offsets_valid _ Hpos) as (Hv & _ & Hs & He).
  unfold CodeBlockHandler.extractDecorations.
  rewrite Hv, Hs, He. simpl.
  destruct (Regex.fence (substring text s e)) as [[[g1 g2] g3]|] eqn:Hf;
    [|reflexivity].
  exfalso. apply Hshape.
  apply fence_sound in Hf as (E & H1 & H2 & H3 & H4).
  exists g1, g2, g3. auto.
Qed.

Lemma unfenced_code_is_one_code_range_witness :
  CodeBlockHandler.extractDecorations
    (Sample.leaf Mdast.code 0 9) Sample.tilde_block
  = Ok [range code 0 9].
Proof.
  apply unfenced_code_is_one_code_range.
  - reflexivity.
  - intros H. apply fence_complete in H. apply H. vm_compute. reflexivity.
Defined.

(* ===================================================================== *)
(** ** The empty heading *)
(* ===================================================================== *)

Lemma substring_len t a b :
  len (substring t a b)
  = Z.max (clamp t a) (clamp t b) - Z.min (clamp t a) (clamp t b).
Proof.
  unfold substring, len.
  rewrite length_firstn, length_skipn.
  unfold clamp, len. lia.
Qed.

Lemma len_zero_nil (t : text) : len t = 0 -> t = [].
Proof. unfold len. destruct t; simpl; [reflexivity | lia]. Qed.

Lemma trim_blank t : forallb isWhitespace t = true -> trim t = [].
Proof.
  intros H. unfold trim. rewrite (@drop_while_all isWhitespace t H). reflexivity.
Qed.

Lemma whitespace_not_hash c : isWhitespace c = true -> Regex.is_hash c = false.
Proof.
  unfold Regex.is_hash. intros H.
  destruct (N.eqb_spec c HASH) as [-> | ]; [discriminate H | reflexivity].
Qed.

Lemma hash_not_whitespace c : Regex.is_hash c = true -> isWhitespace c = false.
Proof.
  unfold Regex.is_hash. intros H. apply N.eqb_eq in H. subst c. reflexivity.
Qed.

Lemma hashes_all k : forallb Regex.is_hash (repeat HASH k) = true.
Proof. induction k; simpl; auto. Qed.

(** A run that is followed by something of another kind is taken whole. *)
Lemma take_while_run (p q : N -> bool) a b :
  forallb p a = true -> forallb q b = true ->
  (forall c, q c = true -> p c = false) ->
  take_while p (a ++ b) = a.
Proof.
  intros Ha Hb Hpq. rewrite take_while_app by assumption.
  destruct b as [|c b]; simpl; [apply app_nil_r|].
  simpl in Hb. apply andb_true_iff in Hb as [Hc _].
  rewrite (Hpq c Hc). apply app_nil_r.
Qed.

Lemma drop_while_run (p q : N -> bool) a b :
  forallb p a = true -> forallb q b = true ->
  (forall c, q c = true -> p c = false) ->
  drop_while p (a ++ b) = b.
Proof.
  intros Ha Hb Hpq. rewrite drop_while_app by assumption.
  destruct b as [|c b]; simpl; [reflexivity|].
  simpl in Hb. apply andb_true_iff in Hb as [Hc _].
  rewrite (Hpq c Hc). reflexivity.
Qed.

Lemma after_app (a b : text) : Regex.after a (a ++ b) = b.
Proof.
  unfold Regex.after. rewrite skipn_app, skipn_all, Nat.sub_diag. reflexivity.
Qed.

Section MarkerOnly.

Variables (ws1 ws2 : text) (k : nat).
Hypothesis blank1 : forallb isWhitespace ws1 = true.
Hypothesis blank2 : forallb isWhitespace ws2 = true.
Hypothesis marker : (1 <= k <= 6)%nat.

Lemma marker_groups :
  take_while isWhitespace (ws1 ++ repeat HASH k ++ ws2) = ws1
  /\ take_while Regex.is_hash (repeat HASH k ++ ws2) = repeat HASH k
  /\ take_while isWhitespace ws2 = ws2.
Proof.
  repeat split.
  - rewrite take_while_app by assumption.
    destruct k as [|k']; [lia|]. simpl. apply app_nil_r.
  - apply take_while_run with (q := isWhitespace);
      [apply hashes_all | assumption | apply whitespace_not_hash].
  - apply take_while_id. assumption.
Qed.

Lemma heading_marker_of_marker_only :
  Regex.heading_marker (ws1 ++ repeat HASH k ++ ws2)
  = if text_eqb ws2 [] then None else Some (ws1, repeat HASH k, ws2).
Proof.
  unfold Regex.heading_marker.
  destruct marker_groups as (E1 & E2 & E3).
  rewrite E1, after_app, E2, after_app, E3.
  assert (len (repeat HASH k) = Z.of_nat k) as Hk.
  { unfold len. rewrite repeat_length. reflexivity. }
  rewrite Hk.
  destruct (Z.leb_spec 1 (Z.of_nat k)); [|lia].
  destruct (Z.leb_spec (Z.of_nat k) 6); [|lia].
  destruct ws2 as [|c w]; simpl; [reflexivity|].
  rewrite len_cons. pose proof (len_nonneg w).
  destruct (Z.leb_spec 1 (1 + len w)); [reflexivity | lia].
Qed.

Lemma trim_marker_only : trim (ws1 ++ repeat HASH k ++ ws2) = repeat HASH k.
Proof.
  unfold trim.
  rewrite drop_while_app by assumption.
  assert (exists c r, rev (repeat HASH k) = c :: r /\ Regex.is_hash c = true) as (c & r & Er & Hc).
  { pose proof (hashes_all k) as Hall. rewrite <- forallb_rev in Hall.
    destruct (rev (repeat HASH k)) as [|c r] eqn:Er.
    - apply (f_equal (@length N)) in Er. rewrite length_rev in Er.
      rewrite repeat_length in Er. simpl in Er. lia.
    - simpl in Hall. apply andb_true_iff in Hall as [Hc _]. eauto. }
  assert (drop_while isWhitespace (repeat HASH k ++ ws2) = repeat HASH k ++ ws2) as ->.
  { destruct k as [|k']; [lia|]. reflexivity. }
  rewrite rev_app_distr.
  rewrite drop_while_app by (rewrite forallb_rev; assumption).
  rewrite Er, drop_while_stop by (apply hash_not_whitespace; assumption).
  rewrite <- Er. apply rev_involutive.
Qed.

Lemma empty_heading_of_hashes : Regex.empty_heading (repeat HASH k) = true.
Proof.
  unfold Regex.empty_heading.
  assert (drop_while isWhitespace (repeat HASH k) = repeat HASH k) as ->.
  { destruct k as [|k']; [lia|]. reflexivity. }
  rewrite (@take_while_id _ _ (hashes_all k)).
  unfold Regex.after. rewrite skipn_all. simpl.
  assert (len (repeat HASH k) = Z.of_nat k) as ->.
  { unfold len. rewrite repeat_length. reflexivity. }
  destruct (Z.leb_spec 1 (Z.of_nat k)); [|lia].
  destruct (Z.leb_spec (Z.of_nat k) 6); [reflexivity | lia].
Qed.

End MarkerOnly.

(** C7.  A heading whose raw text is only the marker and white space, and a
    heading whose content after a matched marker is empty or white space
    only, get no decoration at all. *)
Theorem empty_heading_yields_nothing :
  forall (node : Node) (text : text) (s e : Z),
    Mdast.position node = Mdast.at_ s e ->
    (forall (ws1 ws2 : Js.text) (k : nat),
        0 <= s ->
        substring text s e = ws1 ++ repeat HASH k ++ ws2 ->
        (1 <= k <= 6)%nat ->
        forallb isWhitespace ws1 = true ->
        forallb isWhitespace ws2 = true ->
        HeadingHandler.extractDecorations node text = Ok [])
    /\ (forall markerMatch : Regex.Groups,
           HeadingHandler.HEADING_MARKER_PATTERN (substring text s e)
           = Some markerMatch ->
           forallb isWhitespace (heading_content text markerMatch s e) = true ->
           HeadingHandler.extractDecorations node text = Ok []).
Proof.
  intros node text s e Hpos.
  apply offsets_at in Hpos.
  destruct (offsets_valid _ Hpos) as (Hv & _ & Hs & He).
  unfold HeadingHandler.extractDecorations.
  rewrite Hv, Hs, He. cbn [negb bind].
  split.
  - intros ws1 ws2 k Hs0 Hraw Hk H1 H2.
    unfold HeadingHandler.HEADING_MARKER_PATTERN, HeadingHandler.isHeadingEmpty.
    rewrite Hraw, heading_marker_of_marker_only by assumption.
    destruct ws2 as [|c w] eqn:Ew.
    + simpl text_eqb. cbv iota. rewrite trim_marker_only by (auto; reflexivity).
      rewrite empty_heading_of_hashes by assumption. reflexivity.
    + cbn [text_eqb]. rewrite <- Ew in *.
      assert (1 <= len ws2) as Hw.
      { subst ws2. rewrite len_cons. pose proof (len_nonneg w). lia. }
      cbn [HeadingHandler.getContentStart].
      assert (len (substring text s e) = len ws1 + Z.of_nat k + len ws2) as Hlen.
      { rewrite Hraw, !len_app. unfold len at 2. rewrite repeat_length. lia. }
      assert (len (repeat HASH k) = Z.of_nat k) as Hh.
      { unfold len. rewrite repeat_length. reflexivity. }
      rewrite Hh.
      set (contentStart := s + len ws1 + Z.of_nat k + len ws2).
      unfold HeadingHandler.isEmptyContent.
      destruct (Z.geb_spec contentStart e) as [Hge | Hlt]; [reflexivity|].
      cbn [orb].
      assert (substring text contentStart e = []) as ->.
      { apply len_zero_nil. rewrite substring_len.
        rewrite substring_len in Hlen.
        pose proof (len_nonneg ws1). pose proof (len_nonneg text).
        unfold clamp in *. subst contentStart. lia. }
      reflexivity.
  - intros g Hm Hblank.
    unfold HeadingHandler.HEADING_MARKER_PATTERN in Hm. 
    unfold HeadingHandler.HEADING_MARKER_PATTERN. rewrite Hm.
    unfold heading_content in Hblank.
    unfold HeadingHandler.isEmptyContent.
    destruct (HeadingHandler.getContentStart g s >=? e); [reflexivity|].
    cbn [orb]. rewrite trim_blank by assumption. reflexivity.
Qed.

Lemma empty_heading_yields_nothing_witness :
  HeadingHandler.extractDecorations (Sample.leaf Mdast.heading 0 2) (str "# ")
  = Ok []
  /\ HeadingHandler.extractDecorations (Sample.leaf Mdast.heading 0 5)
       (str "###  ")
     = Ok [].
Proof.
  split.
  - apply (proj1 (@empty_heading_yields_nothing
                    (Sample.leaf Mdast.heading 0 2) (str "# ") 0 2 eq_refl)
             [] [SPACE] 1%nat);
      [lia | reflexivity | lia | reflexivity | reflexivity].
  - apply (proj2 (@empty_heading_yields_nothing
                    (Sample.leaf Mdast.heading 0 5) (str "###  ") 0 5 eq_refl)
             ([], str "###", str "  ")); reflexivity.
Defined.

(* ===================================================================== *)
(** ** The highlight scanner *)
(* ===================================================================== *)

Section Highlight.

Variable text : Js.text.

Lemma starts_with_delimiter t :
  starts_with HighlightHandler.DELIMITER t = true <-> pair_at t 0.
Proof.
  unfold pair_at, HighlightHandler.DELIMITER.
  destruct t as [|c [|d t]]; cbn [starts_with nth_error].
  - split; [discriminate | intros [H _]; discriminate].
  - rewrite andb_false_r. split; [discriminate | intros [_ H]; discriminate].
  - rewrite andb_true_r, andb_true_iff, !N.eqb_eq.
    split; intros [H1 H2]; split; congruence.
Qed.

Lemma find_from_spec t : forall base,
  match find_from HighlightHandler.DELIMITER t base with
  | Some o =>
      exists i : nat, o = base + Z.of_nat i /\ pair_at t i
                      /\ forall j, (j < i)%nat -> ~ pair_at t j
  | None => forall j, ~ pair_at t j
  end.
Proof.
  induction t as [|c t IH]; intros base.
  - simpl. intros j [H _]. destruct j; discriminate.
  - cbn [find_from].
    destruct (starts_with HighlightHandler.DELIMITER (c :: t)) eqn:Hs.
    + exists 0%nat. split; [lia|]. split.
      * apply starts_with_delimiter. assumption.
      * intros j Hj. lia.
    + assert (~ pair_at (c :: t) 0) as H0.
      { intros H. apply starts_with_delimiter in H. congruence. }
      specialize (IH (base + 1)).
      destruct (find_from HighlightHandler.DELIMITER t (base + 1)) as [o|].
      * destruct IH as (i & -> & Hi & Hfirst).
        exists (S i). split; [lia|]. split; [exact Hi|].
        intros [|j] Hj; [exact H0|]. apply Hfirst. lia.
      * intros [|j]; [exact H0 | apply IH].
Qed.

Lemma char_at_nat (i : nat) : char_at text (Z.of_nat i) = nth_error text i.
Proof.
  unfold char_at. destruct (Z.ltb_spec (Z.of_nat i) 0); [lia|].
  rewrite Nat2Z.id. reflexivity.
Qed.

Lemma char_at_negative i : i < 0 -> char_at text i = None.
Proof. unfold char_at. intros H. destruct (Z.ltb_spec i 0); [reflexivity|lia]. Qed.

Lemma char_at_some i c : char_at text i = Some c -> 0 <= i < len text.
Proof.
  unfold char_at, len. destruct (Z.ltb_spec i 0); [discriminate|].
  intros H'. assert (nth_error text (Z.to_nat i) <> None) as Hn by congruence.
  apply nth_error_Some in Hn. lia.
Qed.

Lemma delimiter_at_skipn (k i : nat) :
  pair_at (skipn k text) i <-> delimiter_at text (Z.of_nat k + Z.of_nat i).
Proof.
  unfold pair_at, delimiter_at.
  rewrite !nth_error_skipn.
  replace (Z.of_nat k + Z.of_nat i) with (Z.of_nat (k + i)) by lia.
  replace (Z.of_nat (k + i) + 1) with (Z.of_nat (k + S i)) by lia.
  rewrite !char_at_nat. reflexivity.
Qed.

Lemma delimiter_inside i : delimiter_at text i -> 0 <= i /\ i + 2 <= len text.
Proof.
  intros [H1 H2]. apply char_at_some in H1, H2. lia.
Qed.

Lemma indexOf_spec from :
  0 <= from ->
  match indexOf text HighlightHandler.DELIMITER from with
  | Some o => next_delimiter text from o
  | None => no_delimiter text from
  end.
Proof.
  intros Hfrom. unfold indexOf.
  pose proof (len_nonneg text) as Hlen.
  set (k := clamp text from).
  assert (0 <= k <= len text /\ k <= from /\ (from <= len text -> k = from))
    as (Hk & Hkf & Hke) by (unfold k, clamp; lia).
  pose proof (find_from_spec (skipn (Z.to_nat k) text) k) as H.
  destruct (find_from HighlightHandler.DELIMITER (skipn (Z.to_nat k) text) k)
    as [o|].
  - destruct H as (i & -> & Hi & Hfirst).
    apply delimiter_at_skipn in Hi. rewrite Z2Nat.id in Hi by lia.
    pose proof (delimiter_inside Hi) as Hin.
    assert (k = from) as Ek.
    { apply Hke. destruct (Z_le_gt_dec from (len text)); [assumption|].
      exfalso. unfold k, clamp in *. lia. }
    rewrite Ek in *. repeat split; [lia | apply Hi | apply Hi |].
    intros j Hj Hd.
    apply (Hfirst (Z.to_nat (j - from))); [lia|].
    apply delimiter_at_skipn. rewrite !Z2Nat.id by lia.
    replace (from + (j - from)) with j by lia. exact Hd.
  - intros j Hj Hd. pose proof (delimiter_inside Hd) as Hin.
    assert (k = from) as Ek by (apply Hke; lia).
    apply (H (Z.to_nat (j - k))).
    apply delimiter_at_skipn. rewrite !Z2Nat.id by lia.
    replace (k + (j - k)) with j by lia. exact Hd.
Qed.

Lemma next_delimiter_unique from o o' :
  next_delimiter text from o -> next_delimiter text from o' -> o = o'.
Proof.
  intros (H1 & H2 & H3) (H1' & H2' & H3').
  destruct (Z.lt_trichotomy o o') as [Hlt | [Heq | Hgt]]; [|assumption|].
  - exfalso. apply (H3' o); [lia | assumption].
  - exfalso. apply (H3 o'); [lia | assumption].
Qed.

Lemma next_delimiter_exists from o :
  next_delimiter text from o -> no_delimiter text from -> False.
Proof. intros (H1 & H2 & _) H. apply (H o); assumption. Qed.

(** The specification determines the list. *)
Lemma Highlights_unique pos l :
  Highlights text pos l -> forall l', Highlights text pos l' -> l = l'.
Proof.
  induction 1 as [pos Hno | pos o Ho Hno | pos o c rest Ho Hc Hrest IH];
    intros l' H'; inversion H' as [? Hno' | ? o' Ho' Hno' | ? o' c' rest' Ho' Hc' Hrest'];
    subst; try reflexivity.
  - exfalso. exact (next_delimiter_exists Ho' Hno).
  - rewrite <- (next_delimiter_unique Ho Ho') in *.
    exfalso. exact (next_delimiter_exists Hc' Hno).
  - exfalso. exact (next_delimiter_exists Ho Hno').
  - rewrite <- (next_delimiter_unique Ho Ho') in *.
    exfalso. exact (next_delimiter_exists Hc Hno').
  - rewrite <- (next_delimiter_unique Ho Ho') in *.
    rewrite <- (next_delimiter_unique Hc Hc') in *.
    f_equal. apply IH. assumption.
Qed.

(** The array built so far is only appended to. *)
Lemma scan_app fuel : forall pos acc,
  HighlightHandler.scan fuel text pos acc
  = acc ++ HighlightHandler.scan fuel text pos [].
Proof.
  induction fuel as [|fuel IH]; intros pos acc; simpl.
  - symmetry. apply app_nil_r.
  - destruct (pos <? len text); [|symmetry; apply app_nil_r].
    destruct (indexOf text HighlightHandler.DELIMITER pos) as [o|];
      [|symmetry; apply app_nil_r].
    destruct (indexOf text HighlightHandler.DELIMITER (o + 2)) as [c|];
      [|symmetry; apply app_nil_r].
    rewrite IH. rewrite (IH _ (if c >? o + 2 then _ else _)).
    destruct (c >? o + 2); simpl; rewrite <- ?app_assoc; reflexivity.
Qed.

(** With fuel for the characters that are left, the loop computes the list
    of the specification. *)
Lemma scan_Highlights fuel : forall pos,
  0 <= pos -> len text - pos <= Z.of_nat fuel ->
  Highlights text pos (HighlightHandler.scan fuel text pos []).
Proof.
  induction fuel as [|fuel IH]; intros pos Hpos Hfuel.
  - simpl. apply no_opening. intros i Hi Hd.
    apply delimiter_inside in Hd. lia.
  - cbn [HighlightHandler.scan].
    destruct (Z.ltb_spec pos (len text)) as [Hlt | Hge].
    + pose proof (indexOf_spec Hpos) as Ho.
      destruct (indexOf text HighlightHandler.DELIMITER pos) as [o|];
        [|apply no_opening; assumption].
      assert (0 <= o + 2) as Ho2 by (destruct Ho; lia).
      pose proof (indexOf_spec Ho2) as Hc.
      destruct (indexOf text HighlightHandler.DELIMITER (o + 2)) as [c|];
        [|eapply no_closing; eassumption].
      rewrite scan_app. simpl app at 1.
      change (if c >? o + 2 then _ else []) with (highlight_of o c).
      eapply pair_found; try eassumption.
      apply IH; destruct Ho as (? & ? & ?), Hc as (? & ? & ?); lia.
    + apply no_opening. intros i Hi Hd.
      apply delimiter_inside in Hd. lia.
Qed.

(** More fuel than the characters that are left changes nothing. *)
Lemma scan_fuel fuel fuel' pos :
  0 <= pos ->
  len text - pos <= Z.of_nat fuel -> len text - pos <= Z.of_nat fuel' ->
  HighlightHandler.scan fuel text pos []
  = HighlightHandler.scan fuel' text pos [].
Proof.
  intros Hpos H1 H2.
  eapply Highlights_unique; apply scan_Highlights; assumption.
Qed.

End Highlight.

(** C8.  The highlight scanner emits, for each successive pair of [==]
    delimiters with at least one character between them, two hides of two
    characters and one highlight over the interior, and goes on after the
    closing delimiter; an opening delimiter without a closing one yields
    nothing.  This is the relation [Highlights], which the scanner computes
    and which determines its result. *)
Theorem highlight_scanner_pairs_delimiters :
  forall text : text,
    Highlights text 0 (HighlightHandler.extractDecorations text)
    /\ (forall l, Highlights text 0 l ->
                  l = HighlightHandler.extractDecorations text)
    /\ (forall o, next_delimiter text 0 o -> no_delimiter text (o + 2) ->
                  HighlightHandler.extractDecorations text = []).
Proof.
  intros text.
  assert (Highlights text 0 (HighlightHandler.extractDecorations text)) as H.
  { apply scan_Highlights; [lia | unfold len; lia]. }
  split; [exact H|]. split.
  - intros l Hl. eapply Highlights_unique; eassumption.
  - intros o Ho Hno. eapply Highlights_unique; [exact H|].
    eapply no_closing; eassumption.
Qed.

Lemma highlight_scanner_pairs_delimiters_witness :
  HighlightHandler.extractDecorations (str "==open") = [].
Proof.
  apply (proj2 (proj2 (highlight_scanner_pairs_delimiters (str "==open"))) 0).
  - exact (@indexOf_spec (str "==open") 0 ltac:(lia)).
  - exact (@indexOf_spec (str "==open") 2 ltac:(lia)).
Defined.

(* ===================================================================== *)
(** ** Reading a span of the text *)
(* ===================================================================== *)

Section Segments.

Variable text : Js.text.

Lemma seg_at_substring s e :
  0 <= s -> s <= e -> e <= len text -> seg_at text s (substring text s e).
Proof.
  intros Hs Hse He. split; [assumption|]. intros i Hi.
  unfold substring in *. unfold clamp in *.
  replace (Z.max 0 (Z.min s (len text))) with s in * by lia.
  replace (Z.max 0 (Z.min e (len text))) with e in * by lia.
  replace (Z.min s e) with s in * by lia.
  replace (Z.max s e) with e in * by lia.
  rewrite length_firstn in Hi.
  rewrite nth_error_firstn.
  destruct (Nat.ltb_spec i (Z.to_nat (e - s))); [|lia].
  rewrite nth_error_skipn.
  replace (s + Z.of_nat i) with (Z.of_nat (Z.to_nat s + i)) by lia.
  apply char_at_nat.
Qed.

Lemma seg_at_app p a b :
  seg_at text p (a ++ b) -> seg_at text p a /\ seg_at text (p + len a) b.
Proof.
  intros [Hp H]. pose proof (len_nonneg a) as Ha. unfold len in *.
  split; split; try lia.
  - intros i Hi. rewrite H by (rewrite length_app; lia).
    apply nth_error_app1. assumption.
  - intros i Hi.
    replace (p + Z.of_nat (length a) + Z.of_nat i)
      with (p + Z.of_nat (length a + i)) by lia.
    rewrite H by (rewrite length_app; lia).
    rewrite nth_error_app2 by lia. f_equal. lia.
Qed.

Lemma seg_at_cons p c r :
  seg_at text p (c :: r) -> char_at text p = Some c /\ seg_at text (p + 1) r.
Proof.
  intros H. change (c :: r) with ([c] ++ r) in H.
  apply seg_at_app in H as [[Hp H1] H2]. split.
  - specialize (H1 0%nat). simpl in H1. rewrite Z.add_0_r in H1.
    apply H1. lia.
  - exact H2.
Qed.

Lemma seg_at_inside p seg :
  seg_at text p seg -> seg <> [] -> p + len seg <= len text.
Proof.
  intros [Hp H] Hne.
  assert (length seg <> 0)%nat as Hn by (destruct seg; simpl; congruence).
  specialize (H (length seg - 1)%nat ltac:(lia)).
  destruct (nth_error seg (length seg - 1)) as [x|] eqn:Hx.
  - apply char_at_some in H. unfold len in *. lia.
  - apply nth_error_None in Hx. lia.
Qed.

(** The loop [while (pos < limit && cond(text[pos])) pos++] steps over a
    segment all of whose code units satisfy the condition. *)
Lemma advance_over cond seg : forall p k,
  seg_at text p seg ->
  forallb (fun c => cond (Some c)) seg = true ->
  advance (length seg + k) cond text p = advance k cond text (p + len seg).
Proof.
  induction seg as [|c r IH]; intros p k Hseg Hall.
  - simpl. unfold len. simpl. rewrite Z.add_0_r. reflexivity.
  - apply seg_at_cons in Hseg as [Hc Hr].
    simpl in Hall. apply andb_true_iff in Hall as [Hcc Hall].
    cbn [length Nat.add advance]. rewrite Hc, Hcc.
    rewrite IH by assumption. rewrite len_cons. f_equal. lia.
Qed.

Lemma advance_stop cond p k :
  cond (char_at text p) = false -> advance k cond text p = p.
Proof. intros H. destruct k; simpl; [|rewrite H]; reflexivity. Qed.

(** The scan for a closing bracket stops on the first one. *)
Lemma until_found c seg p limit :
  seg_at text p (seg ++ [c]) ->
  forallb (fun x => negb (N.eqb x c)) seg = true ->
  p + len seg < limit ->
  Scan.until c text p limit = p + len seg.
Proof.
  intros Hseg Hall Hlim.
  apply seg_at_app in Hseg as [Ha Hc].
  apply seg_at_cons in Hc as [Hc _].
  unfold Scan.until, skip_forward.
  pose proof (len_nonneg seg) as Hl. unfold len in *.
  replace (Z.to_nat (limit - p))
    with (length seg + Z.to_nat (limit - p - Z.of_nat (length seg)))%nat by lia.
  rewrite advance_over; [|assumption|].
  - apply advance_stop. unfold len. rewrite Hc. unfold differs, same.
    rewrite N.eqb_refl. reflexivity.
  - exact Hall.
Qed.

(** The scan for the opening parenthesis steps over separators. *)
Lemma opening_over c seg : forall p k,
  seg_at text p seg ->
  forallb is_separator seg = true ->
  is_separator c = false ->
  Scan.opening_loop (length seg + k) c text p
  = Scan.opening_loop k c text (p + len seg).
Proof.
  intros p k Hseg Hall Hc. revert p k Hseg.
  induction seg as [|x r IH]; intros p k Hseg.
  - simpl. unfold len. simpl. rewrite Z.add_0_r. reflexivity.
  - apply seg_at_cons in Hseg as [Hx Hr].
    simpl in Hall. apply andb_true_iff in Hall as [Hxs Hall].
    cbn [length Nat.add Scan.opening_loop]. rewrite Hx.
    assert (differs c (Some x) = true) as ->.
    { unfold differs, same. destruct (N.eqb_spec x c) as [-> | ];
        [congruence | reflexivity]. }
    assert (differs SPACE (Some x) && differs LF (Some x)
            && differs CR (Some x) = false) as ->.
    { unfold differs, same. unfold is_separator in Hxs.
      destruct (N.eqb x SPACE), (N.eqb x LF), (N.eqb x CR);
        try reflexivity; discriminate. }
    rewrite IH by assumption. rewrite len_cons. f_equal. lia.
Qed.

Lemma opening_found c p k :
  char_at text p = Some c -> Scan.opening_loop (S k) c text p = Some p.
Proof.
  intros H. simpl. rewrite H. unfold differs, same. rewrite N.eqb_refl.
  reflexivity.
Qed.

(** A code unit that is neither a separator nor the one looked for makes
    the scan give up. *)
Lemma opening_gives_up c x p k :
  char_at text p = Some x -> is_separator x = false -> N.eqb x c = false ->
  Scan.opening_loop (S k) c text p = None.
Proof.
  intros H Hs Hc. simpl. rewrite H. unfold differs, same. rewrite Hc.
  unfold is_separator in Hs.
  destruct (N.eqb x SPACE), (N.eqb x LF), (N.eqb x CR);
    try discriminate; reflexivity.
Qed.

(** The depth-counted scan steps over a segment along which the depth
    stays positive, whatever is left of its fuel. *)
Lemma closing_paren_over seg : forall p d k,
  seg_at text p seg -> 0 < d -> stays_open seg d = true ->
  exists d', 0 < d'
    /\ Scan.closing_paren_loop (length seg + k) text p d
       = Scan.closing_paren_loop k text (p + len seg) d'.
Proof.
  induction seg as [|c r IH]; intros p d k Hseg Hd Hopen.
  - exists d. split; [assumption|]. simpl. unfold len. simpl.
    rewrite Z.add_0_r. reflexivity.
  - apply seg_at_cons in Hseg as [Hc Hr].
    simpl in Hopen. apply andb_true_iff in Hopen as [Hpos Hopen].
    apply Z.ltb_lt in Hpos.
    destruct (IH (p + 1) (paren_step d c) k Hr Hpos Hopen) as (d' & Hd' & E).
    exists d'. split; [assumption|].
    cbn [length Nat.add Scan.closing_paren_loop].
    destruct (Z.gtb_spec d 0); [|lia].
    rewrite Hc. unfold same.
    change (if N.eqb c LPAREN then d + 1
            else if N.eqb c RPAREN then d - 1 else d)
      with (paren_step d c).
    rewrite E, len_cons. f_equal. lia.
Qed.

(** The scan ends at the limit when there is nothing left to read. *)
Lemma closing_paren_last p d :
  0 < d -> Scan.closing_paren_loop 1 text p d = p + 1.
Proof.
  intros Hd. simpl. destruct (Z.gtb_spec d 0); [reflexivity | lia].
Qed.

End Segments.

(* ===================================================================== *)
(** ** Inline links *)
(* ===================================================================== *)

Lemma closing_paren_loop_forward text fuel : forall p d,
  p <= Scan.closing_paren_loop fuel text p d.
Proof.
  induction fuel as [|fuel IH]; intros p d; simpl; [lia|].
  destruct (d >? 0); [|lia].
  etransitivity; [|apply IH]. lia.
Qed.

Lemma closing_paren_loop_bounded text fuel : forall p d,
  Scan.closing_paren_loop fuel text p d <= p + Z.of_nat fuel.
Proof.
  induction fuel as [|fuel IH]; intros p d; cbn [Scan.closing_paren_loop]; [lia|].
  destruct (d >? 0); [|lia].
  etransitivity; [apply IH|]. lia.
Qed.

Lemma same_iff d c : same d c = true <-> c = Some d.
Proof.
  unfold same. destruct c as [x|]; [|split; discriminate].
  rewrite N.eqb_eq. split; congruence.
Qed.

Lemma not_wrapped text s e :
  ~ wrapped_in_angles text s e ->
  same LT (if s >? 0 then char_at text (s - 1) else None)
  && same GT (if e <? len text then char_at text e else None) = false.
Proof.
  intros H. apply not_true_is_false. intros Hb. apply H.
  apply andb_true_iff in Hb as [H1 H2].
  apply same_iff in H1, H2.
  destruct (s >? 0); [|discriminate].
  destruct (e <? len text); [|discriminate].
  split; assumption.
Qed.

(** What the handler does once it has found the closing bracket of a span
    that reads [[ t ] r]. *)
Lemma link_after_bracket node text s e t r :
  offsets node = Some (s, e) ->
  0 <= s -> s <= e -> e <= len text ->
  substring text s e = [LBRACKET] ++ t ++ [RBRACKET] ++ r ->
  forallb not_rbracket t = true ->
  ~ wrapped_in_angles text s e ->
  seg_at text (s + 1 + len t + 1) r
  /\ e = s + 1 + len t + 1 + len r
  /\ LinkHandler.extractDecorations node text
     = match Scan.opening LPAREN text (s + 1 + len t + 1) e with
       | None => Ok []
       | Some parenStart =>
           if parenStart >=? e then Ok []
           else
             let parenEnd := Scan.closing_paren text (parenStart + 1) e in
             if (s <? s + 1 + len t) && (parenStart <? parenEnd) then
               Ok ([range hide s (s + 1);
                    range hide (s + 1 + len t) (s + 1 + len t + 1);
                    range hide parenStart parenEnd]
                   ++ (if s + 1 + len t >? s + 1
                       then [range link (s + 1) (s + 1 + len t)] else []))
             else Ok []
       end.
Proof.
  intros Hoff Hs0 Hse Hel Hraw Ht Hwrap.
  destruct (offsets_valid _ Hoff) as (Hv & _ & Hs & He).
  pose proof (@seg_at_substring text s e Hs0 Hse Hel) as Hseg.
  assert (e - s = 1 + len t + 1 + len r) as Hlen.
  { pose proof (substring_len text s e) as L. rewrite Hraw in L.
    rewrite !len_app in L. unfold clamp in L.
    change (len [LBRACKET]) with 1 in L. change (len [RBRACKET]) with 1 in L.
    lia. }
  pose proof (len_nonneg t) as Lt. pose proof (len_nonneg r) as Lr.
  rewrite Hraw in Hseg.
  apply seg_at_app in Hseg as [Hopen Hseg].
  apply seg_at_cons in Hopen as [Hopen _].
  change (len [LBRACKET]) with 1 in Hseg.
  rewrite app_assoc in Hseg.
  apply seg_at_app in Hseg as [Htext Hrest].
  rewrite len_app in Hrest. change (len [RBRACKET]) with 1 in Hrest.
  replace (s + 1 + (len t + 1)) with (s + 1 + len t + 1) in Hrest by lia.
  split; [exact Hrest|]. split; [lia|].
  unfold LinkHandler.extractDecorations.
  rewrite Hv, Hs, He. cbn [negb bind].
  rewrite (@not_wrapped text s e Hwrap).
  destruct (Z.ltb_spec s (len text)); [|lia].
  rewrite Hopen. cbn [same]. change (N.eqb LBRACKET LT) with false.
  cbn [andb].
  rewrite Hraw. change (differs LBRACKET (char_at ([LBRACKET] ++ _) 0)) with false.
  cbv iota.
  rewrite (@until_found text RBRACKET t (s + 1) e Htext Ht ltac:(lia)).
  destruct (Z.geb_spec (s + 1 + len t) e); [lia|].
  reflexivity.
Qed.

(** What the handler does on a span that reads [[ t ] w ( u]: everything
    but the end of the last hide is fixed by the shape. *)
Lemma link_of_inline_shape node text s e t w u :
  offsets node = Some (s, e) ->
  inline_link text s e t w u ->
  ~ wrapped_in_angles text s e ->
  LinkHandler.extractDecorations node text
  = Ok ([range hide s (s + 1);
         range hide (s + 1 + len t) (s + 1 + len t + 1);
         range hide (s + 1 + len t + 1 + len w)
           (Scan.closing_paren text (s + 1 + len t + 1 + len w + 1) e)]
        ++ (if s + 1 + len t >? s + 1
            then [range link (s + 1) (s + 1 + len t)] else [])).
Proof.
  intros Hoff (Hs0 & Hse & Hel & Hraw & Ht & Hw) Hwrap.
  destruct (@link_after_bracket node text s e t (w ++ [LPAREN] ++ u)
              Hoff Hs0 Hse Hel Hraw Ht Hwrap) as (Hseg & Hlen & ->).
  rewrite !len_app in Hlen. change (len [LPAREN]) with 1 in Hlen.
  pose proof (len_nonneg t) as Lt. pose proof (len_nonneg w) as Lw.
  pose proof (len_nonneg u) as Lu.
  apply seg_at_app in Hseg as [Hsep Hseg].
  apply seg_at_app in Hseg as [Hparen _].
  apply seg_at_cons in Hparen as [Hparen _].
  unfold Scan.opening.
  replace (Z.to_nat (e - (s + 1 + len t + 1)))
    with (length w + S (Z.to_nat (len u)))%nat by (unfold len in *; lia).
  rewrite (@opening_over text LPAREN w _ _ Hsep Hw eq_refl).
  rewrite (@opening_found text LPAREN _ _ Hparen).
  destruct (Z.geb_spec (s + 1 + len t + 1 + len w) e); [lia|].
  destruct (Z.ltb_spec s (s + 1 + len t)); [|lia].
  pose proof (closing_paren_loop_forward text
                (Z.to_nat (e - (s + 1 + len t + 1 + len w + 1)))
                (s + 1 + len t + 1 + len w + 1) 1) as Hfwd.
  fold (Scan.closing_paren text (s + 1 + len t + 1 + len w + 1) e) in Hfwd.
  cbv zeta.
  destruct (Z.ltb_spec (s + 1 + len t + 1 + len w)
              (Scan.closing_paren text (s + 1 + len t + 1 + len w + 1) e));
    [|lia].
  reflexivity.
Qed.

(** The depth-counted scan ends at the end of the span when no closing
    parenthesis brings the depth to zero before the last code unit. *)
Lemma closing_paren_reaches_end text p e u :
  seg_at text p u -> e = p + len u -> stays_open u 1 = true ->
  Scan.closing_paren text p e = e.
Proof.
  intros Hseg -> Hopen. unfold Scan.closing_paren.
  replace (Z.to_nat (p + len u - p)) with (length u + 0)%nat
    by (unfold len; lia).
  destruct (@closing_paren_over text u p 1 0%nat Hseg ltac:(lia) Hopen)
    as (d' & _ & ->).
  reflexivity.
Qed.

Lemma closing_paren_reaches_last text p e u c :
  seg_at text p (u ++ [c]) -> e = p + len u + 1 -> stays_open u 1 = true ->
  Scan.closing_paren text p e = e.
Proof.
  intros Hseg -> Hopen. unfold Scan.closing_paren.
  apply seg_at_app in Hseg as [Hu _].
  replace (Z.to_nat (p + len u + 1 - p)) with (length u + 1)%nat
    by (unfold len; lia).
  destruct (@closing_paren_over text u p 1 1%nat Hu ltac:(lia) Hopen)
    as (d' & Hd' & ->).
  apply (@closing_paren_last text _ d' Hd').
Qed.

Lemma inline_link_tail text s e t w u :
  inline_link text s e t w u ->
  seg_at text (s + 1 + len t + 1 + len w + 1) u
  /\ e = s + 1 + len t + 1 + len w + 1 + len u.
Proof.
  intros (Hs0 & Hse & Hel & Hraw & Ht & Hw).
  pose proof (@seg_at_substring text s e Hs0 Hse Hel) as Hseg.
  pose proof (substring_len text s e) as L. rewrite Hraw in L.
  rewrite !len_app in L. unfold clamp in L.
  change (len [LBRACKET]) with 1 in L. change (len [RBRACKET]) with 1 in L.
  change (len [LPAREN]) with 1 in L.
  pose proof (len_nonneg t). pose proof (len_nonneg w).
  pose proof (len_nonneg u).
  rewrite Hraw in Hseg.
  apply seg_at_app in Hseg as [_ Hseg]. change (len [LBRACKET]) with 1 in Hseg.
  apply seg_at_app in Hseg as [_ Hseg].
  apply seg_at_app in Hseg as [_ Hseg]. change (len [RBRACKET]) with 1 in Hseg.
  apply seg_at_app in Hseg as [_ Hseg].
  apply seg_at_app in Hseg as [_ Hseg]. change (len [LPAREN]) with 1 in Hseg.
  split; [exact Hseg | lia].
Qed.

(** C10, amended.  On a link node that lies in the text and reads
    [[ t ] w ( u], with no closing bracket in [t], only blanks, line feeds
    and carriage returns in [w] and parentheses in [u] that are never
    balanced, and that does not stand between [<] and [>]: the depth-counted
    scan stops at the end of the node, and the handler emits the two bracket
    hides, a hide from the parenthesis to the end of the node and, when [t]
    is not empty, the link range over [t]. *)
Theorem unbalanced_link_hidden_to_node_end :
  forall (node : Node) (text : text) (s e : Z) (t w u : Js.text),
    Mdast.position node = Mdast.at_ s e ->
    inline_link text s e t w u ->
    stays_open u 1 = true ->
    ~ wrapped_in_angles text s e ->
    let bracketEnd := s + 1 + len t in
    let parenStart := bracketEnd + 1 + len w in
    Scan.closing_paren text (parenStart + 1) e = e
    /\ LinkHandler.extractDecorations node text
       = Ok ([range hide s (s + 1);
              range hide bracketEnd (bracketEnd + 1);
              range hide parenStart e]
             ++ (if text_eqb t [] then [] else [range link (s + 1) bracketEnd])).
Proof.
  intros node text s e t w u Hpos Hshape Hopen Hwrap bracketEnd parenStart.
  apply offsets_at in Hpos.
  destruct (@inline_link_tail text s e t w u Hshape) as (Hu & He).
  assert (Scan.closing_paren text (parenStart + 1) e = e) as Hend.
  { eapply closing_paren_reaches_end; eassumption. }
  split; [exact Hend|].
  rewrite (@link_of_inline_shape node text s e t w u Hpos Hshape Hwrap).
  fold bracketEnd. fold parenStart. rewrite Hend.
  do 2 f_equal.
  destruct t as [|c t']; cbn [text_eqb].
  - subst bracketEnd. rewrite len_nil.
    destruct (Z.gtb_spec (s + 1 + 0) (s + 1)); [lia | reflexivity].
  - subst bracketEnd. rewrite len_cons. pose proof (len_nonneg t').
    destruct (Z.gtb_spec (s + 1 + (1 + len t')) (s + 1)); [reflexivity | lia].
Qed.

Lemma unbalanced_link_hidden_to_node_end_witness :
  Scan.closing_paren Sample.open_paren_link 4 9 = 9
  /\ LinkHandler.extractDecorations (Sample.leaf Mdast.link 0 9)
       Sample.open_paren_link
     = Ok [range hide 0 1; range hide 2 3; range hide 3 9; range link 1 2].
Proof.
  apply (@unbalanced_link_hidden_to_node_end
           (Sample.leaf Mdast.link 0 9) Sample.open_paren_link 0 9
           (str "a") [] (str "<b(>)")).
  - reflexivity.
  - repeat split; try reflexivity; vm_compute; discriminate.
  - reflexivity.
  - intros [H _]. discriminate H.
Defined.

(** C10, as stated, fails at three inputs.  A link between [<] and [>] is
    taken for an autolink: none of the hides of the claim is emitted.  A link
    with an empty text gets no link range.  On a link around an image the
    handler stops at the closing bracket of the image, whose parentheses are
    balanced: the hides fall on the image and none reaches the end of the
    node. *)
Lemma unbalanced_link_counterexample :
  ~ open_link_claim (Sample.leaf Mdast.link 1 10)
      Sample.angled_open_paren_link 1 10 (str "a") [] (str "<b(>)")
  /\ ~ open_link_claim (Sample.leaf Mdast.link 0 7)
        Sample.empty_text_open_link 0 7 [] [] (str "<(>)")
  /\ ~ open_link_claim Sample.open_paren_badge_link
        Sample.open_paren_badge 0 15 (str "![a](b)") [] (str "<c(>)")
  /\ LinkHandler.extractDecorations Sample.open_paren_badge_link
       Sample.open_paren_badge
     = Ok [range hide 0 1; range hide 4 5; range hide 5 8; range link 1 4].
Proof.
  split; [|split; [|split]]; try intros H.
  - destruct H as (l & Hl & Hin);
      [reflexivity
      | repeat split; try reflexivity; vm_compute; discriminate
      | reflexivity |].
    vm_compute in Hl. inversion Hl; subst l; clear Hl.
    specialize (Hin (range hide 1 2) (or_introl eq_refl)).
    simpl in Hin. destruct Hin as [E | [E | [E | []]]]; discriminate E.
  - destruct H as (l & Hl & Hin);
      [reflexivity
      | repeat split; try reflexivity; vm_compute; discriminate
      | reflexivity |].
    vm_compute in Hl. inversion Hl; subst l; clear Hl.
    specialize (Hin (range link 1 1) (or_intror (or_intror (or_intror (or_introl eq_refl))))).
    simpl in Hin. destruct Hin as [E | [E | [E | []]]]; discriminate E.
  - destruct H as (l & Hl & Hin);
      [reflexivity
      | repeat split; try reflexivity; vm_compute; discriminate
      | reflexivity |].
    vm_compute in Hl. inversion Hl; subst l; clear Hl.
    specialize (Hin (range hide 9 15) (or_intror (or_intror (or_introl eq_refl)))).
    simpl in Hin. destruct Hin as [E | [E | [E | [E | []]]]]; discriminate E.
  - vm_compute. reflexivity.
Qed.

Lemma separator_is_whitespace c : is_separator c = true -> isWhitespace c = true.
Proof.
  unfold is_separator. intros H.
  apply orb_true_iff in H as [H | H]; [apply orb_true_iff in H as [H | H]|];
    apply N.eqb_eq in H; subst c; reflexivity.
Qed.

(** A text with a code unit that is not white space starts with separators
    followed by a code unit that is not a separator. *)
Lemma first_non_separator m :
  existsb (fun c => negb (isWhitespace c)) m = true ->
  exists m1 x m2,
    m = m1 ++ x :: m2 /\ forallb is_separator m1 = true
    /\ is_separator x = false.
Proof.
  intros H.
  pose proof (take_drop_while is_separator m) as E.
  destruct (drop_while is_separator m) as [|x m2] eqn:D.
  - exfalso. rewrite app_nil_r in E.
    pose proof (take_while_all is_separator m) as Hall. rewrite E in Hall.
    apply existsb_exists in H as (c & Hc & Hn).
    rewrite forallb_forall in Hall. specialize (Hall c Hc).
    apply separator_is_whitespace in Hall. rewrite Hall in Hn. discriminate.
  - exists (take_while is_separator m), x, m2.
    split; [symmetry; exact E|]. split; [apply take_while_all|].
    clear E H. induction m as [|c m IH]; simpl in D; [discriminate|].
    destruct (is_separator c) eqn:Hc; [auto | congruence].
Qed.

(** C5, amended.  On a link node that does not stand between [<] and [>]:
    when it reads [[ t ]( u )] with a text [t] that is not empty and holds
    no closing bracket and with no closing parenthesis of [u] left
    unmatched, the handler emits a hide over each bracket, one hide over the
    whole [( u )] and a link range over exactly [t], so that no link range
    reaches the parenthesised part; when a code unit that is not white space
    stands between the closing bracket and the opening parenthesis, the
    handler emits nothing. *)
Theorem inline_link_decorations :
  forall (node : Node) (text : text) (s e : Z),
    Mdast.position node = Mdast.at_ s e ->
    ~ wrapped_in_angles text s e ->
    (forall t u : Js.text,
        standard_inline_link text s e t u ->
        forallb not_rbracket t = true ->
        stays_open u 1 = true ->
        LinkHandler.extractDecorations node text = Ok (link_decorations s e t)
        /\ forall d, In d (link_decorations s e t) -> type d = link ->
                     startPos d = s + 1 /\ endPos d = s + 1 + len t)
    /\ (forall t m rest : Js.text,
           0 <= s -> s <= e -> e <= len text ->
           substring text s e
           = [LBRACKET] ++ t ++ [RBRACKET] ++ m ++ [LPAREN] ++ rest ->
           forallb not_rbracket t = true ->
           forallb not_lparen m = true ->
           existsb (fun c => negb (isWhitespace c)) m = true ->
           LinkHandler.extractDecorations node text = Ok []).
Proof.
  intros node text s e Hpos Hwrap.
  apply offsets_at in Hpos.
  split.
  - intros t u (Hs0 & Hse & Hel & Hraw & Hne) Ht Hopen.
    assert (inline_link text s e t [] (u ++ [RPAREN])) as Hshape.
    { repeat split; try assumption. }
    destruct (@inline_link_tail text s e t [] (u ++ [RPAREN]) Hshape)
      as (Hu & He).
    rewrite len_nil, len_app in He. change (len [RPAREN]) with 1 in He.
    rewrite len_nil in Hu.
    split.
    + rewrite (@link_of_inline_shape node text s e t [] (u ++ [RPAREN])
                 Hpos Hshape Hwrap).
      rewrite len_nil.
      rewrite (@closing_paren_reaches_last text _ e u RPAREN Hu ltac:(lia) Hopen).
      unfold link_decorations.
      replace (s + 1 + len t + 1 + 0) with (s + 1 + len t + 1) by lia.
      assert (0 < len t) as Lt.
      { destruct t as [|c t']; [congruence|].
        rewrite len_cons. pose proof (len_nonneg t'). lia. }
      destruct (Z.gtb_spec (s + 1 + len t) (s + 1)); [reflexivity | lia].
    + intros d Hd Hty. unfold link_decorations in Hd. simpl in Hd.
      destruct Hd as [<- | [<- | [<- | [<- | []]]]];
        try discriminate Hty. split; reflexivity.
  - intros t m rest Hs0 Hse Hel Hraw Ht Hm Hex.
    destruct (@link_after_bracket node text s e t (m ++ [LPAREN] ++ rest)
                Hpos Hs0 Hse Hel Hraw Ht Hwrap) as (Hseg & Hlen & ->).
    destruct (first_non_separator m Hex) as (m1 & x & m2 & -> & Hm1 & Hx).
    rewrite forallb_app in Hm. apply andb_true_iff in Hm as [_ Hm].
    simpl in Hm. apply andb_true_iff in Hm as [Hxp _].
    unfold not_lparen in Hxp. apply negb_true_iff in Hxp.
    rewrite <- app_assoc in Hseg.
    apply seg_at_app in Hseg as [Hsep Hseg].
    apply seg_at_cons in Hseg as [Hxat _].
    rewrite !len_app, len_cons in Hlen. change (len [LPAREN]) with 1 in Hlen.
    pose proof (len_nonneg m1). pose proof (len_nonneg m2).
    pose proof (len_nonneg rest).
    unfold Scan.opening.
    replace (Z.to_nat (e - (s + 1 + len t + 1)))
      with (length m1 + S (Z.to_nat (len m2 + 1 + len rest)))%nat
      by (unfold len in *; lia).
    rewrite (@opening_over text LPAREN m1 _ _ Hsep Hm1 eq_refl).
    rewrite (@opening_gives_up text LPAREN x _ _ Hxat Hx Hxp).
    reflexivity.
Qed.

Lemma inline_link_decorations_witness :
  (LinkHandler.extractDecorations (Sample.leaf Mdast.link 0 11)
     (str "[text](url)")
   = Ok [range hide 0 1; range hide 5 6; range hide 6 11; range link 1 5]
   /\ forall d, In d (link_decorations 0 11 (str "text")) -> type d = link ->
                startPos d = 0 + 1 /\ endPos d = 0 + 1 + len (str "text"))
  /\ LinkHandler.extractDecorations (Sample.leaf Mdast.link 0 12)
       (str "[text]x(url)")
     = Ok [].
Proof.
  split.
  - apply (proj1 (@inline_link_decorations
                    (Sample.leaf Mdast.link 0 11) (str "[text](url)") 0 11
                    eq_refl ltac:(intros [H _]; discriminate H))
             (str "text") (str "url")).
    + repeat split; try reflexivity; vm_compute; discriminate.
    + reflexivity.
    + reflexivity.
  - apply (proj2 (@inline_link_decorations
                    (Sample.leaf Mdast.link 0 12) (str "[text]x(url)") 0 12
                    eq_refl ltac:(intros [H _]; discriminate H))
             (str "text") (str "x") (str "url)"));
      try reflexivity; vm_compute; discriminate.
Defined.

(** C5, as stated, fails at three inputs.  A link between [<] and [>] is
    taken for an autolink, and its link range covers the address.  On a link
    around an image the first closing bracket is the one of the image.  On
    an address with an escaped closing parenthesis the hide stops short of
    the end. *)
Lemma inline_link_counterexample :
  ~ inline_link_claim (Sample.leaf Mdast.link 1 7)
      Sample.angled_link 1 7 (str "a") (str "b")
  /\ ~ inline_link_claim (Sample.leaf Mdast.link 0 12)
        Sample.badge_link 0 12 (str "![a](b)") (str "c")
  /\ ~ inline_link_claim (Sample.leaf Mdast.link 0 8)
        Sample.escaped_paren_link 0 8 (str "a") (str "b\)").
Proof.
  repeat split; intros H;
    specialize (H eq_refl);
    match type of H with
    | ?P -> _ =>
        assert P as HP
          by (repeat split; try reflexivity; vm_compute; discriminate);
        specialize (H HP)
    end;
    vm_compute in H; discriminate H.
Qed.

(* ===================================================================== *)
(** ** The handlers do not fail *)
(* ===================================================================== *)

Ltac split_branches :=
  repeat match goal with
         | |- context [if ?b then _ else _] => destruct b
         | |- context [match ?x with Some _ => _ | None => _ end] => destruct x
         | |- context [let '(_, _) := ?x in _] => destruct x
         end.

Ltac open_handler Hoff :=
  let Hv := fresh "Hv" in
  let Hs := fresh "Hs" in
  let He := fresh "He" in
  destruct (offsets_valid _ Hoff) as (Hv & _ & Hs & He);
  rewrite Hv, Hs, He; cbn [negb bind].

Lemma processChild_total child text :
  exists l, StrongHandler.processChild child text = Ok l.
Proof.
  unfold StrongHandler.processChild.
  destruct (offsets child) as [[s e]|] eqn:Hoff.
  - destruct (offsets_valid _ Hoff) as (Hv & _ & Hs & He).
    rewrite Hv, Hs, He. cbn [bind]. split_branches; eauto.
  - destruct (offsets_none _ Hoff) as (Hv & _). rewrite Hv.
    rewrite andb_false_r. eauto.
Qed.

Lemma processChildren_total children text : forall decorations,
  exists l, StrongHandler.processChildrenForBoldItalic children text decorations
            = Ok (decorations ++ l).
Proof.
  induction children as [|c r IH]; intros decorations; simpl.
  - exists []. rewrite app_nil_r. reflexivity.
  - destruct (processChild_total c text) as (l & ->). cbn [bind].
    destruct (IH (decorations ++ l)) as (l' & ->).
    exists (l ++ l'). rewrite app_assoc. reflexivity.
Qed.

Section Totality.

Variables (node : Node) (text : Js.text) (s e : Z).
Hypothesis Hoff : offsets node = Some (s, e).

Lemma HeadingHandler_total :
  exists l, HeadingHandler.extractDecorations node text = Ok l.
Proof.
  unfold HeadingHandler.extractDecorations. open_handler Hoff.
  split_branches; eauto.
Qed.

Lemma StrongHandler_total :
  exists l, StrongHandler.extractDecorations node text = Ok l.
Proof.
  unfold StrongHandler.extractDecorations. open_handler Hoff.
  destruct (StrongHandler.hasEmphasisChild node); [|eauto].
  unfold StrongHandler.extractBoldItalicDecorations.
  match goal with
  | |- exists l, StrongHandler.processChildrenForBoldItalic ?c ?t ?d = Ok l =>
      destruct (processChildren_total c t d) as (l & Hl)
  end.
  eexists. exact Hl.
Qed.

Lemma EmphasisHandler_total :
  exists l, EmphasisHandler.extractDecorations node text = Ok l.
Proof.
  unfold EmphasisHandler.extractDecorations. open_handler Hoff.
  split_branches; eauto.
Qed.

Lemma InlineCodeHandler_total :
  exists l, InlineCodeHandler.extractDecorations node text = Ok l.
Proof.
  unfold InlineCodeHandler.extractDecorations. open_handler Hoff. eauto.
Qed.

Lemma CodeBlockHandler_total :
  exists l, CodeBlockHandler.extractDecorations node text = Ok l.
Proof.
  unfold CodeBlockHandler.extractDecorations. open_handler Hoff.
  destruct (Regex.fence (substring text s e)) as [[[g1 g2] g3]|]; [|eauto].
  split_branches; eauto.
Qed.

Lemma BlockquoteHandler_total :
  exists l, BlockquoteHandler.extractDecorations node text = Ok l.
Proof.
  unfold BlockquoteHandler.extractDecorations. open_handler Hoff. eauto.
Qed.

Lemma HorizontalRuleHandler_total :
  exists l, HorizontalRuleHandler.extractDecorations node text = Ok l.
Proof.
  unfold HorizontalRuleHandler.extractDecorations. open_handler Hoff. eauto.
Qed.

Lemma DeleteHandler_total :
  exists l, DeleteHandler.extractDecorations node text = Ok l.
Proof.
  unfold DeleteHandler.extractDecorations. open_handler Hoff.
  split_branches; eauto.
Qed.

Lemma LinkHandler_total :
  exists l, LinkHandler.extractDecorations node text = Ok l.
Proof.
  unfold LinkHandler.extractDecorations. open_handler Hoff.
  split_branches; eauto.
Qed.

Lemma ImageHandler_total :
  exists l, ImageHandler.extractDecorations node text = Ok l.
Proof.
  unfold ImageHandler.extractDecorations. open_handler Hoff.
  split_branches; eauto.
Qed.

Lemma LinkReferenceHandler_total :
  exists l, LinkReferenceHandler.extractDecorations node text = Ok l.
Proof.
  unfold LinkReferenceHandler.extractDecorations. open_handler Hoff.
  split_branches; eauto.
Qed.

Lemma ImageReferenceHandler_total :
  exists l, ImageReferenceHandler.extractDecorations node text = Ok l.
Proof.
  unfold ImageReferenceHandler.extractDecorations. open_handler Hoff.
  split_branches; eauto.
Qed.

End Totality.

(** No handler fails, on any node and any text. *)
Lemma handlers_total handler node text :
  In handler MarkdownParser.handlers ->
  exists l, extractDecorations handler node text = Ok l.
Proof.
  intros Hin.
  destruct (offsets node) as [[s e]|] eqn:Hoff.
  2:{ exists []. apply skipped_without_position; [assumption|].
      apply offsets_none. assumption. }
  unfold MarkdownParser.handlers in Hin. simpl in Hin.
  repeat (destruct Hin as [<- | Hin];
          [ cbn [extractDecorations HeadingHandler.handler StrongHandler.handler
                 EmphasisHandler.handler InlineCodeHandler.handler
                 CodeBlockHandler.handler BlockquoteHandler.handler
                 HorizontalRuleHandler.handler DeleteHandler.handler
                 LinkHandler.handler ImageHandler.handler
                 LinkReferenceHandler.handler ImageReferenceHandler.handler];
            eauto using HeadingHandler_total, StrongHandler_total,
              EmphasisHandler_total, InlineCodeHandler_total,
              CodeBlockHandler_total, BlockquoteHandler_total,
              HorizontalRuleHandler_total, DeleteHandler_total,
              LinkHandler_total, ImageHandler_total,
              LinkReferenceHandler_total, ImageReferenceHandler_total
          | ]).
  contradiction.
Qed.

(* ===================================================================== *)
(** ** The walk over the tree *)
(* ===================================================================== *)

Lemma Node_induction (P : Node -> Prop) :
  (forall n, Forall P (Mdast.children n) -> P n) -> forall n, P n.
Proof.
  intros step.
  fix IH 1. intros [ty pos d ch]. apply step. simpl.
  induction ch as [|c ch IHch]; constructor; [apply IH | apply IHch].
Qed.

Lemma visit_list_app {S : Type} (visitor : Node -> S -> Result S) a : forall b st,
  visit_list visitor (a ++ b) st
  = (st' <- visit_list visitor a st ;; visit_list visitor b st').
Proof.
  induction a as [|n a IH]; intros b st; simpl; [reflexivity|].
  destruct (visitor n st) as [st'|]; simpl; [apply IH | reflexivity].
Qed.

(** [visit] calls the visitor on the nodes of the tree in the order of
    [nodes]. *)
Lemma visit_nodes {S : Type} (visitor : Node -> S -> Result S) n : forall st,
  visit visitor n st = visit_list visitor (nodes n) st.
Proof.
  induction n as [n IH] using Node_induction. intros st.
  destruct n as [ty pos d ch]. cbn [visit nodes visit_list Mdast.children] in *.
  destruct (visitor _ st) as [st1|]; cbn [bind]; [|reflexivity].
  revert st1. induction ch as [|c ch IHch]; intros st1; [reflexivity|].
  inversion IH as [|? ? Hc Hch]; subst.
  cbn [flat_map]. rewrite visit_list_app, <- Hc.
  destruct (visit visitor c st1) as [st2|]; cbn [bind]; [|reflexivity].
  apply IHch. assumption.
Qed.

(** The handler chosen for a node, by the type of the node. *)
Lemma findHandler_In node handler :
  MarkdownParser.findHandler node = Some handler ->
  In handler MarkdownParser.handlers.
Proof.
  unfold MarkdownParser.findHandler. intros H.
  apply find_some in H. tauto.
Qed.

Lemma trackChild_claim child r :
  MarkdownParser.trackChild child r
  = Ok (match claim_of child with
        | Some k => MarkdownParser.set_add k r
        | None => r
        end).
Proof.
  unfold MarkdownParser.trackChild, claim_of.
  destruct (is_type Mdast.emphasis child); [|reflexivity]. cbn [andb].
  destruct (offsets child) as [[s e]|] eqn:Hoff.
  - destruct (offsets_valid _ Hoff) as (_ & Hv & Hs & He).
    rewrite Hv, Hs, He. cbn [bind].
    destruct (e - 1 >? s + 1); reflexivity.
  - destruct (offsets_none _ Hoff) as (_ & Hv). rewrite Hv. reflexivity.
Qed.

Lemma trackChildren_claims children : forall r,
  MarkdownParser.trackChildren children r
  = Ok (add_claims
          (flat_map (fun c => match claim_of c with Some k => [k] | None => [] end)
             children) r).
Proof.
  induction children as [|c l IH]; intros r; [reflexivity|].
  cbn [MarkdownParser.trackChildren flat_map].
  rewrite trackChild_claim. cbn [bind]. rewrite IH.
  unfold add_claims. rewrite fold_left_app.
  destruct (claim_of c); reflexivity.
Qed.

Lemma strong_has_handler node :
  is_type Mdast.strong node = true ->
  MarkdownParser.findHandler node = Some StrongHandler.handler.
Proof.
  unfold is_type, Mdast.NodeType_eqb.
  destruct (Mdast.NodeType_eq_dec (Mdast.type node) Mdast.strong) as [E|];
    [|discriminate].
  intros _. unfold MarkdownParser.findHandler, MarkdownParser.handlers.
  cbn [find canHandle HeadingHandler.handler StrongHandler.handler].
  unfold HeadingHandler.canHandle, StrongHandler.canHandle, is_type.
  rewrite E. reflexivity.
Qed.

Lemma visitor_step text node st :
  MarkdownParser.visitor text node st = Ok (step text st node).
Proof.
  destruct st as [collector r]. unfold MarkdownParser.visitor, step.
  unfold decorations_of, claims_of. cbn [fst snd].
  destruct (MarkdownParser.findHandler node) as [handler|] eqn:Hf.
  - destruct (@handlers_total handler node text (findHandler_In _ Hf)) as (l & ->).
    cbn [bind].
    destruct (is_type Mdast.strong node) eqn:Hst; cbn [andb].
    + destruct (existsb (is_type Mdast.emphasis) (Mdast.children node)
                && MarkdownParser.hasValidPosition node).
      * rewrite trackChildren_claims. reflexivity.
      * reflexivity.
    + reflexivity.
  - destruct (is_type Mdast.strong node) eqn:Hst.
    + rewrite (strong_has_handler _ Hst) in Hf. discriminate.
    + reflexivity.
Qed.

Lemma visit_list_steps text l : forall st,
  visit_list (MarkdownParser.visitor text) l st = Ok (fold_left (step text) l st).
Proof.
  induction l as [|n l IH]; intros st; [reflexivity|].
  cbn [visit_list fold_left]. rewrite visitor_step. cbn [bind]. apply IH.
Qed.

Lemma extractDecorations_walked parseAST text :
  MarkdownParser.extractDecorations parseAST text
  = Ok (filter (MarkdownParser.keep (snd (walked text (parseAST text))))
          (DecorationCollector.ranges (fst (walked text (parseAST text))))
        ++ HighlightHandler.extractDecorations text).
Proof.
  unfold MarkdownParser.extractDecorations.
  rewrite visit_nodes, visit_list_steps. cbn [bind].
  fold (walked text (parseAST text)).
  destruct (walked text (parseAST text)) as [collector r]. reflexivity.
Qed.

(* ===================================================================== *)
(** ** The spans owned by the bold-italic path *)
(* ===================================================================== *)

Lemma is_type_iff ty node : is_type ty node = true <-> Mdast.type node = ty.
Proof.
  unfold is_type, Mdast.NodeType_eqb.
  destruct (Mdast.NodeType_eq_dec (Mdast.type node) ty); split;
    congruence.
Qed.

Lemma RangeKey_eqb_eq a b : MarkdownParser.RangeKey_eqb a b = true <-> a = b.
Proof.
  unfold MarkdownParser.RangeKey_eqb. destruct a as [a1 a2], b as [b1 b2].
  cbn [fst snd]. rewrite andb_true_iff, !Z.eqb_eq. split.
  - intros [-> ->]. reflexivity.
  - intros E. inversion E. auto.
Qed.

Lemma set_add_In k k' r :
  In k (MarkdownParser.set_add k' r) <-> k = k' \/ In k r.
Proof.
  unfold MarkdownParser.set_add.
  destruct (existsb (MarkdownParser.RangeKey_eqb k') r) eqn:Hex.
  - apply existsb_exists in Hex as (x & Hx & E).
    apply RangeKey_eqb_eq in E. subst x.
    split; [auto | intros [-> | H]; assumption].
  - rewrite in_app_iff. simpl. split; [intros [H | [H | []]]; auto | intros [H | H]; auto].
Qed.

Lemma add_claims_In ks : forall r k,
  In k (add_claims ks r) <-> In k ks \/ In k r.
Proof.
  unfold add_claims.
  induction ks as [|k' ks IH]; intros r k; simpl; [tauto|].
  rewrite IH, set_add_In. intuition (subst; auto).
Qed.

(** The set only grows along the walk, and takes the claims of every node. *)
Lemma walk_claims text l : forall st k,
  In k (snd (fold_left (step text) l st))
  <-> In k (snd st) \/ exists n, In n l /\ In k (claims_of n).
Proof.
  induction l as [|n l IH]; intros st k; cbn [fold_left].
  - split; [auto | intros [H | (n & [] & _)]; assumption].
  - rewrite IH. unfold step. cbn [snd]. rewrite add_claims_In.
    split.
    + intros [[H | H] | (m & Hm & Hk)]; eauto.
      * right. exists n. simpl. auto.
      * right. exists m. simpl. auto.
    + intros [H | (m & [<- | Hm] & Hk)]; eauto.
Qed.

Lemma claim_of_emphasis_child node child s e :
  is_type Mdast.strong node = true ->
  MarkdownParser.hasValidPosition node = true ->
  In child (Mdast.children node) ->
  is_type Mdast.emphasis child = true ->
  offsets child = Some (s, e) ->
  s + 1 < e - 1 ->
  In (s + 1, e - 1) (claims_of node).
Proof.
  intros Hst Hv Hin Hem Hoff Hlt.
  unfold claims_of. rewrite Hst, Hv.
  assert (existsb (is_type Mdast.emphasis) (Mdast.children node) = true) as ->.
  { apply existsb_exists. eauto. }
  cbn [andb]. apply in_flat_map. exists child. split; [assumption|].
  unfold claim_of. rewrite Hem, Hoff.
  destruct (Z.gtb_spec (e - 1) (s + 1)); [left; reflexivity | lia].
Qed.

(** The test of the filter finds every overlap with a span of the set. *)
Lemma keep_excludes_overlap r d k :
  MarkdownParser.keep r d = true ->
  type d = italic ->
  In k r -> 0 <= fst k -> 0 <= snd k ->
  ~ overlaps (startPos d) (endPos d) (fst k) (snd k).
Proof.
  unfold MarkdownParser.keep. intros Hk Hty Hin H1 H2 (x & Hx1 & Hx2).
  rewrite Hty in Hk. cbn in Hk. apply negb_true_iff in Hk.
  assert (forall y, In y r ->
            match MarkdownParser.parseRangeKey y with
            | Some (start, end_) =>
                ((startPos d >=? start) && (startPos d <? end_))
                || ((endPos d >? start) && (endPos d <=? end_))
                || ((startPos d <=? start) && (endPos d >=? end_))
            | None => false
            end = false) as Hall.
  { intros y Hy. destruct (match MarkdownParser.parseRangeKey y with
                           | Some _ => _ | None => _ end) eqn:E; [|reflexivity].
    assert (existsb
              (fun rangeKey =>
                 match MarkdownParser.parseRangeKey rangeKey with
                 | Some (start, end_) =>
                     ((startPos d >=? start) && (startPos d <? end_))
                     || ((endPos d >? start) && (endPos d <=? end_))
                     || ((startPos d <=? start) && (endPos d >=? end_))
                 | None => false
                 end) r = true) as Hex.
    { apply existsb_exists. exists y. split; assumption. }
    congruence. }
  specialize (Hall k Hin). unfold MarkdownParser.parseRangeKey in Hall.
  destruct k as [start end_]. cbn [fst snd] in *.
  destruct (Z.leb_spec 0 start); [|lia].
  destruct (Z.leb_spec 0 end_); [|lia].
  cbn [andb] in Hall.
  destruct (Z.geb_spec (startPos d) start), (Z.ltb_spec (startPos d) end_),
    (Z.gtb_spec (endPos d) start), (Z.leb_spec (endPos d) end_),
    (Z.leb_spec (startPos d) start), (Z.geb_spec (endPos d) end_);
    cbn in Hall; try discriminate; lia.
Qed.

Lemma Highlights_ranges text pos l :
  Highlights text pos l -> Forall (scanner_range text) l.
Proof.
  induction 1 as [pos Hno | pos o Ho Hno | pos o c rest Ho Hc Hrest IH];
    [constructor | constructor |].
  apply Forall_app. split; [|assumption].
  unfold highlight_of. destruct (Z.gtb_spec c (o + 2)); [|constructor].
  destruct Ho as (_ & Ho & _), Hc as (_ & Hc & _).
  apply Forall_cons; [|apply Forall_cons; [|apply Forall_cons; [|apply Forall_nil]]];
    unfold scanner_range; cbn [type startPos endPos range].
  - left. auto.
  - left. auto.
  - right. replace (o + 2 - 2) with o by lia. auto.
Qed.

Lemma scanner_ranges text :
  Forall (scanner_range text) (HighlightHandler.extractDecorations text).
Proof.
  apply Highlights_ranges with (pos := 0).
  apply scan_Highlights; [lia | unfold len; lia].
Qed.

(** C4.  When a strong node has an emphasis child, no italic range of the
    output overlaps the content span of that child, the span between its
    two delimiters. *)
Theorem italic_outside_bold_italic_spans :
  forall (parseAST : text -> Node) (text : text) (strongNode child : Node)
         (s e : Z),
    In strongNode (nodes (parseAST text)) ->
    Mdast.type strongNode = Mdast.strong ->
    hasValidPosition strongNode = true ->
    In child (Mdast.children strongNode) ->
    Mdast.type child = Mdast.emphasis ->
    Mdast.position child = Mdast.at_ s e ->
    0 <= s ->
    exists out,
      MarkdownParser.extractDecorations parseAST text = Ok out
      /\ forall d, In d out -> type d = italic ->
                   ~ overlaps (startPos d) (endPos d) (s + 1) (e - 1).
Proof.
  intros parseAST text strongNode child s e Hnode Hst Hv Hchild Hem Hpos Hs0.
  rewrite extractDecorations_walked. eexists. split; [reflexivity|].
  intros d Hd Hty Hover.
  apply in_app_iff in Hd as [Hd | Hd].
  - apply filter_In in Hd as [_ Hkeep].
    assert (s + 1 < e - 1) as Hlt by (destruct Hover as (x & ? & ?); lia).
    apply (@keep_excludes_overlap _ d (s + 1, e - 1) Hkeep Hty);
      cbn [fst snd]; try lia; [|exact Hover].
    unfold walked. apply walk_claims. right. exists strongNode.
    split; [assumption|].
    apply claim_of_emphasis_child with (child := child).
    + apply is_type_iff. assumption.
    + apply hasValidPosition_offsets in Hv as (a & b & Hab).
      apply (offsets_valid _ Hab).
    + assumption.
    + apply is_type_iff. assumption.
    + apply offsets_at. assumption.
    + assumption.
  - pose proof (scanner_ranges text) as Hall.
    rewrite Forall_forall in Hall. specialize (Hall d Hd).
    destruct Hall as [(E & _) | (E & _)]; congruence.
Qed.

Lemma italic_outside_bold_italic_spans_witness :
  exists out,
    MarkdownParser.extractDecorations
      (fun _ => Sample.bold_with_italic_tree) Sample.bold_with_italic
    = Ok out
    /\ forall d, In d out -> type d = italic ->
                 ~ overlaps (startPos d) (endPos d) (4 + 1) (8 - 1).
Proof.
  apply (@italic_outside_bold_italic_spans
           (fun _ => Sample.bold_with_italic_tree) Sample.bold_with_italic
           Sample.bold_with_italic_strong Sample.bold_with_italic_emphasis
           4 8).
  - simpl. right. right. left. reflexivity.
  - reflexivity.
  - reflexivity.
  - simpl. right. left. reflexivity.
  - reflexivity.
  - reflexivity.
  - lia.
Defined.

(* ===================================================================== *)
(** ** Repeated calls *)
(* ===================================================================== *)

(** The engine returns a list on every text. *)
Lemma extractDecorations_total parseAST text :
  exists l, MarkdownParser.extractDecorations parseAST text = Ok l.
Proof. rewrite extractDecorations_walked. eauto. Qed.

(* ===================================================================== *)
(** ** The ranges of the handlers *)
(* ===================================================================== *)

Lemma tree_range_intro text node ty a b :
  0 <= a -> a < b -> b <= len text ->
  ty <> highlight ->
  (delimited text node = true -> ty = hide -> b = a + 2 ->
   ~ delimiter_at text a) ->
  tree_range text node (range ty a b).
Proof.
  intros. unfold tree_range, valid_range. cbn [range startPos endPos type].
  auto.
Qed.

(** A range whose width is not two. *)
Lemma tree_range_width text node ty a b :
  0 <= a -> a < b -> b <= len text ->
  ty <> highlight -> b <> a + 2 ->
  tree_range text node (range ty a b).
Proof. intros. apply tree_range_intro; auto; intros; lia. Qed.

(** A range that is not a hide. *)
Lemma tree_range_styled text node ty a b :
  0 <= a -> a < b -> b <= len text ->
  ty <> highlight -> ty <> hide ->
  tree_range text node (range ty a b).
Proof. intros. apply tree_range_intro; auto; intros; congruence. Qed.

Ltac distinct := let E := fresh "E" in intro E; vm_compute in E; discriminate E.

Lemma not_delimiter_first text a c :
  char_at text a = Some c -> c <> EQUALS -> ~ delimiter_at text a.
Proof. intros H Hc [H' _]. congruence. Qed.

Lemma not_delimiter_second text a c :
  char_at text (a + 1) = Some c -> c <> EQUALS -> ~ delimiter_at text a.
Proof. intros H Hc [_ H']. congruence. Qed.

(** A hide that starts on a code unit other than [=]. *)
Lemma tree_range_starts text node a b c :
  0 <= a -> a < b -> b <= len text ->
  char_at text a = Some c -> c <> EQUALS ->
  tree_range text node (range hide a b).
Proof.
  intros. apply tree_range_intro; auto; [discriminate|].
  intros _ _ _ [H' _]. congruence.
Qed.

Lemma advance_bounds cond text fuel : forall pos,
  pos <= advance fuel cond text pos <= pos + Z.of_nat fuel.
Proof.
  induction fuel as [|fuel IH]; intros pos; cbn [advance]; [lia|].
  destruct (cond (char_at text pos)); [|lia].
  specialize (IH (pos + 1)). lia.
Qed.

Lemma skip_forward_bounds cond text pos limit :
  pos <= limit ->
  pos <= skip_forward cond text pos limit <= limit.
Proof.
  intros H. unfold skip_forward.
  pose proof (advance_bounds cond text (Z.to_nat (limit - pos)) pos). lia.
Qed.

(** Where the loop stops before its limit, the condition fails. *)
Lemma advance_stops cond text fuel : forall pos,
  advance fuel cond text pos < pos + Z.of_nat fuel ->
  cond (char_at text (advance fuel cond text pos)) = false.
Proof.
  induction fuel as [|fuel IH]; intros pos; cbn [advance]; [lia|].
  destruct (cond (char_at text pos)) eqn:E; [|intros _; exact E].
  intros H. apply IH. lia.
Qed.

Lemma retreat_bounds cond text fuel : forall pos,
  pos - Z.of_nat fuel <= retreat fuel cond text pos <= pos.
Proof.
  induction fuel as [|fuel IH]; intros pos; cbn [retreat]; [lia|].
  destruct (cond (char_at text (pos - 1))); [|lia].
  specialize (IH (pos - 1)). lia.
Qed.

Lemma until_bounds c text pos limit :
  pos <= limit ->
  pos <= Scan.until c text pos limit <= limit.
Proof. apply skip_forward_bounds. Qed.

Lemma opening_loop_bounds c text fuel : forall i r,
  Scan.opening_loop fuel c text i = Some r ->
  i <= r <= i + Z.of_nat fuel
  /\ (r < i + Z.of_nat fuel -> char_at text r = Some c).
Proof.
  induction fuel as [|fuel IH]; intros i r; cbn [Scan.opening_loop].
  - intros H. inversion H. lia.
  - destruct (differs c (char_at text i)) eqn:Hd.
    + destruct (differs SPACE (char_at text i) && differs LF (char_at text i)
                && differs CR (char_at text i)); [discriminate|].
      intros H. apply IH in H as (H1 & H2). split; [lia|].
      intros Hr. apply H2. lia.
    + intros H. inversion H; subst r. split; [lia|]. intros _.
      unfold differs in Hd. apply negb_false_iff in Hd.
      apply same_iff. assumption.
Qed.

Lemma opening_bounds c text i limit r :
  i <= limit ->
  Scan.opening c text i limit = Some r ->
  i <= r <= limit /\ (r < limit -> char_at text r = Some c).
Proof.
  unfold Scan.opening. intros Hi H. apply opening_loop_bounds in H.
  rewrite Z2Nat.id in H by lia.
  replace (i + (limit - i)) with limit in H by lia. exact H.
Qed.

Lemma closing_paren_bounds text p limit :
  p <= limit -> p <= Scan.closing_paren text p limit <= limit.
Proof.
  intros H. unfold Scan.closing_paren.
  pose proof (closing_paren_loop_forward text (Z.to_nat (limit - p)) p 1).
  pose proof (closing_paren_loop_bounded text (Z.to_nat (limit - p)) p 1).
  lia.
Qed.

(** Capture group 1 of a delimited pattern is the delimiter. *)
Lemma delimiterLengthOf_fixed d1 d2 k x :
  len d1 = k -> len d2 = k ->
  delimiterLengthOf (Regex.delimited d1 x) (Regex.delimited d2 x) k = k.
Proof.
  intros H1 H2. unfold delimiterLengthOf, group1, Regex.delimited.
  repeat match goal with
         | |- context [if ?b then _ else _] => destruct b
         end; auto.
Qed.

Ltac positions H :=
  unfold well_positioned, child_positioned in H;
  repeat match type of H with
         | context [offsets ?n] =>
             match goal with
             | E : offsets n = _ |- _ => rewrite E in H
             end
         | context [Mdast.type ?n] =>
             match goal with
             | E : Mdast.type n = _ |- _ => rewrite E in H
             end
         end;
  cbv iota beta in H;
  rewrite ?andb_true_iff, ?Z.leb_le, ?Z.ltb_lt in H.

Section HandlerRanges.

Variables (node : Node) (text : Js.text) (s e : Z).
Hypothesis Hoff : offsets node = Some (s, e).
Hypothesis Hwell : well_positioned text node = true.

Lemma HorizontalRuleHandler_ranges l :
  Mdast.type node = Mdast.thematicBreak ->
  HorizontalRuleHandler.extractDecorations node text = Ok l ->
  Forall (tree_range text node) l.
Proof.
  intros Hty. unfold HorizontalRuleHandler.extractDecorations.
  open_handler Hoff. intros Hout; inversion Hout; subst l; clear Hout.
  positions Hwell.
  repeat apply Forall_cons; try apply Forall_nil.
  - apply tree_range_width; try lia; discriminate.
  - apply tree_range_styled; try lia; discriminate.
Qed.

Lemma InlineCodeHandler_ranges l :
  Mdast.type node = Mdast.inlineCode ->
  InlineCodeHandler.extractDecorations node text = Ok l ->
  Forall (tree_range text node) l.
Proof.
  intros Hty. unfold InlineCodeHandler.extractDecorations.
  open_handler Hoff. intros Hout; inversion Hout; subst l; clear Hout.
  positions Hwell.
  unfold InlineCodeHandler.createOpeningBacktickDecoration,
    InlineCodeHandler.createClosingBacktickDecoration,
    InlineCodeHandler.createCodeContentDecoration,
    InlineCodeHandler.BACKTICK_LENGTH.
  destruct (Z.leb_spec (e - 1) (s + 1)); [lia|].
  repeat apply Forall_cons; try apply Forall_nil.
  - apply tree_range_width; try lia; discriminate.
  - apply tree_range_width; try lia; discriminate.
  - apply tree_range_styled; try lia; discriminate.
Qed.

Lemma EmphasisHandler_ranges l :
  Mdast.type node = Mdast.emphasis ->
  EmphasisHandler.extractDecorations node text = Ok l ->
  Forall (tree_range text node) l.
Proof.
  intros Hty. unfold EmphasisHandler.extractDecorations.
  open_handler Hoff. positions Hwell.
  rewrite (@delimiterLengthOf_fixed [STAR] [UNDERSCORE] 1 _ eq_refl eq_refl).
  destruct (_ && _); [intros Hout; inversion Hout; constructor|].
  destruct (_ && _); intros Hout; inversion Hout; subst l; clear Hout;
    [constructor|].
  repeat apply Forall_cons; try apply Forall_nil.
  - apply tree_range_width; try lia; discriminate.
  - apply tree_range_width; try lia; discriminate.
  - apply tree_range_styled; try lia; discriminate.
Qed.

Lemma DeleteHandler_ranges l :
  Mdast.type node = Mdast.delete ->
  DeleteHandler.extractDecorations node text = Ok l ->
  Forall (tree_range text node) l.
Proof.
  intros Hty. unfold DeleteHandler.extractDecorations.
  open_handler Hoff. positions Hwell.
  destruct (Z.leb_spec (e - 2) (s + 2));
    intros Hout; inversion Hout; subst l; clear Hout; [constructor|].
  assert (delimited text node = true ->
          char_at text s = Some TILDE /\ char_at text (e - 1) = Some TILDE)
    as Hdel.
  { unfold delimited. rewrite Hoff, Hty.
    rewrite andb_true_iff, !same_iff. auto. }
  repeat apply Forall_cons; try apply Forall_nil.
  - apply tree_range_intro; try lia; [discriminate|].
    intros Hd _ _. apply Hdel in Hd as [Hd _].
    eapply not_delimiter_first; [exact Hd | distinct].
  - apply tree_range_intro; try lia; [discriminate|].
    intros Hd _ _. apply Hdel in Hd as [_ Hd].
    replace (e - 1) with (e - 2 + 1) in Hd by lia.
    eapply not_delimiter_second; [exact Hd | distinct].
  - apply tree_range_styled; try lia; discriminate.
Qed.

End HandlerRanges.

Lemma heading_marker_sound raw g1 g2 g3 :
  Regex.heading_marker raw = Some (g1, g2, g3) ->
  (exists rest, raw = g1 ++ g2 ++ g3 ++ rest)
  /\ forallb Regex.is_hash g2 = true /\ 1 <= len g2.
Proof.
  unfold Regex.heading_marker. rewrite !after_take_while.
  set (r1 := drop_while isWhitespace raw).
  set (r2 := drop_while Regex.is_hash r1).
  destruct (Z.leb_spec 1 (len (take_while Regex.is_hash r1))); [|discriminate].
  destruct (_ && _); [|discriminate].
  intros H'. inversion H'; subst g1 g2 g3; clear H'.
  repeat split; [|apply take_while_all|assumption].
  exists (drop_while isWhitespace r2).
  rewrite (take_drop_while isWhitespace r2).
  unfold r2. rewrite (take_drop_while Regex.is_hash r1).
  unfold r1. symmetry. apply take_drop_while.
Qed.

Lemma blockquote_marker_sound raw g1 g2 g3 :
  Regex.blockquote_marker raw = Some (g1, g2, g3) ->
  (exists rest, raw = g1 ++ g2 ++ g3 ++ rest)
  /\ forallb Regex.is_gt g2 = true /\ 1 <= len g2.
Proof.
  unfold Regex.blockquote_marker. rewrite !after_take_while.
  set (r1 := drop_while isWhitespace raw).
  set (r2 := drop_while Regex.is_gt r1).
  destruct (Z.leb_spec 1 (len (take_while Regex.is_gt r1))); [|discriminate].
  intros H'. inversion H'; subst g1 g2 g3; clear H'.
  repeat split; [|apply take_while_all|assumption].
  exists (drop_while isWhitespace r2).
  rewrite (take_drop_while isWhitespace r2).
  unfold r2. rewrite (take_drop_while Regex.is_gt r1).
  unfold r1. symmetry. apply take_drop_while.
Qed.

(** The first code unit of a run that is not empty. *)
Lemma run_head (p : N -> bool) text pos g rest :
  seg_at text pos (g ++ rest) -> forallb p g = true -> 1 <= len g ->
  exists c, char_at text pos = Some c /\ p c = true.
Proof.
  intros Hseg Hall Hlen. destruct g as [|c g]; [rewrite len_nil in Hlen; lia|].
  simpl in Hseg. apply seg_at_cons in Hseg as [Hc _].
  simpl in Hall. apply andb_true_iff in Hall as [Hpc _]. eauto.
Qed.

Lemma substring_inside text s e :
  0 <= s -> s <= e -> e <= len text -> len (substring text s e) = e - s.
Proof. intros. rewrite substring_len. unfold clamp. lia. Qed.

Lemma getHeadingType_styled depth :
  HeadingHandler.getHeadingType depth <> highlight
  /\ HeadingHandler.getHeadingType depth <> hide.
Proof.
  unfold HeadingHandler.getHeadingType.
  destruct depth as [[|[p|p|]|]|]; try (split; discriminate);
    destruct p as [p|p|]; try (split; discriminate);
    destruct p; split; discriminate.
Qed.

Section HandlerRangesBlocks.

Variables (node : Node) (text : Js.text) (s e : Z).
Hypothesis Hoff : offsets node = Some (s, e).
Hypothesis Hwell : well_positioned text node = true.

Lemma HeadingHandler_ranges l :
  Mdast.type node = Mdast.heading ->
  HeadingHandler.extractDecorations node text = Ok l ->
  Forall (tree_range text node) l.
Proof.
  intros Hty. unfold HeadingHandler.extractDecorations.
  open_handler Hoff. positions Hwell.
  destruct Hwell as (((Hs0 & Hse) & Hel) & Hlt).
  pose proof (@seg_at_substring text s e Hs0 Hse Hel) as Hseg.
  pose proof (@substring_inside text s e Hs0 Hse Hel) as Hlen.
  unfold HeadingHandler.HEADING_MARKER_PATTERN.
  destruct (Regex.heading_marker (substring text s e)) as [[[g1 g2] g3]|] eqn:Hm.
  - apply heading_marker_sound in Hm as ((rest & Hraw) & Hall & H1).
    cbn [HeadingHandler.getContentStart].
    pose proof (len_nonneg g1). pose proof (len_nonneg g3).
    pose proof (len_nonneg rest).
    rewrite Hraw, !len_app in Hlen.
    destruct (Z.geb_spec (s + len g1 + len g2 + len g3) e) as [Hge | Hcs];
      cbn [orb]; [intros Hout; inversion Hout; constructor|].
    destruct (HeadingHandler.isEmptyContent text _ e);
      intros Hout; inversion Hout; subst l; clear Hout; [constructor|].
    unfold HeadingHandler.createMarkerDecoration,
      HeadingHandler.createContentDecoration.
    rewrite Hraw in Hseg. apply seg_at_app in Hseg as [_ Hseg].
    destruct (@run_head Regex.is_hash text _ g2 _ Hseg Hall H1) as (c & Hc & Hh).
    apply N.eqb_eq in Hh. subst c.
    apply Forall_cons; [|apply Forall_cons; [|apply Forall_nil]].
    + eapply tree_range_starts; try exact Hc; try lia. distinct.
    + destruct (getHeadingType_styled (Mdast.depth node)) as [Hh1 Hh2].
      unfold tree_range, valid_range. cbn [startPos endPos type].
      split; [lia|]. split; [exact Hh1|]. intros _ E. contradiction.
  - destruct (HeadingHandler.isHeadingEmpty text s e);
      intros Hout; inversion Hout; subst l; clear Hout; [constructor|].
    unfold HeadingHandler.createFallbackDecoration.
    apply Forall_cons; [|apply Forall_nil].
    apply tree_range_intro; try lia; [discriminate|].
    intros Hdel _ He2. unfold delimited in Hdel. rewrite Hoff, Hty in Hdel.
    apply orb_true_iff in Hdel as [Hdel | Hdel]; [|apply Z.leb_le in Hdel; lia].
    apply existsb_exists in Hdel as (c & Hin & Hc).
    apply N.eqb_eq in Hc. subst c.
    destruct (substring text s e) as [|a [|b [|? ?]]] eqn:Hraw;
      try (unfold len in Hlen; simpl in Hlen; lia).
    apply seg_at_cons in Hseg as [Ha Hseg].
    apply seg_at_cons in Hseg as [Hb _].
    destruct Hin as [E | [E | []]]; subst.
    * eapply not_delimiter_first; [exact Ha | distinct].
    * eapply not_delimiter_second; [exact Hb | distinct].
Qed.

Lemma processChild_ranges child l :
  child_positioned text child = true ->
  StrongHandler.processChild child text = Ok l ->
  Forall (tree_range text node) l.
Proof.
  intros Hchild. unfold StrongHandler.processChild.
  destruct (offsets child) as [[cs ce]|] eqn:Hc.
  - destruct (offsets_valid _ Hc) as (Hv & _ & Hcs & Hce).
    rewrite Hv, Hcs, Hce. cbn [bind]. rewrite andb_true_r.
    unfold child_positioned in Hchild. rewrite Hc in Hchild.
    rewrite (@delimiterLengthOf_fixed [STAR] [UNDERSCORE] 1 _ eq_refl eq_refl).
    destruct (is_type Mdast.emphasis child);
      rewrite ?andb_true_iff, ?Z.leb_le, ?Z.ltb_lt in Hchild;
      intros Hout; inversion Hout; subst l; clear Hout;
      repeat apply Forall_cons; try apply Forall_nil;
      first [ apply tree_range_width; try lia; discriminate
            | apply tree_range_styled; try lia; discriminate ].
  - destruct (offsets_none _ Hc) as (Hv & _). rewrite Hv, andb_false_r.
    intros Hout; inversion Hout. constructor.
Qed.

Lemma processChildren_ranges children : forall decorations l,
  forallb (child_positioned text) children = true ->
  Forall (tree_range text node) decorations ->
  StrongHandler.processChildrenForBoldItalic children text decorations = Ok l ->
  Forall (tree_range text node) l.
Proof.
  induction children as [|c r IH]; intros decorations l Hall Hdec;
    cbn [StrongHandler.processChildrenForBoldItalic].
  - intros Hout; inversion Hout; subst. assumption.
  - simpl in Hall. apply andb_true_iff in Hall as [Hc Hr].
    destruct (StrongHandler.processChild c text) as [pushed|] eqn:Hp;
      cbn [bind]; [|discriminate].
    apply IH; [assumption|].
    apply Forall_app. split; [assumption|].
    eapply processChild_ranges; eassumption.
Qed.

Lemma StrongHandler_ranges l :
  Mdast.type node = Mdast.strong ->
  StrongHandler.extractDecorations node text = Ok l ->
  Forall (tree_range text node) l.
Proof.
  intros Hty. unfold StrongHandler.extractDecorations.
  open_handler Hoff. positions Hwell.
  destruct Hwell as (((Hs0 & Hse) & Hel) & (H5 & Hchildren)).
  destruct (StrongHandler.hasEmphasisChild node).
  - unfold StrongHandler.extractBoldItalicDecorations.
    rewrite (@delimiterLengthOf_fixed [STAR; STAR; STAR]
               [UNDERSCORE; UNDERSCORE; UNDERSCORE] 3 _ eq_refl eq_refl).
    apply processChildren_ranges; [assumption|].
    repeat apply Forall_cons; try apply Forall_nil;
      apply tree_range_width; try lia; discriminate.
  - unfold StrongHandler.extractBoldDecorations.
    rewrite (@delimiterLengthOf_fixed [STAR; STAR] [UNDERSCORE; UNDERSCORE]
               2 _ eq_refl eq_refl).
    intros Hout; inversion Hout; subst l; clear Hout.
    assert (delimited text node = true ->
            exists a b, char_at text s = Some a /\ a <> EQUALS
                        /\ char_at text (e - 1) = Some b /\ b <> EQUALS)
      as Hdel.
    { unfold delimited, is_emphasis_mark. rewrite Hoff, Hty.
      rewrite andb_true_iff, !orb_true_iff, !same_iff.
      intros [[Ha | Ha] [Hb | Hb]]; do 2 eexists;
        (split; [exact Ha | split; [distinct | split; [exact Hb | distinct]]]). }
    repeat apply Forall_cons; try apply Forall_nil.
    + apply tree_range_intro; try lia; [discriminate|].
      intros Hd _ _. apply Hdel in Hd as (a & b & Ha & Hna & _).
      eapply not_delimiter_first; eassumption.
    + apply tree_range_intro; try lia; [discriminate|].
      intros Hd _ _. apply Hdel in Hd as (a & b & _ & _ & Hb & Hnb).
      replace (e - 1) with (e - 2 + 1) in Hb by lia.
      eapply not_delimiter_second; eassumption.
    + apply tree_range_styled; try lia; discriminate.
Qed.

Lemma findContentStart_bounds afterFence beforeClosing :
  afterFence <= beforeClosing ->
  afterFence
  <= CodeBlockHandler.findContentStart text afterFence beforeClosing
  <= beforeClosing.
Proof.
  intros H. unfold CodeBlockHandler.findContentStart.
  repeat match goal with
         | |- context [skip_forward ?c text ?p beforeClosing] =>
             let B := fresh "B" in
             assert (p <= skip_forward c text p beforeClosing <= beforeClosing)
               as B by (apply skip_forward_bounds; lia);
             generalize dependent (skip_forward c text p beforeClosing);
             intros
         end.
  lia.
Qed.

Lemma CodeBlockHandler_ranges l :
  Mdast.type node = Mdast.code ->
  CodeBlockHandler.extractDecorations node text = Ok l ->
  Forall (tree_range text node) l.
Proof.
  intros Hty. unfold CodeBlockHandler.extractDecorations.
  open_handler Hoff. positions Hwell.
  destruct Hwell as (((Hs0 & Hse) & Hel) & Hlt).
  pose proof (@substring_inside text s e Hs0 Hse Hel) as Hlen.
  assert (Forall (tree_range text node) [range code s e]) as Hfallback.
  { apply Forall_cons; [|apply Forall_nil].
    apply tree_range_styled; try lia; discriminate. }
  destruct (Regex.fence (substring text s e)) as [[[g1 g2] g3]|] eqn:Hf.
  - apply fence_sound in Hf as (Hraw & _ & H1 & _ & H3).
    rewrite Hraw, !len_app in Hlen. pose proof (len_nonneg g2).
    assert (3 <= len g1 /\ 3 <= len g3) as [L1 L3] by (unfold len; lia).
    destruct (_ || _); intros Hout; inversion Hout; subst l; clear Hout;
      [assumption|].
    pose proof (@findContentStart_bounds (s + len g1) (e - len g3)
                  ltac:(lia)) as Hb.
    repeat apply Forall_cons; try apply Forall_nil.
    + apply tree_range_width; try lia; discriminate.
    + apply tree_range_width; try lia; discriminate.
    + apply tree_range_styled; try lia; discriminate.
  - intros Hout; inversion Hout; subst l. assumption.
Qed.

End HandlerRangesBlocks.

Lemma char_is_same text i c : char_is text i c = same c (char_at text i).
Proof. unfold char_is, same. reflexivity. Qed.

Ltac range_goal :=
  first [ apply tree_range_width; [lia | lia | lia | discriminate | lia]
        | apply tree_range_styled; [lia | lia | lia | discriminate | discriminate]
        | eapply tree_range_starts; [lia | lia | lia | eassumption | distinct] ].

Ltac ranges_goal :=
  repeat first [ apply Forall_nil
               | apply Forall_cons; [range_goal|]
               | apply Forall_app; split ].

Section HandlerRangesLines.

Variables (node : Node) (text : Js.text) (s e : Z).
Hypothesis Hoff : offsets node = Some (s, e).
Hypothesis Hwell : well_positioned text node = true.

(** One turn of the loop over the lines of a blockquote emits ranges of
    the text and moves forward. *)
Lemma line_spec pos :
  0 <= pos -> pos < e -> e <= len text ->
  Forall (tree_range text node) (fst (BlockquoteHandler.line text pos e))
  /\ pos <= snd (BlockquoteHandler.line text pos e)
  /\ (pos < snd (BlockquoteHandler.line text pos e)
      \/ e <= snd (BlockquoteHandler.line text pos e)).
Proof.
  intros Hpos Hlt Hel. unfold BlockquoteHandler.line.
  pose proof (@skip_forward_bounds BlockquoteHandler.in_line text pos e
                ltac:(lia)) as Hb.
  pose proof (@advance_stops BlockquoteHandler.in_line text
                (Z.to_nat (e - pos)) pos) as Hstop.
  fold (skip_forward BlockquoteHandler.in_line text pos e) in Hstop.
  set (lineEnd := skip_forward BlockquoteHandler.in_line text pos e) in *.
  cbn [fst snd]. split.
  - unfold BlockquoteHandler.BLOCKQUOTE_MARKER_PATTERN.
    pose proof (@seg_at_substring text pos lineEnd Hpos ltac:(lia) ltac:(lia))
      as Hseg.
    pose proof (@substring_inside text pos lineEnd Hpos ltac:(lia) ltac:(lia))
      as Hlen.
    destruct (Regex.blockquote_marker (substring text pos lineEnd))
      as [[[g1 g2] g3]|] eqn:Hm; [|constructor].
    apply blockquote_marker_sound in Hm as ((rest & Hraw) & Hall & H1).
    rewrite Hraw in Hseg, Hlen. rewrite !len_app in Hlen.
    pose proof (len_nonneg g1). pose proof (len_nonneg g3).
    pose proof (len_nonneg rest).
    apply seg_at_app in Hseg as [_ Hseg].
    destruct (@run_head Regex.is_gt text _ g2 _ Hseg Hall H1) as (c & Hc & Hg).
    apply N.eqb_eq in Hg. subst c.
    destruct (Z.gtb_spec (pos + len g1 + len g2 + len g3) (pos + len g1));
      ranges_goal.
  - assert (lineEnd < e ->
            same CR (char_at text lineEnd) = true
            \/ same LF (char_at text lineEnd) = true) as Hbreak.
    { intros Hl. specialize (Hstop ltac:(lia)).
      unfold BlockquoteHandler.in_line, differs in Hstop.
      destruct (same LF (char_at text lineEnd)),
        (same CR (char_at text lineEnd)); auto; discriminate. }
    rewrite !char_is_same.
    destruct (Z.ltb_spec lineEnd e) as [Hl | Hl]; cbn [andb].
    + destruct (Hbreak Hl) as [Hcr | Hlf].
      * rewrite Hcr. destruct (_ && _); lia.
      * destruct (same CR (char_at text lineEnd)).
        -- destruct (_ && _); lia.
        -- destruct (Z.ltb_spec lineEnd e); [|lia]. rewrite Hlf.
           cbn [andb]. lia.
    + destruct (Z.ltb_spec lineEnd e); [lia|]. cbn [andb]. lia.
Qed.

Lemma lines_ranges fuel : forall pos acc,
  0 <= pos -> e <= len text ->
  Forall (tree_range text node) acc ->
  Forall (tree_range text node) (BlockquoteHandler.lines fuel text pos e acc).
Proof.
  induction fuel as [|fuel IH]; intros pos acc Hpos Hel Hacc;
    cbn [BlockquoteHandler.lines]; [assumption|].
  destruct (Z.ltb_spec pos e) as [Hlt | Hge]; [|assumption].
  destruct (@line_spec pos Hpos Hlt Hel) as (Hp & Hfwd & _).
  destruct (BlockquoteHandler.line text pos e) as [pushed pos'].
  cbn [fst snd] in *.
  apply IH; [lia | assumption |].
  apply Forall_app. auto.
Qed.

(** The turns that are left never need more fuel than the characters that
    are left. *)
Lemma lines_fuel n : forall m pos acc,
  0 <= pos -> e <= len text ->
  e - pos <= Z.of_nat n -> e - pos <= Z.of_nat m ->
  BlockquoteHandler.lines n text pos e acc
  = BlockquoteHandler.lines m text pos e acc.
Proof.
  induction n as [|n IH]; intros m pos acc Hpos Hel Hn Hm.
  - destruct m; cbn [BlockquoteHandler.lines]; [reflexivity|].
    destruct (Z.ltb_spec pos e); [lia | reflexivity].
  - destruct m; cbn [BlockquoteHandler.lines].
    + destruct (Z.ltb_spec pos e); [lia | reflexivity].
    + destruct (Z.ltb_spec pos e) as [Hlt | Hge]; [|reflexivity].
      destruct (@line_spec pos Hpos Hlt Hel) as (_ & Hfwd & Hprog).
      destruct (BlockquoteHandler.line text pos e) as [pushed pos'].
      cbn [fst snd] in *. apply IH; lia.
Qed.

Lemma BlockquoteHandler_ranges l :
  Mdast.type node = Mdast.blockquote ->
  BlockquoteHandler.extractDecorations node text = Ok l ->
  Forall (tree_range text node) l.
Proof.
  intros Hty. unfold BlockquoteHandler.extractDecorations.
  open_handler Hoff. positions Hwell.
  destruct Hwell as (((Hs0 & Hse) & Hel) & Hlt).
  intros Hout; inversion Hout; subst l; clear Hout.
  pose proof (@retreat_bounds BlockquoteHandler.in_line text
                (Z.to_nat (s - 0)) s) as Hb.
  fold (skip_backward BlockquoteHandler.in_line text s 0) in Hb.
  set (actualStart := skip_backward BlockquoteHandler.in_line text s 0) in *.
  apply Forall_app. split.
  - apply lines_ranges; [lia | assumption | constructor].
  - ranges_goal.
Qed.

End HandlerRangesLines.

Section HandlerRangesLinks.

Variables (node : Node) (text : Js.text) (s e : Z).
Hypothesis Hoff : offsets node = Some (s, e).
Hypothesis Hwell : well_positioned text node = true.

(** What is known of the three scans of the link and image handlers. *)
Ltac scan_bounds :=
  repeat match goal with
         | |- context [Scan.until ?c text ?p e] =>
             let B := fresh "B" in
             let z := fresh "z" in
             let Ez := fresh "Ez" in
             assert (p <= Scan.until c text p e <= e) as B
               by (apply until_bounds; lia);
             remember (Scan.until c text p e) as z eqn:Ez; clear Ez
         | |- context [Scan.closing_paren text ?p e] =>
             let B := fresh "B" in
             let z := fresh "z" in
             let Ez := fresh "Ez" in
             assert (p <= Scan.closing_paren text p e <= e) as B
               by (apply closing_paren_bounds; lia);
             remember (Scan.closing_paren text p e) as z eqn:Ez; clear Ez
         | |- context [match Scan.opening ?c text ?p e with _ => _ end] =>
             let B := fresh "B" in
             let r := fresh "r" in
             let E := fresh "E" in
             destruct (Scan.opening c text p e) as [r|] eqn:E;
             [ apply opening_bounds in E; [|lia]; destruct E as [B E] | ]
         | |- context [?a >=? ?b] => destruct (Z.geb_spec a b)
         | |- context [?a <? ?b] => destruct (Z.ltb_spec a b)
         | |- context [?a >? ?b] => destruct (Z.gtb_spec a b)
         | |- context [differs ?c ?x] => destruct (differs c x)
         | H : ?r < e -> char_at text ?r = Some _, H' : ?r < e |- _ =>
             specialize (H H')
         | _ => progress cbn [andb orb app]
         end.

Ltac finish :=
  let Hout := fresh "Hout" in
  intros Hout; inversion Hout; subst; clear Hout; ranges_goal.

Lemma LinkHandler_ranges l :
  Mdast.type node = Mdast.link ->
  LinkHandler.extractDecorations node text = Ok l ->
  Forall (tree_range text node) l.
Proof.
  intros Hty. unfold LinkHandler.extractDecorations.
  open_handler Hoff. positions Hwell.
  destruct Hwell as (((Hs0 & Hse) & Hel) & Hlt).
  destruct (same LT (if s >? 0 then char_at text (s - 1) else None)
            && same GT (if e <? len text then char_at text e else None))
    eqn:Hauto; cbv iota.
  - apply andb_true_iff in Hauto as [Hb Ha]. apply same_iff in Hb, Ha.
    destruct (Z.gtb_spec s 0); [|discriminate].
    destruct (Z.ltb_spec e (len text)); [|discriminate].
    finish.
  - clear Hauto. destruct (same LT _ && same GT _); cbv iota; [finish|].
    scan_bounds; try finish.
Qed.

Lemma ImageHandler_ranges l :
  Mdast.type node = Mdast.image ->
  ImageHandler.extractDecorations node text = Ok l ->
  Forall (tree_range text node) l.
Proof.
  intros Hty. unfold ImageHandler.extractDecorations.
  open_handler Hoff. positions Hwell.
  destruct Hwell as (((Hs0 & Hse) & Hel) & _).
  scan_bounds; try finish.
Qed.

Lemma LinkReferenceHandler_ranges l :
  Mdast.type node = Mdast.linkReference ->
  LinkReferenceHandler.extractDecorations node text = Ok l ->
  Forall (tree_range text node) l.
Proof.
  intros Hty. unfold LinkReferenceHandler.extractDecorations.
  open_handler Hoff. positions Hwell.
  destruct Hwell as (((Hs0 & Hse) & Hel) & _).
  scan_bounds; try finish.
Qed.

Lemma ImageReferenceHandler_ranges l :
  Mdast.type node = Mdast.imageReference ->
  ImageReferenceHandler.extractDecorations node text = Ok l ->
  Forall (tree_range text node) l.
Proof.
  intros Hty. unfold ImageReferenceHandler.extractDecorations.
  open_handler Hoff. positions Hwell.
  destruct Hwell as (((Hs0 & Hse) & Hel) & _).
  scan_bounds; try finish.
Qed.

End HandlerRangesLinks.

(* ===================================================================== *)
(** ** The ranges of the tree walk *)
(* ===================================================================== *)

Lemma decorations_of_ranges text node :
  well_positioned text node = true ->
  Forall (tree_range text node) (decorations_of text node).
Proof.
  intros Hwell. unfold decorations_of.
  destruct (offsets node) as [[s e]|] eqn:Hoff.
  2:{ destruct (MarkdownParser.findHandler node) as [h|] eqn:Hf; [|constructor].
      rewrite (@skipped_without_position h node text (findHandler_In _ Hf)
                 (proj1 (offsets_none _ Hoff))).
      constructor. }
  unfold MarkdownParser.findHandler, MarkdownParser.handlers.
  cbn [find canHandle HeadingHandler.handler StrongHandler.handler
       EmphasisHandler.handler InlineCodeHandler.handler
       CodeBlockHandler.handler BlockquoteHandler.handler
       HorizontalRuleHandler.handler DeleteHandler.handler
       LinkHandler.handler ImageHandler.handler
       LinkReferenceHandler.handler ImageReferenceHandler.handler].
  unfold HeadingHandler.canHandle, StrongHandler.canHandle,
    EmphasisHandler.canHandle, InlineCodeHandler.canHandle,
    CodeBlockHandler.canHandle, BlockquoteHandler.canHandle,
    HorizontalRuleHandler.canHandle, DeleteHandler.canHandle,
    LinkHandler.canHandle, ImageHandler.canHandle,
    LinkReferenceHandler.canHandle, ImageReferenceHandler.canHandle, is_type.
  destruct (Mdast.type node) eqn:Hty; cbn; try constructor;
    match goal with
    | |- Forall _ match ?call with _ => _ end =>
        destruct call as [l|] eqn:Hcall; [|constructor]
    end.
  - eapply HeadingHandler_ranges; eassumption.
  - eapply StrongHandler_ranges; eassumption.
  - eapply EmphasisHandler_ranges; eassumption.
  - eapply InlineCodeHandler_ranges; eassumption.
  - eapply CodeBlockHandler_ranges; eassumption.
  - eapply BlockquoteHandler_ranges; eassumption.
  - eapply HorizontalRuleHandler_ranges; eassumption.
  - eapply DeleteHandler_ranges; eassumption.
  - eapply LinkHandler_ranges; eassumption.
  - eapply ImageHandler_ranges; eassumption.
  - eapply LinkReferenceHandler_ranges; eassumption.
  - eapply ImageReferenceHandler_ranges; eassumption.
Qed.

Lemma DecorationType_eqb_eq a b : DecorationType_eqb a b = true <-> a = b.
Proof.
  unfold DecorationType_eqb. destruct (DecorationType_eq_dec a b);
    split; congruence.
Qed.

Lemma Key_eqb_eq a b : Key_eqb a b = true <-> a = b.
Proof.
  destruct a as [[s1 e1] t1], b as [[s2 e2] t2]. unfold Key_eqb.
  rewrite !andb_true_iff, !Z.eqb_eq, DecorationType_eqb_eq.
  split; [intros [[-> ->] ->]; reflexivity | intros E; inversion E; auto].
Qed.

Lemma has_In k s : DecorationCollector.has k s = true <-> In k s.
Proof.
  unfold DecorationCollector.has. rewrite existsb_exists. split.
  - intros (x & Hx & E). apply Key_eqb_eq in E. subst. assumption.
  - intros H. exists k. split; [assumption | apply Key_eqb_eq; reflexivity].
Qed.

Lemma add_collected c d :
  collected c -> collected (DecorationCollector.add c d).
Proof.
  intros [Hseen Hnd]. unfold DecorationCollector.add.
  destruct (DecorationCollector.has (DecorationCollector.createKey d)
              (DecorationCollector.seen c)) eqn:Hhas; cbn [negb].
  - split; assumption.
  - unfold collected. cbn [DecorationCollector.ranges DecorationCollector.seen].
    rewrite map_app, Hseen. split; [reflexivity|].
    apply NoDup_app; [assumption | repeat constructor; auto |].
    intros k Hk [<- | []].
    apply has_In in Hk. congruence.
Qed.

Lemma addAll_collected l : forall c,
  collected c -> collected (DecorationCollector.addAll c l).
Proof.
  unfold DecorationCollector.addAll.
  induction l as [|d l IH]; intros c Hc; cbn [fold_left]; [assumption|].
  apply IH, add_collected, Hc.
Qed.

Lemma add_ranges c d x :
  In x (DecorationCollector.ranges (DecorationCollector.add c d)) ->
  In x (DecorationCollector.ranges c) \/ x = d.
Proof.
  unfold DecorationCollector.add.
  destruct (negb _); cbn [DecorationCollector.ranges]; [|auto].
  rewrite in_app_iff. simpl. intuition.
Qed.

Lemma addAll_ranges l : forall c x,
  In x (DecorationCollector.ranges (DecorationCollector.addAll c l)) ->
  In x (DecorationCollector.ranges c) \/ In x l.
Proof.
  unfold DecorationCollector.addAll.
  induction l as [|d l IH]; intros c x; cbn [fold_left]; [auto|].
  intros H. apply IH in H as [H | H]; [|simpl; auto].
  apply add_ranges in H as [H | ->]; simpl; auto.
Qed.

(** A range of the collector was emitted for a node of the tree. *)
Lemma walk_ranges text l : forall st x,
  In x (DecorationCollector.ranges (fst (fold_left (step text) l st))) ->
  In x (DecorationCollector.ranges (fst st))
  \/ exists n, In n l /\ In x (decorations_of text n).
Proof.
  induction l as [|n l IH]; intros st x; cbn [fold_left]; [auto|].
  intros H. apply IH in H as [H | (m & Hm & Hx)].
  - unfold step in H. cbn [fst] in H.
    apply addAll_ranges in H as [H | H]; [auto|].
    right. exists n. simpl. auto.
  - right. exists m. simpl. auto.
Qed.

Lemma walk_collected text l : forall st,
  collected (fst st) -> collected (fst (fold_left (step text) l st)).
Proof.
  induction l as [|n l IH]; intros st Hc; cbn [fold_left]; [assumption|].
  apply IH. unfold step. cbn [fst]. apply addAll_collected, Hc.
Qed.

Lemma walked_ranges text ast x :
  In x (DecorationCollector.ranges (fst (walked text ast))) ->
  exists n, In n (nodes ast) /\ In x (decorations_of text n).
Proof.
  unfold walked. intros H. apply walk_ranges in H as [[] | H]. exact H.
Qed.

Lemma walked_collected text ast : collected (fst (walked text ast)).
Proof.
  unfold walked. apply walk_collected. split; [reflexivity | constructor].
Qed.

Lemma NoDup_map_filter {A B : Type} (f : A -> B) (p : A -> bool) l :
  NoDup (map f l) -> NoDup (map f (filter p l)).
Proof.
  induction l as [|a l IH]; simpl; intros H; [constructor|].
  inversion H as [|? ? Hnotin Hnd]; subst.
  destruct (p a); simpl; [|auto].
  constructor; [|auto].
  intros Hin. apply Hnotin. apply in_map_iff in Hin as (y & Hy & Hin).
  apply filter_In in Hin as [Hin _]. apply in_map_iff. eauto.
Qed.

(** The ranges of the scanner lie in the text. *)
Lemma scanner_range_valid text d :
  scanner_range text d -> valid_range text d.
Proof.
  unfold scanner_range, valid_range.
  intros [(_ & Hw & Hd) | (_ & Ho & Hc & Hlt)].
  - apply delimiter_inside in Hd. lia.
  - apply delimiter_inside in Ho, Hc. lia.
Qed.

(** The scanner emits no range twice: every pair lies after the one
    before. *)
Lemma Highlights_NoDup text pos l :
  Highlights text pos l ->
  Forall (fun d => pos <= startPos d) l
  /\ NoDup (map DecorationCollector.createKey l).
Proof.
  induction 1 as [pos Hno | pos o Ho Hno | pos o c rest Ho Hc Hrest IH];
    [split; constructor | split; constructor |].
  destruct IH as [Hafter Hnd].
  destruct Ho as (Hpo & _ & _), Hc as (Hoc & _ & _).
  assert (Forall (fun d => pos <= startPos d) rest) as Hafter'.
  { eapply Forall_impl; [|exact Hafter]. cbv beta. intros. lia. }
  unfold highlight_of. destruct (Z.gtb_spec c (o + 2)); [|auto].
  split.
  - repeat (apply Forall_cons; [cbn [startPos range]; lia|]). exact Hafter'.
  - change (map DecorationCollector.createKey
              ([range hide o (o + 2); range hide c (c + 2);
                range highlight (o + 2) c] ++ rest))
      with ((o, o + 2, hide) :: (c, c + 2, hide) :: (o + 2, c, highlight)
            :: map DecorationCollector.createKey rest).
    rewrite Forall_forall in Hafter.
    assert (forall a b t, In (a, b, t) (map DecorationCollector.createKey rest)
                          -> c + 2 <= a) as Hkeys.
    { intros a b t Hin. apply in_map_iff in Hin as (d & E & Hd).
      inversion E; subst. apply Hafter. assumption. }
    repeat constructor; try assumption; simpl;
      intros Hin;
      repeat match goal with
             | H : _ \/ _ |- _ => destruct H
             | H : (_, _, _) = (_, _, _) |- _ => inversion H; clear H
             | H : False |- _ => contradiction
             | H : In _ (map _ rest) |- _ => apply Hkeys in H
             end; try lia; try discriminate.
Qed.

(** The engine's result is the ranges of the walk that pass the filter,
    followed by the ranges of the scanner. *)
Lemma positioned_nodes text ast n :
  positioned text ast = true -> In n (nodes ast) ->
  well_positioned text n = true.
Proof.
  unfold positioned. rewrite forallb_forall. auto.
Qed.

Lemma conforms_nodes text ast n :
  conforms text ast = true -> In n (nodes ast) ->
  well_positioned text n = true /\ delimited text n = true.
Proof.
  unfold conforms. rewrite forallb_forall. intros H Hn.
  apply andb_true_iff. auto.
Qed.

(** C1.  Every range of the output lies in the text and is not empty:
    [0 <= startPos < endPos <= length(text)], for the trees a parser returns
    ([positioned]). *)
Theorem emitted_ranges_lie_in_text :
  forall (parseAST : text -> Node) (text : text),
    positioned text (parseAST text) = true ->
    exists out,
      MarkdownParser.extractDecorations parseAST text = Ok out
      /\ Forall (valid_range text) out.
Proof.
  intros parseAST text Hpos.
  rewrite extractDecorations_walked. eexists. split; [reflexivity|].
  apply Forall_app. split.
  - apply Forall_forall. intros d Hd.
    apply filter_In in Hd as [Hd _].
    apply walked_ranges in Hd as (n & Hn & Hd).
    pose proof (decorations_of_ranges text n
                  (positioned_nodes _ _ _ Hpos Hn)) as Hall.
    rewrite Forall_forall in Hall. apply (Hall d Hd).
  - eapply Forall_impl; [|apply scanner_ranges].
    apply scanner_range_valid.
Qed.

Lemma emitted_ranges_lie_in_text_witness :
  exists out,
    MarkdownParser.extractDecorations (fun _ => Sample.page_tree)
      Sample.page = Ok out
    /\ Forall (valid_range Sample.page) out.
Proof.
  apply (@emitted_ranges_lie_in_text (fun _ => Sample.page_tree) Sample.page).
  vm_compute. reflexivity.
Defined.

(** What the engine returns on the page of the examples: the italic range
    of the emphasis is dropped, the hides it shares with the strong node
    are kept once, the ranges of the scanner come last. *)
Example page_decorations :
  MarkdownParser.extractDecorations (fun _ => Sample.page_tree) Sample.page
  = Ok [range hide 0 2;
        {| startPos := 2; endPos := 3; type := heading1; level := Some 1 |};
        range hide 5 8; range hide 12 15; range bold 7 9;
        range hide 9 10; range hide 12 13; range boldItalic 10 12;
        range hide 23 24; range hide 25 26; range code 24 25;
        range hide 16 18; range hide 20 22; range highlight 18 20].
Proof. vm_compute. reflexivity. Qed.

(* ===================================================================== *)
(** * Further properties of the engine *)
(* ===================================================================== *)

(** X1.  The engine never throws: for every tree the parser may return and
    every text, [extractDecorations] returns a list, and so does each of
    the twelve handlers on every node, with or without a position, with
    offsets in or out of the text. *)
Theorem engine_never_throws :
  (forall (parseAST : text -> Node) (text : text),
      exists out, MarkdownParser.extractDecorations parseAST text = Ok out)
  /\ Forall (fun handler =>
               forall (node : Node) (text : text),
                 exists l, extractDecorations handler node text = Ok l)
       MarkdownParser.handlers.
Proof.
  split.
  - intros parseAST text. rewrite extractDecorations_walked. eauto.
  - apply Forall_forall. intros handler Hin node text.
    apply handlers_total, Hin.
Qed.

(** ** The collector *)

Lemma add_appends c d :
  DecorationCollector.ranges (DecorationCollector.add c d)
  = DecorationCollector.ranges c
    ++ (if DecorationCollector.has (DecorationCollector.createKey d)
             (DecorationCollector.seen c)
        then [] else [d]).
Proof.
  unfold DecorationCollector.add.
  destruct (DecorationCollector.has _ _); cbn [negb DecorationCollector.ranges].
  - rewrite app_nil_r. reflexivity.
  - reflexivity.
Qed.

Lemma addAll_appends l : forall c,
  exists added,
    DecorationCollector.ranges (DecorationCollector.addAll c l)
    = DecorationCollector.ranges c ++ added
    /\ incl added l.
Proof.
  unfold DecorationCollector.addAll.
  induction l as [|d l IH]; intros c; cbn [fold_left].
  - exists []. rewrite app_nil_r. split; [reflexivity | intros x []].
  - destruct (IH (DecorationCollector.add c d)) as (added & E & Hincl).
    rewrite add_appends in E.
    destruct (DecorationCollector.has _ _).
    + exists added. rewrite app_nil_r in E. split; [exact E|].
      intros x Hx. right. auto.
    + exists (d :: added). rewrite <- app_assoc in E. split; [exact E|].
      intros x [<- | Hx]; [left; reflexivity | right; auto].
Qed.

Lemma add_has_key c d :
  collected c ->
  has_key d (DecorationCollector.ranges (DecorationCollector.add c d)).
Proof.
  intros [Hseen _]. unfold has_key. rewrite add_appends.
  destruct (DecorationCollector.has _ _) eqn:Hhas.
  - rewrite app_nil_r. apply has_In in Hhas. rewrite <- Hseen. exact Hhas.
  - rewrite map_app, in_app_iff. right. left. reflexivity.
Qed.

Lemma addAll_keeps_keys l : forall c d,
  has_key d (DecorationCollector.ranges c) ->
  has_key d (DecorationCollector.ranges (DecorationCollector.addAll c l)).
Proof.
  intros c d H. destruct (addAll_appends l c) as (added & E & _).
  unfold has_key in *. rewrite E, map_app, in_app_iff. auto.
Qed.

Lemma addAll_has_keys l : forall c d,
  collected c -> In d l ->
  has_key d (DecorationCollector.ranges (DecorationCollector.addAll c l)).
Proof.
  induction l as [|x l IH]; intros c d Hc []; subst.
  - change (DecorationCollector.addAll c (d :: l))
      with (DecorationCollector.addAll (DecorationCollector.add c d) l).
    apply addAll_keeps_keys, add_has_key, Hc.
  - change (DecorationCollector.addAll c (x :: l))
      with (DecorationCollector.addAll (DecorationCollector.add c x) l).
    apply IH; [apply add_collected, Hc | assumption].
Qed.

Lemma addAll_known l : forall c,
  collected c ->
  (forall d, In d l -> has_key d (DecorationCollector.ranges c)) ->
  DecorationCollector.addAll c l = c.
Proof.
  unfold DecorationCollector.addAll.
  induction l as [|d l IH]; intros c Hc Hall; cbn [fold_left]; [reflexivity|].
  assert (DecorationCollector.add c d = c) as E.
  { unfold DecorationCollector.add.
    destruct (DecorationCollector.has _ _) eqn:Hhas; [reflexivity|].
    exfalso. apply not_true_iff_false in Hhas. apply Hhas, has_In.
    destruct Hc as [-> _]. apply Hall. left. reflexivity. }
  rewrite E. apply IH; [exact Hc|]. intros x Hx. apply Hall. right. exact Hx.
Qed.

(** X2.  The collector keeps the first decoration of every key: what it
    held before [addAll] stays in place, what is appended comes from the
    list given, every key of that list is held afterwards, no key is held
    twice, and adding the same list again changes nothing. *)
Theorem collector_keeps_first_of_each_key :
  forall (c : DecorationCollector.t) (l : list DecorationRange),
    collected c ->
    collected (DecorationCollector.addAll c l)
    /\ (exists added,
           DecorationCollector.getAll (DecorationCollector.addAll c l)
           = DecorationCollector.getAll c ++ added
           /\ incl added l)
    /\ (forall d, In d l ->
                  has_key d (DecorationCollector.getAll
                               (DecorationCollector.addAll c l)))
    /\ DecorationCollector.addAll (DecorationCollector.addAll c l) l
       = DecorationCollector.addAll c l.
Proof.
  intros c l Hc. unfold DecorationCollector.getAll.
  split; [apply addAll_collected, Hc|].
  split; [apply addAll_appends|].
  split; [intros d Hd; apply addAll_has_keys; assumption|].
  apply addAll_known; [apply addAll_collected, Hc|].
  intros d Hd. apply addAll_has_keys; assumption.
Qed.

Lemma collector_keeps_first_of_each_key_witness :
  let c := DecorationCollector.new in
  let l := [range hide 0 2; range bold 2 6; range hide 0 2] in
  collected (DecorationCollector.addAll c l)
  /\ (exists added,
         DecorationCollector.getAll (DecorationCollector.addAll c l)
         = DecorationCollector.getAll c ++ added
         /\ incl added l)
  /\ (forall d, In d l ->
                has_key d (DecorationCollector.getAll
                             (DecorationCollector.addAll c l)))
  /\ DecorationCollector.addAll (DecorationCollector.addAll c l) l
     = DecorationCollector.addAll c l.
Proof.
  apply (@collector_keeps_first_of_each_key DecorationCollector.new
           [range hide 0 2; range bold 2 6; range hide 0 2]).
  split; [reflexivity | constructor].
Defined.

(** ** The walk *)

Lemma decorations_of_handler text node handler l :
  MarkdownParser.findHandler node = Some handler ->
  extractDecorations handler node text = Ok l ->
  decorations_of text node = l.
Proof.
  intros Hf He. unfold decorations_of. rewrite Hf, He. reflexivity.
Qed.

Lemma decorations_of_inv text node d :
  In d (decorations_of text node) ->
  exists handler l,
    MarkdownParser.findHandler node = Some handler
    /\ extractDecorations handler node text = Ok l /\ In d l.
Proof.
  unfold decorations_of.
  destruct (MarkdownParser.findHandler node) as [h|]; [|intros []].
  destruct (extractDecorations h node text) as [l|] eqn:E; [|intros []].
  intros Hd. exists h, l. auto.
Qed.

Lemma walk_keeps_keys text l : forall st d,
  has_key d (DecorationCollector.ranges (fst st)) ->
  has_key d (DecorationCollector.ranges (fst (fold_left (step text) l st))).
Proof.
  induction l as [|n l IH]; intros st d H; cbn [fold_left]; [exact H|].
  apply IH. unfold step. cbn [fst]. apply addAll_keeps_keys, H.
Qed.

Lemma walk_has_keys text l : forall st n d,
  collected (fst st) -> In n l -> In d (decorations_of text n) ->
  has_key d (DecorationCollector.ranges (fst (fold_left (step text) l st))).
Proof.
  induction l as [|m l IH]; intros st n d Hc [] Hd; subst; cbn [fold_left].
  - apply walk_keeps_keys. unfold step. cbn [fst].
    apply addAll_has_keys; assumption.
  - eapply IH; [|eassumption|eassumption].
    unfold step. cbn [fst]. apply addAll_collected, Hc.
Qed.

Lemma keep_other_types r d :
  type d <> italic -> MarkdownParser.keep r d = true.
Proof.
  intros H. unfold MarkdownParser.keep.
  destruct (DecorationType_eqb (type d) italic) eqn:E; [|reflexivity].
  apply DecorationType_eqb_eq in E. contradiction.
Qed.

(** X3.  Nothing is invented and only italic ranges are dropped: every
    decoration of the output was returned by the handler of a node of the
    tree or by the highlight scanner, and every decoration that the
    handler of a node returns and that is not italic has its key in the
    output. *)
Theorem output_is_handler_output_minus_italic :
  forall (parseAST : text -> Node) (text : text),
    exists out,
      MarkdownParser.extractDecorations parseAST text = Ok out
      /\ (forall d, In d out ->
            (exists node handler l,
                In node (nodes (parseAST text))
                /\ MarkdownParser.findHandler node = Some handler
                /\ extractDecorations handler node text = Ok l
                /\ In d l)
            \/ In d (HighlightHandler.extractDecorations text))
      /\ (forall node handler l d,
            In node (nodes (parseAST text)) ->
            MarkdownParser.findHandler node = Some handler ->
            extractDecorations handler node text = Ok l ->
            In d l -> type d <> italic ->
            has_key d out).
Proof.
  intros parseAST text. rewrite extractDecorations_walked.
  eexists. split; [reflexivity|]. split.
  - intros d Hd. apply in_app_iff in Hd as [Hd | Hd]; [left | right; exact Hd].
    apply filter_In in Hd as [Hd _].
    apply walked_ranges in Hd as (n & Hn & Hd).
    apply decorations_of_inv in Hd as (h & l & Hf & He & Hd).
    exists n, h, l. auto.
  - intros node handler l d Hn Hf He Hd Hty.
    assert (has_key d (DecorationCollector.ranges
                         (fst (walked text (parseAST text))))) as Hkey.
    { unfold walked. eapply walk_has_keys; [| exact Hn |].
      - split; [reflexivity | constructor].
      - rewrite (decorations_of_handler _ _ Hf He). exact Hd. }
    unfold has_key in *. apply in_map_iff in Hkey as (d' & Ek & Hd').
    rewrite <- Ek. apply in_map. apply in_app_iff. left.
    apply filter_In. split; [exact Hd'|].
    apply keep_other_types.
    unfold DecorationCollector.createKey in Ek. inversion Ek. congruence.
Qed.

Lemma output_is_handler_output_minus_italic_witness :
  exists out,
    MarkdownParser.extractDecorations (fun _ => Sample.page_tree) Sample.page
    = Ok out
    /\ has_key (range boldItalic 10 12) out.
Proof.
  destruct (@output_is_handler_output_minus_italic
              (fun _ => Sample.page_tree) Sample.page)
    as (out & E & _ & Hkept).
  exists out. split; [exact E|].
  apply (Hkept (Sample.parent Mdast.strong 5 15
                  [ Sample.leaf Mdast.textNode 7 9;
                    Sample.parent Mdast.emphasis 9 13
                      [Sample.leaf Mdast.textNode 10 12] ])
           StrongHandler.handler
           [range hide 5 8; range hide 12 15; range bold 7 9;
            range hide 9 10; range hide 12 13; range boldItalic 10 12]).
  - do 4 right. left. reflexivity.
  - reflexivity.
  - vm_compute. reflexivity.
  - do 5 right. left. reflexivity.
  - discriminate.
Defined.

(** ** Dispatch *)

Lemma find_hd_filter {A : Type} (p : A -> bool) l :
  find p l = hd_error (filter p l).
Proof.
  induction l as [|a l IH]; simpl; [reflexivity|].
  destruct (p a); [reflexivity | exact IH].
Qed.

Lemma Permutation_filter_same {A : Type} (p : A -> bool) l l' :
  Permutation l l' -> Permutation (filter p l) (filter p l').
Proof.
  induction 1 as [| x l l' _ IH | x y l | l l' l'' _ IH1 _ IH2]; simpl.
  - constructor.
  - destruct (p x); [constructor|]; exact IH.
  - destruct (p x), (p y); try apply Permutation_refl. constructor.
  - eapply Permutation_trans; eassumption.
Qed.

(** At most one handler takes a node: the tests compare the type of the
    node with twelve different names. *)
Lemma one_handler node :
  (length (filter (fun handler => canHandle handler node)
             MarkdownParser.handlers) <= 1)%nat.
Proof.
  unfold MarkdownParser.handlers. cbn [filter canHandle].
  unfold HeadingHandler.handler, StrongHandler.handler,
    EmphasisHandler.handler, InlineCodeHandler.handler,
    CodeBlockHandler.handler, BlockquoteHandler.handler,
    HorizontalRuleHandler.handler, DeleteHandler.handler,
    LinkHandler.handler, ImageHandler.handler,
    LinkReferenceHandler.handler, ImageReferenceHandler.handler.
  cbn [canHandle].
  unfold HeadingHandler.canHandle, StrongHandler.canHandle,
    EmphasisHandler.canHandle, InlineCodeHandler.canHandle,
    CodeBlockHandler.canHandle, BlockquoteHandler.canHandle,
    HorizontalRuleHandler.canHandle, DeleteHandler.canHandle,
    LinkHandler.canHandle, ImageHandler.canHandle,
    LinkReferenceHandler.canHandle, ImageReferenceHandler.canHandle,
    is_type, Mdast.NodeType_eqb.
  destruct (Mdast.type node);
    repeat match goal with
           | |- context [Mdast.NodeType_eq_dec ?a ?b] =>
               destruct (Mdast.NodeType_eq_dec a b); try discriminate
           end; simpl; lia.
Qed.

(** X4.  Dispatch does not depend on the order of the handlers: the tests
    [canHandle] exclude one another, so that searching any rearrangement of
    the list finds the same handler, and a handler that takes a node is the
    one the engine uses for it. *)
Theorem dispatch_is_independent_of_handler_order :
  forall node : Node,
    (forall l : list NodeHandler,
        Permutation l MarkdownParser.handlers ->
        find (fun handler => canHandle handler node) l
        = MarkdownParser.findHandler node)
    /\ (forall handler : NodeHandler,
           In handler MarkdownParser.handlers ->
           canHandle handler node = true ->
           MarkdownParser.findHandler node = Some handler).
Proof.
  intros node.
  pose proof (one_handler node) as Hone.
  unfold MarkdownParser.findHandler. split.
  - intros l Hperm. rewrite !find_hd_filter.
    apply (Permutation_filter_same (fun handler => canHandle handler node))
      in Hperm.
    destruct (filter _ MarkdownParser.handlers) as [|h [|h' rest]].
    + apply Permutation_sym, Permutation_nil in Hperm.
      rewrite Hperm. reflexivity.
    + apply Permutation_sym, Permutation_length_1_inv in Hperm.
      rewrite Hperm. reflexivity.
    + simpl in Hone. lia.
  - intros handler Hin Hcan. rewrite find_hd_filter.
    assert (In handler (filter (fun handler => canHandle handler node)
                          MarkdownParser.handlers)) as Hf.
    { apply filter_In. auto. }
    destruct (filter _ MarkdownParser.handlers) as [|h [|h' rest]].
    + destruct Hf.
    + destruct Hf as [<- | []]. reflexivity.
    + simpl in Hone. lia.
Qed.

Lemma dispatch_is_independent_of_handler_order_witness :
  find (fun handler => canHandle handler (Sample.leaf Mdast.emphasis 0 3))
    (rev MarkdownParser.handlers)
  = MarkdownParser.findHandler (Sample.leaf Mdast.emphasis 0 3).
Proof.
  apply (proj1 (dispatch_is_independent_of_handler_order
                  (Sample.leaf Mdast.emphasis 0 3))).
  apply Permutation_sym, Permutation_rev.
Defined.

(* ===================================================================== *)
(** * Further properties of the handlers *)
(* ===================================================================== *)

(** ** Bold and italic *)

Lemma processChild_fixed child text :
  StrongHandler.processChild child text = Ok (bold_italic_child child).
Proof.
  unfold StrongHandler.processChild, bold_italic_child.
  destruct (offsets child) as [[a b]|] eqn:Hoff.
  - destruct (offsets_valid _ Hoff) as (Hv & _ & Hs & He).
    rewrite Hv, Hs, He. cbn [bind].
    destruct (is_type Mdast.emphasis child); cbn [andb bind]; [|reflexivity].
    rewrite (@delimiterLengthOf_fixed [STAR] [UNDERSCORE] 1) by reflexivity.
    reflexivity.
  - destruct (offsets_none _ Hoff) as [Hv _]. rewrite Hv.
    rewrite andb_false_r. reflexivity.
Qed.

Lemma processChildren_fixed children text : forall decorations,
  StrongHandler.processChildrenForBoldItalic children text decorations
  = Ok (decorations ++ flat_map bold_italic_child children).
Proof.
  induction children as [|child rest IH]; intros decorations;
    cbn [StrongHandler.processChildrenForBoldItalic flat_map].
  - rewrite app_nil_r. reflexivity.
  - rewrite processChild_fixed. cbn [bind]. rewrite IH, app_assoc.
    reflexivity.
Qed.

Lemma StrongHandler_fixed node text s e :
  offsets node = Some (s, e) ->
  StrongHandler.extractDecorations node text
  = Ok (if StrongHandler.hasEmphasisChild node
        then [range hide s (s + 3); range hide (e - 3) e]
             ++ flat_map bold_italic_child (Mdast.children node)
        else [range hide s (s + 2); range hide (e - 2) e;
              range bold (s + 2) (e - 2)]).
Proof.
  intros Hoff. unfold StrongHandler.extractDecorations. open_handler Hoff.
  destruct (StrongHandler.hasEmphasisChild node).
  - unfold StrongHandler.extractBoldItalicDecorations.
    rewrite (@delimiterLengthOf_fixed [STAR; STAR; STAR]
               [UNDERSCORE; UNDERSCORE; UNDERSCORE] 3) by reflexivity.
    apply processChildren_fixed.
  - unfold StrongHandler.extractBoldDecorations.
    rewrite (@delimiterLengthOf_fixed [STAR; STAR] [UNDERSCORE; UNDERSCORE] 2)
      by reflexivity.
    reflexivity.
Qed.

(** X5.  The decorations of a strong node do not depend on the text: the
    patterns the handler matches against the node's text never change the
    width of a hide.  A strong node without an emphasis child hides two
    characters at each end and is bold in between; one with an emphasis
    child hides three characters at each end, whatever its delimiter is,
    and then takes one character at each end of every emphasis child. *)
Theorem strong_decorations_ignore_the_text :
  forall (node : Node) (text : text) (s e : Z),
    Mdast.position node = Mdast.at_ s e ->
    (forall text' : Js.text,
        StrongHandler.extractDecorations node text'
        = StrongHandler.extractDecorations node text)
    /\ (StrongHandler.hasEmphasisChild node = false ->
        StrongHandler.extractDecorations node text
        = Ok [range hide s (s + 2); range hide (e - 2) e;
              range bold (s + 2) (e - 2)])
    /\ (StrongHandler.hasEmphasisChild node = true ->
        StrongHandler.extractDecorations node text
        = Ok ([range hide s (s + 3); range hide (e - 3) e]
              ++ flat_map bold_italic_child (Mdast.children node))).
Proof.
  intros node text s e Hpos. apply offsets_at in Hpos.
  split; [|split].
  - intros text'. rewrite !(StrongHandler_fixed _ _ Hpos). reflexivity.
  - intros H. rewrite (StrongHandler_fixed _ _ Hpos), H. reflexivity.
  - intros H. rewrite (StrongHandler_fixed _ _ Hpos), H. reflexivity.
Qed.

Lemma strong_decorations_ignore_the_text_witness :
  StrongHandler.extractDecorations Sample.bold_with_italic_strong
    Sample.bold_with_italic
  = Ok [range hide 0 3; range hide 7 10; range bold 2 4;
        range hide 4 5; range hide 7 8; range boldItalic 5 7]
  /\ StrongHandler.extractDecorations Sample.bold_with_italic_strong []
     = StrongHandler.extractDecorations Sample.bold_with_italic_strong
         Sample.bold_with_italic.
Proof.
  destruct (@strong_decorations_ignore_the_text Sample.bold_with_italic_strong
              Sample.bold_with_italic 0 10 eq_refl) as (Hany & _ & Hthree).
  split; [apply Hthree; reflexivity | apply Hany].
Defined.

Lemma char_at_past text i : len text <= i -> char_at text i = None.
Proof.
  intros H. unfold char_at. pose proof (len_nonneg text).
  destruct (Z.ltb_spec i 0); [lia|].
  apply nth_error_None. unfold len in *. lia.
Qed.

Lemma text_eqb_length a b : text_eqb a b = true -> len a = len b.
Proof. intros H. apply text_eqb_eq in H. subst. reflexivity. Qed.

(** The two code units before an offset. *)
Lemma two_before text s c :
  text_eqb (substring text (Z.max 0 (s - 2)) s) [c; c] = true
  <-> char_at text (s - 2) = Some c /\ char_at text (s - 1) = Some c.
Proof.
  pose proof (len_nonneg text) as Hl.
  destruct (Z.le_gt_cases 2 s) as [H2|H2];
    [destruct (Z.le_gt_cases s (len text)) as [Hs|Hs]|].
  - replace (Z.max 0 (s - 2)) with (s - 2) by lia.
    pose proof (@seg_at_substring text (s - 2) s ltac:(lia) ltac:(lia) Hs)
      as [_ Hseg].
    pose proof (@substring_inside text (s - 2) s ltac:(lia) ltac:(lia) Hs)
      as Hlen.
    destruct (substring text (s - 2) s) as [|x [|y [|z r]]];
      unfold len in Hlen; cbn [length] in Hlen; try lia.
    pose proof (Hseg 0%nat ltac:(simpl; lia)) as H0.
    pose proof (Hseg 1%nat ltac:(simpl; lia)) as H1.
    cbn [nth_error] in H0, H1.
    replace (s - 2 + Z.of_nat 0) with (s - 2) in H0 by lia.
    replace (s - 2 + Z.of_nat 1) with (s - 1) in H1 by lia.
    rewrite H0, H1, text_eqb_eq. split.
    + intros E. inversion E. auto.
    + intros [E1 E2]. inversion E1. inversion E2. reflexivity.
  - split.
    + intros H. apply text_eqb_length in H. rewrite substring_len in H.
      unfold clamp in H. change (len [c; c]) with 2 in H. lia.
    + intros [_ H]. rewrite char_at_past in H by lia. discriminate.
  - split.
    + intros H. apply text_eqb_length in H. rewrite substring_len in H.
      unfold clamp in H. change (len [c; c]) with 2 in H. lia.
    + intros [H _]. rewrite char_at_negative in H by lia. discriminate.
Qed.

(** The two code units from an offset on. *)
Lemma two_after text e c :
  text_eqb (substring text e (Z.min (len text) (e + 2))) [c; c] = true
  <-> char_at text e = Some c /\ char_at text (e + 1) = Some c.
Proof.
  pose proof (len_nonneg text) as Hl.
  destruct (Z.le_gt_cases 0 e) as [H0|H0];
    [destruct (Z.le_gt_cases (e + 2) (len text)) as [He|He]|].
  - replace (Z.min (len text) (e + 2)) with (e + 2) by lia.
    pose proof (@seg_at_substring text e (e + 2) H0 ltac:(lia) He)
      as [_ Hseg].
    pose proof (@substring_inside text e (e + 2) H0 ltac:(lia) He) as Hlen.
    destruct (substring text e (e + 2)) as [|x [|y [|z r]]];
      unfold len in Hlen; cbn [length] in Hlen; try lia.
    pose proof (Hseg 0%nat ltac:(simpl; lia)) as E0.
    pose proof (Hseg 1%nat ltac:(simpl; lia)) as E1.
    cbn [nth_error] in E0, E1.
    replace (e + Z.of_nat 0) with e in E0 by lia.
    replace (e + Z.of_nat 1) with (e + 1) in E1 by lia.
    rewrite E0, E1, text_eqb_eq. split.
    + intros E. inversion E. auto.
    + intros [Ea Eb]. inversion Ea. inversion Eb. reflexivity.
  - split.
    + intros H. apply text_eqb_length in H. rewrite substring_len in H.
      unfold clamp in H. change (len [c; c]) with 2 in H. lia.
    + intros [_ H]. rewrite char_at_past in H by lia. discriminate.
  - split.
    + intros H. apply text_eqb_length in H. rewrite substring_len in H.
      unfold clamp in H. change (len [c; c]) with 2 in H. lia.
    + intros [H _]. rewrite char_at_negative in H by lia. discriminate.
Qed.

Lemma doubled_test text s e c :
  text_eqb (substring text (Z.max 0 (s - 2)) s) [c; c]
  && text_eqb (substring text e (Z.min (len text) (e + 2))) [c; c] = true
  <-> doubled c text s e.
Proof.
  unfold doubled. rewrite andb_true_iff, two_before, two_after. tauto.
Qed.

(** An emphasis that is not between doubled delimiters is italic. *)
Lemma emphasis_italic node text s e :
  offsets node = Some (s, e) ->
  ~ doubled STAR text s e -> ~ doubled UNDERSCORE text s e ->
  EmphasisHandler.extractDecorations node text
  = Ok [range hide s (s + 1); range hide (e - 1) e;
        range italic (s + 1) (e - 1)].
Proof.
  intros Hpos Hstar Hunder.
  unfold EmphasisHandler.extractDecorations. open_handler Hpos.
  rewrite (@delimiterLengthOf_fixed [STAR] [UNDERSCORE] 1) by reflexivity.
  pose proof (doubled_test text s e STAR) as Ts.
  pose proof (doubled_test text s e UNDERSCORE) as Tu.
  destruct (text_eqb (substring text (Z.max 0 (s - 2)) s) [STAR; STAR]
            && text_eqb (substring text e (Z.min (len text) (e + 2)))
                 [STAR; STAR]);
    [exfalso; apply Hstar, Ts; reflexivity|].
  destruct (text_eqb (substring text (Z.max 0 (s - 2)) s)
              [UNDERSCORE; UNDERSCORE]
            && text_eqb (substring text e (Z.min (len text) (e + 2)))
                 [UNDERSCORE; UNDERSCORE]);
    [exfalso; apply Hunder, Tu; reflexivity|].
  reflexivity.
Qed.

(** X6.  An emphasis node yields nothing exactly when the two characters
    before it and the two characters after it are all asterisks, or all
    underscores; otherwise it hides one character at each end and is italic
    in between, whatever its text. *)
Theorem emphasis_is_skipped_between_doubled_delimiters :
  forall (node : Node) (text : text) (s e : Z),
    Mdast.position node = Mdast.at_ s e ->
    (doubled STAR text s e \/ doubled UNDERSCORE text s e ->
     EmphasisHandler.extractDecorations node text = Ok [])
    /\ (~ doubled STAR text s e -> ~ doubled UNDERSCORE text s e ->
        EmphasisHandler.extractDecorations node text
        = Ok [range hide s (s + 1); range hide (e - 1) e;
              range italic (s + 1) (e - 1)]).
Proof.
  intros node text s e Hpos. apply offsets_at in Hpos.
  split; [|apply emphasis_italic, Hpos].
  unfold EmphasisHandler.extractDecorations. open_handler Hpos.
  pose proof (doubled_test text s e STAR) as Hstar.
  pose proof (doubled_test text s e UNDERSCORE) as Hunder.
  destruct (text_eqb (substring text (Z.max 0 (s - 2)) s) [STAR; STAR]
            && text_eqb (substring text e (Z.min (len text) (e + 2)))
                 [STAR; STAR]); [reflexivity|].
  destruct (text_eqb (substring text (Z.max 0 (s - 2)) s)
              [UNDERSCORE; UNDERSCORE]
            && text_eqb (substring text e (Z.min (len text) (e + 2)))
                 [UNDERSCORE; UNDERSCORE]); [reflexivity|].
  intros [H | H]; [apply Hstar in H | apply Hunder in H]; discriminate.
Qed.

Lemma emphasis_is_skipped_between_doubled_delimiters_witness :
  EmphasisHandler.extractDecorations (Sample.leaf Mdast.emphasis 2 5)
    (str "**_a_**") = Ok []
  /\ EmphasisHandler.extractDecorations (Sample.leaf Mdast.emphasis 1 4)
       (str "(*a*)")
     = Ok [range hide 1 2; range hide 3 4; range italic 2 3].
Proof.
  split.
  - apply (@emphasis_is_skipped_between_doubled_delimiters
             (Sample.leaf Mdast.emphasis 2 5) (str "**_a_**") 2 5 eq_refl).
    left. repeat split.
  - apply (@emphasis_is_skipped_between_doubled_delimiters
             (Sample.leaf Mdast.emphasis 1 4) (str "(*a*)") 1 4 eq_refl);
      intros (H & _); discriminate H.
Defined.

(** ** Links between angle brackets *)

(** X7.  A link node that stands between [<] and [>] is decorated as an
    autolink, whatever the node itself reads: the two angle brackets
    outside the node are hidden and the whole node is a link.  Failing
    that, a node that itself starts with [<] and ends with [>] has these
    two characters hidden and is a link in between. *)
Theorem link_between_angle_brackets_is_an_autolink :
  forall (node : Node) (text : text) (s e : Z),
    Mdast.position node = Mdast.at_ s e ->
    (wrapped_in_angles text s e ->
     LinkHandler.extractDecorations node text
     = Ok [range hide (s - 1) s; range hide e (e + 1); range link s e])
    /\ (~ wrapped_in_angles text s e ->
        char_at text s = Some LT -> char_at text (e - 1) = Some GT ->
        LinkHandler.extractDecorations node text
        = Ok [range hide s (s + 1); range hide (e - 1) e;
              range link (s + 1) (e - 1)]).
Proof.
  intros node text s e Hpos. apply offsets_at in Hpos.
  unfold LinkHandler.extractDecorations. open_handler Hpos. split.
  - intros [Hb Ha].
    pose proof (char_at_some _ _ Hb) as Hbi.
    pose proof (char_at_some _ _ Ha) as Hai.
    destruct (Z.gtb_spec s 0); [|lia].
    destruct (Z.ltb_spec e (len text)); [|lia].
    rewrite Hb, Ha. reflexivity.
  - intros Hwrap Hfirst Hlast. rewrite (not_wrapped Hwrap).
    pose proof (char_at_some _ _ Hfirst) as Hsi.
    pose proof (char_at_some _ _ Hlast) as Hei.
    destruct (Z.ltb_spec s (len text)); [|lia].
    destruct (Z.gtb_spec e 0); [|lia].
    rewrite Hfirst, Hlast. reflexivity.
Qed.

Lemma link_between_angle_brackets_is_an_autolink_witness :
  LinkHandler.extractDecorations (Sample.leaf Mdast.link 1 7)
    Sample.angled_link
  = Ok [range hide 0 1; range hide 7 8; range link 1 7]
  /\ LinkHandler.extractDecorations (Sample.leaf Mdast.link 0 12)
       (str "<http://a.b>")
     = Ok [range hide 0 1; range hide 11 12; range link 1 11].
Proof.
  split.
  - apply (@link_between_angle_brackets_is_an_autolink
             (Sample.leaf Mdast.link 1 7) Sample.angled_link 1 7 eq_refl).
    split; reflexivity.
  - apply (@link_between_angle_brackets_is_an_autolink
             (Sample.leaf Mdast.link 0 12) (str "<http://a.b>") 0 12 eq_refl).
    + intros (H & _). discriminate H.
    + reflexivity.
    + reflexivity.
Defined.

(** ** Ranges that are never empty *)

Ltac guarded_goal :=
  repeat match goal with
         | |- Forall _ [] => constructor
         | |- Forall _ (_ :: _) => constructor
         | |- Forall _ (_ ++ _) => apply Forall_app; split
         | |- Forall _ (if ?b then _ else _) => destruct b eqn:?
         | |- not_empty _ => unfold not_empty; cbn [startPos endPos range]
         end;
  rewrite ?andb_true_iff, ?Z.ltb_lt, ?Z.gtb_ltb in *;
  try lia.

Ltac guarded_handler Hoff H :=
  let Hv := fresh "Hv" in
  let Hs := fresh "Hs" in
  let He := fresh "He" in
  destruct (offsets_valid _ Hoff) as (Hv & _ & Hs & He);
  rewrite Hv, Hs, He in H; cbn [negb bind] in H;
  repeat match type of H with
         | (if ?b then _ else _) = _ => destruct b eqn:?
         | match ?x with Some _ => _ | None => _ end = _ => destruct x eqn:?
         end;
  unfold ret in H; inversion H; subst; clear H.

(** X8.  Five handlers test every range before they emit it: inline code,
    strikethrough, images, reference links and reference images never
    return a range with [endPos <= startPos], on any node and any text,
    whatever the offsets of the node are. *)
Theorem guarded_handlers_emit_no_empty_range :
  forall (handler : NodeHandler) (node : Node) (text : text)
         (l : list DecorationRange),
    In handler guarded_handlers ->
    extractDecorations handler node text = Ok l ->
    Forall not_empty l.
Proof.
  intros handler node text l Hin H.
  destruct (offsets node) as [[s e]|] eqn:Hoff.
  2:{ destruct (offsets_none _ Hoff) as [Hv _].
      rewrite skipped_without_position in H.
      - inversion H. constructor.
      - unfold guarded_handlers in Hin. unfold MarkdownParser.handlers.
        simpl in *. intuition.
      - exact Hv. }
  unfold guarded_handlers in Hin.
  repeat (destruct Hin as [<- | Hin]); [ | | | | | destruct Hin];
    cbn [extractDecorations InlineCodeHandler.handler DeleteHandler.handler
           ImageHandler.handler LinkReferenceHandler.handler
           ImageReferenceHandler.handler] in H.
  - unfold InlineCodeHandler.extractDecorations in H.
    guarded_handler Hoff H.
    unfold InlineCodeHandler.createOpeningBacktickDecoration,
      InlineCodeHandler.createClosingBacktickDecoration,
      InlineCodeHandler.createCodeContentDecoration,
      InlineCodeHandler.BACKTICK_LENGTH.
    repeat constructor; unfold not_empty; cbn [startPos endPos range];
      try lia.
    destruct (Z.leb_spec (e - 1) (s + 1)); cbn [startPos endPos range]; lia.
  - unfold DeleteHandler.extractDecorations in H.
    destruct (Z.leb_spec (e - 2) (s + 2)); guarded_handler Hoff H;
      guarded_goal.
  - unfold ImageHandler.extractDecorations in H.
    guarded_handler Hoff H; guarded_goal.
  - unfold LinkReferenceHandler.extractDecorations in H.
    guarded_handler Hoff H; guarded_goal.
  - unfold ImageReferenceHandler.extractDecorations in H.
    guarded_handler Hoff H; guarded_goal.
Qed.

Lemma guarded_handlers_emit_no_empty_range_witness :
  Forall not_empty [range hide 0 1; range hide 2 3; range code 1 2].
Proof.
  apply (@guarded_handlers_emit_no_empty_range InlineCodeHandler.handler
           (Sample.leaf Mdast.inlineCode 0 3) (str "`a`")).
  - left. reflexivity.
  - reflexivity.
Defined.

(** ** Images and references *)

Section Brackets.

Variable text : Js.text.

(** A bracketed text at [p]: the scan for the closing bracket stops on
    it. *)
Lemma bracket_text p e t r :
  seg_at text p ([LBRACKET] ++ t ++ [RBRACKET] ++ r) ->
  e = p + 1 + len t + 1 + len r ->
  forallb not_rbracket t = true ->
  char_at text p = Some LBRACKET
  /\ Scan.until RBRACKET text (p + 1) e = p + 1 + len t
  /\ seg_at text (p + 1 + len t + 1) r.
Proof.
  intros Hseg He Ht.
  pose proof (len_nonneg t) as Lt. pose proof (len_nonneg r) as Lr.
  apply seg_at_app in Hseg as [Hopen Hseg].
  apply seg_at_cons in Hopen as [Hopen _].
  change (len [LBRACKET]) with 1 in Hseg.
  rewrite app_assoc in Hseg.
  apply seg_at_app in Hseg as [Htext Hrest].
  rewrite len_app in Hrest. change (len [RBRACKET]) with 1 in Hrest.
  replace (p + 1 + (len t + 1)) with (p + 1 + len t + 1) in Hrest by lia.
  split; [exact Hopen|]. split; [|exact Hrest].
  apply (@until_found text RBRACKET t (p + 1) e Htext Ht). lia.
Qed.

(** The scan for an opening delimiter steps over separators and stops on
    the delimiter. *)
Lemma opening_reaches c p e w u :
  seg_at text p (w ++ [c] ++ u) ->
  e = p + len w + 1 + len u ->
  forallb is_separator w = true ->
  is_separator c = false ->
  Scan.opening c text p e = Some (p + len w)
  /\ seg_at text (p + len w + 1) u.
Proof.
  intros Hseg He Hw Hc.
  pose proof (len_nonneg w) as Lw. pose proof (len_nonneg u) as Lu.
  apply seg_at_app in Hseg as [Hsep Hseg].
  apply seg_at_app in Hseg as [Hdel Hrest].
  apply seg_at_cons in Hdel as [Hdel _].
  change (len [c]) with 1 in Hrest.
  split; [|exact Hrest].
  unfold Scan.opening.
  replace (Z.to_nat (e - p)) with (length w + S (Z.to_nat (len u)))%nat
    by (unfold len in *; lia).
  rewrite (@opening_over text c w _ _ Hsep Hw Hc).
  apply (@opening_found text c _ _ Hdel).
Qed.

(** Without a delimiter after the separators, the scan runs to the end of
    the span. *)
Lemma opening_runs_out c p e w :
  seg_at text p w ->
  e = p + len w ->
  forallb is_separator w = true ->
  is_separator c = false ->
  Scan.opening c text p e = Some e.
Proof.
  intros Hseg He Hw Hc. unfold Scan.opening.
  replace (Z.to_nat (e - p)) with (length w + 0)%nat
    by (unfold len in *; lia).
  rewrite (@opening_over text c w _ _ Hseg Hw Hc).
  cbn [Scan.opening_loop]. f_equal. lia.
Qed.

(** The scan gives up on a code unit that is neither a separator nor
    the delimiter. *)
Lemma opening_misses c p e w x rest :
  seg_at text p (w ++ x :: rest) ->
  e = p + len w + 1 + len rest ->
  forallb is_separator w = true ->
  is_separator c = false ->
  is_separator x = false ->
  x <> c ->
  Scan.opening c text p e = None.
Proof.
  intros Hseg He Hw Hc Hx Hxc.
  pose proof (len_nonneg w) as Lw. pose proof (len_nonneg rest) as Lr.
  apply seg_at_app in Hseg as [Hsep Hseg].
  apply seg_at_cons in Hseg as [Hxat _].
  unfold Scan.opening.
  replace (Z.to_nat (e - p)) with (length w + S (Z.to_nat (len rest)))%nat
    by (unfold len in *; lia).
  rewrite (@opening_over text c w _ _ Hsep Hw Hc).
  apply (@opening_gives_up text c x _ _ Hxat Hx).
  apply N.eqb_neq, Hxc.
Qed.

(** The depth-counted scan of a parenthesised part that runs to the end
    of the node. *)
Lemma closing_paren_at_end p e u :
  seg_at text p u -> e = p + len u -> closes_at_end u ->
  Scan.closing_paren text p e = e.
Proof.
  intros Hseg He [Hopen | (u' & c & -> & Hopen)].
  - exact (@closing_paren_reaches_end text p e u Hseg He Hopen).
  - apply (@closing_paren_reaches_last text p e u' c Hseg); [|exact Hopen].
    rewrite len_app in He. change (len [c]) with 1 in He. lia.
Qed.

(** The length of a span that reads as a given sequence. *)
Lemma span_length s e raw :
  0 <= s -> s <= e -> e <= len text ->
  substring text s e = raw ->
  seg_at text s raw /\ e = s + len raw.
Proof.
  intros Hs Hse He <-. split.
  - apply seg_at_substring; assumption.
  - rewrite substring_inside by assumption. lia.
Qed.

End Brackets.

Lemma image_after_bracket node text s e a r :
  offsets node = Some (s, e) ->
  0 <= s -> s <= e -> e <= len text ->
  substring text s e = [BANG; LBRACKET] ++ a ++ [RBRACKET] ++ r ->
  forallb not_rbracket a = true ->
  seg_at text (s + 2 + len a + 1) r
  /\ e = s + 2 + len a + 1 + len r
  /\ ImageHandler.extractDecorations node text
     = match Scan.opening LPAREN text (s + 2 + len a + 1) e with
       | None => Ok []
       | Some parenStart =>
           if parenStart >=? e then Ok []
           else
             let parenEnd := Scan.closing_paren text (parenStart + 1) e in
             if parenStart <? parenEnd then
               Ok ([range hide s (s + 1);
                    range hide (s + 1) (s + 2);
                    range hide (s + 2 + len a) (s + 2 + len a + 1);
                    range hide parenStart parenEnd]
                   ++ (if s + 2 + len a >? s + 2
                       then [range image (s + 2) (s + 2 + len a)] else []))
             else Ok []
       end.
Proof.
  intros Hoff Hs0 Hse Hel Hraw Ha.
  destruct (@span_length text s e _ Hs0 Hse Hel Hraw) as [Hseg Hlen].
  pose proof (len_nonneg a) as La. pose proof (len_nonneg r) as Lr.
  change ([BANG; LBRACKET] ++ a ++ [RBRACKET] ++ r)
    with ([BANG] ++ [LBRACKET] ++ a ++ [RBRACKET] ++ r) in Hseg, Hlen.
  rewrite !len_app in Hlen.
  change (len [BANG]) with 1 in Hlen. change (len [LBRACKET]) with 1 in Hlen.
  change (len [RBRACKET]) with 1 in Hlen.
  apply seg_at_app in Hseg as [Hbang Hseg].
  apply seg_at_cons in Hbang as [Hbang _].
  change (len [BANG]) with 1 in Hseg.
  destruct (@bracket_text text (s + 1) e a r Hseg ltac:(lia) Ha)
    as (Hopen & Huntil & Hrest).
  replace (s + 1 + 1) with (s + 2) in Huntil by lia.
  replace (s + 1 + 1 + len a) with (s + 2 + len a) in Huntil by lia.
  replace (s + 1 + 1 + len a + 1) with (s + 2 + len a + 1) in Hrest by lia.
  split; [exact Hrest|]. split; [lia|].
  unfold ImageHandler.extractDecorations. open_handler Hoff.
  rewrite Hraw.
  change (differs BANG (char_at ([BANG; LBRACKET] ++ _) 0)) with false.
  cbv iota.
  destruct (Z.geb_spec (s + 1) e); [lia|].
  rewrite Hopen.
  change (differs LBRACKET (Some LBRACKET)) with false. cbn [orb].
  replace (s + 1 + 1) with (s + 2) by lia.
  rewrite Huntil.
  destruct (Z.geb_spec (s + 2 + len a) e); [lia|].
  destruct (Z.ltb_spec s (s + 1)); [|lia].
  destruct (Z.ltb_spec (s + 1) (s + 2 + len a)); [|lia].
  cbn [andb]. reflexivity.
Qed.

(** X9.  The image handler ends the alternative text at the first closing
    bracket after [![].  On an image node that reads [![ a ] w ( u], where
    [a] holds no closing bracket, [w] only blanks and line breaks, and the
    parenthesised part runs to the end of the node, the handler hides the
    exclamation mark, each bracket, and everything from the parenthesis to
    the end of the node, and marks [a] as image when it is not empty.
    When something else than blanks, line breaks and an opening parenthesis
    follows that first closing bracket, as in an alternative text with a
    nested or an escaped closing bracket, the handler returns nothing.  The
    surroundings of the node play no part. *)
Theorem inline_image_decorations :
  forall (node : Node) (text : text) (s e : Z),
    Mdast.position node = Mdast.at_ s e ->
    (forall a w u : Js.text,
        inline_image text s e a w u ->
        closes_at_end u ->
        let bracketEnd := s + 2 + len a in
        let parenStart := bracketEnd + 1 + len w in
        ImageHandler.extractDecorations node text
        = Ok ([range hide s (s + 1);
               range hide (s + 1) (s + 2);
               range hide bracketEnd (bracketEnd + 1);
               range hide parenStart e]
              ++ (if text_eqb a [] then []
                  else [range image (s + 2) bracketEnd])))
    /\ (forall (a w : Js.text) (x : N) (rest : Js.text),
           first_bracket_misses LPAREN [BANG] text s e a w x rest ->
           ImageHandler.extractDecorations node text = Ok []).
Proof.
  intros node text s e Hpos. apply offsets_at in Hpos. split.
  - intros a w u (Hs0 & Hse & Hel & Hraw & Ha & Hw) Hclose
      bracketEnd parenStart.
    destruct (@image_after_bracket node text s e a (w ++ [LPAREN] ++ u)
                Hpos Hs0 Hse Hel Hraw Ha) as (Hseg & Hlen & ->).
    rewrite !len_app in Hlen. change (len [LPAREN]) with 1 in Hlen.
    pose proof (len_nonneg a) as La. pose proof (len_nonneg w) as Lw.
    pose proof (len_nonneg u) as Lu.
    destruct (@opening_reaches text LPAREN _ e w u Hseg ltac:(lia) Hw eq_refl)
      as [-> Htail].
    fold bracketEnd. fold bracketEnd in Htail.
    replace (bracketEnd + 1 + len w) with parenStart in * by reflexivity.
    destruct (Z.geb_spec parenStart e); [subst parenStart bracketEnd; lia|].
    cbv zeta.
    rewrite (@closing_paren_at_end text (parenStart + 1) e u Htail
               ltac:(subst parenStart bracketEnd; lia) Hclose).
    destruct (Z.ltb_spec parenStart e); [|lia].
    do 2 f_equal.
    destruct a as [|c a'].
    + subst bracketEnd. change (len []) with 0.
      destruct (Z.gtb_spec (s + 2 + 0) (s + 2)); [lia | reflexivity].
    + subst bracketEnd. rewrite len_cons in *. pose proof (len_nonneg a').
      destruct (Z.gtb_spec (s + 2 + (1 + len a')) (s + 2));
        [reflexivity | lia].
  - intros a w x rest (Hs0 & Hse & Hel & Hraw & Ha & Hw & Hx & Hxc).
    destruct (@image_after_bracket node text s e a (w ++ x :: rest)
                Hpos Hs0 Hse Hel Hraw Ha) as (Hseg & Hlen & ->).
    rewrite len_app, len_cons in Hlen.
    rewrite (@opening_misses text LPAREN _ e w x rest Hseg ltac:(lia) Hw
               eq_refl Hx Hxc).
    reflexivity.
Qed.

Lemma inline_image_decorations_witness :
  ImageHandler.extractDecorations (Sample.leaf Mdast.image 4 17)
    (str "see ![alt](u.png)")
  = Ok [range hide 4 5; range hide 5 6; range hide 9 10; range hide 10 17;
        range image 6 9]
  /\ ImageHandler.extractDecorations (Sample.leaf Mdast.image 0 10)
       escaped_bracket_image
     = Ok [].
Proof.
  split.
  - apply (proj1 (@inline_image_decorations (Sample.leaf Mdast.image 4 17)
                    (str "see ![alt](u.png)") 4 17 eq_refl)
             (str "alt") [] (str "u.png)")).
    + repeat split; try reflexivity; vm_compute; congruence.
    + right. exists (str "u.png"), RPAREN. split; reflexivity.
  - apply (proj2 (@inline_image_decorations (Sample.leaf Mdast.image 0 10)
                    escaped_bracket_image 0 10 eq_refl)
             (str "a\") [] 98%N (str "](u)")).
    repeat split; try reflexivity; vm_compute; congruence.
Defined.

(** What the reference handlers do after the first closing bracket, at
    [p]: they look for the bracket that opens the label. *)
Lemma label_found text p e w r rest :
  seg_at text p (w ++ [LBRACKET] ++ r ++ [RBRACKET] ++ rest) ->
  e = p + len w + 1 + len r + 1 + len rest ->
  forallb is_separator w = true ->
  forallb not_rbracket r = true ->
  Scan.opening LBRACKET text p e = Some (p + len w)
  /\ Scan.until RBRACKET text (p + len w + 1) e = p + len w + 1 + len r.
Proof.
  intros Hseg He Hw Hr.
  pose proof (len_nonneg w) as Lw. pose proof (len_nonneg r) as Lr.
  pose proof (len_nonneg rest) as Lrest.
  destruct (@opening_reaches text LBRACKET p e w (r ++ [RBRACKET] ++ rest)
              Hseg) as [Hopen Htail]; try reflexivity; try assumption.
  { rewrite !len_app. change (len [RBRACKET]) with 1. lia. }
  split; [exact Hopen|].
  rewrite app_assoc in Htail. apply seg_at_app in Htail as [Hlabel _].
  apply (@until_found text RBRACKET r _ e Hlabel Hr). lia.
Qed.

Lemma reference_after_bracket node text s e t r :
  offsets node = Some (s, e) ->
  0 <= s -> s <= e -> e <= len text ->
  substring text s e = [LBRACKET] ++ t ++ [RBRACKET] ++ r ->
  forallb not_rbracket t = true ->
  seg_at text (s + 1 + len t + 1) r
  /\ e = s + 1 + len t + 1 + len r
  /\ LinkReferenceHandler.extractDecorations node text
     = match Scan.opening LBRACKET text (s + 1 + len t + 1) e with
       | None => Ok []
       | Some refBracketStart =>
           if refBracketStart >=? e then Ok []
           else
             let refBracketEnd :=
               Scan.until RBRACKET text (refBracketStart + 1) e in
             if refBracketEnd >=? e then Ok []
             else if refBracketStart <? refBracketEnd then
               Ok ([range hide s (s + 1);
                    range hide (s + 1 + len t) (s + 1 + len t + 1);
                    range hide refBracketStart (refBracketEnd + 1)]
                   ++ (if s + 1 + len t >? s + 1
                       then [range link (s + 1) (s + 1 + len t)] else []))
             else Ok []
       end.
Proof.
  intros Hoff Hs0 Hse Hel Hraw Ht.
  destruct (@span_length text s e _ Hs0 Hse Hel Hraw) as [Hseg Hlen].
  pose proof (len_nonneg t) as Lt. pose proof (len_nonneg r) as Lr.
  rewrite !len_app in Hlen.
  change (len [LBRACKET]) with 1 in Hlen.
  change (len [RBRACKET]) with 1 in Hlen.
  destruct (@bracket_text text s e t r Hseg ltac:(lia) Ht)
    as (Hopen & Huntil & Hrest).
  split; [exact Hrest|]. split; [lia|].
  unfold LinkReferenceHandler.extractDecorations. open_handler Hoff.
  rewrite Hraw.
  change (differs LBRACKET (char_at ([LBRACKET] ++ _) 0)) with false.
  cbv iota. rewrite Huntil.
  destruct (Z.geb_spec (s + 1 + len t) e); [lia|].
  destruct (Z.ltb_spec s (s + 1 + len t)); [|lia].
  cbn [andb]. reflexivity.
Qed.

Lemma text_nonempty_test (t : text) p :
  (if p + len t >? p then true else false) = negb (text_eqb t []).
Proof.
  destruct t as [|c t'].
  - change (len []) with 0. destruct (Z.gtb_spec (p + 0) p); [lia|reflexivity].
  - rewrite len_cons. pose proof (len_nonneg t').
    destruct (Z.gtb_spec (p + (1 + len t')) p); [reflexivity|lia].
Qed.

Lemma text_nonempty_branch {A : Type} (t : text) p (x y : A) :
  (if p + len t >? p then x else y) = (if text_eqb t [] then y else x).
Proof.
  pose proof (text_nonempty_test t p) as H.
  destruct (p + len t >? p), (text_eqb t []); simpl in H;
    try discriminate; reflexivity.
Qed.

(** X10.  The link reference handler ends the text, and then the label,
    at the first closing bracket after the opening one.  On a link
    reference that reads [[ t ] w [ r ] ...], as [[text][ref]] and
    [[text][]] do, where neither [t] nor [r] holds a closing bracket and
    [w] holds only blanks and line breaks, the handler hides each bracket
    of [t], hides [r] with its two brackets in one range, and marks [t] as
    link when it is not empty.  When something else than blanks, line
    breaks and an opening bracket follows the first closing bracket, as in
    [[a [b] c][ref]] and in a text with an escaped closing bracket, the
    handler returns nothing. *)
Theorem reference_link_decorations :
  forall (node : Node) (text : text) (s e : Z),
    Mdast.position node = Mdast.at_ s e ->
    (forall t w r rest : Js.text,
        reference_link text s e t w r rest ->
        let bracketEnd := s + 1 + len t in
        let refBracketStart := bracketEnd + 1 + len w in
        LinkReferenceHandler.extractDecorations node text
        = Ok ([range hide s (s + 1);
               range hide bracketEnd (bracketEnd + 1);
               range hide refBracketStart (refBracketStart + 1 + len r + 1)]
              ++ (if text_eqb t [] then []
                  else [range link (s + 1) bracketEnd])))
    /\ (forall (t w : Js.text) (x : N) (rest : Js.text),
           first_bracket_misses LBRACKET [] text s e t w x rest ->
           LinkReferenceHandler.extractDecorations node text = Ok []).
Proof.
  intros node text s e Hpos. apply offsets_at in Hpos. split.
  - intros t w r rest (Hs0 & Hse & Hel & Hraw & Ht & Hw & Hr)
      bracketEnd refBracketStart.
    destruct (@reference_after_bracket node text s e t
                (w ++ [LBRACKET] ++ r ++ [RBRACKET] ++ rest)
                Hpos Hs0 Hse Hel Hraw Ht) as (Hseg & Hlen & ->).
    rewrite !len_app in Hlen.
    change (len [LBRACKET]) with 1 in Hlen.
    change (len [RBRACKET]) with 1 in Hlen.
    pose proof (len_nonneg t) as Lt. pose proof (len_nonneg w) as Lw.
    pose proof (len_nonneg r) as Lr. pose proof (len_nonneg rest) as Lrest.
    destruct (@label_found text _ e w r rest Hseg ltac:(lia) Hw Hr)
      as [-> Huntil].
    fold bracketEnd. fold bracketEnd in Huntil.
    replace (bracketEnd + 1 + len w) with refBracketStart in * by reflexivity.
    destruct (Z.geb_spec refBracketStart e);
      [subst refBracketStart bracketEnd; lia|].
    cbv zeta. rewrite Huntil.
    destruct (Z.geb_spec (refBracketStart + 1 + len r) e);
      [subst refBracketStart bracketEnd; lia|].
    destruct (Z.ltb_spec refBracketStart (refBracketStart + 1 + len r));
      [|lia].
    subst bracketEnd. rewrite text_nonempty_branch. reflexivity.
  - intros t w x rest (Hs0 & Hse & Hel & Hraw & Ht & Hw & Hx & Hxc).
    destruct (@reference_after_bracket node text s e t (w ++ x :: rest)
                Hpos Hs0 Hse Hel Hraw Ht) as (Hseg & Hlen & ->).
    rewrite len_app, len_cons in Hlen.
    rewrite (@opening_misses text LBRACKET _ e w x rest Hseg ltac:(lia) Hw
               eq_refl Hx Hxc).
    reflexivity.
Qed.

Lemma reference_link_decorations_witness :
  LinkReferenceHandler.extractDecorations (Sample.leaf Mdast.linkReference 0 11)
    reference_page
  = Ok [range hide 0 1; range hide 5 6; range hide 6 11; range link 1 5]
  /\ LinkReferenceHandler.extractDecorations
       (Sample.leaf Mdast.linkReference 0 14) nested_reference_page
     = Ok [].
Proof.
  split.
  - apply (proj1 (@reference_link_decorations
                    (Sample.leaf Mdast.linkReference 0 11)
                    reference_page 0 11 eq_refl)
             (str "text") [] (str "ref") []).
    repeat split; try reflexivity; vm_compute; congruence.
  - apply (proj2 (@reference_link_decorations
                    (Sample.leaf Mdast.linkReference 0 14)
                    nested_reference_page 0 14 eq_refl)
             (str "a [b") [SPACE] 99%N (str "][ref]")).
    repeat split; try reflexivity; vm_compute; congruence.
Defined.



Lemma image_reference_after_bracket node text s e a r :
  offsets node = Some (s, e) ->
  0 <= s -> s <= e -> e <= len text ->
  substring text s e = [BANG; LBRACKET] ++ a ++ [RBRACKET] ++ r ->
  forallb not_rbracket a = true ->
  seg_at text (s + 2 + len a + 1) r
  /\ e = s + 2 + len a + 1 + len r
  /\ ImageReferenceHandler.extractDecorations node text
     = match Scan.opening LBRACKET text (s + 2 + len a + 1) e with
       | None => Ok []
       | Some refBracketStart =>
           if refBracketStart >=? e then Ok []
           else
             let refBracketEnd :=
               Scan.until RBRACKET text (refBracketStart + 1) e in
             if refBracketEnd >=? e then Ok []
             else if refBracketStart <? refBracketEnd then
               Ok ([range hide s (s + 1);
                    range hide (s + 1) (s + 2);
                    range hide (s + 2 + len a) (s + 2 + len a + 1);
                    range hide refBracketStart (refBracketEnd + 1)]
                   ++ (if s + 2 + len a >? s + 2
                       then [range image (s + 2) (s + 2 + len a)] else []))
             else Ok []
       end.
Proof.
  intros Hoff Hs0 Hse Hel Hraw Ha.
  destruct (@span_length text s e _ Hs0 Hse Hel Hraw) as [Hseg Hlen].
  pose proof (len_nonneg a) as La. pose proof (len_nonneg r) as Lr.
  change ([BANG; LBRACKET] ++ a ++ [RBRACKET] ++ r)
    with ([BANG] ++ [LBRACKET] ++ a ++ [RBRACKET] ++ r) in Hseg, Hlen.
  rewrite !len_app in Hlen.
  change (len [BANG]) with 1 in Hlen. change (len [LBRACKET]) with 1 in Hlen.
  change (len [RBRACKET]) with 1 in Hlen.
  apply seg_at_app in Hseg as [Hbang Hseg].
  apply seg_at_cons in Hbang as [Hbang _].
  change (len [BANG]) with 1 in Hseg.
  destruct (@bracket_text text (s + 1) e a r Hseg ltac:(lia) Ha)
    as (Hopen & Huntil & Hrest).
  replace (s + 1 + 1) with (s + 2) in Huntil by lia.
  replace (s + 1 + 1 + len a) with (s + 2 + len a) in Huntil by lia.
  replace (s + 1 + 1 + len a + 1) with (s + 2 + len a + 1) in Hrest by lia.
  split; [exact Hrest|]. split; [lia|].
  unfold ImageReferenceHandler.extractDecorations. open_handler Hoff.
  rewrite Hraw.
  change (differs BANG (char_at ([BANG; LBRACKET] ++ _) 0)) with false.
  cbv iota.
  destruct (Z.geb_spec (s + 1) e); [lia|].
  rewrite Hopen.
  change (differs LBRACKET (Some LBRACKET)) with false. cbn [orb].
  replace (s + 1 + 1) with (s + 2) by lia.
  rewrite Huntil.
  destruct (Z.geb_spec (s + 2 + len a) e); [lia|].
  destruct (Z.ltb_spec s (s + 1)); [|lia].
  destruct (Z.ltb_spec (s + 1) (s + 2 + len a)); [|lia].
  cbn [andb]. reflexivity.
Qed.

(** X12.  The image reference handler ends the alternative text, and then
    the label, at the first closing bracket after the opening one.  On an
    image reference that reads [![ a ] w [ r ] ...], where neither [a] nor
    [r] holds a closing bracket and [w] holds only blanks and line breaks,
    the handler hides the exclamation mark, each bracket of [a] and [r]
    with its two brackets, and marks [a] as image when it is not empty.
    An image reference without label, [![ a ] w], is left undecorated, and
    so is one where something else than blanks, line breaks and an opening
    bracket follows the first closing bracket, as in [![a [b] c][ref]]. *)
Theorem reference_image_decorations :
  forall (node : Node) (text : text) (s e : Z),
    Mdast.position node = Mdast.at_ s e ->
    (forall a w r rest : Js.text,
        reference_image text s e a w r rest ->
        let bracketEnd := s + 2 + len a in
        let refBracketStart := bracketEnd + 1 + len w in
        ImageReferenceHandler.extractDecorations node text
        = Ok ([range hide s (s + 1);
               range hide (s + 1) (s + 2);
               range hide bracketEnd (bracketEnd + 1);
               range hide refBracketStart (refBracketStart + 1 + len r + 1)]
              ++ (if text_eqb a [] then []
                  else [range image (s + 2) bracketEnd])))
    /\ (forall a w : Js.text,
           shortcut_image text s e a w ->
           ImageReferenceHandler.extractDecorations node text = Ok [])
    /\ (forall (a w : Js.text) (x : N) (rest : Js.text),
           first_bracket_misses LBRACKET [BANG] text s e a w x rest ->
           ImageReferenceHandler.extractDecorations node text = Ok []).
Proof.
  intros node text s e Hpos. apply offsets_at in Hpos. split; [|split].
  - intros a w r rest (Hs0 & Hse & Hel & Hraw & Ha & Hw & Hr)
      bracketEnd refBracketStart.
    destruct (@image_reference_after_bracket node text s e a
                (w ++ [LBRACKET] ++ r ++ [RBRACKET] ++ rest)
                Hpos Hs0 Hse Hel Hraw Ha) as (Hseg & Hlen & ->).
    rewrite !len_app in Hlen.
    change (len [LBRACKET]) with 1 in Hlen.
    change (len [RBRACKET]) with 1 in Hlen.
    pose proof (len_nonneg a) as La. pose proof (len_nonneg w) as Lw.
    pose proof (len_nonneg r) as Lr. pose proof (len_nonneg rest) as Lrest.
    destruct (@label_found text _ e w r rest Hseg ltac:(lia) Hw Hr)
      as [-> Huntil].
    fold bracketEnd. fold bracketEnd in Huntil.
    replace (bracketEnd + 1 + len w) with refBracketStart in * by reflexivity.
    destruct (Z.geb_spec refBracketStart e);
      [subst refBracketStart bracketEnd; lia|].
    cbv zeta. rewrite Huntil.
    destruct (Z.geb_spec (refBracketStart + 1 + len r) e);
      [subst refBracketStart bracketEnd; lia|].
    destruct (Z.ltb_spec refBracketStart (refBracketStart + 1 + len r));
      [|lia].
    subst bracketEnd. rewrite text_nonempty_branch. reflexivity.
  - intros a w (Hs0 & Hse & Hel & Hraw & Ha & Hw).
    destruct (@image_reference_after_bracket node text s e a w
                Hpos Hs0 Hse Hel Hraw Ha) as (Hseg & Hlen & ->).
    rewrite (@opening_runs_out text LBRACKET _ e w Hseg Hlen Hw eq_refl).
    destruct (Z.geb_spec e e); [reflexivity | lia].
  - intros a w x rest (Hs0 & Hse & Hel & Hraw & Ha & Hw & Hx & Hxc).
    destruct (@image_reference_after_bracket node text s e a (w ++ x :: rest)
                Hpos Hs0 Hse Hel Hraw Ha) as (Hseg & Hlen & ->).
    rewrite len_app, len_cons in Hlen.
    rewrite (@opening_misses text LBRACKET _ e w x rest Hseg ltac:(lia) Hw
               eq_refl Hx Hxc).
    reflexivity.
Qed.

Lemma reference_image_decorations_witness :
  ImageReferenceHandler.extractDecorations
    (Sample.leaf Mdast.imageReference 12 23) reference_page
  = Ok [range hide 12 13; range hide 13 14; range hide 17 18;
        range hide 18 23; range image 14 17]
  /\ ImageReferenceHandler.extractDecorations
       (Sample.leaf Mdast.imageReference 11 18) shortcut_page
     = Ok []
  /\ ImageReferenceHandler.extractDecorations
       (Sample.leaf Mdast.imageReference 0 15) nested_image_reference_page
     = Ok [].
Proof.
  split; [|split].
  - apply (proj1 (@reference_image_decorations
                    (Sample.leaf Mdast.imageReference 12 23)
                    reference_page 12 23 eq_refl)
             (str "alt") [] (str "ref") []).
    repeat split; try reflexivity; vm_compute; congruence.
  - apply (proj1 (proj2 (@reference_image_decorations
                           (Sample.leaf Mdast.imageReference 11 18)
                           shortcut_page 11 18 eq_refl))
             (str "text") []).
    repeat split; try reflexivity; vm_compute; congruence.
  - apply (proj2 (proj2 (@reference_image_decorations
                           (Sample.leaf Mdast.imageReference 0 15)
                           nested_image_reference_page 0 15 eq_refl))
             (str "a [b") [SPACE] 99%N (str "][ref]")).
    repeat split; try reflexivity; vm_compute; congruence.
Defined.

(** ** Headings *)

Lemma drop_while_last p (a : text) c :
  p c = false -> exists a', drop_while p (a ++ [c]) = a' ++ [c].
Proof.
  intros Hc. induction a as [|x a IH]; simpl.
  - rewrite Hc. exists []. reflexivity.
  - destruct (p x); [exact IH|]. exists (x :: a). reflexivity.
Qed.

(** Trimming keeps a first code unit that is not white space. *)
Lemma trim_first ws c rest :
  forallb isWhitespace ws = true -> isWhitespace c = false ->
  exists rest', trim (ws ++ c :: rest) = c :: rest'.
Proof.
  intros Hws Hc. unfold trim.
  rewrite drop_while_app by assumption.
  rewrite drop_while_stop by assumption.
  destruct (rev rest) as [|y r] eqn:Hrev.
  - assert (rest = []) as -> by (apply (f_equal (@rev N)) in Hrev;
                                 rewrite rev_involutive in Hrev; exact Hrev).
    simpl. rewrite Hc. exists []. reflexivity.
  - cbn [rev]. rewrite Hrev.
    change ((y :: r) ++ [c]) with (y :: (r ++ [c])).
    destruct (@drop_while_last isWhitespace (y :: r) c Hc) as (a' & E).
    change ((y :: r) ++ [c]) with (y :: (r ++ [c])) in E.
    rewrite E, rev_app_distr. simpl. eauto.
Qed.

(** What follows a prefix of a span is the rest of the span. *)
Lemma substring_rest text s e a b :
  0 <= s -> s <= e -> e <= len text ->
  substring text s e = a ++ b ->
  substring text (s + len a) e = b.
Proof.
  intros Hs Hse He Hraw.
  pose proof (@substring_inside text s e Hs Hse He) as Hlen.
  rewrite Hraw, len_app in Hlen.
  pose proof (len_nonneg a) as La. pose proof (len_nonneg b) as Lb.
  unfold substring, clamp in *.
  replace (Z.max 0 (Z.min s (len text))) with s in Hraw by lia.
  replace (Z.max 0 (Z.min e (len text))) with e in * by lia.
  replace (Z.min s e) with s in Hraw by lia.
  replace (Z.max s e) with e in Hraw by lia.
  replace (Z.max 0 (Z.min (s + len a) (len text))) with (s + len a) by lia.
  replace (Z.min (s + len a) e) with (s + len a) by lia.
  replace (Z.max (s + len a) e) with e by lia.
  replace (Z.to_nat (s + len a)) with (length a + Z.to_nat s)%nat
    by (unfold len; lia).
  rewrite <- skipn_skipn.
  replace (Z.to_nat (e - (s + len a)))
    with (Z.to_nat (e - s) - length a)%nat by (unfold len; lia).
  rewrite <- skipn_firstn_comm, Hraw.
  apply after_app.
Qed.

(** X13.  An ATX heading with content is split at the end of its marker: on
    a heading that reads white space, one to six [#], white space and then
    a character that is not white space, the handler hides the marker with
    the white space after it, and styles everything from there to the end
    of the node with the type of the node's depth.  Leading white space is
    left alone. *)
Theorem heading_hides_marker_and_styles_content :
  forall (node : Node) (text : text) (s e : Z) (ws0 ws rest : Js.text)
         (k : nat) (c : N),
    Mdast.position node = Mdast.at_ s e ->
    0 <= s -> s <= e -> e <= len text ->
    substring text s e = ws0 ++ repeat HASH k ++ ws ++ c :: rest ->
    forallb isWhitespace ws0 = true ->
    (1 <= k <= 6)%nat ->
    ws <> [] -> forallb isWhitespace ws = true ->
    isWhitespace c = false ->
    let markerStart := s + len ws0 in
    let contentStart := markerStart + Z.of_nat k + len ws in
    HeadingHandler.extractDecorations node text
    = Ok [range hide markerStart contentStart;
          {| startPos := contentStart; endPos := e;
             type := HeadingHandler.getHeadingType (Mdast.depth node);
             level := Mdast.depth node |}].
Proof.
  intros node text s e ws0 ws rest k c Hpos Hs0 Hse Hel Hraw Hws0 Hk Hne Hws Hc
    markerStart contentStart.
  apply offsets_at in Hpos.
  unfold HeadingHandler.extractDecorations. open_handler Hpos.
  unfold HeadingHandler.HEADING_MARKER_PATTERN.
  assert (len (repeat HASH k) = Z.of_nat k) as Hh.
  { unfold len. rewrite repeat_length. reflexivity. }
  assert (1 <= len ws) as Lws.
  { destruct ws; [congruence|]. rewrite len_cons.
    pose proof (len_nonneg ws). lia. }
  pose proof (len_nonneg ws0) as Lws0.
  assert (Regex.heading_marker (substring text s e)
          = Some (ws0, repeat HASH k, ws)) as Hm.
  { rewrite Hraw. unfold Regex.heading_marker.
    assert (take_while isWhitespace (ws0 ++ repeat HASH k ++ ws ++ c :: rest)
            = ws0) as E1.
    { destruct k as [|k']; [lia|].
      rewrite take_while_app by assumption.
      cbn [repeat app]. rewrite take_while_stop by reflexivity.
      apply app_nil_r. }
    rewrite E1, after_app.
    assert (take_while Regex.is_hash (repeat HASH k ++ ws ++ c :: rest)
            = repeat HASH k) as E2.
    { rewrite take_while_app by apply hashes_all.
      destruct ws as [|x ws']; [congruence|].
      cbn [app]. rewrite take_while_stop.
      - apply app_nil_r.
      - apply whitespace_not_hash. simpl in Hws.
        apply andb_true_iff in Hws. tauto. }
    rewrite E2, after_app.
    assert (take_while isWhitespace (ws ++ c :: rest) = ws) as E3.
    { rewrite take_while_app by assumption.
      rewrite take_while_stop by assumption. apply app_nil_r. }
    rewrite E3, Hh.
    destruct (Z.leb_spec 1 (Z.of_nat k)); [|lia].
    destruct (Z.leb_spec (Z.of_nat k) 6); [|lia].
    destruct (Z.leb_spec 1 (len ws)); [|lia].
    reflexivity. }
  rewrite Hm.
  cbn [HeadingHandler.getContentStart HeadingHandler.createMarkerDecoration
         HeadingHandler.createContentDecoration].
  rewrite Hh. subst contentStart markerStart.
  pose proof (@substring_inside text s e Hs0 Hse Hel) as Hlen.
  rewrite Hraw, !len_app, Hh, len_cons in Hlen.
  pose proof (len_nonneg rest) as Lrest.
  replace (s + len ws0 + Z.of_nat k + len ws)
    with (s + len (ws0 ++ repeat HASH k ++ ws))
    by (rewrite !len_app, Hh; lia).
  assert (substring text (s + len (ws0 ++ repeat HASH k ++ ws)) e = c :: rest)
    as Hcontent.
  { apply substring_rest; try assumption.
    rewrite Hraw, <- !app_assoc. reflexivity. }
  unfold HeadingHandler.isEmptyContent. rewrite Hcontent.
  destruct (@trim_first [] c rest eq_refl Hc) as (rest' & Htrim).
  cbn [app] in Htrim. rewrite Htrim, len_cons.
  pose proof (len_nonneg rest').
  rewrite !len_app, Hh.
  destruct (Z.geb_spec (s + (len ws0 + (Z.of_nat k + len ws))) e); [lia|].
  destruct (Z.eqb_spec (1 + len rest') 0); [lia|].
  reflexivity.
Qed.

Lemma heading_hides_marker_and_styles_content_witness :
  HeadingHandler.extractDecorations
    {| Mdast.type := Mdast.heading; Mdast.position := Mdast.at_ 1 9;
       Mdast.depth := Some 2; Mdast.children := [] |}
    (str " ##  Ti #")
  = Ok [range hide 1 5;
        {| startPos := 5; endPos := 9; type := heading2; level := Some 2 |}].
Proof.
  apply (@heading_hides_marker_and_styles_content
           {| Mdast.type := Mdast.heading; Mdast.position := Mdast.at_ 1 9;
              Mdast.depth := Some 2; Mdast.children := [] |}
           (str " ##  Ti #") 1 9 [] (str "  ") (str "i #") 2 84%N);
    try reflexivity; try lia; discriminate.
Defined.

(** X14.  A heading that does not start with an ATX marker is hidden as a
    whole: when the first character of the node that is not white space is
    not a [#], as in a setext heading (a title line over a line of [=] or
    [-]), the handler returns one hide over the whole node and no heading
    range. *)
Theorem heading_without_marker_is_hidden :
  forall (node : Node) (text : text) (s e : Z) (ws rest : Js.text) (c : N),
    Mdast.position node = Mdast.at_ s e ->
    substring text s e = ws ++ c :: rest ->
    forallb isWhitespace ws = true ->
    isWhitespace c = false ->
    c <> HASH ->
    HeadingHandler.extractDecorations node text = Ok [range hide s e].
Proof.
  intros node text s e ws rest c Hpos Hraw Hws Hc Hhash.
  apply offsets_at in Hpos.
  unfold HeadingHandler.extractDecorations. open_handler Hpos.
  assert (Regex.is_hash c = false) as Hnot.
  { unfold Regex.is_hash. apply N.eqb_neq. exact Hhash. }
  unfold HeadingHandler.HEADING_MARKER_PATTERN, Regex.heading_marker.
  rewrite Hraw.
  assert (take_while isWhitespace (ws ++ c :: rest) = ws) as E1.
  { rewrite take_while_app by assumption.
    rewrite take_while_stop by assumption. apply app_nil_r. }
  rewrite E1, after_app, (@take_while_stop _ c rest Hnot).
  change (len []) with 0. cbn [Z.leb andb].
  unfold HeadingHandler.isHeadingEmpty. rewrite Hraw.
  destruct (@trim_first ws c rest Hws Hc) as (rest' & ->).
  unfold Regex.empty_heading.
  rewrite (@drop_while_stop _ c rest' Hc), (@take_while_stop _ c rest' Hnot).
  reflexivity.
Qed.

Lemma heading_without_marker_is_hidden_witness :
  HeadingHandler.extractDecorations
    {| Mdast.type := Mdast.heading; Mdast.position := Mdast.at_ 0 9;
       Mdast.depth := Some 1; Mdast.children := [] |}
    (Sample.document ["Title"; "==="]%string)
  = Ok [range hide 0 9].
Proof.
  apply (@heading_without_marker_is_hidden
           {| Mdast.type := Mdast.heading; Mdast.position := Mdast.at_ 0 9;
              Mdast.depth := Some 1; Mdast.children := [] |}
           (Sample.document ["Title"; "==="]%string) 0 9 []
           (skipn 1 (Sample.document ["Title"; "==="]%string)) 84%N);
    try reflexivity.
  discriminate.
Defined.

(** ** Blockquotes *)

Lemma retreat_spec cond text fuel : forall pos,
  (forall i, retreat fuel cond text pos <= i < pos ->
             cond (char_at text i) = true)
  /\ (pos - Z.of_nat fuel < retreat fuel cond text pos ->
      cond (char_at text (retreat fuel cond text pos - 1)) = false).
Proof.
  induction fuel as [|fuel IH]; intros pos; cbn [retreat].
  - split; [intros i Hi; lia | intros H; lia].
  - destruct (cond (char_at text (pos - 1))) eqn:Hc.
    + destruct (IH (pos - 1)) as [Hall Hstop]. split.
      * intros i Hi. destruct (Z.eq_dec i (pos - 1)) as [-> | Hne];
          [exact Hc | apply Hall; lia].
      * intros H. apply Hstop. lia.
    + split; [intros i Hi; lia | intros _; exact Hc].
Qed.

Lemma in_line_false c :
  BlockquoteHandler.in_line c = false -> c = Some LF \/ c = Some CR.
Proof.
  unfold BlockquoteHandler.in_line, differs. intros H.
  destruct (same LF c) eqn:E1; [left; apply same_iff, E1|].
  destruct (same CR c) eqn:E2; [right; apply same_iff, E2|].
  discriminate.
Qed.

Lemma in_line_true c :
  BlockquoteHandler.in_line c = true -> c <> Some LF /\ c <> Some CR.
Proof.
  unfold BlockquoteHandler.in_line, differs. intros H.
  apply andb_true_iff in H as [H1 H2].
  split; intros E; subst c; discriminate.
Qed.

Lemma ordered_snoc {A : Type} (R : A -> A -> Prop) l d :
  ForallOrdPairs R l -> Forall (fun x => R x d) l ->
  ForallOrdPairs R (l ++ [d]).
Proof.
  induction 1 as [|x l Hx Hl IH]; intros Hall; cbn [app].
  - repeat constructor.
  - inversion Hall as [|? ? Hxd Hrest]; subst.
    constructor; [|apply IH, Hrest].
    apply Forall_app. split; [exact Hx | repeat constructor; exact Hxd].
Qed.

Section Quote.

Variables (text : Js.text) (a e : Z).
Hypothesis Ha : 0 <= a.
Hypothesis He : e <= len text.

(** One turn of the loop over the lines: the hide it pushes, if any,
    starts on a [>] of the line and ends in the line. *)
Lemma line_hides pos :
  a <= pos -> pos < e ->
  pos <= snd (BlockquoteHandler.line text pos e)
  /\ (fst (BlockquoteHandler.line text pos e) = []
      \/ exists d,
           fst (BlockquoteHandler.line text pos e) = [d]
           /\ marker_hide text a e d /\ pos <= startPos d
           /\ endPos d <= snd (BlockquoteHandler.line text pos e)).
Proof.
  intros Hpos Hlt. unfold BlockquoteHandler.line.
  pose proof (@skip_forward_bounds BlockquoteHandler.in_line text pos e
                ltac:(lia)) as Hb.
  set (lineEnd := skip_forward BlockquoteHandler.in_line text pos e) in *.
  cbn [fst snd].
  assert (lineEnd
          <= (if ((if (lineEnd <? e) && char_is text lineEnd CR
                   then lineEnd + 1 else lineEnd) <? e)
                 && char_is text
                      (if (lineEnd <? e) && char_is text lineEnd CR
                       then lineEnd + 1 else lineEnd) LF
              then (if (lineEnd <? e) && char_is text lineEnd CR
                    then lineEnd + 1 else lineEnd) + 1
              else (if (lineEnd <? e) && char_is text lineEnd CR
                    then lineEnd + 1 else lineEnd))) as Hnext.
  { destruct ((lineEnd <? e) && char_is text lineEnd CR);
      destruct (_ && _); lia. }
  split; [lia|].
  unfold BlockquoteHandler.BLOCKQUOTE_MARKER_PATTERN.
  pose proof (@seg_at_substring text pos lineEnd ltac:(lia) ltac:(lia)
                ltac:(lia)) as Hseg.
  pose proof (@substring_inside text pos lineEnd ltac:(lia) ltac:(lia)
                ltac:(lia)) as Hlen.
  destruct (Regex.blockquote_marker (substring text pos lineEnd))
    as [[[g1 g2] g3]|] eqn:Hm; [|left; reflexivity].
  apply blockquote_marker_sound in Hm as ((rest & Hraw) & Hall & H1).
  rewrite Hraw in Hseg, Hlen. rewrite !len_app in Hlen.
  pose proof (len_nonneg g1). pose proof (len_nonneg g3).
  pose proof (len_nonneg rest).
  apply seg_at_app in Hseg as [_ Hseg].
  destruct (@run_head Regex.is_gt text _ g2 _ Hseg Hall H1) as (c & Hc & Hg).
  apply N.eqb_eq in Hg. subst c.
  destruct (Z.gtb_spec (pos + len g1 + len g2 + len g3) (pos + len g1));
    [right | left; reflexivity].
  eexists. split; [reflexivity|].
  unfold marker_hide. cbn [type startPos endPos range].
  repeat split; try lia. exact Hc.
Qed.

Lemma lines_hides fuel : forall pos acc,
  a <= pos ->
  Forall (fun d => marker_hide text a e d /\ endPos d <= pos) acc ->
  ForallOrdPairs before acc ->
  Forall (marker_hide text a e) (BlockquoteHandler.lines fuel text pos e acc)
  /\ ForallOrdPairs before (BlockquoteHandler.lines fuel text pos e acc).
Proof.
  induction fuel as [|fuel IH]; intros pos acc Hpos Hacc Hord;
    cbn [BlockquoteHandler.lines].
  - split; [|exact Hord]. eapply Forall_impl; [|exact Hacc]. cbv beta. tauto.
  - destruct (Z.ltb_spec pos e) as [Hlt | Hge].
    2:{ split; [|exact Hord].
        eapply Forall_impl; [|exact Hacc]. cbv beta. tauto. }
    destruct (line_hides Hpos Hlt) as [Hfwd Hline].
    destruct (BlockquoteHandler.line text pos e) as [pushed pos'].
    cbn [fst snd] in *.
    assert (Forall (fun d => marker_hide text a e d /\ endPos d <= pos') acc)
      as Hacc'.
    { eapply Forall_impl; [|exact Hacc]. cbv beta. intros d [H1 H2].
      split; [exact H1 | lia]. }
    destruct Hline as [-> | (d & -> & Hd & Hstart & Hend)].
    + rewrite app_nil_r. apply IH; [lia | exact Hacc' | exact Hord].
    + apply IH; [lia | |].
      * apply Forall_app. split; [exact Hacc'|].
        constructor; [split; assumption | constructor].
      * apply ordered_snoc; [exact Hord|].
        eapply Forall_impl; [|exact Hacc]. cbv beta. unfold before.
        intros x [_ Hx]. lia.
Qed.

End Quote.

(** X15.  The blockquote range covers whole lines from the first: it starts
    where the line of the node starts (at the start of the text or right
    after a line break, with no line break between it and the node) and
    ends where the node ends.  It comes last, after the hides of the
    markers, each of which is not empty, starts on a [>] and lies in the
    range; the hides follow one another without overlap. *)
Theorem blockquote_range_starts_with_its_line :
  forall (node : Node) (text : text) (s e : Z),
    Mdast.position node = Mdast.at_ s e ->
    0 <= s -> e <= len text ->
    exists (hides : list DecorationRange) (a : Z),
      BlockquoteHandler.extractDecorations node text
      = Ok (hides ++ [range blockquote a e])
      /\ 0 <= a <= s
      /\ line_start text a
      /\ same_line text a s
      /\ Forall (marker_hide text a e) hides
      /\ ForallOrdPairs before hides.
Proof.
  intros node text s e Hpos Hs0 Hel. apply offsets_at in Hpos.
  unfold BlockquoteHandler.extractDecorations. open_handler Hpos.
  pose proof (@retreat_bounds BlockquoteHandler.in_line text
                (Z.to_nat (s - 0)) s) as Hb.
  destruct (@retreat_spec BlockquoteHandler.in_line text
              (Z.to_nat (s - 0)) s) as [Hall Hstop].
  fold (skip_backward BlockquoteHandler.in_line text s 0) in Hb, Hall, Hstop.
  set (a := skip_backward BlockquoteHandler.in_line text s 0) in *.
  eexists. exists a. split; [reflexivity|].
  split; [lia|]. split; [|split].
  - destruct (Z.eq_dec a 0) as [E | Hne]; [left; exact E | right].
    apply in_line_false, Hstop. lia.
  - intros i Hi. apply in_line_true, Hall, Hi.
  - apply lines_hides; [lia | assumption | lia | constructor | constructor].
Qed.

Lemma blockquote_range_starts_with_its_line_witness :
  exists (hides : list DecorationRange) (a : Z),
    BlockquoteHandler.extractDecorations (Sample.leaf Mdast.blockquote 4 11)
      (Sample.document ["x"; "  > a"; "> b"]%string)
    = Ok (hides ++ [range blockquote a 11])
    /\ 0 <= a <= 4
    /\ line_start (Sample.document ["x"; "  > a"; "> b"]%string) a
    /\ same_line (Sample.document ["x"; "  > a"; "> b"]%string) a 4
    /\ Forall (marker_hide (Sample.document ["x"; "  > a"; "> b"]%string) a 11)
         hides
    /\ ForallOrdPairs before hides.
Proof.
  apply (@blockquote_range_starts_with_its_line
           (Sample.leaf Mdast.blockquote 4 11)
           (Sample.document ["x"; "  > a"; "> b"]%string) 4 11).
  - reflexivity.
  - lia.
  - vm_compute. discriminate.
Defined.

(** ** The highlight scanner *)

Lemma Highlights_spans text pos l :
  Highlights text pos l ->
  forall d, In d l -> type d = highlight ->
    startPos d < endPos d
    /\ (forall i, startPos d <= i < endPos d -> ~ delimiter_at text i)
    /\ In (range hide (startPos d - 2) (startPos d)) l
    /\ In (range hide (endPos d) (endPos d + 2)) l.
Proof.
  induction 1 as [pos Hno | pos o Ho Hno | pos o c rest Ho Hc Hrest IH];
    [intros d [] | intros d [] |].
  intros d Hd Hty. apply in_app_iff in Hd as [Hd | Hd].
  - unfold highlight_of in *.
    destruct (Z.gtb_spec c (o + 2)) as [Hgt | Hle]; [|destruct Hd].
    destruct Hd as [<- | [<- | [<- | []]]]; try discriminate Hty.
    cbn [startPos endPos range]. destruct Hc as (_ & _ & Hfirst).
    split; [lia|]. split; [exact Hfirst|].
    replace (o + 2 - 2) with o by lia.
    split; apply in_app_iff; left; simpl; auto.
  - destruct (IH d Hd Hty) as (H1 & H2 & H3 & H4).
    split; [exact H1|]. split; [exact H2|].
    split; apply in_app_iff; right; assumption.
Qed.

(** X16.  A highlight of the scanner holds no delimiter: its span is not
    empty, no [==] starts inside it, and the two characters before it and
    the two characters after it are hidden by the same call. *)
Theorem highlight_spans_hold_no_delimiter :
  forall (text : text) (d : DecorationRange),
    In d (HighlightHandler.extractDecorations text) ->
    type d = highlight ->
    startPos d < endPos d
    /\ (forall i, startPos d <= i < endPos d -> ~ delimiter_at text i)
    /\ In (range hide (startPos d - 2) (startPos d))
         (HighlightHandler.extractDecorations text)
    /\ In (range hide (endPos d) (endPos d + 2))
         (HighlightHandler.extractDecorations text).
Proof.
  intros text d. apply (@Highlights_spans text 0).
  apply scan_Highlights; [lia | unfold len; lia].
Qed.

Lemma highlight_spans_hold_no_delimiter_witness :
  3 < 5
  /\ (forall i, 3 <= i < 5 -> ~ delimiter_at (str "x==ab== ==") i)
  /\ In (range hide (3 - 2) 3)
       (HighlightHandler.extractDecorations (str "x==ab== =="))
  /\ In (range hide 5 (5 + 2))
       (HighlightHandler.extractDecorations (str "x==ab== ==")).
Proof.
  apply (@highlight_spans_hold_no_delimiter (str "x==ab== ==")
           (range highlight 3 5)).
  - vm_compute. auto.
  - reflexivity.
Defined.

Lemma Highlights_apart text pos l :
  Highlights text pos l ->
  Forall (fun d => pos <= startPos d) l /\ ForallOrdPairs apart l.
Proof.
  induction 1 as [pos Hno | pos o Ho Hno | pos o c rest Ho Hc Hrest IH];
    [split; constructor | split; constructor |].
  destruct IH as [Hafter Hord].
  destruct Ho as (Hpo & _ & _), Hc as (Hoc & _ & _).
  assert (Forall (fun d => pos <= startPos d) rest) as Hafter'.
  { eapply Forall_impl; [|exact Hafter]. cbv beta. intros. lia. }
  unfold highlight_of. destruct (Z.gtb_spec c (o + 2)); [|auto].
  cbn [app]. split.
  - repeat (apply Forall_cons; [cbn [startPos range]; lia|]). exact Hafter'.
  - assert (forall x, endPos x <= c + 2 -> Forall (apart x) rest) as Hrest'.
    { intros x Hx. eapply Forall_impl; [|exact Hafter]. cbv beta.
      intros y Hy. left. lia. }
    repeat (constructor;
            [repeat (apply Forall_cons;
                     [unfold apart; cbn [startPos endPos range]; lia|]);
             apply Hrest'; cbn [endPos range]; lia|]).
    exact Hord.
Qed.

(** X17.  The ranges of the scanner never overlap: any two of them, hides
    and highlights alike, share no position. *)
Theorem highlight_ranges_do_not_overlap :
  forall text : text,
    ForallOrdPairs apart (HighlightHandler.extractDecorations text).
Proof.
  intros text. apply (@Highlights_apart text 0).
  apply scan_Highlights; [lia | unfold len; lia].
Qed.

(** ** Fenced code blocks *)

Section ContentStart.

Variable text : Js.text.

(** A forward loop over a segment that ends at the limit steps over the
    longest prefix of the segment that satisfies the condition. *)
Lemma skip_forward_take_while cond : forall r p limit,
  seg_at text p r -> limit = p + len r ->
  skip_forward cond text p limit
  = p + len (take_while (fun c => cond (Some c)) r).
Proof.
  intros r p limit Hseg ->. unfold skip_forward.
  replace (Z.to_nat (p + len r - p)) with (length r) by (unfold len; lia).
  revert p Hseg. induction r as [|c r IH]; intros p Hseg.
  - simpl. unfold len. simpl. lia.
  - apply seg_at_cons in Hseg as [Hc Hr].
    cbn [length advance take_while]. rewrite Hc.
    destruct (cond (Some c)).
    + rewrite (IH _ Hr), len_cons. lia.
    + unfold len. simpl. lia.
Qed.

Lemma seg_at_drop_while (q : N -> bool) r p :
  seg_at text p r ->
  seg_at text (p + len (take_while q r)) (drop_while q r)
  /\ len r = len (take_while q r) + len (drop_while q r).
Proof.
  intros Hseg. rewrite <- (take_drop_while q r) in Hseg at 1.
  apply seg_at_app in Hseg as [_ Hseg]. split; [exact Hseg|].
  rewrite <- (take_drop_while q r) at 1. apply len_app.
Qed.

(** [findContentStart] as a function of the interior of the block: it
    steps over blanks, a word, blanks and line breaks, in this order. *)
Lemma findContentStart_interior r p limit :
  seg_at text p r -> limit = p + len r ->
  CodeBlockHandler.findContentStart text p limit
  = limit
    - len (drop_while is_newline
             (drop_while is_blank
                (drop_while in_word (drop_while is_blank r)))).
Proof.
  intros Hseg Hlimit. unfold CodeBlockHandler.findContentStart.
  rewrite (@skip_forward_take_while CodeBlockHandler.blank r p limit
             Hseg Hlimit).
  change (fun c : N => CodeBlockHandler.blank (Some c)) with is_blank.
  destruct (@seg_at_drop_while is_blank r p Hseg) as [Hseg1 Hlen1].
  set (r1 := drop_while is_blank r) in *.
  set (p1 := p + len (take_while is_blank r)) in *.
  rewrite (@skip_forward_take_while _ r1 p1 limit Hseg1 ltac:(lia)).
  change (fun c : N =>
            differs LF (Some c) && differs CR (Some c)
            && differs SPACE (Some c) && differs TAB (Some c))
    with in_word.
  destruct (@seg_at_drop_while in_word r1 p1 Hseg1) as [Hseg2 Hlen2].
  set (r2 := drop_while in_word r1) in *.
  set (p2 := p1 + len (take_while in_word r1)) in *.
  rewrite (@skip_forward_take_while CodeBlockHandler.blank r2 p2 limit
             Hseg2 ltac:(lia)).
  change (fun c : N => CodeBlockHandler.blank (Some c)) with is_blank.
  destruct (@seg_at_drop_while is_blank r2 p2 Hseg2) as [Hseg3 Hlen3].
  set (r3 := drop_while is_blank r2) in *.
  set (p3 := p2 + len (take_while is_blank r2)) in *.
  rewrite (@skip_forward_take_while CodeBlockHandler.newline r3 p3 limit
             Hseg3 ltac:(lia)).
  change (fun c : N => CodeBlockHandler.newline (Some c)) with is_newline.
  destruct (@seg_at_drop_while is_newline r3 p3 Hseg3) as [_ Hlen4].
  lia.
Qed.

End ContentStart.

Lemma take_while_nil_starts p (t : text) :
  take_while p t = [] -> starts_without p t = true.
Proof.
  destruct t as [|c t]; [reflexivity|]. simpl.
  destruct (p c); [discriminate | reflexivity].
Qed.

(** A run of [p] at the head of a text that is as long as the leading run
    is followed by a code unit outside [p], or by nothing. *)
Lemma leading_run_stops p (a b : text) :
  forallb p a = true ->
  length (take_while p (a ++ b)) = length a ->
  starts_without p b = true.
Proof.
  intros Ha Hlen. rewrite take_while_app in Hlen by assumption.
  rewrite length_app in Hlen. apply take_while_nil_starts.
  destruct (take_while p b); [reflexivity | simpl in Hlen; lia].
Qed.

Lemma starts_without_run p (a : text) :
  a <> [] -> forallb p a = true -> starts_without p a = false.
Proof.
  destruct a as [|c a]; [congruence|]. simpl. intros _ H.
  apply andb_true_iff in H as [H _]. rewrite H. reflexivity.
Qed.

Lemma starts_without_head p (a b : text) :
  a <> [] -> starts_without p (a ++ b) = true -> starts_without p a = true.
Proof. destruct a as [|c a]; [congruence|]. intros _ H. exact H. Qed.

(** The groups of the fence pattern are the leading run, the trailing run
    and what lies between. *)
Lemma fence_groups_of raw g1 g2 g3 :
  Regex.fence raw = Some (g1, g2, g3) -> fence_groups raw g1 g2 g3.
Proof.
  intros Hf. pose proof (fence_sound _ Hf) as (Hraw & Hb1 & H1 & Hb3 & H3).
  unfold fence_groups. split; [exact Hraw|].
  split; [exact Hb1|]. split; [exact Hb3|].
  split; [unfold len; lia|]. split; [unfold len; lia|].
  revert Hf. unfold Regex.fence. set (p := Regex.is_backtick) in *.
  pose proof (take_while_length p raw) as Hl.
  pose proof (take_while_length p (rev raw)) as Ht. rewrite length_rev in Ht.
  destruct (Nat.eqb_spec (length (take_while p raw)) (length raw))
    as [Hall | Hne].
  - destruct (Nat.leb_spec 6 (length raw)) as [H6 | H6]; [|discriminate].
    intros H. inversion H; subst g1 g2 g3; clear H. left.
    split; [reflexivity|]. unfold len. rewrite length_skipn. lia.
  - destruct (Nat.leb_spec 3 (length (take_while p raw))); [|discriminate].
    destruct (Nat.leb_spec 3 (length (take_while p (rev raw))));
      [|discriminate].
    cbn [andb]. intros Hgr. right.
    assert (length g1 = length (take_while p raw)) as L1.
    { inversion Hgr. rewrite length_firstn. lia. }
    assert (length g3 = length (take_while p (rev raw))) as L3.
    { inversion Hgr. rewrite length_skipn. lia. }
    clear Hgr.
    assert (g3 <> []) as Hg3 by (destruct g3; [simpl in H3; lia | discriminate]).
    assert (g1 <> []) as Hg1 by (destruct g1; [simpl in H1; lia | discriminate]).
    assert (starts_without p (g2 ++ g3) = true) as Hhead.
    { apply (@leading_run_stops p g1 (g2 ++ g3) Hb1).
      rewrite <- Hraw. symmetry. exact L1. }
    assert (starts_without p (rev g2 ++ rev g1) = true) as Hlast.
    { apply (@leading_run_stops p (rev g3) (rev g2 ++ rev g1)).
      - rewrite forallb_rev. exact Hb3.
      - rewrite length_rev, L3. f_equal.
        rewrite Hraw, !rev_app_distr, <- app_assoc. reflexivity. }
    assert (g2 <> []) as Hg2.
    { intros E. subst g2. cbn [app] in Hhead.
      rewrite (@starts_without_run p g3 Hg3 Hb3) in Hhead. discriminate. }
    split; [exact Hg2|]. split.
    + exact (@starts_without_head p g2 g3 Hg2 Hhead).
    + apply (@starts_without_head p (rev g2) (rev g1)); [|exact Hlast].
      intros E. apply (f_equal (@rev N)) in E.
      rewrite rev_involutive in E. contradiction.
Qed.

(** X18.  On a code node whose raw text is of the fence pattern, the
    handler returns exactly two hides and a [codeBlock] range over the
    whole node.  The second hide is the closing fence, which is the whole
    run of backticks at the end of the node: the body before it does not
    end with a backtick (when the node is made of backticks only, the
    closing fence is the last three of them and the body is empty).  The
    first hide runs from the start of the node over the opening fence,
    which is the whole run of backticks at the start of the node, and over
    the blanks, the first word, the blanks and the line breaks that follow
    it in the body; it ends at or before the start of the closing fence:
    the two hides never overlap. *)
Theorem fenced_block_hides_do_not_overlap :
  forall (node : Node) (text : text) (s e : Z),
    Mdast.position node = Mdast.at_ s e ->
    0 <= s -> s <= e -> e <= len text ->
    fence_shaped (substring text s e) ->
    exists (openingFence body closingFence : Js.text),
      let contentStart :=
        e - len closingFence - len (after_fence_line body) in
      fence_groups (substring text s e) openingFence body closingFence
      /\ s + len openingFence <= contentStart <= e - len closingFence
      /\ CodeBlockHandler.extractDecorations node text
         = Ok [range hide s contentStart;
               range hide (e - len closingFence) e;
               range codeBlock s e].
Proof.
  intros node text s e Hpos Hs0 Hse Hel Hshape. apply offsets_at in Hpos.
  apply fence_complete in Hshape.
  destruct (Regex.fence (substring text s e)) as [[[g1 g2] g3]|] eqn:Hf;
    [clear Hshape | congruence].
  pose proof (fence_groups_of _ Hf) as Hgroups.
  pose proof Hgroups as (Hraw & Hb1 & Hb3 & L1 & L3 & _).
  destruct (@span_length text s e _ Hs0 Hse Hel Hraw) as [Hseg Hlen].
  rewrite !len_app in Hlen. pose proof (len_nonneg g2).
  apply seg_at_app in Hseg as [_ Hseg].
  apply seg_at_app in Hseg as [Hbody _].
  pose proof (@findContentStart_interior text g2 (s + len g1) (e - len g3)
                Hbody ltac:(lia)) as Hstart.
  fold (after_fence_line g2) in Hstart.
  exists g1, g2, g3. cbv zeta.
  split; [exact Hgroups|].
  split; [rewrite <- Hstart; apply findContentStart_bounds; lia|].
  unfold CodeBlockHandler.extractDecorations. open_handler Hpos.
  rewrite Hf.
  destruct g1 as [|x g1']; [unfold len in L1; simpl in L1; lia|].
  destruct g3 as [|y g3']; [unfold len in L3; simpl in L3; lia|].
  cbn [text_eqb orb]. rewrite Hstart. reflexivity.
Qed.

Lemma fenced_block_hides_do_not_overlap_witness :
  exists (openingFence body closingFence : Js.text),
    let contentStart :=
      11 - len closingFence - len (after_fence_line body) in
    fence_groups (substring Sample.fenced_block 0 11)
      openingFence body closingFence
    /\ 0 + len openingFence <= contentStart <= 11 - len closingFence
    /\ CodeBlockHandler.extractDecorations (Sample.leaf Mdast.code 0 11)
         Sample.fenced_block
       = Ok [range hide 0 contentStart;
             range hide (11 - len closingFence) 11;
             range codeBlock 0 11].
Proof.
  apply (@fenced_block_hides_do_not_overlap (Sample.leaf Mdast.code 0 11)
           Sample.fenced_block 0 11); try reflexivity; try lia.
  exists (str "```"), (skipn 3 (firstn 8 Sample.fenced_block)), (str "```").
  repeat split; simpl; lia.
Defined.


Lemma drop_while_prefix p (a b : text) :
  forallb p a = true -> starts_without p b = true ->
  drop_while p (a ++ b) = b.
Proof.
  intros Ha Hb. rewrite drop_while_app by assumption.
  destruct b as [|c b]; [reflexivity|].
  apply drop_while_stop. simpl in Hb. apply negb_true_iff, Hb.
Qed.

Lemma drop_while_none p (t : text) :
  starts_without p t = true -> drop_while p t = t.
Proof. intros H. exact (@drop_while_prefix p [] t eq_refl H). Qed.

Lemma starts_without_all (p q : N -> bool) (a : text) :
  (forall c, q c = true -> p c = false) ->
  forallb q a = true -> starts_without p a = true.
Proof.
  intros Hpq Ha. destruct a as [|c a]; [reflexivity|].
  simpl in *. apply andb_true_iff in Ha as [Hc _].
  apply negb_true_iff, Hpq, Hc.
Qed.

Lemma starts_without_app p (a b : text) :
  a <> [] -> starts_without p a = true -> starts_without p (a ++ b) = true.
Proof. intros Hne Ha. destruct a; [congruence | exact Ha]. Qed.

Lemma starts_without_skip (p q : N -> bool) (a b : text) :
  (forall c, q c = true -> p c = false) ->
  forallb q a = true -> starts_without p b = true ->
  starts_without p (a ++ b) = true.
Proof.
  intros Hpq Ha Hb. destruct a as [|c a]; [exact Hb|].
  simpl in *. apply andb_true_iff in Ha as [Hc _].
  apply negb_true_iff, Hpq, Hc.
Qed.

Ltac classes :=
  intros ?c;
  unfold is_blank, is_newline, in_word, is_tag, Regex.is_backtick;
  repeat match goal with
         | |- context [N.eqb ?x ?k] =>
             is_var x; destruct (N.eqb_spec x k); [subst x|]
         end;
  cbv; congruence.

Lemma newline_not_blank : forall c, is_newline c = true -> is_blank c = false.
Proof. classes. Qed.

Lemma newline_not_in_word : forall c, is_newline c = true -> in_word c = false.
Proof. classes. Qed.

Lemma blank_not_in_word : forall c, is_blank c = true -> in_word c = false.
Proof. classes. Qed.

Lemma tag_not_blank : forall c, is_tag c = true -> is_blank c = false.
Proof. classes. Qed.

Lemma tag_in_word : forall c, is_tag c = true -> in_word c = true.
Proof. classes. Qed.

Lemma blank_not_backtick :
  forall c, is_blank c = true -> Regex.is_backtick c = false.
Proof. classes. Qed.

Lemma newline_not_backtick :
  forall c, is_newline c = true -> Regex.is_backtick c = false.
Proof. classes. Qed.

Lemma tag_not_backtick :
  forall c, is_tag c = true -> Regex.is_backtick c = false.
Proof. classes. Qed.

Lemma forallb_impl (p q : N -> bool) (a : text) :
  (forall c, p c = true -> q c = true) ->
  forallb p a = true -> forallb q a = true.
Proof.
  intros Hpq. induction a as [|c a IH]; simpl; [reflexivity|].
  intros H. apply andb_true_iff in H as [Hc Ha].
  rewrite (Hpq c Hc), (IH Ha). reflexivity.
Qed.

Section FencedShape.

Variables (b1 tag b2 nl body : Js.text).
Hypothesis Hb1 : forallb is_blank b1 = true.
Hypothesis Htag : forallb is_tag tag = true.
Hypothesis Hb2 : forallb is_blank b2 = true.
Hypothesis Hne : nl <> [].
Hypothesis Hnl : forallb is_newline nl = true.
Hypothesis Hbody : starts_without is_newline body = true.

(** What [findContentStart] leaves of the interior of the block. *)
Lemma interior_rest :
  drop_while is_newline
    (drop_while is_blank
       (drop_while in_word
          (drop_while is_blank (b1 ++ tag ++ b2 ++ nl ++ body))))
  = body.
Proof.
  assert (starts_without is_blank (nl ++ body) = true) as Hnb.
  { apply starts_without_app; [exact Hne|].
    exact (@starts_without_all _ _ nl newline_not_blank Hnl). }
  assert (starts_without in_word (nl ++ body) = true) as Hnw.
  { apply starts_without_app; [exact Hne|].
    exact (@starts_without_all _ _ nl newline_not_in_word Hnl). }
  assert (drop_while is_newline (nl ++ body) = body) as Hlast.
  { apply drop_while_prefix; assumption. }
  destruct tag as [|t0 tag'] eqn:Etag.
  - cbn [app]. rewrite app_assoc.
    rewrite (@drop_while_prefix is_blank (b1 ++ b2) (nl ++ body));
      [|rewrite forallb_app, Hb1, Hb2; reflexivity | exact Hnb].
    rewrite (@drop_while_none in_word (nl ++ body) Hnw).
    rewrite (@drop_while_none is_blank (nl ++ body) Hnb).
    exact Hlast.
  - rewrite <- Etag in *.
    assert (tag <> []) as Htne by (rewrite Etag; discriminate).
    rewrite (@drop_while_prefix is_blank b1 (tag ++ b2 ++ nl ++ body) Hb1).
    2:{ apply starts_without_app; [exact Htne|].
        exact (@starts_without_all _ _ tag tag_not_blank Htag). }
    rewrite (@drop_while_prefix in_word tag (b2 ++ nl ++ body)).
    2:{ exact (@forallb_impl _ _ tag tag_in_word Htag). }
    2:{ exact (@starts_without_skip _ _ b2 (nl ++ body) blank_not_in_word Hb2 Hnw). }
    rewrite (@drop_while_prefix is_blank b2 (nl ++ body) Hb2 Hnb).
    exact Hlast.
Qed.

Hypothesis Hend : starts_without Regex.is_backtick (rev body) = true.

Lemma interior_not_empty : b1 ++ tag ++ b2 ++ nl ++ body <> [].
Proof.
  intros E. apply app_eq_nil in E as [_ E]. apply app_eq_nil in E as [_ E].
  apply app_eq_nil in E as [_ E]. apply app_eq_nil in E as [E _].
  contradiction.
Qed.

Lemma interior_starts_without_backtick :
  starts_without Regex.is_backtick (b1 ++ tag ++ b2 ++ nl ++ body) = true.
Proof.
  apply (@starts_without_skip _ _ b1 _ blank_not_backtick Hb1).
  apply (@starts_without_skip _ _ tag _ tag_not_backtick Htag).
  apply (@starts_without_skip _ _ b2 _ blank_not_backtick Hb2).
  apply starts_without_app; [exact Hne|].
  exact (@starts_without_all _ _ nl newline_not_backtick Hnl).
Qed.

Lemma interior_ends_without_backtick :
  starts_without Regex.is_backtick (rev (b1 ++ tag ++ b2 ++ nl ++ body))
  = true.
Proof.
  rewrite !rev_app_distr, <- !app_assoc.
  destruct body as [|c body'] eqn:Ebody.
  - cbn [rev app]. apply starts_without_app.
    + intros E. apply (f_equal (@rev N)) in E.
      rewrite rev_involutive in E. contradiction.
    + apply (@starts_without_all _ _ (rev nl) newline_not_backtick).
      rewrite forallb_rev. exact Hnl.
  - rewrite <- Ebody in *. apply starts_without_app; [|exact Hend].
    intros E. apply (f_equal (@rev N)) in E.
    rewrite rev_involutive in E. rewrite Ebody in E. discriminate.
Qed.

End FencedShape.

Lemma take_while_none p (t : text) :
  starts_without p t = true -> take_while p t = [].
Proof.
  destruct t as [|c t]; [reflexivity|]. simpl. intros H.
  apply negb_true_iff in H. rewrite H. reflexivity.
Qed.

Lemma backticks_all n : forallb Regex.is_backtick (repeat BACKTICK n) = true.
Proof. induction n; simpl; [reflexivity | exact IHn]. Qed.

Lemma rev_backticks n : rev (repeat BACKTICK n) = repeat BACKTICK n.
Proof.
  induction n as [|n IH]; [reflexivity|].
  cbn [repeat rev]. rewrite IH. clear IH.
  induction n as [|n IH]; [reflexivity|].
  cbn [repeat app]. rewrite IH. reflexivity.
Qed.

(** The fence pattern on a block whose interior neither starts nor ends
    with a backtick: the groups are the two fences and the interior. *)
Lemma fence_of_shape n m (mid : text) :
  (3 <= n)%nat -> (3 <= m)%nat -> mid <> [] ->
  starts_without Regex.is_backtick mid = true ->
  starts_without Regex.is_backtick (rev mid) = true ->
  Regex.fence (repeat BACKTICK n ++ mid ++ repeat BACKTICK m)
  = Some (repeat BACKTICK n, mid, repeat BACKTICK m).
Proof.
  intros Hn Hm Hne Hfirst Hlast. unfold Regex.fence.
  assert (take_while Regex.is_backtick
            (repeat BACKTICK n ++ mid ++ repeat BACKTICK m)
          = repeat BACKTICK n) as E1.
  { rewrite take_while_app by apply backticks_all.
    rewrite take_while_none; [apply app_nil_r|].
    apply starts_without_app; assumption. }
  assert (take_while Regex.is_backtick
            (rev (repeat BACKTICK n ++ mid ++ repeat BACKTICK m))
          = repeat BACKTICK m) as E2.
  { rewrite !rev_app_distr, <- app_assoc, rev_backticks.
    rewrite take_while_app by apply backticks_all.
    rewrite take_while_none; [apply app_nil_r|].
    apply starts_without_app; [|assumption].
    intros E. apply (f_equal (@rev N)) in E.
    rewrite rev_involutive in E. contradiction. }
  rewrite E1, E2, !length_app, !repeat_length.
  assert (length mid <> 0)%nat as Hmid by (destruct mid; simpl; congruence).
  destruct (Nat.eqb_spec n (n + (length mid + m))) as [E | _]; [lia|].
  destruct (Nat.leb_spec 3 n); [|lia].
  destruct (Nat.leb_spec 3 m); [|lia].
  cbn [andb]. do 2 f_equal; [f_equal|].
  - rewrite <- (repeat_length BACKTICK n) at 1. rewrite firstn_app.
    rewrite repeat_length, Nat.sub_diag, firstn_all2
      by (rewrite repeat_length; lia).
    simpl. apply app_nil_r.
  - rewrite <- (repeat_length BACKTICK n) at 3.
    change (skipn (length (repeat BACKTICK n))
              (repeat BACKTICK n ++ mid ++ repeat BACKTICK m))
      with (Regex.after (repeat BACKTICK n)
              (repeat BACKTICK n ++ mid ++ repeat BACKTICK m)).
    rewrite after_app.
    replace (n + (length mid + m) - m - n)%nat with (length mid) by lia.
    rewrite firstn_app, Nat.sub_diag, firstn_all. simpl. apply app_nil_r.
  - replace (n + (length mid + m) - m)%nat
      with (length (repeat BACKTICK n ++ mid))
      by (rewrite length_app, repeat_length; lia).
    rewrite app_assoc.
    change (skipn (length (repeat BACKTICK n ++ mid))
              ((repeat BACKTICK n ++ mid) ++ repeat BACKTICK m))
      with (Regex.after (repeat BACKTICK n ++ mid)
              ((repeat BACKTICK n ++ mid) ++ repeat BACKTICK m)).
    apply after_app.
Qed.

(** The decorations of a fenced block whose interior [mid] neither starts
    nor ends with a backtick: the first hide stops where what the scan of
    [findContentStart] leaves of the interior starts. *)
Lemma fenced_hides node text s e n m (mid : Js.text) :
  offsets node = Some (s, e) ->
  0 <= s -> s <= e -> e <= len text ->
  substring text s e = repeat BACKTICK n ++ mid ++ repeat BACKTICK m ->
  (3 <= n)%nat -> (3 <= m)%nat -> mid <> [] ->
  starts_without Regex.is_backtick mid = true ->
  starts_without Regex.is_backtick (rev mid) = true ->
  CodeBlockHandler.extractDecorations node text
  = Ok [range hide s
          (e - Z.of_nat m
           - len (drop_while is_newline
                    (drop_while is_blank
                       (drop_while in_word (drop_while is_blank mid)))));
        range hide (e - Z.of_nat m) e;
        range codeBlock s e].
Proof.
  intros Hpos Hs0 Hse Hel Hraw Hn Hm Hne Hfirst Hlast.
  destruct (@span_length text s e _ Hs0 Hse Hel Hraw) as [Hseg Hlen].
  assert (Regex.fence (substring text s e)
          = Some (repeat BACKTICK n, mid, repeat BACKTICK m)) as Hf.
  { rewrite Hraw. apply fence_of_shape; assumption. }
  assert (len (repeat BACKTICK n) = Z.of_nat n) as Ln
    by (unfold len; rewrite repeat_length; reflexivity).
  assert (len (repeat BACKTICK m) = Z.of_nat m) as Lm
    by (unfold len; rewrite repeat_length; reflexivity).
  apply seg_at_app in Hseg as [_ Hseg].
  apply seg_at_app in Hseg as [Hmid _].
  rewrite !len_app, Ln, Lm in Hlen. rewrite Ln in Hmid.
  unfold CodeBlockHandler.extractDecorations. open_handler Hpos.
  rewrite Hf.
  destruct (repeat BACKTICK n) as [|x g1] eqn:E1;
    [destruct n; [lia | discriminate]|].
  destruct (repeat BACKTICK m) as [|y g3] eqn:E3;
    [destruct m; [lia | discriminate]|].
  cbn [text_eqb orb]. rewrite Ln, Lm.
  rewrite (@findContentStart_interior text mid (s + Z.of_nat n)
             (e - Z.of_nat m) Hmid ltac:(lia)).
  reflexivity.
Qed.

(** What [findContentStart] leaves of an interior whose info string has a
    second word: everything from the second word on. *)
Lemma interior_rest_two_words (b1 tag b2 rest : Js.text) :
  forallb is_blank b1 = true ->
  tag <> [] -> forallb is_tag tag = true ->
  b2 <> [] -> forallb is_blank b2 = true ->
  starts_without is_blank rest = true ->
  starts_without is_newline rest = true ->
  drop_while is_newline
    (drop_while is_blank
       (drop_while in_word (drop_while is_blank (b1 ++ tag ++ b2 ++ rest))))
  = rest.
Proof.
  intros Hb1 Htne Htag Hbne Hb2 Hnb Hnn.
  rewrite (@drop_while_prefix is_blank b1 (tag ++ b2 ++ rest) Hb1).
  2:{ apply starts_without_app; [exact Htne|].
      exact (@starts_without_all _ _ tag tag_not_blank Htag). }
  rewrite (@drop_while_prefix in_word tag (b2 ++ rest)).
  2:{ exact (@forallb_impl _ _ tag tag_in_word Htag). }
  2:{ apply starts_without_app; [exact Hbne|].
      exact (@starts_without_all _ _ b2 blank_not_in_word Hb2). }
  rewrite (@drop_while_prefix is_blank b2 rest Hb2 Hnb).
  apply drop_while_none, Hnn.
Qed.

(** X19.  The first hide of a fenced code block covers the fence line when
    the info string has at most one word.  On a block that reads: a fence
    of three or more backticks, blanks, an info string of at most one word
    (no blank, no line break and no backtick in it), blanks, one or more
    line breaks, a body that does not start with a line break and does not
    end with a backtick, and a closing fence of three or more backticks,
    the first hide covers the opening fence, the info string and the line
    breaks, and stops at the first character of the body.  When a second
    word follows the first one and the blanks after it on the fence line,
    and what follows up to the closing fence does not end with a backtick,
    the first hide stops at the second word.  In both cases the second
    hide is the closing fence and the [codeBlock] range is the whole
    node. *)
Theorem fenced_block_hides_fence_line :
  forall (node : Node) (text : text) (s e : Z) (n m : nat),
    Mdast.position node = Mdast.at_ s e ->
    (forall b1 tag b2 nl body : Js.text,
        fenced_block text s e n m b1 tag b2 nl body ->
        CodeBlockHandler.extractDecorations node text
        = Ok [range hide s
                (s + Z.of_nat n + len b1 + len tag + len b2 + len nl);
              range hide (e - Z.of_nat m) e;
              range codeBlock s e])
    /\ (forall b1 tag b2 rest : Js.text,
           fenced_block_two_words text s e n m b1 tag b2 rest ->
           CodeBlockHandler.extractDecorations node text
           = Ok [range hide s (s + Z.of_nat n + len b1 + len tag + len b2);
                 range hide (e - Z.of_nat m) e;
                 range codeBlock s e]).
Proof.
  intros node text s e n m Hpos. apply offsets_at in Hpos. split.
  - intros b1 tag b2 nl body
      (Hs0 & Hse & Hel & Hraw & Hn & Hm & Hb1 & Htag & Hb2 & Hne & Hnl
       & Hbody & Hend).
    destruct (@span_length text s e _ Hs0 Hse Hel Hraw) as [_ Hlen].
    rewrite !len_app in Hlen.
    unfold len at 1 in Hlen. rewrite repeat_length in Hlen.
    unfold len at 6 in Hlen. rewrite repeat_length in Hlen.
    rewrite (@fenced_hides node text s e n m (b1 ++ tag ++ b2 ++ nl ++ body)
               Hpos Hs0 Hse Hel);
      try assumption.
    + rewrite (@interior_rest b1 tag b2 nl body Hb1 Htag Hb2 Hne Hnl Hbody).
      do 3 f_equal. lia.
    + rewrite Hraw, <- !app_assoc. reflexivity.
    + apply interior_not_empty, Hne.
    + apply interior_starts_without_backtick; assumption.
    + apply interior_ends_without_backtick; assumption.
  - intros b1 tag b2 rest
      (Hs0 & Hse & Hel & Hraw & Hn & Hm & Hb1 & Htne & Htag & Hbne & Hb2
       & Hrne & Hnb & Hnn & Hend).
    destruct (@span_length text s e _ Hs0 Hse Hel Hraw) as [_ Hlen].
    rewrite !len_app in Hlen.
    unfold len at 1 in Hlen. rewrite repeat_length in Hlen.
    unfold len at 5 in Hlen. rewrite repeat_length in Hlen.
    rewrite (@fenced_hides node text s e n m (b1 ++ tag ++ b2 ++ rest)
               Hpos Hs0 Hse Hel);
      try assumption.
    + rewrite (@interior_rest_two_words b1 tag b2 rest Hb1 Htne Htag Hbne
                 Hb2 Hnb Hnn).
      do 3 f_equal. lia.
    + rewrite Hraw, <- !app_assoc. reflexivity.
    + intros E. apply app_eq_nil in E as [_ E].
      apply app_eq_nil in E as [E _]. contradiction.
    + apply (@starts_without_skip _ _ b1 _ blank_not_backtick Hb1).
      apply starts_without_app; [exact Htne|].
      exact (@starts_without_all _ _ tag tag_not_backtick Htag).
    + rewrite !rev_app_distr, <- !app_assoc.
      apply starts_without_app; [|exact Hend].
      intros E. apply (f_equal (@rev N)) in E.
      rewrite rev_involutive in E. contradiction.
Qed.

Lemma fenced_block_hides_fence_line_witness :
  CodeBlockHandler.extractDecorations (Sample.leaf Mdast.code 0 11)
    Sample.fenced_block
  = Ok [range hide 0 (0 + Z.of_nat 3 + len [] + len (str "js") + len []
                      + len [LF]);
        range hide (11 - Z.of_nat 3) 11;
        range codeBlock 0 11]
  /\ CodeBlockHandler.extractDecorations (Sample.leaf Mdast.code 0 17)
       titled_block
     = Ok [range hide 0 (0 + Z.of_nat 3 + len [] + len (str "js")
                         + len [SPACE]);
           range hide (17 - Z.of_nat 3) 17;
           range codeBlock 0 17].
Proof.
  split.
  - apply (proj1 (@fenced_block_hides_fence_line (Sample.leaf Mdast.code 0 11)
                    Sample.fenced_block 0 11 3 3 eq_refl)
             [] (str "js") [] [LF] [120%N; LF]).
    repeat split; try reflexivity; try lia; try discriminate.
  - apply (proj2 (@fenced_block_hides_fence_line (Sample.leaf Mdast.code 0 17)
                    titled_block 0 17 3 3 eq_refl)
             [] (str "js") [SPACE] (str "title" ++ [LF; 120%N; LF])).
    repeat split; try reflexivity; try lia; try discriminate.
Defined.

(* ===================================================================== *)
(** * The filter of the engine *)
(* ===================================================================== *)

Lemma emphasis_has_handler node :
  Mdast.type node = Mdast.emphasis ->
  MarkdownParser.findHandler node = Some EmphasisHandler.handler.
Proof.
  intros Hty. unfold MarkdownParser.findHandler, MarkdownParser.handlers.
  cbn [find canHandle HeadingHandler.handler StrongHandler.handler
         EmphasisHandler.handler].
  unfold HeadingHandler.canHandle, StrongHandler.canHandle,
    EmphasisHandler.canHandle, is_type.
  rewrite Hty. reflexivity.
Qed.

Lemma keep_by_key r d d' :
  DecorationCollector.createKey d' = DecorationCollector.createKey d ->
  MarkdownParser.keep r d' = MarkdownParser.keep r d.
Proof.
  unfold DecorationCollector.createKey. intros E. inversion E as [[Es Ee Et]].
  unfold MarkdownParser.keep. rewrite Es, Ee, Et. reflexivity.
Qed.

Lemma claims_of_inv node k :
  In k (claims_of node) ->
  Mdast.type node = Mdast.strong
  /\ exists child a b,
       In child (Mdast.children node)
       /\ Mdast.type child = Mdast.emphasis
       /\ offsets child = Some (a, b)
       /\ k = (a + 1, b - 1).
Proof.
  unfold claims_of.
  destruct (is_type Mdast.strong node) eqn:Hst; [|intros []].
  cbn [andb].
  destruct (existsb (is_type Mdast.emphasis) (Mdast.children node)
            && MarkdownParser.hasValidPosition node); [|intros []].
  intros Hk. split; [apply is_type_iff, Hst|].
  apply in_flat_map in Hk as (child & Hchild & Hk).
  unfold claim_of in Hk.
  destruct (is_type Mdast.emphasis child) eqn:Hem; [|destruct Hk].
  destruct (offsets child) as [[a b]|] eqn:Hoff; [|destruct Hk].
  destruct (b - 1 >? a + 1); [|destruct Hk].
  destruct Hk as [<- | []].
  exists child, a, b. repeat split; try assumption. apply is_type_iff, Hem.
Qed.

Lemma offsets_position node s e :
  offsets node = Some (s, e) -> Mdast.position node = Mdast.at_ s e.
Proof.
  unfold offsets, Mdast.at_.
  destruct (Mdast.position node) as [[[[a|]] [[b|]]]|]; try discriminate.
  intros E. inversion E. reflexivity.
Qed.

Lemma keep_without_clash r d :
  (forall k, In k r -> ~ clashes (startPos d) (endPos d) (fst k) (snd k)) ->
  MarkdownParser.keep r d = true.
Proof.
  intros H. unfold MarkdownParser.keep.
  destruct (DecorationType_eqb (type d) italic); [|reflexivity].
  apply negb_true_iff, not_true_iff_false. intros Hex.
  apply existsb_exists in Hex as (k & Hk & Htest).
  apply (H k Hk). unfold MarkdownParser.parseRangeKey in Htest.
  destruct ((0 <=? fst k) && (0 <=? snd k)); [|discriminate].
  destruct k as [start end_]. cbn [fst snd]. unfold clashes.
  rewrite !orb_true_iff, !andb_true_iff in Htest.
  rewrite !Z.geb_le, !Z.ltb_lt, !Z.gtb_lt, !Z.leb_le in Htest. tauto.
Qed.

(** X27.  The filter drops an italic range only for a clash with an
    emphasis inside a strong node: the italic range of an emphasis node
    that is not between doubled delimiters is kept in the output when it
    clashes with the interior of no emphasis child of a strong node. *)
Theorem italic_is_kept_outside_bold_italic :
  forall (parseAST : text -> Node) (text : text) (node : Node) (s e : Z),
    In node (nodes (parseAST text)) ->
    Mdast.type node = Mdast.emphasis ->
    Mdast.position node = Mdast.at_ s e ->
    ~ doubled STAR text s e -> ~ doubled UNDERSCORE text s e ->
    (forall (strongNode child : Node) (a b : Z),
        In strongNode (nodes (parseAST text)) ->
        Mdast.type strongNode = Mdast.strong ->
        In child (Mdast.children strongNode) ->
        Mdast.type child = Mdast.emphasis ->
        Mdast.position child = Mdast.at_ a b ->
        ~ clashes (s + 1) (e - 1) (a + 1) (b - 1)) ->
    exists out,
      MarkdownParser.extractDecorations parseAST text = Ok out
      /\ has_key (range italic (s + 1) (e - 1)) out.
Proof.
  intros parseAST text node s e Hnode Hty Hpos Hstar Hunder Hfree.
  apply offsets_at in Hpos.
  rewrite extractDecorations_walked. eexists. split; [reflexivity|].
  assert (has_key (range italic (s + 1) (e - 1))
            (DecorationCollector.ranges (fst (walked text (parseAST text)))))
    as Hkey.
  { unfold walked. eapply walk_has_keys; [| exact Hnode |].
    - split; [reflexivity | constructor].
    - rewrite (@decorations_of_handler text node EmphasisHandler.handler _
                 (@emphasis_has_handler node Hty)
                 (@emphasis_italic node text s e Hpos Hstar Hunder)).
      do 2 right. left. reflexivity. }
  unfold has_key in *. apply in_map_iff in Hkey as (d' & Ek & Hd').
  rewrite <- Ek. apply in_map. apply in_app_iff. left.
  apply filter_In. split; [exact Hd'|].
  rewrite (@keep_by_key _ (range italic (s + 1) (e - 1)) d' Ek).
  apply keep_without_clash.
  intros k Hk. cbn [startPos endPos range].
  unfold walked in Hk. apply walk_claims in Hk as [[] | (n & Hn & Hk)].
  apply claims_of_inv in Hk as (Hstrong & child & a & b & Hc & Hem & Hoff & ->).
  cbn [fst snd].
  apply (Hfree n child a b Hn Hstrong Hc Hem
           (@offsets_position child a b Hoff)).
Qed.

Lemma italic_is_kept_outside_bold_italic_witness :
  exists out,
    MarkdownParser.extractDecorations (fun _ => italic_then_bold_tree)
      italic_then_bold
    = Ok out
    /\ has_key (range italic (0 + 1) (3 - 1)) out.
Proof.
  apply (@italic_is_kept_outside_bold_italic
           (fun _ => italic_then_bold_tree) italic_then_bold
           italic_then_bold_emphasis 0 3).
  - do 2 right. left. reflexivity.
  - reflexivity.
  - reflexivity.
  - intros (H & _). discriminate H.
  - intros (H & _). discriminate H.
  - intros strongNode child a b Hin Hst Hc Hem Hpos Hclash.
    cbn in Hin.
    repeat (destruct Hin as [<- | Hin]; try discriminate Hst);
      [|destruct Hin].
    cbn in Hc.
    repeat (destruct Hc as [<- | Hc]; try discriminate Hem); [|destruct Hc].
    inversion Hpos; subst a b. unfold clashes in Hclash. lia.
Defined.

(** ** Where the highlights come from *)

Ltac styled_goal :=
  repeat match goal with
         | |- Forall _ [] => constructor
         | |- Forall _ (_ :: _) => constructor
         | |- Forall _ (_ ++ _) => apply Forall_app; split
         | |- Forall _ (if ?b then _ else _) => destruct b
         | |- type _ <> highlight => cbn [type range]; discriminate
         end.

Lemma lines_styled fuel text e : forall pos acc,
  Forall (fun d => type d <> highlight) acc ->
  Forall (fun d => type d <> highlight)
    (BlockquoteHandler.lines fuel text pos e acc).
Proof.
  induction fuel as [|fuel IH]; intros pos acc Hacc;
    cbn [BlockquoteHandler.lines]; [exact Hacc|].
  destruct (pos <? e); [|exact Hacc].
  unfold BlockquoteHandler.line.
  apply IH. apply Forall_app. split; [exact Hacc|].
  destruct (BlockquoteHandler.BLOCKQUOTE_MARKER_PATTERN _) as [[[g1 g2] g3]|];
    styled_goal.
Qed.

Lemma bold_italic_child_styled child :
  Forall (fun d => type d <> highlight) (bold_italic_child child).
Proof.
  unfold bold_italic_child.
  destruct (offsets child) as [[a b]|]; [|constructor].
  destruct (is_type Mdast.emphasis child); styled_goal.
Qed.

(** No handler returns a highlight. *)
Lemma handlers_styled handler node text l :
  In handler MarkdownParser.handlers ->
  extractDecorations handler node text = Ok l ->
  Forall (fun d => type d <> highlight) l.
Proof.
  intros Hin H.
  destruct (offsets node) as [[s e]|] eqn:Hoff.
  2:{ destruct (offsets_none _ Hoff) as [Hv _].
      rewrite (@skipped_without_position handler node text Hin Hv) in H.
      inversion H. constructor. }
  unfold MarkdownParser.handlers in Hin.
  repeat (destruct Hin as [<- | Hin]); [ | | | | | | | | | | | | destruct Hin];
    cbn [extractDecorations HeadingHandler.handler StrongHandler.handler
           EmphasisHandler.handler InlineCodeHandler.handler
           CodeBlockHandler.handler BlockquoteHandler.handler
           HorizontalRuleHandler.handler DeleteHandler.handler
           LinkHandler.handler ImageHandler.handler
           LinkReferenceHandler.handler ImageReferenceHandler.handler] in H.
  - unfold HeadingHandler.extractDecorations in H.
    destruct (offsets_valid _ Hoff) as (Hv & _ & Hs & He).
    rewrite Hv, Hs, He in H. cbn [negb bind] in H.
    destruct (HeadingHandler.HEADING_MARKER_PATTERN _) as [[[g1 g2] g3]|].
    + destruct (_ || _); inversion H; subst l; [constructor|].
      cbn [HeadingHandler.createMarkerDecoration
             HeadingHandler.createContentDecoration app].
      repeat constructor; cbn [type range]; [discriminate|].
      apply getHeadingType_styled.
    + destruct (HeadingHandler.isHeadingEmpty text s e); inversion H;
        subst l; unfold HeadingHandler.createFallbackDecoration; styled_goal.
  - rewrite (@StrongHandler_fixed node text s e Hoff) in H.
    inversion H; subst l.
    destruct (StrongHandler.hasEmphasisChild node); styled_goal.
    apply Forall_forall. intros d Hd.
    apply in_flat_map in Hd as (child & _ & Hd).
    pose proof (bold_italic_child_styled child) as Hall.
    rewrite Forall_forall in Hall. apply Hall, Hd.
  - unfold EmphasisHandler.extractDecorations in H.
    guarded_handler Hoff H; styled_goal.
  - unfold InlineCodeHandler.extractDecorations in H.
    guarded_handler Hoff H.
    unfold InlineCodeHandler.createOpeningBacktickDecoration,
      InlineCodeHandler.createClosingBacktickDecoration,
      InlineCodeHandler.createCodeContentDecoration.
    repeat constructor; try (cbn [type range]; discriminate).
    destruct (_ <=? _); cbn [type range]; discriminate.
  - unfold CodeBlockHandler.extractDecorations in H.
    destruct (offsets_valid _ Hoff) as (Hv & _ & Hs & He).
    rewrite Hv, Hs, He in H. cbn [negb bind] in H.
    destruct (Regex.fence _) as [[[g1 g2] g3]|];
      [destruct (_ || _)|]; inversion H; subst l; styled_goal.
  - unfold BlockquoteHandler.extractDecorations in H.
    guarded_handler Hoff H.
    apply Forall_app. split; [apply lines_styled; constructor | styled_goal].
  - unfold HorizontalRuleHandler.extractDecorations in H.
    guarded_handler Hoff H; styled_goal.
  - unfold DeleteHandler.extractDecorations in H.
    guarded_handler Hoff H; styled_goal.
  - unfold LinkHandler.extractDecorations in H.
    guarded_handler Hoff H; styled_goal.
  - unfold ImageHandler.extractDecorations in H.
    guarded_handler Hoff H; styled_goal.
  - unfold LinkReferenceHandler.extractDecorations in H.
    guarded_handler Hoff H; styled_goal.
  - unfold ImageReferenceHandler.extractDecorations in H.
    guarded_handler Hoff H; styled_goal.
Qed.

(** X30.  Highlights come from the scanner only, and last: the output of
    the engine is a list of ranges of the tree, none of which is a
    highlight, followed by the ranges of the highlight scanner, which are
    hides and highlights only. *)
Theorem highlights_come_from_the_scanner :
  forall (parseAST : text -> Node) (text : text),
    exists fromTree : list DecorationRange,
      MarkdownParser.extractDecorations parseAST text
      = Ok (fromTree ++ HighlightHandler.extractDecorations text)
      /\ Forall (fun d => type d <> highlight) fromTree
      /\ Forall (fun d => type d = hide \/ type d = highlight)
           (HighlightHandler.extractDecorations text).
Proof.
  intros parseAST text. rewrite extractDecorations_walked.
  eexists. split; [reflexivity|]. split.
  - apply Forall_forall. intros d Hd.
    apply filter_In in Hd as [Hd _].
    apply walked_ranges in Hd as (n & _ & Hd).
    apply decorations_of_inv in Hd as (h & l & Hf & He & Hd).
    pose proof (@handlers_styled h n text l (findHandler_In _ Hf) He) as Hall.
    rewrite Forall_forall in Hall. apply Hall, Hd.
  - eapply Forall_impl; [|apply scanner_ranges].
    intros d [(H & _) | (H & _)]; auto.
Qed.

(* ===================================================================== *)
(** * The link provider *)
(* ===================================================================== *)

(** ** Strings *)

Lemma starts_with_iff p t : starts_with p t = true <-> has_prefix t p.
Proof.
  unfold has_prefix. revert t.
  induction p as [|x p IH]; intros t; cbn [starts_with].
  - split; [intros _; exists t; reflexivity | reflexivity].
  - destruct t as [|y t].
    + split; [discriminate | intros (b & E); discriminate E].
    + rewrite andb_true_iff, N.eqb_eq, IH. split.
      * intros [-> (b & ->)]. exists b. reflexivity.
      * intros (b & E). inversion E. split; [reflexivity | exists b; reflexivity].
Qed.

Lemma find_from_contains p t : forall base,
  find_from p t base <> None <-> contains t p.
Proof.
  unfold contains. induction t as [|c t IH]; intros base; cbn [find_from].
  - destruct (starts_with p []) eqn:Hs.
    + split; [intros _ | discriminate].
      apply starts_with_iff in Hs as (b & E). exists [], b. exact E.
    + split; [congruence|]. intros (a & b & E). exfalso.
      destruct a as [|x a]; [|discriminate E].
      apply not_true_iff_false in Hs. apply Hs, starts_with_iff.
      exists b. exact E.
  - destruct (starts_with p (c :: t)) eqn:Hs.
    + split; [intros _ | discriminate].
      apply starts_with_iff in Hs as (b & E). exists [], b. exact E.
    + rewrite IH. split.
      * intros (a & b & ->). exists (c :: a), b. reflexivity.
      * intros (a & b & E). destruct a as [|x a].
        -- exfalso. apply not_true_iff_false in Hs. apply Hs, starts_with_iff.
           exists b. exact E.
        -- inversion E. exists a, b. reflexivity.
Qed.

Lemma includes_iff t p :
  MarkdownLinkProvider.includes t p = true <-> contains t p.
Proof.
  unfold MarkdownLinkProvider.includes, indexOf, clamp.
  pose proof (len_nonneg t).
  replace (Z.max 0 (Z.min 0 (len t))) with 0 by lia.
  cbn [Z.to_nat skipn]. rewrite <- (find_from_contains p t 0).
  destruct (find_from p t 0); split; congruence.
Qed.

Lemma first_non_whitespace t :
  blank t
  \/ exists ws c rest,
       t = ws ++ c :: rest /\ forallb isWhitespace ws = true
       /\ isWhitespace c = false.
Proof.
  unfold blank. induction t as [|x t IH]; [left; reflexivity|].
  destruct (isWhitespace x) eqn:Hx.
  - destruct IH as [Hb | (ws & c & rest & -> & Hws & Hc)].
    + left. simpl. rewrite Hx, Hb. reflexivity.
    + right. exists (x :: ws), c, rest. simpl. rewrite Hx, Hws. auto.
  - right. exists [], x, t. auto.
Qed.

Lemma trim_empty_iff t : (len (trim t) =? 0) = true <-> blank t.
Proof.
  rewrite Z.eqb_eq. split.
  - intros H. destruct (first_non_whitespace t)
      as [Hb | (ws & c & rest & -> & Hws & Hc)]; [exact Hb|].
    destruct (@trim_first ws c rest Hws Hc) as (rest' & E).
    rewrite E, len_cons in H. pose proof (len_nonneg rest'). lia.
  - intros Hb. unfold blank in Hb. rewrite trim_blank by assumption.
    reflexivity.
Qed.

(** X20.  A URL is clickable exactly when it is not blank and either starts
    with [http://], [https://], [mailto:], [#] or [/], or holds no [://] at
    all: the empty string and strings of white space are refused, any other
    string without scheme separator is accepted as a relative path, and a
    string with a scheme separator is accepted only behind one of the five
    prefixes. *)
Theorem clickable_urls :
  forall url : text,
    MarkdownLinkProvider.isValidUrl url = true
    <-> ~ blank url /\ (allowed_prefix url \/ ~ contains url (str "://")).
Proof.
  intros url. unfold MarkdownLinkProvider.isValidUrl, allowed_prefix,
    MarkdownLinkProvider.startsWith.
  pose proof (trim_empty_iff url) as Htrim.
  rewrite <- !starts_with_iff, <- includes_iff.
  destruct (text_eqb url []) eqn:Hempty.
  - apply text_eqb_eq in Hempty. subst url. cbn [orb]. split; [discriminate|].
    intros [H _]. exfalso. apply H. reflexivity.
  - cbn [orb]. destruct (len (trim url) =? 0).
    + split; [discriminate|]. intros [H _]. exfalso. apply H, Htrim.
      reflexivity.
    + rewrite !orb_true_iff, negb_true_iff, not_true_iff_false. split.
      * intros H. split; [intros Hb; apply Htrim in Hb; discriminate|].
        tauto.
      * intros [_ H]. tauto.
Qed.

Lemma clickable_urls_witness :
  MarkdownLinkProvider.isValidUrl (str "notes/a.md") = true
  /\ MarkdownLinkProvider.isValidUrl (str "ftp://host/a") = false.
Proof.
  split.
  - apply (proj2 (clickable_urls (str "notes/a.md"))). split.
    + intros H. discriminate H.
    + right. intros H. apply includes_iff in H. discriminate H.
  - apply not_true_iff_false. intros H.
    apply (proj1 (clickable_urls (str "ftp://host/a"))) in H
      as [_ [Hprefix | Hnone]].
    + unfold allowed_prefix in Hprefix. rewrite <- !starts_with_iff in Hprefix.
      repeat (destruct Hprefix as [Hprefix | Hprefix]; try discriminate Hprefix).
    + apply Hnone. exists (str "ftp"), (str "host/a"). reflexivity.
Defined.

(** ** The clickable span *)

(** [indexOf] of one character. *)
Lemma find_from_char c r : forall base,
  find_from [c] r base
  = if len (take_while (fun x => negb (N.eqb x c)) r) <? len r
    then Some (base + len (take_while (fun x => negb (N.eqb x c)) r))
    else None.
Proof.
  induction r as [|x r IH]; intros base; cbn [find_from starts_with take_while].
  - reflexivity.
  - rewrite (N.eqb_sym c x). destruct (N.eqb x c); cbn [andb negb].
    + change (len []) with 0. rewrite len_cons. pose proof (len_nonneg r).
      destruct (Z.ltb_spec 0 (1 + len r)); [|lia]. f_equal. lia.
    + rewrite IH, !len_cons.
      pose proof (len_nonneg (take_while (fun x => negb (N.eqb x c)) r)).
      destruct (Z.ltb_spec (len (take_while (fun x => negb (N.eqb x c)) r))
                  (len r));
        destruct (Z.ltb_spec
                    (1 + len (take_while (fun x => negb (N.eqb x c)) r))
                    (1 + len r)); try lia; [f_equal; lia | reflexivity].
Qed.

(** The scan of the handlers for the closing bracket and the search of the
    provider in the text of the node find the same bracket. *)
Lemma until_is_indexOf text s e :
  0 <= s -> e <= len text ->
  Scan.until RBRACKET text (s + 1) e < e ->
  indexOf (substring text s e) [RBRACKET] 1
  = Some (Scan.until RBRACKET text (s + 1) e - s).
Proof.
  intros Hs0 Hel Hlt.
  assert (s + 1 <= e) as Hse.
  { destruct (Z.le_gt_cases (s + 1) e) as [H | H]; [exact H|].
    unfold Scan.until, skip_forward in Hlt.
    replace (Z.to_nat (e - (s + 1))) with 0%nat in Hlt by lia.
    simpl in Hlt. lia. }
  pose proof (@substring_inside text s e Hs0 ltac:(lia) Hel) as Hlen.
  destruct (substring text s e) as [|c0 r] eqn:Hraw;
    [unfold len in Hlen; simpl in Hlen; lia|].
  pose proof (@substring_rest text s e [c0] r Hs0 ltac:(lia) Hel Hraw) as Hr.
  change (len [c0]) with 1 in Hr.
  pose proof (@seg_at_substring text (s + 1) e ltac:(lia) Hse Hel) as Hseg.
  rewrite Hr in Hseg. rewrite len_cons in Hlen.
  unfold Scan.until in *.
  rewrite (@skip_forward_take_while text (differs RBRACKET) r (s + 1) e
             Hseg ltac:(lia)) in *.
  change (fun c : N => differs RBRACKET (Some c))
    with (fun x : N => negb (N.eqb x RBRACKET)) in *.
  unfold indexOf, clamp. rewrite len_cons.
  pose proof (len_nonneg r).
  replace (Z.max 0 (Z.min 1 (1 + len r))) with 1 by lia.
  change (skipn (Z.to_nat 1) (c0 :: r)) with r.
  rewrite find_from_char.
  destruct (Z.ltb_spec
              (len (take_while (fun x => negb (N.eqb x RBRACKET)) r)) (len r));
    [f_equal; lia | lia].
Qed.

Ltac link_range H :=
  repeat match type of H with
         | In _ (_ ++ _) => apply in_app_iff in H; destruct H as [H | H]
         | In _ (if ?b then _ else _) => destruct b eqn:?
         | In _ (_ :: _) => destruct H as [H | H]
         | In _ [] => destruct H
         | _ = _ => subst
         end.

(** X21.  The clickable span of a link is the span the decorations show as
    link: whenever the link handler emits a [link] range for a node, in any
    of its three cases, the link provider computes the same two offsets for
    the node. *)
Theorem clickable_span_is_the_link_range :
  forall (node : Node) (text : text) (s e : Z)
         (l : list DecorationRange) (d : DecorationRange),
    Mdast.position node = Mdast.at_ s e ->
    0 <= s -> e <= len text ->
    LinkHandler.extractDecorations node text = Ok l ->
    In d l -> type d = link ->
    MarkdownLinkProvider.linkSpan text s e = (startPos d, endPos d).
Proof.
  intros node text s e l d Hpos Hs0 Hel Hout Hd Hty.
  apply offsets_at in Hpos.
  unfold LinkHandler.extractDecorations in Hout.
  destruct (offsets_valid _ Hpos) as (Hv & _ & Hs & He).
  rewrite Hv, Hs, He in Hout. cbn [negb bind] in Hout.
  unfold MarkdownLinkProvider.linkSpan.
  destruct (same LT (if s >? 0 then char_at text (s - 1) else None)
            && same GT (if e <? len text then char_at text e else None)).
  { inversion Hout; subst l. link_range Hd; try discriminate Hty.
    reflexivity. }
  destruct (same LT (if s <? len text then char_at text s else None)
            && same GT (if e >? 0 then char_at text (e - 1) else None)).
  { inversion Hout; subst l. link_range Hd; try discriminate Hty.
    reflexivity. }
  unfold differs in Hout.
  destruct (same LBRACKET (char_at (substring text s e) 0));
    cbn [negb] in Hout; [|inversion Hout; subst l; destruct Hd].
  destruct (Z.geb_spec (Scan.until RBRACKET text (s + 1) e) e) as [Hge | Hlt];
    [inversion Hout; subst l; destruct Hd|].
  rewrite (@until_is_indexOf text s e Hs0 Hel Hlt).
  destruct (Scan.opening LPAREN text (Scan.until RBRACKET text (s + 1) e + 1) e)
    as [parenStart|]; [|inversion Hout; subst l; destruct Hd].
  destruct (parenStart >=? e); [inversion Hout; subst l; destruct Hd|].
  cbv zeta in Hout.
  destruct (_ && _) in Hout; [|inversion Hout; subst l; destruct Hd].
  inversion Hout; subst l. link_range Hd; try discriminate Hty.
  cbn [startPos endPos range]. f_equal. lia.
Qed.

Lemma clickable_span_is_the_link_range_witness :
  MarkdownLinkProvider.linkSpan (str "see [text](url)") 4 15
  = (startPos (range link 5 9), endPos (range link 5 9)).
Proof.
  apply (@clickable_span_is_the_link_range (Sample.leaf Mdast.link 4 15)
           (str "see [text](url)") 4 15
           [range hide 4 5; range hide 9 10; range hide 10 15; range link 5 9]
           (range link 5 9)).
  - reflexivity.
  - lia.
  - vm_compute. discriminate.
  - reflexivity.
  - do 3 right. left. reflexivity.
  - reflexivity.
Defined.

(** X22.  The clickable span of a reference link is the span the
    decorations show as link: whenever the reference handler emits a [link]
    range for a node, the link provider finds the same text between the
    first pair of brackets. *)
Theorem reference_span_is_the_link_range :
  forall (node : Node) (text : text) (s e : Z)
         (l : list DecorationRange) (d : DecorationRange),
    Mdast.position node = Mdast.at_ s e ->
    0 <= s -> e <= len text ->
    LinkReferenceHandler.extractDecorations node text = Ok l ->
    In d l -> type d = link ->
    MarkdownLinkProvider.referenceSpan text s e = Some (startPos d, endPos d).
Proof.
  intros node text s e l d Hpos Hs0 Hel Hout Hd Hty.
  apply offsets_at in Hpos.
  unfold LinkReferenceHandler.extractDecorations in Hout.
  destruct (offsets_valid _ Hpos) as (Hv & _ & Hs & He).
  rewrite Hv, Hs, He in Hout. cbn [negb bind] in Hout.
  unfold MarkdownLinkProvider.referenceSpan.
  unfold differs in Hout.
  destruct (same LBRACKET (char_at (substring text s e) 0)) eqn:Hfirst;
    cbn [negb] in Hout; [|inversion Hout; subst l; destruct Hd].
  destruct (Z.geb_spec (Scan.until RBRACKET text (s + 1) e) e) as [Hge | Hlt];
    [inversion Hout; subst l; destruct Hd|].
  assert (indexOf (substring text s e) [LBRACKET] 0 = Some 0) as ->.
  { apply same_iff in Hfirst. unfold char_at in Hfirst. cbn in Hfirst.
    unfold indexOf, clamp. pose proof (len_nonneg (substring text s e)).
    replace (Z.max 0 (Z.min 0 (len (substring text s e)))) with 0 by lia.
    cbn [Z.to_nat skipn].
    destruct (substring text s e) as [|c0 r]; [discriminate Hfirst|].
    cbn in Hfirst. inversion Hfirst. subst c0. reflexivity. }
  change (0 + 1) with 1.
  rewrite (@until_is_indexOf text s e Hs0 Hel Hlt).
  destruct (Scan.opening LBRACKET text
              (Scan.until RBRACKET text (s + 1) e + 1) e)
    as [refBracketStart|]; [|inversion Hout; subst l; destruct Hd].
  destruct (refBracketStart >=? e); [inversion Hout; subst l; destruct Hd|].
  cbv zeta in Hout.
  destruct (_ >=? e) in Hout; [inversion Hout; subst l; destruct Hd|].
  destruct (_ && _) in Hout; [|inversion Hout; subst l; destruct Hd].
  inversion Hout; subst l. link_range Hd; try discriminate Hty.
  cbn [startPos endPos range]. do 2 f_equal; lia.
Qed.

Lemma reference_span_is_the_link_range_witness :
  MarkdownLinkProvider.referenceSpan reference_page 0 11
  = Some (startPos (range link 1 5), endPos (range link 1 5)).
Proof.
  apply (@reference_span_is_the_link_range
           (Sample.leaf Mdast.linkReference 0 11) reference_page 0 11
           [range hide 0 1; range hide 5 6; range hide 6 11; range link 1 5]
           (range link 1 5)).
  - reflexivity.
  - lia.
  - vm_compute. discriminate.
  - reflexivity.
  - do 3 right. left. reflexivity.
  - reflexivity.
Defined.

Lemma indexOf_char_bounds (t : text) c from o :
  indexOf t [c] from = Some o -> clamp t from <= o /\ o < len t.
Proof.
  unfold indexOf. rewrite find_from_char.
  pose proof (len_nonneg t) as Ht.
  assert (0 <= clamp t from <= len t) as Hk by (unfold clamp; lia).
  set (k := clamp t from) in *.
  assert (len (skipn (Z.to_nat k) t) = len t - k) as Hlen.
  { unfold len in *. rewrite length_skipn. lia. }
  pose proof (len_nonneg
                (take_while (fun x => negb (N.eqb x c)) (skipn (Z.to_nat k) t))).
  destruct (Z.ltb_spec
              (len (take_while (fun x => negb (N.eqb x c))
                      (skipn (Z.to_nat k) t)))
              (len (skipn (Z.to_nat k) t))); [|discriminate].
  intros E. inversion E. lia.
Qed.

(** X29.  The clickable span lies in its node and is in order: for a link
    node that is not empty, the two offsets the link provider computes
    satisfy [start <= linkStart <= linkEnd <= end], and so do the two
    offsets it computes for a reference link, which in addition exclude
    the first and the last character of the node. *)
Theorem clickable_span_lies_in_the_node :
  forall (text : text) (s e : Z),
    0 <= s -> s < e -> e <= len text ->
    (s <= fst (MarkdownLinkProvider.linkSpan text s e)
     /\ fst (MarkdownLinkProvider.linkSpan text s e)
        <= snd (MarkdownLinkProvider.linkSpan text s e)
     /\ snd (MarkdownLinkProvider.linkSpan text s e) <= e)
    /\ (forall a b,
           MarkdownLinkProvider.referenceSpan text s e = Some (a, b) ->
           s < a /\ a <= b /\ b < e).
Proof.
  intros text s e Hs0 Hse Hel.
  pose proof (@substring_inside text s e Hs0 ltac:(lia) Hel) as Hlen.
  split.
  - unfold MarkdownLinkProvider.linkSpan.
    destruct (same LT (if s >? 0 then char_at text (s - 1) else None)
              && same GT (if e <? len text then char_at text e else None));
      [cbn [fst snd]; lia|].
    destruct (same LT (if s <? len text then char_at text s else None)
              && same GT (if e >? 0 then char_at text (e - 1) else None))
      eqn:Hinner.
    + cbn [fst snd]. apply andb_true_iff in Hinner as [H1 H2].
      apply same_iff in H1, H2.
      destruct (s <? len text); [|discriminate].
      destruct (e >? 0); [|discriminate].
      destruct (Z.eq_dec s (e - 1)) as [E | Hne]; [|lia].
      rewrite <- E, H1 in H2. discriminate H2.
    + destruct (same LBRACKET (char_at (substring text s e) 0));
        [|cbn [fst snd]; lia].
      destruct (indexOf (substring text s e) [RBRACKET] 1) as [o|] eqn:Hi;
        [|cbn [fst snd]; lia].
      apply indexOf_char_bounds in Hi as [H1 H2]. unfold clamp in H1.
      cbn [fst snd]. lia.
  - intros a b. unfold MarkdownLinkProvider.referenceSpan.
    destruct (indexOf (substring text s e) [LBRACKET] 0) as [bs|] eqn:Hbs;
      [|discriminate].
    destruct (indexOf (substring text s e) [RBRACKET] (bs + 1)) as [be|] eqn:Hbe;
      [|discriminate].
    intros E. inversion E. subst a b.
    apply indexOf_char_bounds in Hbs as [H1 H2].
    apply indexOf_char_bounds in Hbe as [H3 H4].
    unfold clamp in *. lia.
Qed.

Lemma clickable_span_lies_in_the_node_witness :
  (4 <= fst (MarkdownLinkProvider.linkSpan (str "see [text](url)") 4 15)
   /\ fst (MarkdownLinkProvider.linkSpan (str "see [text](url)") 4 15)
      <= snd (MarkdownLinkProvider.linkSpan (str "see [text](url)") 4 15)
   /\ snd (MarkdownLinkProvider.linkSpan (str "see [text](url)") 4 15) <= 15)
  /\ (forall a b,
         MarkdownLinkProvider.referenceSpan (str "see [text](url)") 4 15
         = Some (a, b) ->
         4 < a /\ a <= b /\ b < 15).
Proof.
  apply (@clickable_span_lies_in_the_node (str "see [text](url)") 4 15).
  - lia.
  - lia.
  - vm_compute. discriminate.
Defined.

(** ** The directory of the document *)

Lemma find_last_none name : forall base found,
  forallb not_slash name = true ->
  MarkdownLinkProvider.find_last [MarkdownLinkProvider.SLASH] name base found
  = found.
Proof.
  induction name as [|c name IH]; intros base found H;
    cbn [MarkdownLinkProvider.find_last starts_with]; [reflexivity|].
  simpl in H. apply andb_true_iff in H as [Hc H].
  unfold not_slash in Hc. apply negb_true_iff in Hc.
  rewrite (N.eqb_sym MarkdownLinkProvider.SLASH c), Hc. cbn [andb].
  apply IH, H.
Qed.

Lemma find_last_slash dir name : forall base found,
  forallb not_slash name = true ->
  MarkdownLinkProvider.find_last [MarkdownLinkProvider.SLASH]
    (dir ++ MarkdownLinkProvider.SLASH :: name) base found
  = Some (base + len dir).
Proof.
  induction dir as [|c dir IH]; intros base found H;
    cbn [app MarkdownLinkProvider.find_last].
  - cbn [starts_with]. rewrite N.eqb_refl. cbn [andb].
    rewrite find_last_none by assumption. change (len []) with 0.
    f_equal. lia.
  - rewrite IH by assumption. rewrite len_cons. f_equal. lia.
Qed.

(** X23.  A relative link is resolved against the directory of the
    document: for a path that reads [dir / name], with no slash in [name],
    the parent path is [dir], and it is [/] when [dir] is empty; for a path
    without any slash it is [/] as well. *)
Theorem parent_path_is_the_directory :
  forall (dir name : text),
    forallb not_slash name = true ->
    MarkdownLinkProvider.parentPath
      (dir ++ [MarkdownLinkProvider.SLASH] ++ name)
    = (if text_eqb dir [] then [MarkdownLinkProvider.SLASH] else dir)
    /\ MarkdownLinkProvider.parentPath name = [MarkdownLinkProvider.SLASH].
Proof.
  intros dir name Hname. unfold MarkdownLinkProvider.parentPath,
    MarkdownLinkProvider.lastIndexOf. split.
  - cbn [app]. rewrite find_last_slash by assumption.
    destruct dir as [|c dir]; [reflexivity|].
    rewrite len_cons. pose proof (len_nonneg dir).
    destruct (Z.gtb_spec (0 + (1 + len dir)) 0); [|lia].
    cbn [text_eqb]. unfold substring, clamp.
    rewrite !len_app, !len_cons.
    pose proof (len_nonneg name).
    replace (Z.max 0 (Z.min 0 (1 + len dir + (1 + len name)))) with 0 by lia.
    replace (Z.max 0 (Z.min (0 + (1 + len dir))
                        (1 + len dir + (1 + len name))))
      with (1 + len dir) by lia.
    replace (Z.min 0 (1 + len dir)) with 0 by lia.
    replace (Z.max 0 (1 + len dir)) with (1 + len dir) by lia.
    cbn [Z.to_nat skipn].
    replace (Z.to_nat (1 + len dir - 0)) with (length (c :: dir))
      by (unfold len; cbn [length]; lia).
    change ((c :: dir) ++ MarkdownLinkProvider.SLASH :: name)
      with ((c :: dir) ++ (MarkdownLinkProvider.SLASH :: name)).
    rewrite firstn_app, Nat.sub_diag, firstn_all. cbn [firstn].
    apply app_nil_r.
  - rewrite find_last_none by assumption. reflexivity.
Qed.

Lemma parent_path_is_the_directory_witness :
  MarkdownLinkProvider.parentPath (str "/notes/a.md") = str "/notes"
  /\ MarkdownLinkProvider.parentPath (str "a.md") = str "/".
Proof.
  apply (@parent_path_is_the_directory (str "/notes") (str "a.md")).
  reflexivity.
Defined.

(* ===================================================================== *)
(** * The decorator *)
(* ===================================================================== *)

Lemma same_position a b :
  Vscode.isBefore a b = false -> Vscode.isBefore b a = false -> a = b.
Proof.
  destruct a as [la ca], b as [lb cb]. unfold Vscode.isBefore.
  cbn [Vscode.line Vscode.character].
  rewrite !orb_false_iff, !andb_false_iff, !Z.ltb_ge, !Z.eqb_neq.
  intros [H1 H2] [H3 H4].
  assert (la = lb) by lia. subst lb.
  assert (ca = cb) by lia. subst cb. reflexivity.
Qed.

Lemma newRange_in_order a b :
  Vscode.isAfter a b = false ->
  Vscode.newRange a b = {| Vscode.start := a; Vscode.end_ := b |}.
Proof.
  unfold Vscode.isAfter, Vscode.newRange. intros Hab.
  destruct (Vscode.isBefore a b) eqn:Hba; [reflexivity|].
  rewrite (@same_position a b Hba Hab). reflexivity.
Qed.

Lemma createRange_inside this editor d :
  Decorator.activeEditor this = Some editor ->
  monotone editor ->
  valid_range (Decorator.getText editor) d ->
  Decorator.createRange this (startPos d) (endPos d)
  = Some (editor_range editor d).
Proof.
  intros Hed Hmono (H0 & Hlt & Hlen). unfold Decorator.createRange.
  rewrite Hed.
  destruct (Z.ltb_spec (startPos d) 0); [lia|].
  destruct (Z.ltb_spec (endPos d) 0); [lia|].
  destruct (Z.gtb_spec (startPos d) (len (Decorator.getText editor))); [lia|].
  destruct (Z.gtb_spec (endPos d) (len (Decorator.getText editor))); [lia|].
  destruct (Z.leb_spec (endPos d) (startPos d)); [lia|].
  cbn [orb].
  rewrite (Hmono (startPos d) (endPos d)) by lia.
  rewrite newRange_in_order by (apply Hmono; lia).
  reflexivity.
Qed.

(** X24.  [createRange] accepts exactly the ranges of the document: with an
    active editor whose positions follow the offsets, it returns the range
    between the positions of the two offsets when
    [0 <= startPos < endPos <= length], and [null] otherwise. *)
Theorem createRange_accepts_the_ranges_of_the_document :
  forall (this : Decorator.t) (editor : Decorator.TextEditor) (s e : Z),
    Decorator.activeEditor this = Some editor ->
    monotone editor ->
    (0 <= s /\ s < e /\ e <= len (Decorator.getText editor) ->
     Decorator.createRange this s e
     = Some {| Vscode.start := Decorator.positionAt editor s;
               Vscode.end_ := Decorator.positionAt editor e |})
    /\ (~ (0 <= s /\ s < e /\ e <= len (Decorator.getText editor)) ->
        Decorator.createRange this s e = None).
Proof.
  intros this editor s e Hed Hmono. split.
  - intros H.
    apply (@createRange_inside this editor (range hide s e) Hed Hmono H).
  - intros H. unfold Decorator.createRange. rewrite Hed.
    destruct (Z.ltb_spec s 0); [reflexivity|].
    destruct (Z.ltb_spec e 0); [reflexivity|].
    destruct (Z.gtb_spec s (len (Decorator.getText editor))); [reflexivity|].
    destruct (Z.gtb_spec e (len (Decorator.getText editor))); [reflexivity|].
    destruct (Z.leb_spec e s); [reflexivity|].
    exfalso. apply H. lia.
Qed.

Lemma position_from_after t : forall n l c l0 c0,
  l0 < l \/ (l0 = l /\ c0 <= c) ->
  l0 < Vscode.line (position_from t n l c)
  \/ (l0 = Vscode.line (position_from t n l c)
      /\ c0 <= Vscode.character (position_from t n l c)).
Proof.
  induction t as [|x t IH]; intros n l c l0 c0 H.
  - destruct n; exact H.
  - destruct n as [|n]; [exact H|]. cbn [position_from].
    destruct (N.eqb x LF); apply IH; lia.
Qed.

Lemma position_from_monotone t : forall n n' l c,
  (n <= n')%nat ->
  Vscode.isBefore (position_from t n' l c) (position_from t n l c) = false.
Proof.
  assert (forall p l c,
             (l < Vscode.line p \/ (l = Vscode.line p /\ c <= Vscode.character p)) ->
             Vscode.isBefore p {| Vscode.line := l; Vscode.character := c |}
             = false) as Hle.
  { intros p l c H. unfold Vscode.isBefore.
    cbn [Vscode.line Vscode.character].
    apply orb_false_iff. split; [apply Z.ltb_ge; lia|].
    destruct (Z.eqb_spec (Vscode.line p) l); [|reflexivity].
    apply Z.ltb_ge. lia. }
  induction t as [|x t IH]; intros n n' l c Hn.
  - destruct n, n'; cbn [position_from]; apply Hle;
      cbn [Vscode.line Vscode.character]; lia.
  - destruct n as [|n].
    + change (position_from (x :: t) 0 l c)
        with {| Vscode.line := l; Vscode.character := c |}.
      apply Hle. apply position_from_after. lia.
    + destruct n' as [|n']; [lia|]. cbn [position_from].
      destruct (N.eqb x LF); apply IH; lia.
Qed.

Lemma plain_monotone t : monotone (plain_editor t).
Proof.
  intros a b Ha Hab Hb. unfold Vscode.isAfter.
  cbn [plain_editor Decorator.positionAt].
  apply position_from_monotone. lia.
Qed.

Lemma createRange_accepts_the_ranges_of_the_document_witness :
  Decorator.createRange (plain_decorator (str "**a**")) 0 2
  = Some {| Vscode.start := {| Vscode.line := 0; Vscode.character := 0 |};
            Vscode.end_ := {| Vscode.line := 0; Vscode.character := 2 |} |}
  /\ Decorator.createRange (plain_decorator (str "**a**")) 3 6 = None.
Proof.
  destruct (@createRange_accepts_the_ranges_of_the_document
              (plain_decorator (str "**a**")) (plain_editor (str "**a**"))
              0 2 eq_refl (plain_monotone (str "**a**"))) as [Hin _].
  destruct (@createRange_accepts_the_ranges_of_the_document
              (plain_decorator (str "**a**")) (plain_editor (str "**a**"))
              3 6 eq_refl (plain_monotone (str "**a**"))) as [_ Hout].
  split.
  - apply Hin. vm_compute. repeat split; discriminate.
  - apply Hout. vm_compute. intros (_ & _ & H). apply H. reflexivity.
Defined.

(** ** What reaches the editor *)

Lemma extends_refl m : extends m m.
Proof. intros k. exists []. rewrite app_nil_r. reflexivity. Qed.

Lemma extends_trans m1 m2 m3 : extends m1 m2 -> extends m2 m3 -> extends m1 m3.
Proof.
  intros H12 H23 k. destruct (H12 k) as (a & E1), (H23 k) as (b & E2).
  exists (a ++ b). rewrite E2, E1, app_assoc. reflexivity.
Qed.

Lemma push_extends m key r : extends m (Decorator.push m key r).
Proof.
  intros k. unfold Decorator.push.
  destruct (DecorationType_eqb k key); [exists [r]; reflexivity|].
  exists []. rewrite app_nil_r. reflexivity.
Qed.

Lemma push_other m key r k :
  k <> key -> Decorator.push m key r k = m k.
Proof.
  intros H. unfold Decorator.push.
  destruct (DecorationType_eqb k key) eqn:E; [|reflexivity].
  apply DecorationType_eqb_eq in E. contradiction.
Qed.

Lemma push_same m key r : Decorator.push m key r key = m key ++ [r].
Proof.
  unfold Decorator.push.
  destruct (DecorationType_eqb key key) eqn:E; [reflexivity|].
  exfalso. apply not_true_iff_false in E. apply E, DecorationType_eqb_eq.
  reflexivity.
Qed.

Lemma fullLines_extends fuel key : forall a b m,
  extends m (Decorator.fullLines fuel key a b m).
Proof.
  induction fuel as [|fuel IH]; intros a b m; cbn [Decorator.fullLines].
  - apply extends_refl.
  - destruct (a <=? b); [|apply extends_refl].
    eapply extends_trans; [apply push_extends | apply IH].
Qed.

Lemma fullLines_other fuel key k : forall a b m,
  k <> key -> Decorator.fullLines fuel key a b m k = m k.
Proof.
  induction fuel as [|fuel IH]; intros a b m H; cbn [Decorator.fullLines];
    [reflexivity|].
  destruct (a <=? b); [|reflexivity].
  rewrite IH by assumption. apply push_other, H.
Qed.

Lemma place_extends this m d : extends m (Decorator.place this m d).
Proof.
  unfold Decorator.place.
  destruct (endPos d <=? startPos d); [apply extends_refl|].
  destruct (Decorator.createRange this (startPos d) (endPos d)) as [r|];
    [|apply extends_refl].
  destruct (_ || _); [apply extends_refl|].
  destruct (Decorator.activeEditor this) as [editor|]; [|apply push_extends].
  destruct (type d); first [apply push_extends | apply fullLines_extends].
Qed.

Lemma place_other this m d k :
  type d <> k -> Decorator.place this m d k = m k.
Proof.
  intros H. unfold Decorator.place.
  destruct (endPos d <=? startPos d); [reflexivity|].
  destruct (Decorator.createRange this (startPos d) (endPos d)) as [r|];
    [|reflexivity].
  destruct (_ || _); [reflexivity|].
  assert (k <> type d) as H' by congruence.
  destruct (Decorator.activeEditor this) as [editor|];
    [|apply push_other, H'].
  destruct (type d) eqn:Ety;
    first [apply push_other, H' | apply fullLines_other, H'].
Qed.

Lemma placed_extends this l : forall m,
  extends m (fold_left (Decorator.place this) l m).
Proof.
  induction l as [|d l IH]; intros m; cbn [fold_left]; [apply extends_refl|].
  eapply extends_trans; [apply place_extends | apply IH].
Qed.

Lemma placed_other this k l : forall m,
  (forall d, In d l -> type d <> k) ->
  fold_left (Decorator.place this) l m k = m k.
Proof.
  induction l as [|d l IH]; intros m H; cbn [fold_left]; [reflexivity|].
  rewrite IH by (intros x Hx; apply H; right; exact Hx).
  apply place_other, H. left. reflexivity.
Qed.

Lemma fullLines_closed key : forall fuel a b m,
  fuel = Z.to_nat (b - a + 1) ->
  Decorator.fullLines fuel key a b m key
  = m key ++ map whole_line (map (fun i => a + Z.of_nat i) (seq 0 fuel)).
Proof.
  induction fuel as [|fuel IH]; intros a b m Hfuel; cbn [Decorator.fullLines].
  - cbn [seq map]. rewrite app_nil_r. reflexivity.
  - destruct (Z.leb_spec a b); [|lia].
    rewrite (IH (a + 1) b) by lia. rewrite push_same, <- app_assoc.
    f_equal. cbn [seq map app]. f_equal.
    + unfold whole_line. f_equal; lia.
    + rewrite <- seq_shift, !map_map. apply map_ext.
      intros i. f_equal. lia.
Qed.

Lemma in_line_numbers a b n : a <= n <= b -> In n (line_numbers a b).
Proof.
  intros H. unfold line_numbers. apply in_map_iff.
  exists (Z.to_nat (n - a)). split; [lia|].
  apply in_seq. lia.
Qed.

Lemma shown_in_extends editor d m m' :
  extends m m' -> shown_in editor d m -> shown_in editor d m'.
Proof.
  intros H. unfold shown_in.
  assert (forall k x, In x (m k) -> In x (m' k)) as Hin.
  { intros k x Hx. destruct (H k) as (added & ->).
    apply in_app_iff. left. exact Hx. }
  destruct (type d); try apply Hin;
    (intros [Hle Hall]; split; [exact Hle|]; intros n Hn; apply Hin, Hall, Hn).
Qed.

(** One decoration of the document, in an editor without selection, is
    placed in the range map. *)
Lemma place_shows this editor m d :
  Decorator.activeEditor this = Some editor ->
  monotone editor ->
  Decorator.selections editor = [] ->
  valid_range (Decorator.getText editor) d ->
  shown_in editor d (Decorator.place this m d).
Proof.
  intros Hed Hmono Hsel Hvalid. unfold Decorator.place.
  rewrite (@createRange_inside this editor d Hed Hmono Hvalid).
  destruct Hvalid as (H0 & Hlt & Hlen).
  destruct (Z.leb_spec (endPos d) (startPos d)); [lia|].
  unfold Decorator.isLineOfRangeSelected, Decorator.isRangeSelected.
  rewrite Hed, Hsel. cbn [existsb orb].
  pose proof (Hmono (startPos d) (endPos d) H0 ltac:(lia) Hlen) as Horder.
  unfold Vscode.isAfter, Vscode.isBefore in Horder.
  apply orb_false_iff in Horder as [Hline _]. apply Z.ltb_ge in Hline.
  assert (Vscode.line (Decorator.positionAt editor (startPos d))
          <= last_line editor d) as Hlast.
  { unfold last_line.
    destruct ((_ =? 0) && (_ >? _)) eqn:Hdec; [|exact Hline].
    apply andb_true_iff in Hdec as [_ Hdec]. apply Z.gtb_lt in Hdec. lia. }
  unfold shown_in.
  destruct (type d) eqn:Ety;
    try (rewrite push_same; apply in_app_iff; right; left; reflexivity);
    (split; [exact Hlast|]; intros n Hn;
     cbn [editor_range Vscode.start Vscode.end_];
     fold (last_line editor d);
     rewrite (@fullLines_closed _ _ _ (last_line editor d) m eq_refl);
     apply in_app_iff; right; apply in_map;
     apply in_line_numbers, Hn).
Qed.

Lemma placed_shows this editor l : forall m d,
  Decorator.activeEditor this = Some editor ->
  monotone editor ->
  Decorator.selections editor = [] ->
  Forall (valid_range (Decorator.getText editor)) l ->
  In d l ->
  shown_in editor d (fold_left (Decorator.place this) l m).
Proof.
  induction l as [|x l IH]; intros m d Hed Hmono Hsel Hall []; subst;
    inversion Hall as [|? ? Hx Hl]; subst; cbn [fold_left].
  - eapply shown_in_extends; [apply placed_extends|].
    apply place_shows; assumption.
  - apply IH; assumption.
Qed.

(** A range placed for a type is among the ranges set for the type. *)
Lemma placed_is_set (ranges other : list Vscode.Range) x :
  In x ranges -> In x (if (0 <? length ranges)%nat then ranges else other).
Proof.
  intros H. destruct ranges; [destruct H|]. exact H.
Qed.

(** The ranges of the engine lie in the text, for the trees a parser
    returns. *)
Lemma engine_ranges_valid parseAST text out :
  positioned text (parseAST text) = true ->
  MarkdownParser.extractDecorations parseAST text = Ok out ->
  Forall (valid_range text) out.
Proof.
  intros Hpos. rewrite extractDecorations_walked.
  intros E. inversion E; subst out; clear E.
  apply Forall_app. split.
  - apply Forall_forall. intros d Hd.
    apply filter_In in Hd as [Hd _].
    apply walked_ranges in Hd as (n & Hn & Hd).
    pose proof (decorations_of_ranges text n
                  (positioned_nodes _ _ _ Hpos Hn)) as Hall.
    rewrite Forall_forall in Hall. apply (Hall d Hd).
  - eapply Forall_impl; [|apply scanner_ranges].
    apply scanner_range_valid.
Qed.

Lemma language_test editor :
  In (Decorator.languageId editor) ["markdown"; "md"; "mdx"]%string ->
  existsb (String.eqb (Decorator.languageId editor))
    ["markdown"; "md"; "mdx"]%string = true.
Proof.
  intros H. apply existsb_exists.
  exists (Decorator.languageId editor). split; [exact H|].
  apply String.eqb_refl.
Qed.

Lemma updateDecorations_placed parseAST this editor shown :
  decorating this editor ->
  exists out,
    MarkdownParser.extractDecorations parseAST (Decorator.getText editor)
    = Ok out
    /\ Decorator.updateDecorations parseAST this shown
       = Ok (fun key =>
               let ranges :=
                 fold_left (Decorator.place this) out
                   Decorator.createEmptyRangeMap key in
               if (0 <? length ranges)%nat then ranges else shown key).
Proof.
  intros (Hed & Hlang & Hon).
  destruct (extractDecorations_total parseAST (Decorator.getText editor))
    as (out & Hout).
  exists out. split; [exact Hout|].
  unfold Decorator.updateDecorations.
  rewrite Hed, (@language_test editor Hlang), Hon, Hout. reflexivity.
Qed.

(** X25.  Nothing the engine emits is lost on the way to the editor.
    Take an editor on a markdown document with decorations enabled and no
    selection, whose [positionAt] never puts a later offset of the document
    at an earlier position, and a tree whose nodes lie in the text and are
    as long as the shortest form of their construct ([positioned]).  Then
    every decoration of the engine is shown after [updateDecorations],
    under its own type: a horizontal rule as the line on which it starts,
    from column 0 to the length of the line or to column 200; a code block
    and a blockquote as each of their lines, whole, from the line on which
    they start to the line on which they end (the line before when they
    end at its column 0); any other decoration as the range between the
    positions of its two offsets. *)
Theorem decorations_reach_the_editor :
  forall (parseAST : text -> Node) (this : Decorator.t)
         (editor : Decorator.TextEditor) (shown : Decorator.Shown),
    decorating this editor ->
    monotone editor ->
    Decorator.selections editor = [] ->
    positioned (Decorator.getText editor) (parseAST (Decorator.getText editor))
    = true ->
    exists out shown',
      MarkdownParser.extractDecorations parseAST (Decorator.getText editor)
      = Ok out
      /\ Decorator.updateDecorations parseAST this shown = Ok shown'
      /\ forall d, In d out -> shown_in editor d shown'.
Proof.
  intros parseAST this editor shown Hdec Hmono Hsel Hpos.
  destruct (@updateDecorations_placed parseAST this editor shown Hdec)
    as (out & Hout & Hup).
  exists out. eexists. split; [exact Hout|]. split; [exact Hup|].
  intros d Hd. destruct Hdec as (Hed & _ & _).
  pose proof (@placed_shows this editor out Decorator.createEmptyRangeMap d
                Hed Hmono Hsel
                (@engine_ranges_valid parseAST _ out Hpos Hout) Hd) as Hs.
  unfold shown_in in *. cbv beta zeta.
  destruct (type d); try (apply placed_is_set, Hs);
    (destruct Hs as [Hle Hall]; split; [exact Hle|];
     intros n Hn; apply placed_is_set, Hall, Hn).
Qed.

Lemma decorations_reach_the_editor_witness :
  exists out shown',
    MarkdownParser.extractDecorations (fun _ => blocks_page_tree) blocks_page
    = Ok out
    /\ Decorator.updateDecorations (fun _ => blocks_page_tree)
         (plain_decorator blocks_page) Decorator.createEmptyRangeMap
       = Ok shown'
    /\ forall d, In d out -> shown_in (plain_editor blocks_page) d shown'.
Proof.
  apply (@decorations_reach_the_editor (fun _ => blocks_page_tree)
           (plain_decorator blocks_page) (plain_editor blocks_page)
           Decorator.createEmptyRangeMap).
  - split; [reflexivity|]. split; [left; reflexivity | reflexivity].
  - apply plain_monotone.
  - reflexivity.
  - vm_compute. reflexivity.
Defined.

(** X26.  An update does not clear what it does not set: when the engine
    emits no decoration of a type, [updateDecorations] leaves the ranges
    the editor shows for this type as they were, whereas an update with
    decorations disabled clears every type. *)
Theorem decoration_types_without_ranges_are_left_as_shown :
  forall (parseAST : text -> Node) (this : Decorator.t)
         (editor : Decorator.TextEditor) (shown : Decorator.Shown),
    Decorator.activeEditor this = Some editor ->
    In (Decorator.languageId editor) ["markdown"; "md"; "mdx"]%string ->
    (Decorator.decorationsEnabled this = true ->
     exists out shown',
       MarkdownParser.extractDecorations parseAST (Decorator.getText editor)
       = Ok out
       /\ Decorator.updateDecorations parseAST this shown = Ok shown'
       /\ forall key, (forall d, In d out -> type d <> key) ->
                      shown' key = shown key)
    /\ (Decorator.decorationsEnabled this = false ->
        exists shown',
          Decorator.updateDecorations parseAST this shown = Ok shown'
          /\ forall key, shown' key = []).
Proof.
  intros parseAST this editor shown Hed Hlang. split.
  - intros Hon.
    destruct (@updateDecorations_placed parseAST this editor shown)
      as (out & Hout & Hup); [repeat split; assumption|].
    exists out. eexists. split; [exact Hout|]. split; [exact Hup|].
    intros key Hnone. cbv beta zeta.
    rewrite (@placed_other this key out Decorator.createEmptyRangeMap Hnone).
    reflexivity.
  - intros Hoff. unfold Decorator.updateDecorations.
    rewrite Hed, (@language_test editor Hlang), Hoff.
    unfold Decorator.clearAllDecorations. rewrite Hed.
    eexists. split; [reflexivity|]. reflexivity.
Qed.

Lemma decoration_types_without_ranges_are_left_as_shown_witness :
  (exists out shown',
      MarkdownParser.extractDecorations (fun _ => Sample.bold_with_italic_tree)
        Sample.bold_with_italic = Ok out
      /\ Decorator.updateDecorations (fun _ => Sample.bold_with_italic_tree)
           (plain_decorator Sample.bold_with_italic)
           (fun _ => [Vscode.newRange4 0 0 0 1]) = Ok shown'
      /\ forall key, (forall d, In d out -> type d <> key) ->
                     shown' key = [Vscode.newRange4 0 0 0 1])
  /\ (exists shown',
         Decorator.updateDecorations (fun _ => Sample.bold_with_italic_tree)
           {| Decorator.activeEditor :=
                Some (plain_editor Sample.bold_with_italic);
              Decorator.decorationsEnabled := false |}
           (fun _ => [Vscode.newRange4 0 0 0 1]) = Ok shown'
         /\ forall key, shown' key = []).
Proof.
  split.
  - apply (proj1 (@decoration_types_without_ranges_are_left_as_shown
                    (fun _ => Sample.bold_with_italic_tree)
                    (plain_decorator Sample.bold_with_italic)
                    (plain_editor Sample.bold_with_italic)
                    (fun _ => [Vscode.newRange4 0 0 0 1])
                    eq_refl (or_introl eq_refl))).
    reflexivity.
  - apply (proj2 (@decoration_types_without_ranges_are_left_as_shown
                    (fun _ => Sample.bold_with_italic_tree)
                    {| Decorator.activeEditor :=
                         Some (plain_editor Sample.bold_with_italic);
                       Decorator.decorationsEnabled := false |}
                    (plain_editor Sample.bold_with_italic)
                    (fun _ => [Vscode.newRange4 0 0 0 1])
                    eq_refl (or_introl eq_refl))).
    reflexivity.
Defined.

(** ** Whole lines *)

(** X28.  A code block and a blockquote are shown as whole lines: in an
    editor without selection, the decorator places one range per line, from
    column 0 to the largest column, for every line from the line where the
    decoration starts to the line where it ends, leaving the last line out
    when the decoration ends at its column 0; there is always at least one
    such line. *)
Theorem block_decorations_cover_whole_lines :
  forall (this : Decorator.t) (editor : Decorator.TextEditor)
         (rangeMap : Decorator.RangeMap) (d : DecorationRange),
    Decorator.activeEditor this = Some editor ->
    monotone editor ->
    Decorator.selections editor = [] ->
    valid_range (Decorator.getText editor) d ->
    type d = codeBlock \/ type d = blockquote ->
    let startLine := Vscode.line (Decorator.positionAt editor (startPos d)) in
    Decorator.place this rangeMap d (type d)
    = rangeMap (type d)
      ++ map whole_line (line_numbers startLine (last_line editor d))
    /\ startLine <= last_line editor d.
Proof.
  intros this editor m d Hed Hmono Hsel Hvalid Hty startLine.
  unfold Decorator.place.
  rewrite (@createRange_inside this editor d Hed Hmono Hvalid).
  destruct Hvalid as (H0 & Hlt & Hlen).
  destruct (Z.leb_spec (endPos d) (startPos d)); [lia|].
  unfold Decorator.isLineOfRangeSelected, Decorator.isRangeSelected.
  rewrite Hed, Hsel. cbn [existsb orb].
  pose proof (Hmono (startPos d) (endPos d) H0 ltac:(lia) Hlen) as Horder.
  unfold Vscode.isAfter, Vscode.isBefore in Horder.
  apply orb_false_iff in Horder as [Hline _]. apply Z.ltb_ge in Hline.
  assert (startLine <= last_line editor d) as Hlast.
  { unfold last_line. fold startLine.
    destruct ((_ =? 0) && (_ >? startLine)) eqn:Hdec; [|exact Hline].
    apply andb_true_iff in Hdec as [_ Hdec]. apply Z.gtb_lt in Hdec. lia. }
  split; [|exact Hlast].
  destruct Hty as [Hty | Hty]; rewrite Hty;
    cbn [editor_range Vscode.start Vscode.end_];
    fold startLine; fold (last_line editor d);
    apply fullLines_closed; reflexivity.
Qed.

Lemma block_decorations_cover_whole_lines_witness :
  Decorator.place (plain_decorator Sample.fenced_block)
    Decorator.createEmptyRangeMap (range codeBlock 0 11) codeBlock
  = [] ++ map whole_line
            (line_numbers 0
               (last_line (plain_editor Sample.fenced_block)
                  (range codeBlock 0 11)))
  /\ 0 <= last_line (plain_editor Sample.fenced_block) (range codeBlock 0 11).
Proof.
  apply (@block_decorations_cover_whole_lines
           (plain_decorator Sample.fenced_block)
           (plain_editor Sample.fenced_block)
           Decorator.createEmptyRangeMap (range codeBlock 0 11)).
  - reflexivity.
  - apply plain_monotone.
  - reflexivity.
  - vm_compute. repeat split; discriminate.
  - left. reflexivity.
Defined.

(* ===================================================================== *)
(** * Duplicates *)
(* ===================================================================== *)

(** No range collected from the tree is a highlight. *)
Lemma walked_styled text ast d :
  In d (DecorationCollector.ranges (fst (walked text ast))) ->
  type d <> highlight.
Proof.
  intros Hd. apply walked_ranges in Hd as (n & _ & Hd).
  apply decorations_of_inv in Hd as (h & l & Hf & He & Hd).
  pose proof (@handlers_styled h n text l (findHandler_In _ Hf) He) as Hall.
  rewrite Forall_forall in Hall. apply Hall, Hd.
Qed.

(** C2, amended.  The output is the ranges collected from the tree followed
    by the ranges of the highlight scanner.  No two ranges collected from
    the tree have the same triple [(startPos, endPos, type)], and no two
    ranges of the scanner have.  The scanner's ranges are appended without
    a test: a range of the tree has the triple of a range of the scanner
    only if it is a hide of two code units that stand on a [==] of the
    text.  When the tree agrees with the text ([conforms]: the span of
    every node lies in the text and is as long as the shortest form of its
    construct, a strong node starts and ends with an asterisk or an
    underscore, a delete node with a tilde, a heading holds a [#] or spans
    three code units), no handler emits such a hide, and no two entries of
    the whole output have the same triple. *)
Theorem no_duplicate_triples :
  forall (parseAST : text -> Node) (text : text),
    exists fromTree : list DecorationRange,
      let fromScanner := HighlightHandler.extractDecorations text in
      MarkdownParser.extractDecorations parseAST text
      = Ok (fromTree ++ fromScanner)
      /\ NoDup (map DecorationCollector.createKey fromTree)
      /\ NoDup (map DecorationCollector.createKey fromScanner)
      /\ (forall d, In d fromTree -> has_key d fromScanner ->
                    type d = hide /\ endPos d = startPos d + 2
                    /\ delimiter_at text (startPos d))
      /\ (conforms text (parseAST text) = true ->
          NoDup (map DecorationCollector.createKey (fromTree ++ fromScanner))).
Proof.
  intros parseAST text. rewrite extractDecorations_walked.
  eexists. cbv zeta. split; [reflexivity|].
  assert (NoDup (map DecorationCollector.createKey
                   (filter (MarkdownParser.keep
                              (snd (walked text (parseAST text))))
                      (DecorationCollector.ranges
                         (fst (walked text (parseAST text))))))) as Htree.
  { apply NoDup_map_filter. apply walked_collected. }
  assert (NoDup (map DecorationCollector.createKey
                   (HighlightHandler.extractDecorations text))) as Hscanner.
  { eapply Highlights_NoDup with (pos := 0).
    apply scan_Highlights; [lia | unfold len; lia]. }
  pose proof (scanner_ranges text) as Hscan. rewrite Forall_forall in Hscan.
  split; [exact Htree|]. split; [exact Hscanner|]. split.
  - intros d Hd Hkey. apply filter_In in Hd as [Hd _].
    apply in_map_iff in Hkey as (d' & Ed' & Hd').
    unfold DecorationCollector.createKey in Ed'.
    injection Ed' as Es Ee Et.
    destruct (Hscan d' Hd') as [(Hhide & Hw & Hat) | (Hhl & _)].
    + split; [congruence|]. split; [lia|]. rewrite <- Es. exact Hat.
    + exfalso. apply (walked_styled _ _ _ Hd). congruence.
  - intros Hconf. rewrite map_app. apply NoDup_app; [exact Htree | exact Hscanner |].
    intros k Hk Hk'.
    apply in_map_iff in Hk as (d & Ed & Hd).
    apply in_map_iff in Hk' as (d' & Ed' & Hd').
    apply filter_In in Hd as [Hd _].
    apply walked_ranges in Hd as (n & Hn & Hd).
    destruct (conforms_nodes _ _ _ Hconf Hn) as [Hwell Hdel].
    pose proof (decorations_of_ranges text n Hwell) as Hall.
    rewrite Forall_forall in Hall.
    destruct (Hall d Hd) as (_ & Hty & Hclash).
    subst k. unfold DecorationCollector.createKey in Ed'.
    inversion Ed' as [[Es Ee Et]].
    destruct (Hscan d' Hd') as [(Hhide & Hw & Hat) | (Hhl & _)].
    + apply (Hclash Hdel); [congruence | lia | congruence].
    + congruence.
Qed.

Lemma no_duplicate_triples_witness :
  exists out,
    MarkdownParser.extractDecorations (fun _ => Sample.page_tree)
      Sample.page = Ok out
    /\ NoDup (map DecorationCollector.createKey out).
Proof.
  destruct (@no_duplicate_triples (fun _ => Sample.page_tree) Sample.page)
    as (fromTree & Hout & _ & _ & _ & Hall).
  eexists. split; [exact Hout|]. apply Hall. vm_compute. reflexivity.
Defined.

(** C2, as stated, fails on a text that starts with a byte order mark.
    The parser reports the delete node of [~a==~] one code unit to the
    left of where it stands: its handler hides the two code units before
    the end of the span, which are the [==] that the scanner hides as
    well, and the hide [3, 5) is in the output twice. *)
Lemma no_duplicate_triples_counterexample :
  MarkdownParser.extractDecorations (fun _ => marked_page_tree) marked_page
  = Ok [range hide 0 2; range hide 3 5; range strikethrough 2 3;
        range hide 3 5; range hide 8 10; range highlight 5 8]
  /\ ~ no_duplicate_claim (fun _ => marked_page_tree) marked_page.
Proof.
  split; [vm_compute; reflexivity|].
  intros (out & Hout & Hnd).
  vm_compute in Hout. inversion Hout; subst out; clear Hout.
  cbn [map DecorationCollector.createKey range startPos endPos type] in Hnd.
  inversion Hnd as [|? ? _ Hrest]; subst.
  inversion Hrest as [|? ? Hnotin _]; subst.
  apply Hnotin. right. left. reflexivity.
Qed.

(* ===================================================================== *)
(** * Repeated calls *)
(* ===================================================================== *)

(** ** Matching with a pattern kept in a field *)

Lemma exec_flagless pattern this s :
  RegExp.global this = false -> RegExp.sticky this = false ->
  RegExp.exec pattern this s = (pattern s, this).
Proof.
  intros Hg Hy. unfold RegExp.exec. rewrite Hg, Hy. cbn [orb Z.eqb].
  destruct (pattern s) as [[[g1 g2] g3]|]; reflexivity.
Qed.

Lemma match_flagless pattern this s :
  RegExp.global this = false -> RegExp.sticky this = false ->
  RegExp.match_ pattern this s
  = (option_map RegExp.Captures (pattern s), this).
Proof.
  intros Hg Hy. unfold RegExp.match_.
  rewrite Hg, exec_flagless by assumption. reflexivity.
Qed.

Lemma isValidMarkerMatch_captures result :
  RegExp.isValidMarkerMatch (option_map RegExp.Captures result) = result.
Proof. destruct result; reflexivity. Qed.

(** Under the flag [g] the loop of [match] ends with its second turn. *)
Lemma matchAll_fuel pattern this s k :
  RegExp.global this = true ->
  RegExp.matchAll (2 + k) pattern (RegExp.setLastIndex this 0) s []
  = RegExp.matchAll 2 pattern (RegExp.setLastIndex this 0) s [].
Proof.
  intros Hg. cbn [Nat.add RegExp.matchAll].
  unfold RegExp.exec at 1 3.
  cbn [RegExp.global RegExp.sticky RegExp.lastIndex RegExp.setLastIndex].
  rewrite Hg. cbn [orb Z.max Z.eqb Z.compare].
  destruct (pattern s) as [[[g1 g2] g3]|]; [|reflexivity].
  pose proof (len_nonneg g1). pose proof (len_nonneg g2).
  pose proof (len_nonneg g3).
  assert (forall that,
             RegExp.global that = true -> 0 < RegExp.lastIndex that ->
             RegExp.exec pattern that s = (None, RegExp.setLastIndex that 0))
    as Hfail.
  { intros that Hgt Hlast. unfold RegExp.exec. rewrite Hgt. cbn [orb].
    destruct (Z.eqb_spec (Z.max 0 (RegExp.lastIndex that)) 0); [lia|].
    reflexivity. }
  destruct (text_eqb (g1 ++ g2 ++ g3) []) eqn:Hempty.
  - rewrite !Hfail;
      cbn [RegExp.global RegExp.lastIndex RegExp.setLastIndex];
      try assumption; try lia.
    destruct k; reflexivity.
  - assert (0 < len g1 + len g2 + len g3) as Hpos.
    { destruct g1 as [|c g1]; [|rewrite len_cons; pose proof (len_nonneg g1); lia].
      destruct g2 as [|c g2]; [|rewrite len_cons; pose proof (len_nonneg g2); lia].
      destruct g3 as [|c g3]; [discriminate Hempty|].
      rewrite len_cons. pose proof (len_nonneg g3). lia. }
    rewrite !Hfail;
      cbn [RegExp.global RegExp.lastIndex RegExp.setLastIndex];
      try assumption; try lia.
    destruct k; reflexivity.
Qed.

(** ** The methods on an instance without flags *)

Lemma instance_eta this :
  {| Instance.HEADING_MARKER_PATTERN := Instance.HEADING_MARKER_PATTERN this;
     Instance.BLOCKQUOTE_MARKER_PATTERN :=
       Instance.BLOCKQUOTE_MARKER_PATTERN this |} = this.
Proof. destruct this. reflexivity. Qed.

Lemma matchHeadingMarker_flagless headingText this :
  flagless this ->
  Instance.matchHeadingMarker headingText this
  = Ok (option_map RegExp.Captures (Regex.heading_marker headingText), this).
Proof.
  intros (Hg & Hy & _). unfold Instance.matchHeadingMarker.
  rewrite match_flagless by assumption. rewrite instance_eta. reflexivity.
Qed.

Lemma matchBlockquoteMarker_flagless lineText this :
  flagless this ->
  Instance.matchBlockquoteMarker lineText this
  = Ok (option_map RegExp.Captures (Regex.blockquote_marker lineText), this).
Proof.
  intros (_ & _ & Hg & Hy). unfold Instance.matchBlockquoteMarker.
  rewrite match_flagless by assumption. rewrite instance_eta. reflexivity.
Qed.

(** The method of the heading handler returns what the function of the
    handler returns and leaves the instance as it was. *)
Lemma HeadingHandler_method node text this :
  flagless this ->
  Instance.HeadingHandler_extractDecorations node text this
  = Instance.lift (HeadingHandler.extractDecorations node text) this.
Proof.
  intros Hflags.
  unfold Instance.HeadingHandler_extractDecorations,
    HeadingHandler.extractDecorations, HeadingHandler.HEADING_MARKER_PATTERN.
  destruct (negb (hasValidPosition node)); [reflexivity|].
  unfold Instance.then_ at 1. unfold Instance.lift at 1.
  destruct (startOffset node) as [s|]; [|reflexivity].
  unfold Instance.then_ at 1. unfold Instance.lift at 1.
  destruct (endOffset node) as [e|]; [|reflexivity].
  cbn [bind]. unfold Instance.then_.
  rewrite matchHeadingMarker_flagless by assumption.
  rewrite isValidMarkerMatch_captures.
  destruct (Regex.heading_marker (substring text s e)) as [markerMatch|].
  - destruct ((_ >=? e) || _); reflexivity.
  - destruct (HeadingHandler.isHeadingEmpty text s e); reflexivity.
Qed.

Lemma BlockquoteHandler_line_method text pos endOffset this :
  flagless this ->
  Instance.BlockquoteHandler_line text pos endOffset this
  = Ok (BlockquoteHandler.line text pos endOffset, this).
Proof.
  intros Hflags.
  unfold Instance.BlockquoteHandler_line, BlockquoteHandler.line,
    BlockquoteHandler.BLOCKQUOTE_MARKER_PATTERN, Instance.then_.
  rewrite matchBlockquoteMarker_flagless by assumption.
  rewrite isValidMarkerMatch_captures. reflexivity.
Qed.

Lemma BlockquoteHandler_lines_method text endOffset this fuel :
  flagless this ->
  forall pos decorations,
    Instance.BlockquoteHandler_lines fuel text pos endOffset decorations this
    = Ok (BlockquoteHandler.lines fuel text pos endOffset decorations, this).
Proof.
  intros Hflags. induction fuel as [|fuel IH]; intros pos decorations;
    cbn [Instance.BlockquoteHandler_lines BlockquoteHandler.lines];
    [reflexivity|].
  destruct (pos <? endOffset); [|reflexivity].
  unfold Instance.then_.
  rewrite BlockquoteHandler_line_method by assumption.
  destruct (BlockquoteHandler.line text pos endOffset) as [pushed pos'].
  cbn [fst snd]. apply IH.
Qed.

Lemma BlockquoteHandler_method node text this :
  flagless this ->
  Instance.BlockquoteHandler_extractDecorations node text this
  = Instance.lift (BlockquoteHandler.extractDecorations node text) this.
Proof.
  intros Hflags.
  unfold Instance.BlockquoteHandler_extractDecorations,
    BlockquoteHandler.extractDecorations.
  destruct (negb (hasValidPosition node)); [reflexivity|].
  unfold Instance.then_ at 1. unfold Instance.lift at 1.
  destruct (startOffset node) as [s|]; [|reflexivity].
  unfold Instance.then_ at 1. unfold Instance.lift at 1.
  destruct (endOffset node) as [e|]; [|reflexivity].
  cbn [bind]. unfold Instance.then_.
  rewrite BlockquoteHandler_lines_method by assumption. reflexivity.
Qed.

Lemma handlers_stand_for :
  Forall2 stands_for Instance.handlers MarkdownParser.handlers.
Proof.
  unfold Instance.handlers, MarkdownParser.handlers.
  repeat constructor;
    try (intros node text this _; reflexivity).
  - intros node text this H. apply HeadingHandler_method, H.
  - intros node text this H. apply BlockquoteHandler_method, H.
Qed.

Lemma find_stands_for node objects handlers :
  Forall2 stands_for objects handlers ->
  match find (fun o => Instance.accepts o node) objects,
        find (fun h => canHandle h node) handlers with
  | Some object, Some handler => stands_for object handler
  | None, None => True
  | _, _ => False
  end.
Proof.
  induction 1 as [|o h objects handlers Hoh _ IH]; cbn [find]; [exact I|].
  destruct Hoh as [Hacc Hext]. rewrite Hacc.
  destruct (canHandle h node); [|exact IH].
  split; assumption.
Qed.

Lemma visitor_method text node walk this :
  flagless this ->
  Instance.visitor text node (walk, this)
  = (walk' <- MarkdownParser.visitor text node walk ;; ret (walk', this)).
Proof.
  intros Hflags. destruct walk as [collector r].
  unfold Instance.visitor, MarkdownParser.visitor.
  pose proof (@find_stands_for node _ _ handlers_stand_for) as Hfind.
  fold (Instance.findHandler node) in Hfind.
  fold (MarkdownParser.findHandler node) in Hfind.
  destruct (Instance.findHandler node) as [object|],
    (MarkdownParser.findHandler node) as [handler|];
    try contradiction; [|reflexivity].
  destruct Hfind as [_ Hext]. rewrite Hext by assumption.
  unfold Instance.lift.
  destruct (extractDecorations handler node text) as [decorations|];
    [|reflexivity].
  cbn [bind].
  destruct (if is_type Mdast.strong node
            then if existsb (is_type Mdast.emphasis) (Mdast.children node)
                    && MarkdownParser.hasValidPosition node
                 then MarkdownParser.trackChildren (Mdast.children node) r
                 else ret r
            else ret r) as [tracked|]; reflexivity.
Qed.

Lemma visit_list_method text this l :
  flagless this ->
  forall walk,
    visit_list (Instance.visitor text) l (walk, this)
    = (walk' <- visit_list (MarkdownParser.visitor text) l walk ;;
       ret (walk', this)).
Proof.
  intros Hflags. induction l as [|n l IH]; intros walk; [reflexivity|].
  cbn [visit_list]. rewrite visitor_method by assumption.
  destruct (MarkdownParser.visitor text n walk) as [walk'|]; [|reflexivity].
  cbn [bind ret]. apply IH.
Qed.

(** A call on an instance without flags returns what the function of the
    engine returns and leaves the instance as it was, whatever [lastIndex]
    its patterns hold. *)
Lemma extractDecorations_method parseAST text this :
  flagless this ->
  Instance.extractDecorations parseAST text this
  = Instance.lift (MarkdownParser.extractDecorations parseAST text) this.
Proof.
  intros Hflags.
  unfold Instance.extractDecorations, MarkdownParser.extractDecorations.
  rewrite !visit_nodes, visit_list_method by assumption.
  destruct (visit_list (MarkdownParser.visitor text) (nodes (parseAST text))
              (DecorationCollector.new, [])) as [[collector r]|];
    reflexivity.
Qed.

Lemma new_flagless : flagless Instance.new.
Proof. repeat split. Qed.

Lemma calls_leave_instance parseAST texts this :
  flagless this -> Instance.calls parseAST texts this = Ok this.
Proof.
  intros Hflags. induction texts as [|text rest IH]; [reflexivity|].
  cbn [Instance.calls]. rewrite extractDecorations_method by assumption.
  destruct (extractDecorations_total parseAST text) as (out & ->).
  cbn [Instance.lift bind snd]. exact IH.
Qed.

(** C3.  Two calls of the method on the same text return lists with the
    same elements, whatever calls the instance has served since it was
    built: every call returns, it leaves the instance as it found it, and
    what it returns is what the function of the engine gives for the
    text. *)
Theorem repeated_extraction_is_stable :
  forall (parseAST : text -> Node) (history : list text) (text : text),
    exists (this : Instance.t) (first : list DecorationRange)
           (this' : Instance.t) (second : list DecorationRange)
           (this'' : Instance.t),
      Instance.calls parseAST history Instance.new = Ok this
      /\ Instance.extractDecorations parseAST text this = Ok (first, this')
      /\ Instance.extractDecorations parseAST text this' = Ok (second, this'')
      /\ set_equal first second
      /\ this' = this /\ this'' = this
      /\ MarkdownParser.extractDecorations parseAST text = Ok first.
Proof.
  intros parseAST history text.
  destruct (extractDecorations_total parseAST text) as (out & Hout).
  pose proof (@extractDecorations_method parseAST text Instance.new
                new_flagless) as Hcall.
  rewrite Hout in Hcall. cbn [Instance.lift] in Hcall.
  exists Instance.new, out, Instance.new, out, Instance.new.
  split; [apply calls_leave_instance, new_flagless|].
  split; [exact Hcall|]. split; [exact Hcall|].
  split; [intros d; tauto|].
  split; [reflexivity|]. split; [reflexivity|]. exact Hout.
Qed.

(** The property rests on the patterns of the handlers having no flag:
    with the flag [y] on the pattern of the heading handler, the first call
    on a page leaves [lastIndex] at the end of the marker, and the second
    call, which finds no marker there, hides the whole heading. *)
Example sticky_pattern_leaves_residue :
  exists (first : list DecorationRange) (this' : Instance.t)
         (second : list DecorationRange) (this'' : Instance.t),
    Instance.extractDecorations (fun _ => Sample.page_tree) Sample.page
      sticky_instance = Ok (first, this')
    /\ Instance.extractDecorations (fun _ => Sample.page_tree) Sample.page
         this' = Ok (second, this'')
    /\ In (range hide 0 2) first
    /\ ~ In (range hide 0 2) second
    /\ this' <> sticky_instance.
Proof.
  do 4 eexists. split; [vm_compute; reflexivity|].
  split; [vm_compute; reflexivity|].
  split; [left; reflexivity|]. split.
  - intros H. repeat (destruct H as [H | H]; [discriminate H|]). exact H.
  - discriminate.
Qed.
